(** * Marching Cubes (Lewiner et al.): a shallow embedding of MarchingCubes.cpp

    The extraction engine of [src/MarchingCubes.cpp] is transcribed function by
    function: the edge-intersection pass, the face and interior tests, the
    cell dispatcher, triangle emission and the vertex constructors.  The
    scalar type [real] of the source is an interface ([RealOps]); its
    instance [binary32] is IEEE-754 single precision as specified by the
    standard library's [SpecFloat].  The look-up tables of [LookUpTable.h]
    are a parameter ([LookUpTable]). *)

From Stdlib Require Import ZArith List Bool Lia.
From Stdlib Require Import Floats.SpecFloat.
From stdpp Require Import base list.

Local Open Scope Z_scope.

(** ** The scalar type [real] *)

(** Operations the source applies to values of type [real].  [r_of_Z] is the
    implicit conversion of an [int] operand, [r_eps] is
    [std::numeric_limits<float>::epsilon()]. *)
Class RealOps (real : Type) := {
  r_of_Z : Z -> real;
  r_add : real -> real -> real;
  r_sub : real -> real -> real;
  r_mul : real -> real -> real;
  r_div : real -> real -> real;
  r_neg : real -> real;
  r_abs : real -> real;
  r_sqrt : real -> real;
  r_ltb : real -> real -> bool;
  r_leb : real -> real -> bool;
  r_eps : real
}.

Declare Scope real_scope.
Delimit Scope real_scope with real.
Infix "+" := r_add : real_scope.
Infix "-" := r_sub : real_scope.
Infix "*" := r_mul : real_scope.
Infix "/" := r_div : real_scope.
Notation "- x" := (r_neg x) : real_scope.
Infix "<?" := r_ltb : real_scope.
Infix "<=?" := r_leb : real_scope.
Notation "x >? y" := (r_ltb y x) (only parsing) : real_scope.
Notation "x >=? y" := (r_leb y x) (only parsing) : real_scope.

(** *** The shape of binary floating-point values *)

Definition is_nan (x : spec_float) : bool :=
  match x with S754_nan => true | _ => false end.

Definition is_finite (x : spec_float) : bool :=
  match x with S754_zero _ | S754_finite _ _ _ => true | _ => false end.

Section FloatShape.
Variables prec emax : Z.

(** The exponent of a finite number is not below the least exponent of the
    format; every valid number has this property. *)
Definition exp_bounded (x : spec_float) : Prop :=
  match x with S754_finite _ _ e => emin prec emax <= e | _ => True end.

(** What rounding a non-zero number of sign [sx] produces: a finite number
    or the infinity of that sign. *)
Inductive rounded_positive (sx : bool) : spec_float -> Prop :=
| rp_finite m e : emin prec emax <= e -> rounded_positive sx (S754_finite sx m e)
| rp_infinity : rounded_positive sx (S754_infinity sx).

(** The shapes a rounded number takes: the zero or the infinity of sign
    [sx], or a canonical finite number that satisfies [P]. *)
Inductive rounded (sx : bool) (P : positive -> Z -> Prop) : spec_float -> Prop :=
| rounded_zero : rounded sx P (S754_zero sx)
| rounded_finite mf Ef :
    canonical_mantissa prec emax mf Ef = true -> Ef <= emax - prec -> P mf Ef ->
    rounded sx P (S754_finite sx mf Ef)
| rounded_infinity : rounded sx P (S754_infinity sx).

(** The number one of the format: mantissa [2^(prec-1)], exponent
    [1 - prec]. *)
Definition one_m : positive := Z.to_pos (2 ^ (prec - 1)).
Definition one_e : Z := 1 - prec.

End FloatShape.

(** The shifted mantissa carries no round or sticky bit. *)
Definition shr_exact (mrs : shr_record) : Prop := shr_r mrs = false /\ shr_s mrs = false.

(** [m1 * 2^e1 <= m2 * 2^e2], on integers. *)
Definition dy_le (m1 e1 m2 e2 : Z) : Prop :=
  m1 * 2 ^ (e1 - Z.min e1 e2) <= m2 * 2 ^ (e2 - Z.min e1 e2).

(** IEEE-754 binary32: 24 bits of precision, infinities at exponent 128. *)
Module Binary32.
Definition prec : Z := 24.
Definition emax : Z := 128.
Definition t : Type := spec_float.
Definition of_Z (z : Z) : t := binary_normalize prec emax z 0 false.
Definition add : t -> t -> t := SFadd prec emax.
Definition sub : t -> t -> t := SFsub prec emax.
Definition mul : t -> t -> t := SFmul prec emax.
Definition div : t -> t -> t := SFdiv prec emax.
Definition sqrt : t -> t := SFsqrt prec emax.
(** [2^-23], the distance from 1 to the next representable number. *)
Definition epsilon : t := binary_normalize prec emax 1 (-23) false.
(** [m * 2^e] rounded to the format; used to write constants. *)
Definition lit (m e : Z) : t := binary_normalize prec emax m e false.
Definition zero : t := S754_zero false.
End Binary32.

#[export] Instance binary32 : RealOps Binary32.t := {|
  r_of_Z := Binary32.of_Z;
  r_add := Binary32.add;
  r_sub := Binary32.sub;
  r_mul := Binary32.mul;
  r_div := Binary32.div;
  r_neg := SFopp;
  r_abs := SFabs;
  r_sqrt := Binary32.sqrt;
  r_ltb := SFltb;
  r_leb := SFleb;
  r_eps := Binary32.epsilon
|}.

(** ** The look-up tables *)

(** A tile is a row of edge ids, read three at a time. *)
Definition tile := list Z.

(** The constant tables of [LookUpTable.h], indexed as in the source
    ([cases[e][0]], [test7[config][n]], [tiling13_3[config][n]], ...). *)
Record LookUpTable := {
  casesClassic : Z -> tile;
  cases : Z -> Z -> Z;
  tiling1 : Z -> tile;
  tiling2 : Z -> tile;
  test3 : Z -> Z;
  tiling3_1 : Z -> tile;
  tiling3_2 : Z -> tile;
  test4 : Z -> Z;
  tiling4_1 : Z -> tile;
  tiling4_2 : Z -> tile;
  tiling5 : Z -> tile;
  test6 : Z -> Z -> Z;
  tiling6_1_1 : Z -> tile;
  tiling6_1_2 : Z -> tile;
  tiling6_2 : Z -> tile;
  test7 : Z -> Z -> Z;
  tiling7_1 : Z -> tile;
  tiling7_2 : Z -> Z -> tile;
  tiling7_3 : Z -> Z -> tile;
  tiling7_4_1 : Z -> tile;
  tiling7_4_2 : Z -> tile;
  tiling8 : Z -> tile;
  tiling9 : Z -> tile;
  test10 : Z -> Z -> Z;
  tiling10_1_1 : Z -> tile;
  tiling10_1_1_ : Z -> tile;
  tiling10_1_2 : Z -> tile;
  tiling10_2 : Z -> tile;
  tiling10_2_ : Z -> tile;
  tiling11 : Z -> tile;
  test12 : Z -> Z -> Z;
  tiling12_1_1 : Z -> tile;
  tiling12_1_1_ : Z -> tile;
  tiling12_1_2 : Z -> tile;
  tiling12_2 : Z -> tile;
  tiling12_2_ : Z -> tile;
  test13 : Z -> Z -> Z;
  subconfig13 : Z -> Z;
  tiling13_1 : Z -> tile;
  tiling13_1_ : Z -> tile;
  tiling13_2 : Z -> Z -> tile;
  tiling13_2_ : Z -> Z -> tile;
  tiling13_3 : Z -> Z -> tile;
  tiling13_3_ : Z -> Z -> tile;
  tiling13_4 : Z -> Z -> tile;
  tiling13_5_1 : Z -> Z -> tile;
  tiling13_5_2 : Z -> Z -> tile;
  tiling14 : Z -> tile
}.

(** ** Mesh elements and the extractor's state *)

Record Vertex (real : Type) := mkVertex {
  x : real; y : real; z : real;
  nx : real; ny : real; nz : real
}.
Arguments mkVertex {real}.
Arguments x {real}.
Arguments y {real}.
Arguments z {real}.
Arguments nx {real}.
Arguments ny {real}.
Arguments nz {real}.

Record Triangle := mkTriangle { v1 : Z; v2 : Z; v3 : Z }.

(** What the source writes to standard output. *)
Inductive diag (real : Type) :=
| InvalidEdge (edge : Z)
| InvalidAmbiguousCase (c : Z)
| ImpossibleCase13
| InvalidTriangle (n : Z)
| PrintCube (cube : list real).
Arguments InvalidEdge {real}.
Arguments InvalidAmbiguousCase {real}.
Arguments ImpossibleCase13 {real}.
Arguments InvalidTriangle {real}.
Arguments PrintCube {real}.

(** The fields of class [MarchingCubes].  The three vectors of vertex ids,
    the sample vector and the two mesh buffers are lists holding the whole
    storage of the vector (its [size()]); [_cube] is the array [real[8]].
    [stdout] collects the diagnostics printed so far. *)
Record MarchingCubes (real : Type) := mkMC {
  _originalMC : bool;
  _size_x : Z; _size_y : Z; _size_z : Z;
  _data : list real;
  _x_verts : list Z; _y_verts : list Z; _z_verts : list Z;
  _nverts : Z; _ntrigs : Z; _Nverts : Z; _Ntrigs : Z;
  _vertices : list (Vertex real);
  _triangles : list Triangle;
  _i : Z; _j : Z; _k : Z;
  _cube : Z -> real;
  _lut_entry : Z; _case : Z; _config : Z; _subconfig : Z;
  stdout : list (diag real)
}.
Arguments mkMC {real}.
Arguments _originalMC {real}.
Arguments _size_x {real}.
Arguments _size_y {real}.
Arguments _size_z {real}.
Arguments _data {real}.
Arguments _x_verts {real}.
Arguments _y_verts {real}.
Arguments _z_verts {real}.
Arguments _nverts {real}.
Arguments _ntrigs {real}.
Arguments _Nverts {real}.
Arguments _Ntrigs {real}.
Arguments _vertices {real}.
Arguments _triangles {real}.
Arguments _i {real}.
Arguments _j {real}.
Arguments _k {real}.
Arguments _cube {real}.
Arguments _lut_entry {real}.
Arguments _case {real}.
Arguments _config {real}.
Arguments _subconfig {real}.
Arguments stdout {real}.

(** Assignment to one field. *)
Section Setters.
Context {real : Type}.
Implicit Type s : MarchingCubes real.
Definition with_originalMC v s : MarchingCubes real :=
  mkMC v (_size_x s) (_size_y s) (_size_z s) (_data s) (_x_verts s) (_y_verts s) (_z_verts s) (_nverts s) (_ntrigs s) (_Nverts s) (_Ntrigs s) (_vertices s) (_triangles s) (_i s) (_j s) (_k s) (_cube s) (_lut_entry s) (_case s) (_config s) (_subconfig s) (stdout s).
Definition with_size_x v s : MarchingCubes real :=
  mkMC (_originalMC s) v (_size_y s) (_size_z s) (_data s) (_x_verts s) (_y_verts s) (_z_verts s) (_nverts s) (_ntrigs s) (_Nverts s) (_Ntrigs s) (_vertices s) (_triangles s) (_i s) (_j s) (_k s) (_cube s) (_lut_entry s) (_case s) (_config s) (_subconfig s) (stdout s).
Definition with_size_y v s : MarchingCubes real :=
  mkMC (_originalMC s) (_size_x s) v (_size_z s) (_data s) (_x_verts s) (_y_verts s) (_z_verts s) (_nverts s) (_ntrigs s) (_Nverts s) (_Ntrigs s) (_vertices s) (_triangles s) (_i s) (_j s) (_k s) (_cube s) (_lut_entry s) (_case s) (_config s) (_subconfig s) (stdout s).
Definition with_size_z v s : MarchingCubes real :=
  mkMC (_originalMC s) (_size_x s) (_size_y s) v (_data s) (_x_verts s) (_y_verts s) (_z_verts s) (_nverts s) (_ntrigs s) (_Nverts s) (_Ntrigs s) (_vertices s) (_triangles s) (_i s) (_j s) (_k s) (_cube s) (_lut_entry s) (_case s) (_config s) (_subconfig s) (stdout s).
Definition with_data v s : MarchingCubes real :=
  mkMC (_originalMC s) (_size_x s) (_size_y s) (_size_z s) v (_x_verts s) (_y_verts s) (_z_verts s) (_nverts s) (_ntrigs s) (_Nverts s) (_Ntrigs s) (_vertices s) (_triangles s) (_i s) (_j s) (_k s) (_cube s) (_lut_entry s) (_case s) (_config s) (_subconfig s) (stdout s).
Definition with_x_verts v s : MarchingCubes real :=
  mkMC (_originalMC s) (_size_x s) (_size_y s) (_size_z s) (_data s) v (_y_verts s) (_z_verts s) (_nverts s) (_ntrigs s) (_Nverts s) (_Ntrigs s) (_vertices s) (_triangles s) (_i s) (_j s) (_k s) (_cube s) (_lut_entry s) (_case s) (_config s) (_subconfig s) (stdout s).
Definition with_y_verts v s : MarchingCubes real :=
  mkMC (_originalMC s) (_size_x s) (_size_y s) (_size_z s) (_data s) (_x_verts s) v (_z_verts s) (_nverts s) (_ntrigs s) (_Nverts s) (_Ntrigs s) (_vertices s) (_triangles s) (_i s) (_j s) (_k s) (_cube s) (_lut_entry s) (_case s) (_config s) (_subconfig s) (stdout s).
Definition with_z_verts v s : MarchingCubes real :=
  mkMC (_originalMC s) (_size_x s) (_size_y s) (_size_z s) (_data s) (_x_verts s) (_y_verts s) v (_nverts s) (_ntrigs s) (_Nverts s) (_Ntrigs s) (_vertices s) (_triangles s) (_i s) (_j s) (_k s) (_cube s) (_lut_entry s) (_case s) (_config s) (_subconfig s) (stdout s).
Definition with_nverts v s : MarchingCubes real :=
  mkMC (_originalMC s) (_size_x s) (_size_y s) (_size_z s) (_data s) (_x_verts s) (_y_verts s) (_z_verts s) v (_ntrigs s) (_Nverts s) (_Ntrigs s) (_vertices s) (_triangles s) (_i s) (_j s) (_k s) (_cube s) (_lut_entry s) (_case s) (_config s) (_subconfig s) (stdout s).
Definition with_ntrigs v s : MarchingCubes real :=
  mkMC (_originalMC s) (_size_x s) (_size_y s) (_size_z s) (_data s) (_x_verts s) (_y_verts s) (_z_verts s) (_nverts s) v (_Nverts s) (_Ntrigs s) (_vertices s) (_triangles s) (_i s) (_j s) (_k s) (_cube s) (_lut_entry s) (_case s) (_config s) (_subconfig s) (stdout s).
Definition with_Nverts v s : MarchingCubes real :=
  mkMC (_originalMC s) (_size_x s) (_size_y s) (_size_z s) (_data s) (_x_verts s) (_y_verts s) (_z_verts s) (_nverts s) (_ntrigs s) v (_Ntrigs s) (_vertices s) (_triangles s) (_i s) (_j s) (_k s) (_cube s) (_lut_entry s) (_case s) (_config s) (_subconfig s) (stdout s).
Definition with_Ntrigs v s : MarchingCubes real :=
  mkMC (_originalMC s) (_size_x s) (_size_y s) (_size_z s) (_data s) (_x_verts s) (_y_verts s) (_z_verts s) (_nverts s) (_ntrigs s) (_Nverts s) v (_vertices s) (_triangles s) (_i s) (_j s) (_k s) (_cube s) (_lut_entry s) (_case s) (_config s) (_subconfig s) (stdout s).
Definition with_vertices v s : MarchingCubes real :=
  mkMC (_originalMC s) (_size_x s) (_size_y s) (_size_z s) (_data s) (_x_verts s) (_y_verts s) (_z_verts s) (_nverts s) (_ntrigs s) (_Nverts s) (_Ntrigs s) v (_triangles s) (_i s) (_j s) (_k s) (_cube s) (_lut_entry s) (_case s) (_config s) (_subconfig s) (stdout s).
Definition with_triangles v s : MarchingCubes real :=
  mkMC (_originalMC s) (_size_x s) (_size_y s) (_size_z s) (_data s) (_x_verts s) (_y_verts s) (_z_verts s) (_nverts s) (_ntrigs s) (_Nverts s) (_Ntrigs s) (_vertices s) v (_i s) (_j s) (_k s) (_cube s) (_lut_entry s) (_case s) (_config s) (_subconfig s) (stdout s).
Definition with_i v s : MarchingCubes real :=
  mkMC (_originalMC s) (_size_x s) (_size_y s) (_size_z s) (_data s) (_x_verts s) (_y_verts s) (_z_verts s) (_nverts s) (_ntrigs s) (_Nverts s) (_Ntrigs s) (_vertices s) (_triangles s) v (_j s) (_k s) (_cube s) (_lut_entry s) (_case s) (_config s) (_subconfig s) (stdout s).
Definition with_j v s : MarchingCubes real :=
  mkMC (_originalMC s) (_size_x s) (_size_y s) (_size_z s) (_data s) (_x_verts s) (_y_verts s) (_z_verts s) (_nverts s) (_ntrigs s) (_Nverts s) (_Ntrigs s) (_vertices s) (_triangles s) (_i s) v (_k s) (_cube s) (_lut_entry s) (_case s) (_config s) (_subconfig s) (stdout s).
Definition with_k v s : MarchingCubes real :=
  mkMC (_originalMC s) (_size_x s) (_size_y s) (_size_z s) (_data s) (_x_verts s) (_y_verts s) (_z_verts s) (_nverts s) (_ntrigs s) (_Nverts s) (_Ntrigs s) (_vertices s) (_triangles s) (_i s) (_j s) v (_cube s) (_lut_entry s) (_case s) (_config s) (_subconfig s) (stdout s).
Definition with_cube v s : MarchingCubes real :=
  mkMC (_originalMC s) (_size_x s) (_size_y s) (_size_z s) (_data s) (_x_verts s) (_y_verts s) (_z_verts s) (_nverts s) (_ntrigs s) (_Nverts s) (_Ntrigs s) (_vertices s) (_triangles s) (_i s) (_j s) (_k s) v (_lut_entry s) (_case s) (_config s) (_subconfig s) (stdout s).
Definition with_lut_entry v s : MarchingCubes real :=
  mkMC (_originalMC s) (_size_x s) (_size_y s) (_size_z s) (_data s) (_x_verts s) (_y_verts s) (_z_verts s) (_nverts s) (_ntrigs s) (_Nverts s) (_Ntrigs s) (_vertices s) (_triangles s) (_i s) (_j s) (_k s) (_cube s) v (_case s) (_config s) (_subconfig s) (stdout s).
Definition with_case v s : MarchingCubes real :=
  mkMC (_originalMC s) (_size_x s) (_size_y s) (_size_z s) (_data s) (_x_verts s) (_y_verts s) (_z_verts s) (_nverts s) (_ntrigs s) (_Nverts s) (_Ntrigs s) (_vertices s) (_triangles s) (_i s) (_j s) (_k s) (_cube s) (_lut_entry s) v (_config s) (_subconfig s) (stdout s).
Definition with_config v s : MarchingCubes real :=
  mkMC (_originalMC s) (_size_x s) (_size_y s) (_size_z s) (_data s) (_x_verts s) (_y_verts s) (_z_verts s) (_nverts s) (_ntrigs s) (_Nverts s) (_Ntrigs s) (_vertices s) (_triangles s) (_i s) (_j s) (_k s) (_cube s) (_lut_entry s) (_case s) v (_subconfig s) (stdout s).
Definition with_subconfig v s : MarchingCubes real :=
  mkMC (_originalMC s) (_size_x s) (_size_y s) (_size_z s) (_data s) (_x_verts s) (_y_verts s) (_z_verts s) (_nverts s) (_ntrigs s) (_Nverts s) (_Ntrigs s) (_vertices s) (_triangles s) (_i s) (_j s) (_k s) (_cube s) (_lut_entry s) (_case s) (_config s) v (stdout s).
Definition with_stdout v s : MarchingCubes real :=
  mkMC (_originalMC s) (_size_x s) (_size_y s) (_size_z s) (_data s) (_x_verts s) (_y_verts s) (_z_verts s) (_nverts s) (_ntrigs s) (_Nverts s) (_Ntrigs s) (_vertices s) (_triangles s) (_i s) (_j s) (_k s) (_cube s) (_lut_entry s) (_case s) (_config s) (_subconfig s) v.
End Setters.

(** ** Statements that read and write the state *)

Definition M (real A : Type) : Type := MarchingCubes real -> A * MarchingCubes real.

Definition ret {real A} (a : A) : M real A := fun s => (a, s).
Definition bind {real A B} (c : M real A) (k : A -> M real B) : M real B :=
  fun s => let (a, s') := c s in k a s'.
Definition exec {real A} (c : M real A) (s : MarchingCubes real) : MarchingCubes real :=
  snd (c s).
Definition eval {real A} (c : M real A) (s : MarchingCubes real) : A :=
  fst (c s).
(** A statement without result, run for its effect. *)
Definition stmt {real} (f : MarchingCubes real -> MarchingCubes real) : M real unit :=
  fun s => (tt, f s).

Declare Scope mc_scope.
Delimit Scope mc_scope with mc.
Notation "x <- c ;; k" := (bind c (fun x => k))
  (at level 20, c at level 100, k at level 200, only parsing) : mc_scope.
Notation "c ;;; k" := (bind c (fun _ => k))
  (at level 100, k at level 200, right associativity, only parsing) : mc_scope.

(** [for (v = 0; v < n; v++) body], where the loop variable is a field of
    the state written by [setv]. *)
Definition for_loop {real} (setv : Z -> MarchingCubes real -> MarchingCubes real)
    (n : Z) (body : MarchingCubes real -> MarchingCubes real)
    (s : MarchingCubes real) : MarchingCubes real :=
  setv (Z.max 0 n)
    (fold_left (fun s v => body (setv v s)) (map Z.of_nat (seq 0 (Z.to_nat n))) s).

(** ** The extractor *)

Definition ALLOC_SIZE : Z := 65536.

(** Element [n] of a vector; the source never reads outside [0, size()). *)
Definition at_index {A} (l : list A) (n : Z) (d : A) : A := nth (Z.to_nat n) l d.

(** [std::vector::resize(n)]: keeps the first [n] elements and pads with
    value-initialised ones. *)
Definition resize {A} (n : Z) (d : A) (l : list A) : list A :=
  take (Z.to_nat n) l ++ replicate (Z.to_nat n - length l) d.

(** Entry [t] of a tile.  A tile row ends where the table row ends; a read
    past it yields [-1], the terminator of the [casesClassic] rows. *)
Definition tile_at (trig : tile) (t : Z) : Z := at_index trig t (-1).

(** [static int corner_lookup[6][4]] of [test_face]. *)
Definition corner_lookup : list (list Z) :=
  [ [0; 4; 5; 1];
    [1; 5; 6; 2];
    [2; 6; 7; 3];
    [3; 7; 4; 0];
    [0; 3; 2; 1];
    [4; 7; 6; 5] ].

(** The sum of [g v] over [0 <= v < n]. *)
Definition sum_below (n : Z) (g : Z -> Z) : Z :=
  fold_right Z.add 0 (map g (map Z.of_nat (seq 0 (Z.to_nat n)))).

Section Engine.
Context {real : Type} {RO : RealOps real}.
Variable T : LookUpTable.

Abbreviation MC := (MarchingCubes real).
Notation "# n" := (r_of_Z n) (at level 1, format "# n").

Definition zero_vertex : Vertex real := mkVertex #0 #0 #0 #0 #0 #0.
Definition zero_triangle : Triangle := mkTriangle 0 0 0.

(** The constructor.  It initialises the method flag, the sizes and the four
    counters; the remaining members (empty vectors apart) are left
    uninitialised by the source and are given the value 0 here. *)
Definition MarchingCubes_new (size_x size_y size_z : Z) : MC :=
  mkMC false size_x size_y size_z [] [] [] [] 0 0 0 0 [] [] 0 0 0
       (fun _ => #0) 0 0 0 0 [].

(** Modelled from the spec: the accessors of MarchingCubes.h, which is not
    among the sources.  The grid is "addressed by (i,j,k) with i fastest";
    the three edge maps [Ex], [Ey], [Ez] have the size of the grid and are
    addressed the same way. *)
Definition grid_index (s : MC) (i j k : Z) : Z :=
  i + j * _size_x s + k * _size_x s * _size_y s.
Definition get_data (s : MC) (i j k : Z) : real :=
  at_index (_data s) (grid_index s i j k) #0.
Definition set_data (val : real) (i j k : Z) (s : MC) : MC :=
  with_data (<[Z.to_nat (grid_index s i j k) := val]> (_data s)) s.
Definition get_x_vert (s : MC) (i j k : Z) : Z :=
  at_index (_x_verts s) (grid_index s i j k) (-1).
Definition get_y_vert (s : MC) (i j k : Z) : Z :=
  at_index (_y_verts s) (grid_index s i j k) (-1).
Definition get_z_vert (s : MC) (i j k : Z) : Z :=
  at_index (_z_verts s) (grid_index s i j k) (-1).
Definition set_x_vert (val i j k : Z) (s : MC) : MC :=
  with_x_verts (<[Z.to_nat (grid_index s i j k) := val]> (_x_verts s)) s.
Definition set_y_vert (val i j k : Z) (s : MC) : MC :=
  with_y_verts (<[Z.to_nat (grid_index s i j k) := val]> (_y_verts s)) s.
Definition set_z_vert (val i j k : Z) (s : MC) : MC :=
  with_z_verts (<[Z.to_nat (grid_index s i j k) := val]> (_z_verts s)) s.

(** Modelled from the spec: [set_method] of MarchingCubes.h, which is not
    among the sources.  The spec names its argument [original] and gives
    both polarities: "select classical (false) or topological (true,
    default)" in the interface, "the classical mode (set_method(true))" in
    the reference tests.  The model takes the second reading, the one that
    agrees with the caller [mc.set_method(originalMC == 1)] of the driver:
    the argument is stored in the flag [_originalMC], which [process_cube]
    tests.  It only serves to build states in either mode. *)
Definition set_method (original : bool) (s : MC) : MC := with_originalMC original s.

(** Modelled from the spec: the readers [nverts()], [ntrigs()], [vertices()]
    and [triangles()] of MarchingCubes.h "read the output mesh": the first
    [_nverts] vertices and the first [_ntrigs] triangles of the buffers. *)
Definition nverts (s : MC) : Z := _nverts s.
Definition ntrigs (s : MC) : Z := _ntrigs s.
Definition vertices (s : MC) : list (Vertex real) := take (Z.to_nat (_nverts s)) (_vertices s).
Definition triangles (s : MC) : list Triangle := take (Z.to_nat (_ntrigs s)) (_triangles s).

(** [_cube[p] = v] *)
Definition set_cube (p : Z) (v : real) (s : MC) : MC :=
  with_cube (fun q => if q =? p then v else _cube s q) s.

Definition cube_list (s : MC) : list real := map (_cube s) [0; 1; 2; 3; 4; 5; 6; 7].

Definition printf (d : diag real) (s : MC) : MC := with_stdout (stdout s ++ [d]) s.
Definition print_cube (s : MC) : MC := printf (PrintCube (cube_list s)) s.

(** [if( std::abs( c ) < epsilon ) c = epsilon ;] *)
Definition perturb (c : real) : real :=
  if (r_abs c <? r_eps)%real then r_eps else c.

(** The two values have strictly opposite signs. *)
Definition opposite_signs (a b : real) : bool :=
  ((a <? #0)%real && (b >? #0)%real) || ((a >? #0)%real && (b <? #0)%real).

(** The test under which [compute_intersection_points] puts a vertex on the
    edge from a corner of value [c0] to a corner of value [c1]:
    [if( c0 < 0 ) { if( c1 > 0 ) ... } else { if( c1 < 0 ) ... }]. *)
Definition edge_crossed (c0 c1 : real) : bool :=
  if (c0 <? #0)%real then (c1 >? #0)%real else (c1 <? #0)%real.

Definition init_temps (s : MC) : MC :=
  let n := _size_x s * _size_y s * _size_z s in
  let s := with_data (resize n #0 (_data s)) s in
  let s := with_x_verts (replicate (Z.to_nat n) (-1)) s in
  let s := with_y_verts (replicate (Z.to_nat n) (-1)) s in
  with_z_verts (replicate (Z.to_nat n) (-1)) s.

Definition init_all (s : MC) : MC :=
  let s := init_temps s in
  let s := with_ntrigs 0 s in
  let s := with_nverts 0 s in
  let s := with_Ntrigs ALLOC_SIZE s in
  let s := with_Nverts ALLOC_SIZE s in
  let s := with_vertices (resize (_Nverts s) zero_vertex (_vertices s)) s in
  with_triangles (resize (_Ntrigs s) zero_triangle (_triangles s)) s.

Definition clean_all (s : MC) : MC :=
  let s := with_ntrigs 0 (with_nverts 0 s) in
  let s := with_Ntrigs 0 (with_Nverts 0 s) in
  with_size_x (-1) (with_size_y (-1) (with_size_z (-1) s)).

(** *** Gradient *)

Definition get_x_grad (s : MC) (i j k : Z) : real :=
  if i >? 0 then
    if i <? _size_x s - 1
    then ((get_data s (i+1) j k - get_data s (i-1) j k) / #2)%real
    else (get_data s i j k - get_data s (i-1) j k)%real
  else (get_data s (i+1) j k - get_data s i j k)%real.

Definition get_y_grad (s : MC) (i j k : Z) : real :=
  if j >? 0 then
    if j <? _size_y s - 1
    then ((get_data s i (j+1) k - get_data s i (j-1) k) / #2)%real
    else (get_data s i j k - get_data s i (j-1) k)%real
  else (get_data s i (j+1) k - get_data s i j k)%real.

Definition get_z_grad (s : MC) (i j k : Z) : real :=
  if k >? 0 then
    if k <? _size_z s - 1
    then ((get_data s i j (k+1) - get_data s i j (k-1)) / #2)%real
    else (get_data s i j k - get_data s i j (k-1))%real
  else (get_data s i j (k+1) - get_data s i j k)%real.

(** *** Adding vertices *)

Definition test_vertex_addition (s : MC) : MC :=
  if _nverts s >=? _Nverts s then
    let s := with_Nverts (_Nverts s * 2) s in
    with_vertices (resize (_Nverts s) zero_vertex (_vertices s)) s
  else s.

(** [vert->nx /= u ; ...] guarded by [u > 0], with
    [u = sqrt( nx*nx + ny*ny + nz*nz )]. *)
Definition normalize (v : Vertex real) : Vertex real :=
  let u := r_sqrt (nx v * nx v + ny v * ny v + nz v * nz v)%real in
  if (u >? #0)%real
  then mkVertex (x v) (y v) (z v) (nx v / u)%real (ny v / u)%real (nz v / u)%real
  else v.

(** [Vertex *vert = _vertices.data() + _nverts++ ;] followed by the
    assignments to [*vert]: the vertex is stored at the old [_nverts]. *)
Definition store_vertex (v : Vertex real) (s : MC) : MC :=
  let n := _nverts s in
  with_vertices (<[Z.to_nat n := v]> (_vertices s)) (with_nverts (n + 1) s).

(** The vertex [add_x_vertex] builds on the edge from [(_i, _j, _k)] to
    [(_i+1, _j, _k)], before its normal is normalised. *)
Definition x_edge_vertex (s : MC) : Vertex real :=
  let i := _i s in let j := _j s in let k := _k s in
  let u := (_cube s 0 / (_cube s 0 - _cube s 1))%real in
  mkVertex (#i + u)%real #j #k
    ((#1 - u) * get_x_grad s i j k + u * get_x_grad s (i+1) j k)%real
    ((#1 - u) * get_y_grad s i j k + u * get_y_grad s (i+1) j k)%real
    ((#1 - u) * get_z_grad s i j k + u * get_z_grad s (i+1) j k)%real.

Definition y_edge_vertex (s : MC) : Vertex real :=
  let i := _i s in let j := _j s in let k := _k s in
  let u := (_cube s 0 / (_cube s 0 - _cube s 3))%real in
  mkVertex #i (#j + u)%real #k
    ((#1 - u) * get_x_grad s i j k + u * get_x_grad s i (j+1) k)%real
    ((#1 - u) * get_y_grad s i j k + u * get_y_grad s i (j+1) k)%real
    ((#1 - u) * get_z_grad s i j k + u * get_z_grad s i (j+1) k)%real.

Definition z_edge_vertex (s : MC) : Vertex real :=
  let i := _i s in let j := _j s in let k := _k s in
  let u := (_cube s 0 / (_cube s 0 - _cube s 4))%real in
  mkVertex #i #j (#k + u)%real
    ((#1 - u) * get_x_grad s i j k + u * get_x_grad s i j (k+1))%real
    ((#1 - u) * get_y_grad s i j k + u * get_y_grad s i j (k+1))%real
    ((#1 - u) * get_z_grad s i j k + u * get_z_grad s i j (k+1))%real.

Definition add_x_vertex : M real Z := fun s =>
  let s := test_vertex_addition s in
  let s := store_vertex (normalize (x_edge_vertex s)) s in
  (_nverts s - 1, s).

Definition add_y_vertex : M real Z := fun s =>
  let s := test_vertex_addition s in
  let s := store_vertex (normalize (y_edge_vertex s)) s in
  (_nverts s - 1, s).

Definition add_z_vertex : M real Z := fun s =>
  let s := test_vertex_addition s in
  let s := store_vertex (normalize (z_edge_vertex s)) s in
  (_nverts s - 1, s).

(** One line of [add_c_vertex]:
    [if( vid != -1 ) { ++u ; const Vertex &v = _vertices[vid] ; vert->x += v.x ; ... }]
    where [vert] points at element [n] of the buffer. *)
Definition add_c_edge (n : Z) (vid : Z) (st : real * list (Vertex real))
  : real * list (Vertex real) :=
  let (u, buf) := st in
  if vid =? -1 then st
  else
    let v := at_index buf vid zero_vertex in
    let w := at_index buf n zero_vertex in
    ((u + #1)%real,
     <[Z.to_nat n := mkVertex (x w + x v)%real (y w + y v)%real (z w + z v)%real
                       (nx w + nx v)%real (ny w + ny v)%real (nz w + nz v)%real]> buf).

(** The edges of the current cell in the order [add_c_vertex] visits them. *)
Definition cell_edge_ids (s : MC) : list Z :=
  let i := _i s in let j := _j s in let k := _k s in
  [ get_x_vert s i j k; get_y_vert s (i+1) j k; get_x_vert s i (j+1) k;
    get_y_vert s i j k; get_x_vert s i j (k+1); get_y_vert s (i+1) j (k+1);
    get_x_vert s i (j+1) (k+1); get_y_vert s i j (k+1); get_z_vert s i j k;
    get_z_vert s (i+1) j k; get_z_vert s (i+1) (j+1) k; get_z_vert s i (j+1) k ].

Definition add_c_vertex : M real Z := fun s =>
  let s := test_vertex_addition s in
  let n := _nverts s in
  let s := store_vertex zero_vertex s in
  let (u, buf) :=
    fold_left (fun st vid => add_c_edge n vid st) (cell_edge_ids s) (#0, _vertices s) in
  let w := at_index buf n zero_vertex in
  let w := mkVertex (x w / u)%real (y w / u)%real (z w / u)%real (nx w) (ny w) (nz w) in
  let s := with_vertices (<[Z.to_nat n := normalize w]> buf) s in
  (_nverts s - 1, s).

(** *** Adding triangles *)

(** The local array [int tv[3]]. *)
Definition tv_get (tv : Z * Z * Z) (n : Z) : Z :=
  let '(a, b, c) := tv in
  match n with 0 => a | 1 => b | _ => c end.
Definition tv_set (tv : Z * Z * Z) (n v : Z) : Z * Z * Z :=
  let '(a, b, c) := tv in
  match n with 0 => (v, b, c) | 1 => (a, v, c) | _ => (a, b, v) end.

(** The [switch( trig[t] )] of [add_triangle]: the vertex id found on edge
    [e] of the current cell; an id outside 0..12 leaves [tv[t % 3]] as it
    is ([old]). *)
Definition edge_vertex (s : MC) (e v12 old : Z) : Z :=
  let i := _i s in let j := _j s in let k := _k s in
  match e with
  | 0 => get_x_vert s i j k
  | 1 => get_y_vert s (i+1) j k
  | 2 => get_x_vert s i (j+1) k
  | 3 => get_y_vert s i j k
  | 4 => get_x_vert s i j (k+1)
  | 5 => get_y_vert s (i+1) j (k+1)
  | 6 => get_x_vert s i (j+1) (k+1)
  | 7 => get_y_vert s i j (k+1)
  | 8 => get_z_vert s i j k
  | 9 => get_z_vert s (i+1) j k
  | 10 => get_z_vert s (i+1) (j+1) k
  | 11 => get_z_vert s i (j+1) k
  | 12 => v12
  | _ => old
  end.

(** Appends [tv] as triangle number [_ntrigs], doubling the buffer first
    when it is full. *)
Definition push_triangle (tv : Z * Z * Z) (s : MC) : MC :=
  let s :=
    if _ntrigs s >=? _Ntrigs s then
      let s := with_Ntrigs (_Ntrigs s * 2) s in
      with_triangles (resize (_Ntrigs s) zero_triangle (_triangles s)) s
    else s in
  let n := _ntrigs s in
  let s := with_ntrigs (n + 1) s in
  with_triangles
    (<[Z.to_nat n := mkTriangle (tv_get tv 0) (tv_get tv 1) (tv_get tv 2)]> (_triangles s)) s.

(** The body of the loop [for( int t = 0 ; t < 3*n ; t++ )]. *)
Definition add_triangle_step (trig : tile) (v12 : Z)
    (st : (Z * Z * Z) * MC) (t : Z) : (Z * Z * Z) * MC :=
  let (tv, s) := st in
  let tv := tv_set tv (t mod 3) (edge_vertex s (tile_at trig t) v12 (tv_get tv (t mod 3))) in
  let s :=
    if tv_get tv (t mod 3) =? -1
    then print_cube (printf (InvalidTriangle (_ntrigs s + 1)) s)
    else s in
  if t mod 3 =? 2 then (tv, push_triangle tv s) else (tv, s).

(** [add_triangle( trig, n, v12 )]; the declaration gives [v12] the default
    [-1].  [tv] is not initialised by the source; it starts as zeros here. *)
Definition add_triangle (trig : tile) (n : Z) (v12 : Z) (s : MC) : MC :=
  snd (fold_left (add_triangle_step trig v12)
                 (map Z.of_nat (seq 0 (Z.to_nat (3 * n)))) ((0, 0, 0), s)).

(** *** Face test *)

Definition test_face (s : MC) (face : Z) : bool :=
  let idx := Z.abs face - 1 in
  let corners := at_index corner_lookup idx [] in
  let A := _cube s (at_index corners 0 0) in
  let B := _cube s (at_index corners 1 0) in
  let C := _cube s (at_index corners 2 0) in
  let D := _cube s (at_index corners 3 0) in
  if (r_abs (A * C - B * D) <? r_eps)%real then face >=? 0
  else (#face * A * (A * C - B * D) >=? #0)%real.

(** *** Interior test *)

(** [_cube[p] + ( _cube[q] - _cube[p] ) * t] *)
Definition lerp (s : MC) (p q : Z) (t : real) : real :=
  (_cube s p + (_cube s q - _cube s p) * t)%real.

(** [_cube[p] / ( _cube[p] - _cube[q] )] *)
Definition crossing (s : MC) (p q : Z) : real :=
  (_cube s p / (_cube s p - _cube s q))%real.

(** The inner [switch( edge )]: the values [(At, Bt, Ct, Dt)] for a
    reference edge in 0..11, [None] in the [default] branch. *)
Definition interior_edge (s : MC) (edge : Z) : option (real * real * real * real) :=
  match edge with
  | 0 => let t := crossing s 0 1 in Some (#0, lerp s 3 2 t, lerp s 7 6 t, lerp s 4 5 t)
  | 1 => let t := crossing s 1 2 in Some (#0, lerp s 0 3 t, lerp s 4 7 t, lerp s 5 6 t)
  | 2 => let t := crossing s 2 3 in Some (#0, lerp s 1 0 t, lerp s 5 4 t, lerp s 6 7 t)
  | 3 => let t := crossing s 3 0 in Some (#0, lerp s 2 1 t, lerp s 6 5 t, lerp s 7 4 t)
  | 4 => let t := crossing s 4 5 in Some (#0, lerp s 7 6 t, lerp s 3 2 t, lerp s 0 1 t)
  | 5 => let t := crossing s 5 6 in Some (#0, lerp s 4 7 t, lerp s 0 3 t, lerp s 1 2 t)
  | 6 => let t := crossing s 6 7 in Some (#0, lerp s 5 4 t, lerp s 1 0 t, lerp s 2 3 t)
  | 7 => let t := crossing s 7 4 in Some (#0, lerp s 6 5 t, lerp s 2 1 t, lerp s 3 0 t)
  | 8 => let t := crossing s 0 4 in Some (#0, lerp s 3 7 t, lerp s 2 6 t, lerp s 1 5 t)
  | 9 => let t := crossing s 1 5 in Some (#0, lerp s 0 4 t, lerp s 3 7 t, lerp s 2 6 t)
  | 10 => let t := crossing s 2 6 in Some (#0, lerp s 1 5 t, lerp s 0 4 t, lerp s 3 7 t)
  | 11 => let t := crossing s 3 7 in Some (#0, lerp s 2 6 t, lerp s 1 5 t, lerp s 0 4 t)
  | _ => None
  end.

(** The coefficients and the parameter of the first branch (cases 4, 10). *)
Definition interior_a (s : MC) : real :=
  let c := _cube s in
  ((c 4 - c 0) * (c 6 - c 2) - (c 7 - c 3) * (c 5 - c 1))%real.
Definition interior_b (s : MC) : real :=
  let c := _cube s in
  (c 2 * (c 4 - c 0) + c 0 * (c 6 - c 2) - c 1 * (c 7 - c 3) - c 3 * (c 5 - c 1))%real.
Definition interior_t (s : MC) : real :=
  (- interior_b s / (#2 * interior_a s))%real.

(** [test] as accumulated by the four [if( At >= 0 ) test ++ ; ...]. *)
Definition interior_code (At Bt Ct Dt : real) : Z :=
  (if (At >=? #0)%real then 1 else 0) + (if (Bt >=? #0)%real then 2 else 0)
  + (if (Ct >=? #0)%real then 4 else 0) + (if (Dt >=? #0)%real then 8 else 0).

(** The final [switch( test )] and the [return s<0] after it. *)
Definition interior_decide (At Bt Ct Dt : real) (s7 : Z) : bool :=
  match interior_code At Bt Ct Dt with
  | 0 | 1 | 2 | 3 | 4 | 6 | 8 | 9 | 12 => s7 >? 0
  | 5 => if (At * Ct - Bt * Dt <? r_eps)%real then s7 >? 0 else s7 <? 0
  | 10 => if (At * Ct - Bt * Dt >=? r_eps)%real then s7 >? 0 else s7 <? 0
  | 7 | 11 | 13 | 14 | 15 => s7 <? 0
  | _ => s7 <? 0
  end.

(** The reference edge fetched by the inner [switch( _case )]. *)
Definition reference_edge (s : MC) : Z :=
  match _case s with
  | 6 => test6 T (_config s) 2
  | 7 => test7 T (_config s) 4
  | 12 => test12 T (_config s) 3
  | 13 => tile_at (tiling13_5_1 T (_config s) (_subconfig s)) 0
  | _ => -1
  end.

Definition test_interior (s7 : Z) : M real bool := fun s =>
  match _case s with
  | 4 | 10 =>
      let t := interior_t s in
      if (t <? #0)%real || (t >? #1)%real then (s7 >? 0, s)
      else
        (interior_decide (lerp s 0 4 t) (lerp s 3 7 t) (lerp s 2 6 t) (lerp s 1 5 t) s7, s)
  | 6 | 7 | 12 | 13 =>
      let edge := reference_edge s in
      match interior_edge s edge with
      | Some (At, Bt, Ct, Dt) => (interior_decide At Bt Ct Dt s7, s)
      | None =>
          (interior_decide #0 #0 #0 #0 s7, print_cube (printf (InvalidEdge edge) s))
      end
  | _ =>
      (interior_decide #0 #0 #0 #0 s7, print_cube (printf (InvalidAmbiguousCase (_case s)) s))
  end.

(** *** Processing a cell *)

(** [char nt = 0 ; while( casesClassic[_lut_entry][3*nt] != -1 ) nt++ ;]
    The scan stops at the terminator or at the end of the row. *)
Fixpoint classic_scan (fuel : nat) (row : tile) (nt : Z) : Z :=
  match fuel with
  | O => nt
  | S fuel' => if tile_at row (3 * nt) =? -1 then nt else classic_scan fuel' row (nt + 1)
  end.
Definition classic_count (row : tile) : Z := classic_scan (S (length row)) row 0.

(** [if( test_face( f ) ) _subconfig += w ;] *)
Definition face_bit (f w : Z) (s : MC) : MC :=
  if test_face s f then with_subconfig (_subconfig s + w) s else s.

(** [v12 = add_c_vertex() ; add_triangle( trig, n, v12 ) ;] *)
Definition add_triangle_c (trig : tile) (n : Z) (s : MC) : MC :=
  let (v12, s) := add_c_vertex s in add_triangle trig n v12 s.

(** [if( test_interior( f ) ) add_triangle( yes, ny ) ; else add_triangle( no, nn ) ;] *)
Definition add_triangle_interior (f : Z) (yes : tile) (ny : Z) (no : tile) (nn : Z)
    (s : MC) : MC :=
  let (b, s) := test_interior f s in
  if b then add_triangle yes ny (-1) s else add_triangle no nn (-1) s.

(** The [switch( subconfig13[_subconfig] )] of case 13. *)
Definition process_case13 (s : MC) : MC :=
  let cfg := _config s in
  match subconfig13 T (_subconfig s) with
  | 0 => add_triangle (tiling13_1 T cfg) 4 (-1) s
  | 1 => add_triangle (tiling13_2 T cfg 0) 6 (-1) s
  | 2 => add_triangle (tiling13_2 T cfg 1) 6 (-1) s
  | 3 => add_triangle (tiling13_2 T cfg 2) 6 (-1) s
  | 4 => add_triangle (tiling13_2 T cfg 3) 6 (-1) s
  | 5 => add_triangle (tiling13_2 T cfg 4) 6 (-1) s
  | 6 => add_triangle (tiling13_2 T cfg 5) 6 (-1) s
  | 7 => add_triangle_c (tiling13_3 T cfg 0) 10 s
  | 8 => add_triangle_c (tiling13_3 T cfg 1) 10 s
  | 9 => add_triangle_c (tiling13_3 T cfg 2) 10 s
  | 10 => add_triangle_c (tiling13_3 T cfg 3) 10 s
  | 11 => add_triangle_c (tiling13_3 T cfg 4) 10 s
  | 12 => add_triangle_c (tiling13_3 T cfg 5) 10 s
  | 13 => add_triangle_c (tiling13_3 T cfg 6) 10 s
  | 14 => add_triangle_c (tiling13_3 T cfg 7) 10 s
  | 15 => add_triangle_c (tiling13_3 T cfg 8) 10 s
  | 16 => add_triangle_c (tiling13_3 T cfg 9) 10 s
  | 17 => add_triangle_c (tiling13_3 T cfg 10) 10 s
  | 18 => add_triangle_c (tiling13_3 T cfg 11) 10 s
  | 19 => add_triangle_c (tiling13_4 T cfg 0) 12 s
  | 20 => add_triangle_c (tiling13_4 T cfg 1) 12 s
  | 21 => add_triangle_c (tiling13_4 T cfg 2) 12 s
  | 22 => add_triangle_c (tiling13_4 T cfg 3) 12 s
  | 23 =>
      let s := with_subconfig 0 s in
      add_triangle_interior (test13 T cfg 6) (tiling13_5_1 T cfg 0) 6 (tiling13_5_2 T cfg 0) 10 s
  | 24 =>
      let s := with_subconfig 1 s in
      add_triangle_interior (test13 T cfg 6) (tiling13_5_1 T cfg 1) 6 (tiling13_5_2 T cfg 1) 10 s
  | 25 =>
      let s := with_subconfig 2 s in
      add_triangle_interior (test13 T cfg 6) (tiling13_5_1 T cfg 2) 6 (tiling13_5_2 T cfg 2) 10 s
  | 26 =>
      let s := with_subconfig 3 s in
      add_triangle_interior (test13 T cfg 6) (tiling13_5_1 T cfg 3) 6 (tiling13_5_2 T cfg 3) 10 s
  | 27 => add_triangle_c (tiling13_3_ T cfg 0) 10 s
  | 28 => add_triangle_c (tiling13_3_ T cfg 1) 10 s
  | 29 => add_triangle_c (tiling13_3_ T cfg 2) 10 s
  | 30 => add_triangle_c (tiling13_3_ T cfg 3) 10 s
  | 31 => add_triangle_c (tiling13_3_ T cfg 4) 10 s
  | 32 => add_triangle_c (tiling13_3_ T cfg 5) 10 s
  | 33 => add_triangle_c (tiling13_3_ T cfg 6) 10 s
  | 34 => add_triangle_c (tiling13_3_ T cfg 7) 10 s
  | 35 => add_triangle_c (tiling13_3_ T cfg 8) 10 s
  | 36 => add_triangle_c (tiling13_3_ T cfg 9) 10 s
  | 37 => add_triangle_c (tiling13_3_ T cfg 10) 10 s
  | 38 => add_triangle_c (tiling13_3_ T cfg 11) 10 s
  | 39 => add_triangle (tiling13_2_ T cfg 0) 6 (-1) s
  | 40 => add_triangle (tiling13_2_ T cfg 1) 6 (-1) s
  | 41 => add_triangle (tiling13_2_ T cfg 2) 6 (-1) s
  | 42 => add_triangle (tiling13_2_ T cfg 3) 6 (-1) s
  | 43 => add_triangle (tiling13_2_ T cfg 4) 6 (-1) s
  | 44 => add_triangle (tiling13_2_ T cfg 5) 6 (-1) s
  | 45 => add_triangle (tiling13_1_ T cfg) 4 (-1) s
  | _ => print_cube (printf ImpossibleCase13 s)
  end.

(** The [switch( _subconfig )] of case 7. *)
Definition process_case7 (s : MC) : MC :=
  let cfg := _config s in
  match _subconfig s with
  | 0 => add_triangle (tiling7_1 T cfg) 3 (-1) s
  | 1 => add_triangle (tiling7_2 T cfg 0) 5 (-1) s
  | 2 => add_triangle (tiling7_2 T cfg 1) 5 (-1) s
  | 3 => add_triangle_c (tiling7_3 T cfg 0) 9 s
  | 4 => add_triangle (tiling7_2 T cfg 2) 5 (-1) s
  | 5 => add_triangle_c (tiling7_3 T cfg 1) 9 s
  | 6 => add_triangle_c (tiling7_3 T cfg 2) 9 s
  | 7 => add_triangle_interior (test7 T cfg 3) (tiling7_4_2 T cfg) 9 (tiling7_4_1 T cfg) 5 s
  | _ => s
  end.

(** The topological branch of [process_cube], after [_case], [_config] and
    [_subconfig] are set. *)
Definition process_topological (s : MC) : MC :=
  let cfg := _config s in
  match _case s with
  | 0 => s
  | 1 => add_triangle (tiling1 T cfg) 1 (-1) s
  | 2 => add_triangle (tiling2 T cfg) 2 (-1) s
  | 3 =>
      if test_face s (test3 T cfg)
      then add_triangle (tiling3_2 T cfg) 4 (-1) s
      else add_triangle (tiling3_1 T cfg) 2 (-1) s
  | 4 => add_triangle_interior (test4 T cfg) (tiling4_1 T cfg) 2 (tiling4_2 T cfg) 6 s
  | 5 => add_triangle (tiling5 T cfg) 3 (-1) s
  | 6 =>
      if test_face s (test6 T cfg 0)
      then add_triangle (tiling6_2 T cfg) 5 (-1) s
      else
        let (b, s) := test_interior (test6 T cfg 1) s in
        if b then add_triangle (tiling6_1_1 T cfg) 3 (-1) s
        else add_triangle_c (tiling6_1_2 T cfg) 9 s
  | 7 =>
      let s := face_bit (test7 T cfg 0) 1 s in
      let s := face_bit (test7 T cfg 1) 2 s in
      let s := face_bit (test7 T cfg 2) 4 s in
      process_case7 s
  | 8 => add_triangle (tiling8 T cfg) 2 (-1) s
  | 9 => add_triangle (tiling9 T cfg) 4 (-1) s
  | 10 =>
      if test_face s (test10 T cfg 0) then
        if test_face s (test10 T cfg 1)
        then add_triangle (tiling10_1_1_ T cfg) 4 (-1) s
        else add_triangle_c (tiling10_2 T cfg) 8 s
      else
        if test_face s (test10 T cfg 1)
        then add_triangle_c (tiling10_2_ T cfg) 8 s
        else add_triangle_interior (test10 T cfg 2)
               (tiling10_1_1 T cfg) 4 (tiling10_1_2 T cfg) 8 s
  | 11 => add_triangle (tiling11 T cfg) 4 (-1) s
  | 12 =>
      if test_face s (test12 T cfg 0) then
        if test_face s (test12 T cfg 1)
        then add_triangle (tiling12_1_1_ T cfg) 4 (-1) s
        else add_triangle_c (tiling12_2 T cfg) 8 s
      else
        if test_face s (test12 T cfg 1)
        then add_triangle_c (tiling12_2_ T cfg) 8 s
        else add_triangle_interior (test12 T cfg 2)
               (tiling12_1_1 T cfg) 4 (tiling12_1_2 T cfg) 8 s
  | 13 =>
      let s := face_bit (test13 T cfg 0) 1 s in
      let s := face_bit (test13 T cfg 1) 2 s in
      let s := face_bit (test13 T cfg 2) 4 s in
      let s := face_bit (test13 T cfg 3) 8 s in
      let s := face_bit (test13 T cfg 4) 16 s in
      let s := face_bit (test13 T cfg 5) 32 s in
      process_case13 s
  | 14 => add_triangle (tiling14 T cfg) 4 (-1) s
  | _ => s
  end.

(** The classical branch of [process_cube]. *)
Definition process_classic (s : MC) : MC :=
  let row := casesClassic T (_lut_entry s) in
  add_triangle row (classic_count row) (-1) s.

Definition process_cube (s : MC) : MC :=
  if _originalMC s then process_classic s
  else
    let s := with_case (cases T (_lut_entry s) 0) s in
    let s := with_config (cases T (_lut_entry s) 1) s in
    let s := with_subconfig 0 s in
    process_topological s.

(** *** The edge-intersection pass *)

(** [set_x_vert( add_x_vertex( ), _i,_j,_k )] and its two analogues. *)
Definition intersect_x (s : MC) : MC :=
  let (id, s) := add_x_vertex s in set_x_vert id (_i s) (_j s) (_k s) s.
Definition intersect_y (s : MC) : MC :=
  let (id, s) := add_y_vertex s in set_y_vert id (_i s) (_j s) (_k s) s.
Definition intersect_z (s : MC) : MC :=
  let (id, s) := add_z_vertex s in set_z_vert id (_i s) (_j s) (_k s) s.

(** The first half of the body of the triple loop of
    [compute_intersection_points]: the four corners of the three forward
    edges are loaded and perturbed. *)
Definition load_edge_corners (iso : real) (s : MC) : MC :=
  let i := _i s in let j := _j s in let k := _k s in
  let s := set_cube 0 (get_data s i j k - iso)%real s in
  let s := set_cube 1 (if i <? _size_x s - 1 then (get_data s (i+1) j k - iso)%real
                       else _cube s 0) s in
  let s := set_cube 3 (if j <? _size_y s - 1 then (get_data s i (j+1) k - iso)%real
                       else _cube s 0) s in
  let s := set_cube 4 (if k <? _size_z s - 1 then (get_data s i j (k+1) - iso)%real
                       else _cube s 0) s in
  let s := set_cube 0 (perturb (_cube s 0)) s in
  let s := set_cube 1 (perturb (_cube s 1)) s in
  let s := set_cube 3 (perturb (_cube s 3)) s in
  set_cube 4 (perturb (_cube s 4)) s.

(** The second half: a vertex on each forward edge whose ends differ in
    sign. *)
Definition intersect_edges (s : MC) : MC :=
  if (_cube s 0 <? #0)%real then
    let s := if (_cube s 1 >? #0)%real then intersect_x s else s in
    let s := if (_cube s 3 >? #0)%real then intersect_y s else s in
    if (_cube s 4 >? #0)%real then intersect_z s else s
  else
    let s := if (_cube s 1 <? #0)%real then intersect_x s else s in
    let s := if (_cube s 3 <? #0)%real then intersect_y s else s in
    if (_cube s 4 <? #0)%real then intersect_z s else s.

Definition intersection_step (iso : real) (s : MC) : MC :=
  intersect_edges (load_edge_corners iso s).

(** The four values [_cube[0]], [_cube[1]], [_cube[3]], [_cube[4]] that
    [load_edge_corners] computes at the grid point [(i, j, k)]. *)
Definition edge_values (iso : real) (s : MC) (i j k : Z) : real * real * real * real :=
  let c0 := (get_data s i j k - iso)%real in
  (perturb c0,
   perturb (if i <? _size_x s - 1 then (get_data s (i+1) j k - iso)%real else c0),
   perturb (if j <? _size_y s - 1 then (get_data s i (j+1) k - iso)%real else c0),
   perturb (if k <? _size_z s - 1 then (get_data s i j (k+1) - iso)%real else c0)).

(** The grid point [(i, j, k)] lies in a grid of the given sizes. *)
Definition in_grid (sx sy sz i j k : Z) : Prop :=
  0 <= i < sx /\ 0 <= j < sy /\ 0 <= k < sz.

Definition compute_intersection_points (iso : real) (s : MC) : MC :=
  for_loop with_k (_size_z s)
    (fun s => for_loop with_j (_size_y s)
       (fun s => for_loop with_i (_size_x s) (intersection_step iso) s) s) s.

(** *** The main algorithm *)

(** [get_data( _i+((p^(p>>1))&1), _j+((p>>1)&1), _k+((p>>2)&1) )], the
    sample at corner [p] of the current cell. *)
Definition corner_sample (s : MC) (p : Z) : real :=
  get_data s (_i s + Z.land (Z.lxor p (Z.shiftr p 1)) 1)
             (_j s + Z.land (Z.shiftr p 1) 1)
             (_k s + Z.land (Z.shiftr p 2) 1).

(** One turn of [for( int p = 0 ; p < 8 ; ++p )] in [run]. *)
Definition load_corner (iso : real) (s : MC) (p : Z) : MC :=
  let s := set_cube p (corner_sample s p - iso)%real s in
  let s := set_cube p (perturb (_cube s p)) s in
  if (_cube s p >? #0)%real then with_lut_entry (_lut_entry s + Z.shiftl 1 p) s else s.

(** The body of the triple loop of [run]. *)
Definition cell_step (iso : real) (s : MC) : MC :=
  let s := with_lut_entry 0 s in
  let s := fold_left (load_corner iso) [0; 1; 2; 3; 4; 5; 6; 7] s in
  process_cube s.

(** [run( iso )].  The two [clock()] readings and the timing message are
    not part of the state. *)
Definition run (iso : real) (s : MC) : MC :=
  let s := compute_intersection_points iso s in
  for_loop with_k (_size_z s - 1)
    (fun s => for_loop with_j (_size_y s - 1)
       (fun s => for_loop with_i (_size_x s - 1) (cell_step iso) s) s) s.

(** *** The edge-intersection pass seen from one grid point *)

(** The grid has the given sizes and samples, the three edge maps have its
    size, and the vertex count is not negative. *)
Definition grid_invariant (sx sy sz : Z) (data : list real) (s : MC) : Prop :=
  _size_x s = sx /\ _size_y s = sy /\ _size_z s = sz /\ _data s = data /\
  length (_x_verts s) = Z.to_nat (sx * sy * sz) /\
  length (_y_verts s) = Z.to_nat (sx * sy * sz) /\
  length (_z_verts s) = Z.to_nat (sx * sy * sz) /\
  0 <= _nverts s.

(** The entries of the three edge maps at the grid point [(i0, j0, k0)]. *)
Definition map_entries (sx sy i0 j0 k0 : Z) (s : MC) : Z * Z * Z :=
  let t := i0 + j0 * sx + k0 * sx * sy in
  (at_index (_x_verts s) t (-1), at_index (_y_verts s) t (-1), at_index (_z_verts s) t (-1)).

(** The invariants of the inner and of the middle loop of the pass. *)
Definition row_invariant (sx sy sz : Z) (data : list real) (j k : Z) (s : MC) : Prop :=
  grid_invariant sx sy sz data s /\ _j s = j /\ _k s = k.
Definition slab_invariant (sx sy sz : Z) (data : list real) (k : Z) (s : MC) : Prop :=
  grid_invariant sx sy sz data s /\ _k s = k.

(** The inner and the middle loop of [compute_intersection_points]. *)
Definition row_loop (iso : real) (s : MC) : MC :=
  for_loop with_i (_size_x s) (intersection_step iso) s.
Definition slab_loop (iso : real) (s : MC) : MC :=
  for_loop with_j (_size_y s) (row_loop iso) s.

(** *** Well-formed meshes *)

(** The mesh buffers are allocated and not full beyond their size. *)
Definition mesh_wf (s : MC) : Prop :=
  0 <= _nverts s <= _Nverts s /\ 0 < _Nverts s /\
  length (_vertices s) = Z.to_nat (_Nverts s) /\
  0 <= _ntrigs s <= _Ntrigs s /\ 0 < _Ntrigs s /\
  length (_triangles s) = Z.to_nat (_Ntrigs s).

(** [s'] has the grid of [s] and a mesh that starts with the mesh of [s]. *)
Definition extends (s s' : MC) : Prop :=
  mesh_wf s' /\
  _originalMC s' = _originalMC s /\
  _size_x s' = _size_x s /\ _size_y s' = _size_y s /\ _size_z s' = _size_z s /\
  _data s' = _data s /\
  _nverts s <= _nverts s' /\ _ntrigs s <= _ntrigs s' /\
  take (Z.to_nat (_nverts s)) (_vertices s') = take (Z.to_nat (_nverts s)) (_vertices s) /\
  take (Z.to_nat (_ntrigs s)) (_triangles s') = take (Z.to_nat (_ntrigs s)) (_triangles s).

(** *** The vertices the edge-intersection pass creates *)

(** Every vertex with an id from [nv0] on satisfies [P]. *)
Definition new_vertices (P : Vertex real -> Prop) (nv0 : Z) (s : MC) : Prop :=
  forall n, nv0 <= n < _nverts s -> P (at_index (_vertices s) n zero_vertex).

(** What the vertex constructors read from the state. *)
Definition grid_view (s : MC) :=
  (_cube s, _i s, _j s, _k s, _size_x s, _size_y s, _size_z s, _data s).

(** The vertex lies on a grid edge of [s0] whose edge test holds, at the
    position the pass computes for it. *)
Definition on_crossed_edge (iso : real) (s0 : MC) (v : Vertex real) : Prop :=
  exists i j k, in_grid (_size_x s0) (_size_y s0) (_size_z s0) i j k /\
    let '(c0, c1, c3, c4) := edge_values iso s0 i j k in
    (edge_crossed c0 c1 = true /\
     x v = (#i + c0 / (c0 - c1))%real /\ y v = #j /\ z v = #k) \/
    (edge_crossed c0 c3 = true /\
     x v = #i /\ y v = (#j + c0 / (c0 - c3))%real /\ z v = #k) \/
    (edge_crossed c0 c4 = true /\
     x v = #i /\ y v = #j /\ z v = (#k + c0 / (c0 - c4))%real).

(** The invariant of the pass for the vertices it creates. *)
Definition vertex_invariant (iso : real) (s0 : MC) (s : MC) : Prop :=
  mesh_wf s /\ new_vertices (on_crossed_edge iso s0) (_nverts s0) s /\
  _size_x s = _size_x s0 /\ _size_y s = _size_y s0 /\ _size_z s = _size_z s0 /\
  _data s = _data s0.

(** [u = cube[0] / (cube[0] - cube[q])], the interpolation parameter of
    [add_x_vertex], [add_y_vertex] and [add_z_vertex]. *)
Definition edge_parameter (c0 c1 : real) : real := (c0 / (c0 - c1))%real.

(** The coordinate [p] of a vertex along the edge that leaves the grid
    point of coordinate [n], between endpoint values [c0] and [c1]: the
    values have strictly opposite signs, [p] is [n + u], [u] lies between 0
    and 1 and [p] between [n] and [n + 1], bounds included. *)
Definition on_edge_from (n : Z) (c0 c1 p : real) : Prop :=
  opposite_signs c0 c1 = true /\
  p = (#n + edge_parameter c0 c1)%real /\
  (#0 <=? edge_parameter c0 c1)%real = true /\
  (edge_parameter c0 c1 <=? #1)%real = true /\
  (#n <=? p)%real = true /\ (p <=? #(n + 1))%real = true.

(** *** What the passes read and write *)

(** [s'] has [dv] vertices and [dt] triangles more than [s]. *)
Definition mesh_delta (s s' : MarchingCubes real) (dv dt : Z) : Prop :=
  _nverts s' = _nverts s + dv /\ _ntrigs s' = _ntrigs s + dt.

(** The numbers of vertices and triangles [process_cube] can add for one
    cell in the topological mode: without a centre vertex 0 to 6, 8, 9 or
    10 triangles, with one 8, 9, 10 or 12. *)
Definition cell_deltas : list (Z * Z) :=
  [ (0, 0); (0, 1); (0, 2); (0, 3); (0, 4); (0, 5); (0, 6); (0, 8); (0, 9); (0, 10);
    (1, 8); (1, 9); (1, 10); (1, 12) ].

Definition cell_output (s s' : MarchingCubes real) : Prop :=
  exists dv dt, mesh_delta s s' dv dt /\ In (dv, dt) cell_deltas.

(** What [add_triangle] reads to find the vertex of a cell edge. *)
Definition edge_view (s : MarchingCubes real) :=
  (_x_verts s, _y_verts s, _z_verts s, _i s, _j s, _k s, _size_x s, _size_y s).

(** Triangle [m] of a tile, with the vertex ids found on the edges of the
    current cell. *)
Definition tile_triangle (s : MarchingCubes real) (trig : tile) (v12 m : Z) : Triangle :=
  mkTriangle (edge_vertex s (tile_at trig (3 * m)) v12 0)
             (edge_vertex s (tile_at trig (3 * m + 1)) v12 0)
             (edge_vertex s (tile_at trig (3 * m + 2)) v12 0).

(** The fields the edge-intersection pass leaves alone, loop counters and
    cube apart. *)
Definition pass_frame (s : MarchingCubes real) :=
  (_originalMC s, _size_x s, _size_y s, _size_z s, _data s,
   _ntrigs s, _Ntrigs s, _triangles s,
   _lut_entry s, _case s, _config s, _subconfig s, stdout s).

(** An entry of an edge map is the sentinel or the id of a vertex created
    since the count was [lo]. *)
Definition valid_id (lo hi id : Z) : Prop := id = -1 \/ lo <= id < hi.

Definition ids_valid (nv0 : Z) (s : MarchingCubes real) : Prop :=
  nv0 <= _nverts s /\
  Forall (valid_id nv0 (_nverts s)) (_x_verts s) /\
  Forall (valid_id nv0 (_nverts s)) (_y_verts s) /\
  Forall (valid_id nv0 (_nverts s)) (_z_verts s).

(** The grid and the edge maps: what the cell pass of [run] only reads. *)
Definition grid_frame (s : MarchingCubes real) :=
  (_originalMC s, _size_x s, _size_y s, _size_z s, _data s,
   _x_verts s, _y_verts s, _z_verts s).

(** The mesh and the output. *)
Definition mesh_frame (s : MarchingCubes real) :=
  (_nverts s, _Nverts s, _vertices s, _ntrigs s, _Ntrigs s, _triangles s, stdout s).

(** The three ids of a triangle lie in [lo, hi). *)
Definition triangle_ids_in (lo hi : Z) (t : Triangle) : Prop :=
  lo <= v1 t < hi /\ lo <= v2 t < hi /\ lo <= v3 t < hi.

(** The invariant of the cell loop of [run] in the classical mode, [s1]
    being the state the edge-intersection pass left. *)
Definition classic_invariant (nv0 : Z) (s1 c : MarchingCubes real) : Prop :=
  grid_frame c = grid_frame s1 /\ mesh_wf c /\ _nverts c = _nverts s1 /\
  stdout c = stdout s1 /\ _ntrigs s1 <= _ntrigs c /\
  forall t, _ntrigs s1 <= t < _ntrigs c ->
    triangle_ids_in nv0 (_nverts s1) (at_index (_triangles c) t zero_triangle).

(** *** Counting and naming the vertices of the pass *)

(** The number of forward edges of the grid point [(i, j, k)] on which the
    edge test of [compute_intersection_points] holds. *)
Definition crossings (iso : real) (s : MarchingCubes real) (i j k : Z) : Z :=
  let '(c0, c1, c3, c4) := edge_values iso s i j k in
  Z.b2z (edge_crossed c0 c1) + Z.b2z (edge_crossed c0 c3) + Z.b2z (edge_crossed c0 c4).

(** The number of grid edges on which the edge test holds: it depends on
    the samples, the sizes and the isovalue only. *)
Definition crossed_edges (iso : real) (s : MarchingCubes real) : Z :=
  sum_below (_size_z s) (fun k =>
    sum_below (_size_y s) (fun j =>
      sum_below (_size_x s) (fun i => crossings iso s i j k))).

(** The edge map of axis [a]: 0 for x, 1 for y, 2 for z. *)
Definition edge_map (a : Z) (s : MarchingCubes real) : list Z :=
  match a with 0 => _x_verts s | 1 => _y_verts s | _ => _z_verts s end.

(** [add_x_vertex], [add_y_vertex] or [add_z_vertex] followed by the write
    to the edge map, and the vertex each one builds. *)
Definition intersect_axis (a : Z) : MarchingCubes real -> MarchingCubes real :=
  match a with 0 => intersect_x | 1 => intersect_y | _ => intersect_z end.
Definition axis_vertex (a : Z) (s : MarchingCubes real) : Vertex real :=
  match a with 0 => x_edge_vertex s | 1 => y_edge_vertex s | _ => z_edge_vertex s end.

(** The position the pass gives the vertex of the edge that leaves the grid
    point [(i, j, k)] of [s0] along axis [a]. *)
Definition edge_target (iso : real) (s0 : MarchingCubes real) (a i j k : Z)
    (v : Vertex real) : Prop :=
  let '(c0, c1, c3, c4) := edge_values iso s0 i j k in
  match a with
  | 0 => x v = (#i + c0 / (c0 - c1))%real /\ y v = #j /\ z v = #k
  | 1 => x v = #i /\ y v = (#j + c0 / (c0 - c3))%real /\ z v = #k
  | _ => x v = #i /\ y v = #j /\ z v = (#k + c0 / (c0 - c4))%real
  end.

(** Every entry of an edge map that is not [-1] is the id of the vertex of
    its edge. *)
Definition entries_name_vertices (iso : real) (s0 s : MarchingCubes real) : Prop :=
  forall a i j k, 0 <= a <= 2 ->
    in_grid (_size_x s0) (_size_y s0) (_size_z s0) i j k ->
    let e := at_index (edge_map a s) (grid_index s0 i j k) (-1) in
    e <> -1 -> edge_target iso s0 a i j k (at_index (_vertices s) e zero_vertex).

(** The invariant of the pass for the entries of the edge maps. *)
Definition entry_invariant (iso : real) (s0 s : MarchingCubes real) : Prop :=
  mesh_wf s /\
  grid_invariant (_size_x s0) (_size_y s0) (_size_z s0) (_data s0) s /\
  ids_valid (_nverts s0) s /\ entries_name_vertices iso s0 s.

End Engine.

(** ** The edges of a cell and the classical table *)

(** The twelve edges of a cell as [add_triangle] numbers them: for each, the
    two corners it joins, the first being the corner at the grid point whose
    edge-map entry holds the vertex of the edge. *)
Definition cell_edges : list (Z * (Z * Z)) :=
  [ (0, (0, 1)); (1, (1, 2)); (2, (3, 2)); (3, (0, 3)); (4, (4, 5)); (5, (5, 6));
    (6, (7, 6)); (7, (4, 7)); (8, (0, 4)); (9, (1, 5)); (10, (2, 6)); (11, (3, 7)) ].

(** Every tile of [casesClassic] uses only edges of the cell whose two
    corners lie on different sides in the pattern the row stands for. *)
Definition classic_rows_cut (T : LookUpTable) : Prop :=
  forall entry u, 0 <= entry < 256 ->
    0 <= u < 3 * classic_count (casesClassic T entry) ->
    exists p q, In (tile_at (casesClassic T entry) u, (p, q)) cell_edges /\
                Z.testbit entry p <> Z.testbit entry q.

(** ** A concrete cell *)

(** An instance of the table parameter for the sign pattern 37 (corners 0,
    2 and 5 positive): base case 7, configuration 0, whose ambiguous faces
    are 1, 2 and 5, with tie-breaker sign 7 and reference edge 1; the two
    tiles of subcase 7.4 and the classical row join the nine cut edges
    0, 1, 2, 3, 4, 5, 8, 9, 10.  Every other pattern is mapped to the empty
    case 0.  The theorems below hold for every table; this instance serves
    to evaluate the extractor on concrete grids. *)
Definition row (l : list Z) (n : Z) : Z := at_index l n 0.
Definition only {A} (n : Z) (v d : A) (m : Z) : A := if m =? n then v else d.

Definition lut37 : LookUpTable := {|
  casesClassic := only 37 [9; 5; 4; 0; 8; 3; 1; 2; 10; -1; -1; -1; -1; -1; -1; -1]
                          [-1; -1; -1; -1; -1; -1; -1; -1; -1; -1; -1; -1; -1; -1; -1; -1];
  cases := only 37 (row [7; 0]) (row [0; -1]);
  tiling1 := fun _ => [];
  tiling2 := fun _ => [];
  test3 := fun _ => 0;
  tiling3_1 := fun _ => [];
  tiling3_2 := fun _ => [];
  test4 := fun _ => 0;
  tiling4_1 := fun _ => [];
  tiling4_2 := fun _ => [];
  tiling5 := fun _ => [];
  test6 := fun _ _ => 0;
  tiling6_1_1 := fun _ => [];
  tiling6_1_2 := fun _ => [];
  tiling6_2 := fun _ => [];
  test7 := only 0 (row [1; 2; 5; 7; 1]) (row []);
  tiling7_1 := fun _ => [];
  tiling7_2 := fun _ _ => [];
  tiling7_3 := fun _ _ => [];
  tiling7_4_1 := only 0 [3; 4; 8; 4; 3; 10; 2; 10; 3; 4; 10; 5; 9; 1; 0] [];
  tiling7_4_2 := only 0 [9; 4; 8; 4; 9; 5; 10; 5; 9; 1; 10; 9; 10; 1; 2;
                         0; 2; 1; 2; 0; 3; 8; 3; 0; 9; 8; 0] [];
  tiling8 := fun _ => [];
  tiling9 := fun _ => [];
  test10 := fun _ _ => 0;
  tiling10_1_1 := fun _ => [];
  tiling10_1_1_ := fun _ => [];
  tiling10_1_2 := fun _ => [];
  tiling10_2 := fun _ => [];
  tiling10_2_ := fun _ => [];
  tiling11 := fun _ => [];
  test12 := fun _ _ => 0;
  tiling12_1_1 := fun _ => [];
  tiling12_1_1_ := fun _ => [];
  tiling12_1_2 := fun _ => [];
  tiling12_2 := fun _ => [];
  tiling12_2_ := fun _ => [];
  test13 := fun _ _ => 0;
  subconfig13 := fun _ => 0;
  tiling13_1 := fun _ => [];
  tiling13_1_ := fun _ => [];
  tiling13_2 := fun _ _ => [];
  tiling13_2_ := fun _ _ => [];
  tiling13_3 := fun _ _ => [];
  tiling13_3_ := fun _ _ => [];
  tiling13_4 := fun _ _ => [];
  tiling13_5_1 := fun _ _ => [];
  tiling13_5_2 := fun _ _ => [];
  tiling14 := fun _ => []
|}.

(** A 2x2x2 grid of binary32 samples with pattern 37 at isovalue 0; in the
    order of the corners 0..7 the samples are
    [0.5, -0.5, 0.5, -(0.5 + 2^-23), -1, 10, -1, -1]. *)
Definition mc37 : MarchingCubes Binary32.t :=
  let s := init_all (MarchingCubes_new 2 2 2) in
  let s := set_data (Binary32.lit 1 (-1)) 0 0 0 s in
  let s := set_data (Binary32.lit (-1) (-1)) 1 0 0 s in
  let s := set_data (Binary32.lit (-4194305) (-23)) 0 1 0 s in
  let s := set_data (Binary32.lit 1 (-1)) 1 1 0 s in
  let s := set_data (Binary32.lit (-1) 0) 0 0 1 s in
  let s := set_data (Binary32.lit 10 0) 1 0 1 s in
  let s := set_data (Binary32.lit (-1) 0) 0 1 1 s in
  set_data (Binary32.lit (-1) 0) 1 1 1 s.

(** The state in which [run] calls [process_cube] on the only cell of
    [mc37]: edges intersected, corners loaded, [_lut_entry] computed. *)
Definition cell37 : MarchingCubes Binary32.t :=
  let s := compute_intersection_points (Binary32.of_Z 0) mc37 in
  let s := with_i 0 (with_j 0 (with_k 0 s)) in
  fold_left (load_corner (Binary32.of_Z 0)) [0; 1; 2; 3; 4; 5; 6; 7] (with_lut_entry 0 s).

(** A 2x2x2 grid of binary32 samples whose x-edge at the origin joins the
    samples [-1024] and [2^-23]; the other six samples are [-1024]. *)
Definition mc_steep : MarchingCubes Binary32.t :=
  let s := init_all (MarchingCubes_new 2 2 2) in
  let s := set_data (Binary32.lit (-1024) 0) 0 0 0 s in
  let s := set_data (Binary32.lit 1 (-23)) 1 0 0 s in
  let s := set_data (Binary32.lit (-1024) 0) 0 1 0 s in
  let s := set_data (Binary32.lit (-1024) 0) 1 1 0 s in
  let s := set_data (Binary32.lit (-1024) 0) 0 0 1 s in
  let s := set_data (Binary32.lit (-1024) 0) 1 0 1 s in
  let s := set_data (Binary32.lit (-1024) 0) 0 1 1 s in
  set_data (Binary32.lit (-1024) 0) 1 1 1 s.


(** * Properties *)

Section EngineFacts.
Context {real : Type} {RO : RealOps real}.
Variable T : LookUpTable.

Abbreviation MC := (MarchingCubes real).
Notation "# n" := (r_of_Z n) (at level 1, format "# n").

(** ** The interior test *)

Lemma interior_code_range (At Bt Ct Dt : real) :
  0 <= interior_code At Bt Ct Dt <= 15.
Proof.
  unfold interior_code.
  destruct (At >=? #0)%real, (Bt >=? #0)%real, (Ct >=? #0)%real, (Dt >=? #0)%real; lia.
Qed.

(** C1. In cases 4 and 10 the interior test takes [t = -b/(2a)] with the
    stated [a] and [b], answers [s > 0] when [t < 0] or [t > 1], and
    otherwise decides from [test = [At>=0] + 2[Bt>=0] + 4[Ct>=0] + 8[Dt>=0]]
    of the four values interpolated along the edges 0-4, 3-7, 2-6, 1-5:
    [s > 0] for 0,1,2,3,4,6,8,9,12, [s < 0] for 7,11,13,14,15, for 5
    [s > 0] when [At*Ct - Bt*Dt < eps] and for 10 [s > 0] when
    [At*Ct - Bt*Dt >= eps], the fallthrough answering [s < 0]; the state
    is left as it was. *)
Theorem test_interior_case_4_10 (s : MC) (s7 : Z) :
  _case s = 4 \/ _case s = 10 ->
  let c := _cube s in
  let a := ((c 4 - c 0) * (c 6 - c 2) - (c 7 - c 3) * (c 5 - c 1))%real in
  let b := (c 2 * (c 4 - c 0) + c 0 * (c 6 - c 2)
            - c 1 * (c 7 - c 3) - c 3 * (c 5 - c 1))%real in
  let t := (- b / (#2 * a))%real in
  let At := (c 0 + (c 4 - c 0) * t)%real in
  let Bt := (c 3 + (c 7 - c 3) * t)%real in
  let Ct := (c 2 + (c 6 - c 2) * t)%real in
  let Dt := (c 1 + (c 5 - c 1) * t)%real in
  let test := (if (At >=? #0)%real then 1 else 0) + (if (Bt >=? #0)%real then 2 else 0)
              + (if (Ct >=? #0)%real then 4 else 0) + (if (Dt >=? #0)%real then 8 else 0) in
  let r := eval (test_interior T s7) s in
  ((t <? #0)%real = true \/ (t >? #1)%real = true -> r = (s7 >? 0)) /\
  ((t <? #0)%real = false -> (t >? #1)%real = false ->
     (In test [0; 1; 2; 3; 4; 6; 8; 9; 12] -> r = (s7 >? 0)) /\
     (In test [7; 11; 13; 14; 15] -> r = (s7 <? 0)) /\
     (test = 5 ->
      r = if (At * Ct - Bt * Dt <? r_eps)%real then s7 >? 0 else s7 <? 0) /\
     (test = 10 ->
      r = if (At * Ct - Bt * Dt >=? r_eps)%real then s7 >? 0 else s7 <? 0)) /\
  exec (test_interior T s7) s = s.
Proof.
  intros Hcase c a b t At Bt Ct Dt test r.
  assert (Ht : interior_t s = t) by reflexivity.
  assert (Hr : test_interior T s7 s =
               if (t <? #0)%real || (t >? #1)%real then (s7 >? 0, s)
               else (interior_decide At Bt Ct Dt s7, s)).
  { unfold test_interior. destruct Hcase as [-> | ->]; rewrite Ht; reflexivity. }
  assert (Hcode : interior_code At Bt Ct Dt = test) by reflexivity.
  subst r. unfold eval, exec. rewrite Hr. clear Hr Ht.
  split; [|split].
  - intros [H | H]; rewrite H; [reflexivity | rewrite orb_true_r; reflexivity].
  - intros H0 H1. rewrite H0, H1. cbn [orb fst].
    unfold interior_decide. rewrite Hcode.
    pose proof (interior_code_range At Bt Ct Dt) as Hrange. rewrite Hcode in Hrange.
    clearbody test. clear Hcode.
    repeat split.
    + intros Hin. cbn in Hin.
      repeat (destruct Hin as [<- | Hin]; [reflexivity |]). destruct Hin.
    + intros Hin. cbn in Hin.
      repeat (destruct Hin as [<- | Hin]; [reflexivity |]). destruct Hin.
    + intros ->. reflexivity.
    + intros ->. reflexivity.
  - destruct ((t <? #0)%real || (t >? #1)%real); reflexivity.
Qed.

(** ** The face test *)

(** C2. For a signed face id [f] in {+-1, ..., +-6}, with [(a, b, c, d)] the
    corners the fixed table gives for face [|f|] and [A], [B], [C], [D] the
    cube values there, [test_face] answers [f >= 0] when
    [|A*C - B*D| < eps] and otherwise answers whether
    [f * A * (A*C - B*D) >= 0]. *)
Theorem test_face_table (s : MC) (f a b c d : Z) :
  In (Z.abs f, (a, b, c, d))
     [ (1, (0, 4, 5, 1)); (2, (1, 5, 6, 2)); (3, (2, 6, 7, 3));
       (4, (3, 7, 4, 0)); (5, (0, 3, 2, 1)); (6, (4, 7, 6, 5)) ] ->
  let A := _cube s a in
  let B := _cube s b in
  let C := _cube s c in
  let D := _cube s d in
  test_face s f =
    if (r_abs (A * C - B * D) <? r_eps)%real then f >=? 0
    else (#f * A * (A * C - B * D) >=? #0)%real.
Proof.
  intros Hin. cbn in Hin. unfold test_face.
  repeat (destruct Hin as [Heq | Hin];
          [injection Heq as Hf <- <- <- <-; rewrite <- Hf; reflexivity |]).
  destruct Hin.
Qed.

(** ** Diagnostics *)

Lemma interior_decide_zeros (s7 : Z) :
  (#0 >=? #0)%real = true -> interior_decide #0 #0 #0 #0 s7 = (s7 <? 0).
Proof. intros H. unfold interior_decide, interior_code. rewrite H. reflexivity. Qed.

Lemma interior_edge_invalid (s : MC) (edge : Z) :
  ~ 0 <= edge <= 11 -> interior_edge s edge = None.
Proof.
  intros H. destruct edge as [|p|p]; [lia | | reflexivity].
  do 4 (try destruct p as [p|p|]); try reflexivity; lia.
Qed.

Lemma test_interior_invalid_case (s : MC) (s7 : Z) :
  ~ In (_case s) [4; 6; 7; 10; 12; 13] ->
  test_interior T s7 s =
    (interior_decide #0 #0 #0 #0 s7,
     print_cube (printf (InvalidAmbiguousCase (_case s)) s)).
Proof.
  intros H. unfold test_interior. cbn in H.
  destruct (_case s) as [|p|p]; try reflexivity.
  do 4 (try destruct p as [p|p|]); try reflexivity; exfalso; apply H; tauto.
Qed.

Lemma process_case13_impossible (s : MC) :
  ~ 0 <= subconfig13 T (_subconfig s) <= 45 ->
  process_case13 T s = print_cube (printf ImpossibleCase13 s).
Proof.
  intros H. unfold process_case13.
  destruct (subconfig13 T (_subconfig s)) as [|p|p]; [lia | | reflexivity].
  do 6 (try destruct p as [p|p|]); try reflexivity; lia.
Qed.

(** The face tests of the dispatcher only write [_subconfig]. *)
Lemma face_bit_frame (s : MC) (f w : Z) :
  exists n, face_bit f w s = with_subconfig n s.
Proof.
  unfold face_bit. destruct (test_face s f).
  - eexists. reflexivity.
  - exists (_subconfig s). destruct s. reflexivity.
Qed.

Lemma face_bits_frame (s : MC) (fs : list (Z * Z)) :
  exists n, fold_left (fun s fw => face_bit (fst fw) (snd fw) s) fs s = with_subconfig n s.
Proof.
  revert s. induction fs as [|[f w] fs IH]; intros s.
  - exists (_subconfig s). destruct s. reflexivity.
  - cbn [fold_left fst snd]. destruct (face_bit_frame s f w) as [n ->].
    destruct (IH (with_subconfig n s)) as [m ->]. exists m. reflexivity.
Qed.

(** C8. (1) In cases 6, 7, 12, 13 a reference edge outside 0..11 makes
    [test_interior] answer [s < 0]; (2) a case other than 4, 6, 7, 10, 12,
    13 makes it answer [s < 0]; (3) in case 13 a remapped index
    [subconfig13[_subconfig]] outside 0..45 makes the cell emit no triangle
    and no vertex.  In each situation the only effect is the diagnostic
    appended to the output. *)
Theorem diagnostics_are_informational (s : MC) (s7 : Z) :
  (#0 >=? #0)%real = true ->
  (In (_case s) [6; 7; 12; 13] -> ~ 0 <= reference_edge T s <= 11 ->
   test_interior T s7 s =
     (s7 <? 0, print_cube (printf (InvalidEdge (reference_edge T s)) s))) /\
  (~ In (_case s) [4; 6; 7; 10; 12; 13] ->
   test_interior T s7 s =
     (s7 <? 0, print_cube (printf (InvalidAmbiguousCase (_case s)) s))) /\
  (_originalMC s = false -> cases T (_lut_entry s) 0 = 13 ->
   let cfg := cases T (_lut_entry s) 1 in
   let s0 := with_subconfig 0 (with_config cfg (with_case 13 s)) in
   let s6 := face_bit (test13 T cfg 5) 32 (face_bit (test13 T cfg 4) 16
             (face_bit (test13 T cfg 3) 8 (face_bit (test13 T cfg 2) 4
             (face_bit (test13 T cfg 1) 2 (face_bit (test13 T cfg 0) 1 s0))))) in
   ~ 0 <= subconfig13 T (_subconfig s6) <= 45 ->
   process_cube T s = print_cube (printf ImpossibleCase13 s6) /\
   _triangles (process_cube T s) = _triangles s /\
   _ntrigs (process_cube T s) = _ntrigs s /\
   _vertices (process_cube T s) = _vertices s /\
   _nverts (process_cube T s) = _nverts s /\
   stdout (process_cube T s) = stdout s ++ [ImpossibleCase13; PrintCube (cube_list s)]).
Proof.
  intros Hzero. split; [|split].
  - intros Hcase Hedge. unfold test_interior.
    rewrite (interior_edge_invalid _ _ Hedge), (interior_decide_zeros _ Hzero).
    cbn in Hcase. destruct Hcase as [<- | [<- | [<- | [<- | []]]]]; reflexivity.
  - intros Hcase. rewrite (test_interior_invalid_case _ _ Hcase).
    rewrite (interior_decide_zeros _ Hzero). reflexivity.
  - intros Hmode Hcase cfg s0 s6 Hout.
    assert (Heq : process_cube T s = print_cube (printf ImpossibleCase13 s6)).
    { unfold process_cube. rewrite Hmode.
      cbn [_lut_entry with_case with_config with_subconfig]. rewrite Hcase.
      unfold process_topological.
      cbn [_case with_subconfig with_config with_case _config].
      apply process_case13_impossible. exact Hout. }
    split; [exact Heq |]. rewrite Heq.
    destruct (face_bits_frame s0
                [(test13 T cfg 0, 1); (test13 T cfg 1, 2); (test13 T cfg 2, 4);
                 (test13 T cfg 3, 8); (test13 T cfg 4, 16); (test13 T cfg 5, 32)])
      as [n Hn].
    cbn [fold_left fst snd] in Hn. fold s6 in Hn. rewrite Hn. repeat split.
    cbn. rewrite <- app_assoc. reflexivity.
Qed.

(** ** The perturbation of small values *)


Lemma perturb_large (c : real) :
  (r_abs c <? r_eps)%real = false -> perturb c = c.
Proof. intros H. unfold perturb. rewrite H. reflexivity. Qed.

Lemma load_corner_cube (iso : real) (s : MC) (p : Z) :
  _cube (load_corner iso s p) p = perturb (corner_sample s p - iso)%real.
Proof.
  unfold load_corner, corner_sample. cbn. rewrite !Z.eqb_refl.
  destruct (_ >? _)%real; cbn; rewrite ?Z.eqb_refl; reflexivity.
Qed.


Lemma load_edge_corners_cube0 (iso : real) (s : MC) :
  _cube (load_edge_corners iso s) 0 =
    perturb (get_data s (_i s) (_j s) (_k s) - iso)%real.
Proof. reflexivity. Qed.

(** ** Triangle emission *)

Lemma printf_ntrigs (d : diag real) (s : MC) : _ntrigs (printf d s) = _ntrigs s.
Proof. reflexivity. Qed.

Lemma push_triangle_ntrigs (tv : Z * Z * Z) (s : MC) :
  _ntrigs (push_triangle tv s) = _ntrigs s + 1.
Proof. unfold push_triangle. destruct (_ntrigs s >=? _Ntrigs s); reflexivity. Qed.

Lemma add_triangle_step_ntrigs (trig : tile) (v12 : Z) (st : (Z * Z * Z) * MC) (t : Z) :
  _ntrigs (snd (add_triangle_step trig v12 st t)) =
    _ntrigs (snd st) + (if t mod 3 =? 2 then 1 else 0).
Proof.
  destruct st as [tv s]. unfold add_triangle_step.
  destruct (t mod 3 =? 2); cbn [snd]; rewrite ?push_triangle_ntrigs;
    destruct (tv_get _ _ =? -1); cbn; lia.
Qed.

Lemma add_triangle_loop_ntrigs (trig : tile) (v12 : Z) (m : nat) (st : (Z * Z * Z) * MC) :
  _ntrigs (snd (fold_left (add_triangle_step trig v12)
                          (map Z.of_nat (seq 0 (3 * m))) st)) =
    _ntrigs (snd st) + Z.of_nat m.
Proof.
  induction m as [|m IH].
  - cbn. lia.
  - replace (3 * S m)%nat with (3 * m + 3)%nat by lia.
    rewrite seq_app, map_app, fold_left_app. cbn [seq map fold_left Nat.add].
    rewrite !add_triangle_step_ntrigs, IH.
    assert (Hmod : forall r, 0 <= r < 3 -> (3 * Z.of_nat m + r) mod 3 = r).
    { intros r Hr. rewrite Z.add_comm, Z.mul_comm, Z.mod_add, Z.mod_small; lia. }
    replace (Z.of_nat (3 * m)) with (3 * Z.of_nat m + 0) by lia.
    replace (Z.of_nat (S (3 * m))) with (3 * Z.of_nat m + 1) by lia.
    replace (Z.of_nat (S (S (3 * m)))) with (3 * Z.of_nat m + 2) by lia.
    rewrite !Hmod by lia.
    cbn. lia.
Qed.

(** [add_triangle( trig, n, v12 )] appends [n] triangles. *)
Lemma add_triangle_ntrigs (trig : tile) (n v12 : Z) (s : MC) :
  0 <= n -> _ntrigs (add_triangle trig n v12 s) = _ntrigs s + n.
Proof.
  intros Hn. unfold add_triangle.
  replace (Z.to_nat (3 * n)) with (3 * Z.to_nat n)%nat by lia.
  rewrite add_triangle_loop_ntrigs. cbn [snd]. lia.
Qed.

(** ** The dispatcher *)

(** The interior test only writes to the output. *)
Lemma test_interior_frame (s : MC) (s7 : Z) :
  exists out, exec (test_interior T s7) s = with_stdout out s.
Proof.
  unfold exec, test_interior.
  assert (Hid : s = with_stdout (stdout s) s) by (destruct s; reflexivity).
  destruct (_case s) as [|p|p]; try (eexists; reflexivity).
  do 4 (try destruct p as [p|p|]); try (eexists; reflexivity).
  all: try (destruct (_ || _); exists (stdout s); exact Hid).
  all: destruct (interior_edge s (reference_edge T s)) as [[[[At Bt] Ct] Dt]|];
    first [exists (stdout s); exact Hid | eexists; reflexivity].
Qed.

Lemma face_bit_true (s : MC) (f w : Z) :
  test_face s f = true -> face_bit f w s = with_subconfig (_subconfig s + w) s.
Proof. intros H. unfold face_bit. rewrite H. reflexivity. Qed.

(** C3 (as the code has it). A cell dispatched by the topological method to
    base case 7 whose three face tests hold ([_subconfig = 7]) emits
    [tiling7_4_2], nine triangles, when its interior test answers true, and
    [tiling7_4_1], five triangles, when it answers false. *)
Theorem case7_all_faces_true (s : MC) :
  _originalMC s = false ->
  cases T (_lut_entry s) 0 = 7 ->
  let cfg := cases T (_lut_entry s) 1 in
  test_face s (test7 T cfg 0) = true ->
  test_face s (test7 T cfg 1) = true ->
  test_face s (test7 T cfg 2) = true ->
  let s7 := with_subconfig 7 (with_config cfg (with_case 7 s)) in
  let inside := eval (test_interior T (test7 T cfg 3)) s7 in
  let s' := exec (test_interior T (test7 T cfg 3)) s7 in
  (inside = true ->
     process_cube T s = add_triangle (tiling7_4_2 T cfg) 9 (-1) s' /\
     _ntrigs (process_cube T s) = _ntrigs s + 9) /\
  (inside = false ->
     process_cube T s = add_triangle (tiling7_4_1 T cfg) 5 (-1) s' /\
     _ntrigs (process_cube T s) = _ntrigs s + 5).
Proof.
  intros Hmode Hcase cfg H0 H1 H2 s7 inside s'.
  assert (Heq : process_cube T s =
                add_triangle_interior T (test7 T cfg 3)
                  (tiling7_4_2 T cfg) 9 (tiling7_4_1 T cfg) 5 s7).
  { unfold process_cube. rewrite Hmode.
    cbn [_lut_entry with_case with_config with_subconfig]. rewrite Hcase.
    unfold process_topological.
    cbn [_case _config with_case with_config with_subconfig]. fold cfg.
    rewrite (face_bit_true _ (test7 T cfg 0)) by exact H0.
    rewrite (face_bit_true _ (test7 T cfg 1)) by exact H1.
    rewrite (face_bit_true _ (test7 T cfg 2)) by exact H2.
    reflexivity. }
  assert (Hn : _ntrigs s' = _ntrigs s).
  { destruct (test_interior_frame s7 (test7 T cfg 3)) as [out Hout].
    subst s'. rewrite Hout. reflexivity. }
  unfold add_triangle_interior in Heq. subst inside s'. unfold eval, exec in *.
  destruct (test_interior T (test7 T cfg 3) s7) as [b sb]. cbn [fst snd] in *.
  split; intros ->; (split; [exact Heq |]); rewrite Heq, add_triangle_ntrigs; lia.
Qed.

(** ** The mesh only grows *)

Implicit Types s : MarchingCubes real.

Lemma take_take_le {A} (l : list A) (n m : nat) :
  (n <= m)%nat -> take n (take m l) = take n l.
Proof. intros H. rewrite take_take, Nat.min_l by exact H. reflexivity. Qed.

Lemma extends_refl s : mesh_wf s -> extends s s.
Proof. intros H. unfold extends. repeat split; try lia; try reflexivity; apply H. Qed.

Lemma extends_trans s1 s2 s3 : extends s1 s2 -> extends s2 s3 -> extends s1 s3.
Proof.
  unfold extends.
  intros (W2 & M2 & X2 & Y2 & Z2 & D2 & Nv2 & Nt2 & V2 & T2)
         (W3 & M3 & X3 & Y3 & Z3 & D3 & Nv3 & Nt3 & V3 & T3).
  destruct W2 as (Wv2 & _ & _ & Wt2 & _).
  repeat split; try congruence; try lia; try apply W3.
  - rewrite <- V2.
    rewrite <- (take_take_le (_vertices s3) (Z.to_nat (_nverts s1)) (Z.to_nat (_nverts s2))) by lia.
    rewrite V3. rewrite take_take_le by lia. reflexivity.
  - rewrite <- T2.
    rewrite <- (take_take_le (_triangles s3) (Z.to_nat (_ntrigs s1)) (Z.to_nat (_ntrigs s2))) by lia.
    rewrite T3. rewrite take_take_le by lia. reflexivity.
Qed.

(** A statement that leaves the grid and the mesh alone. *)
Lemma extends_frame s s' :
  mesh_wf s ->
  _originalMC s' = _originalMC s ->
  _size_x s' = _size_x s -> _size_y s' = _size_y s -> _size_z s' = _size_z s ->
  _data s' = _data s ->
  _nverts s' = _nverts s -> _ntrigs s' = _ntrigs s ->
  _Nverts s' = _Nverts s -> _Ntrigs s' = _Ntrigs s ->
  _vertices s' = _vertices s -> _triangles s' = _triangles s ->
  extends s s'.
Proof.
  intros W HM HX HY HZ HD Hnv Hnt HNv HNt HV HT. unfold extends, mesh_wf in *.
  rewrite HM, HX, HY, HZ, HD, Hnv, Hnt, HNv, HNt, HV, HT.
  repeat split; try lia; try reflexivity; apply W.
Qed.

(** *** Vertices *)

Lemma take_resize {A} (n : nat) (N : Z) (d : A) (l : list A) :
  (n <= length l)%nat -> (length l <= Z.to_nat N)%nat ->
  take n (resize N d l) = take n l.
Proof.
  intros Hn HN. unfold resize. rewrite take_app_le.
  - rewrite take_take_le by lia. reflexivity.
  - rewrite length_take. lia.
Qed.

Lemma length_resize {A} (N : Z) (d : A) (l : list A) :
  length (resize N d l) = Z.to_nat N.
Proof. unfold resize. rewrite length_app, length_take, length_replicate. lia. Qed.

Lemma test_vertex_addition_extends s :
  mesh_wf s ->
  extends s (test_vertex_addition s) /\
  _nverts (test_vertex_addition s) = _nverts s /\
  _nverts s < _Nverts (test_vertex_addition s).
Proof.
  intros W. unfold test_vertex_addition.
  destruct (Z.geb_spec (_nverts s) (_Nverts s)) as [Hfull | Hfree].
  - split; [|split; [reflexivity | cbn; unfold mesh_wf in W; lia]].
    unfold extends, mesh_wf in *. cbn.
    rewrite length_resize.
    repeat split; try lia; try apply W.
    apply take_resize; lia.
  - split; [apply extends_refl; exact W | split; [reflexivity | lia]].
Qed.

Lemma store_vertex_extends (v : Vertex real) s :
  mesh_wf s -> _nverts s < _Nverts s -> extends s (store_vertex v s).
Proof.
  intros W Hfree. unfold extends, mesh_wf, store_vertex in *. cbn.
  rewrite length_insert.
  repeat split; try lia; try apply W.
  apply take_insert_ge. lia.
Qed.

(** Overwriting the vertex being built leaves the mesh before it alone. *)
Lemma rewrite_last_extends (buf : list (Vertex real)) s0 s :
  extends s0 s -> _nverts s0 < _nverts s ->
  take (Z.to_nat (_nverts s - 1)) buf = take (Z.to_nat (_nverts s - 1)) (_vertices s) ->
  length buf = length (_vertices s) ->
  extends s0 (with_vertices buf s).
Proof.
  intros (W & M & X & Y & Z' & D & Nv & Nt & V & Tr) Hlt Hbuf Hlen.
  unfold extends, mesh_wf in *. cbn. rewrite Hlen.
  repeat split; try lia; try assumption; try apply W.
  rewrite <- V.
  rewrite <- (take_take_le buf (Z.to_nat (_nverts s0)) (Z.to_nat (_nverts s - 1))) by lia.
  rewrite Hbuf, take_take_le by lia. reflexivity.
Qed.

Lemma add_x_vertex_extends s : mesh_wf s -> extends s (exec add_x_vertex s).
Proof.
  intros W. destruct (test_vertex_addition_extends s W) as (E & Hn & Hfree).
  unfold exec, add_x_vertex. cbn [snd].
  eapply extends_trans; [exact E |].
  apply store_vertex_extends; [apply E | lia].
Qed.

Lemma add_y_vertex_extends s : mesh_wf s -> extends s (exec add_y_vertex s).
Proof.
  intros W. destruct (test_vertex_addition_extends s W) as (E & Hn & Hfree).
  unfold exec, add_y_vertex. cbn [snd].
  eapply extends_trans; [exact E |].
  apply store_vertex_extends; [apply E | lia].
Qed.

Lemma add_z_vertex_extends s : mesh_wf s -> extends s (exec add_z_vertex s).
Proof.
  intros W. destruct (test_vertex_addition_extends s W) as (E & Hn & Hfree).
  unfold exec, add_z_vertex. cbn [snd].
  eapply extends_trans; [exact E |].
  apply store_vertex_extends; [apply E | lia].
Qed.


Lemma add_c_edge_frame (n vid : Z) (st : real * list (Vertex real)) :
  take (Z.to_nat n) (snd (add_c_edge n vid st)) = take (Z.to_nat n) (snd st) /\
  length (snd (add_c_edge n vid st)) = length (snd st).
Proof.
  destruct st as [u buf]. unfold add_c_edge. destruct (vid =? -1); cbn [snd].
  - split; reflexivity.
  - split; [apply take_insert_ge; lia | apply length_insert].
Qed.

Lemma add_c_edges_frame (n : Z) (vids : list Z) (st : real * list (Vertex real)) :
  take (Z.to_nat n) (snd (fold_left (fun st vid => add_c_edge n vid st) vids st))
    = take (Z.to_nat n) (snd st) /\
  length (snd (fold_left (fun st vid => add_c_edge n vid st) vids st)) = length (snd st).
Proof.
  revert st. induction vids as [|vid vids IH]; intros st; cbn [fold_left].
  - split; reflexivity.
  - destruct (IH (add_c_edge n vid st)) as [H1 H2].
    destruct (add_c_edge_frame n vid st) as [H3 H4].
    split; congruence.
Qed.

Lemma add_c_vertex_extends s : mesh_wf s -> extends s (exec add_c_vertex s).
Proof.
  intros W. destruct (test_vertex_addition_extends s W) as (E & Hn & Hfree).
  unfold exec, add_c_vertex.
  set (s1 := test_vertex_addition s) in *.
  assert (E2 : extends s (store_vertex zero_vertex s1)).
  { eapply extends_trans; [exact E |].
    apply store_vertex_extends; [apply E | lia]. }
  set (s2 := store_vertex zero_vertex s1) in *.
  destruct (add_c_edges_frame (_nverts s1) (cell_edge_ids s2) (r_of_Z 0, _vertices s2))
    as [Htake Hlen].
  destruct (fold_left _ (cell_edge_ids s2) _) as [u buf]. cbn [snd] in *.
  apply rewrite_last_extends.
  - exact E2.
  - subst s2. cbn. lia.
  - replace (_nverts s2 - 1) with (_nverts s1) by (subst s2; cbn; lia).
    rewrite take_insert_ge by lia. exact Htake.
  - rewrite length_insert. exact Hlen.
Qed.

(** *** Triangles *)

Lemma push_triangle_extends (tv : Z * Z * Z) s :
  mesh_wf s -> extends s (push_triangle tv s).
Proof.
  intros W. unfold push_triangle.
  destruct (Z.geb_spec (_ntrigs s) (_Ntrigs s)) as [Hfull | Hfree];
    unfold extends, mesh_wf in *; cbn; rewrite length_insert, ?length_resize;
    repeat split; try lia; try apply W.
  - rewrite take_insert_ge by lia. apply take_resize; lia.
  - apply take_insert_ge. lia.
Qed.

Lemma printf_extends (d : diag real) s : mesh_wf s -> extends s (printf d s).
Proof. intros W. apply extends_frame; try reflexivity. exact W. Qed.

Lemma print_cube_extends s : mesh_wf s -> extends s (print_cube s).
Proof. intros W. apply extends_frame; try reflexivity. exact W. Qed.

Lemma extends_wf s s' : extends s s' -> mesh_wf s'.
Proof. intros E. apply E. Qed.

Lemma add_triangle_step_extends (trig : tile) (v12 : Z) (st : (Z * Z * Z) * MarchingCubes real) (t : Z) :
  mesh_wf (snd st) -> extends (snd st) (snd (add_triangle_step trig v12 st t)).
Proof.
  destruct st as [tv s]. cbn [snd]. intros W. unfold add_triangle_step.
  set (tv' := tv_set tv _ _).
  assert (E : extends s (if tv_get tv' (t mod 3) =? -1
                         then print_cube (printf (InvalidTriangle (_ntrigs s + 1)) s)
                         else s)).
  { destruct (_ =? -1); [| apply extends_refl; exact W].
    eapply extends_trans; [apply printf_extends; exact W |].
    apply print_cube_extends. apply printf_extends. exact W. }
  destruct (t mod 3 =? 2); cbn [snd]; [| exact E].
  eapply extends_trans; [exact E |]. apply push_triangle_extends.
  eapply extends_wf. exact E.
Qed.

Lemma add_triangle_extends (trig : tile) (n v12 : Z) s :
  mesh_wf s -> extends s (add_triangle trig n v12 s).
Proof.
  intros W. unfold add_triangle.
  assert (H : forall ts (st : (Z * Z * Z) * MarchingCubes real), mesh_wf (snd st) ->
            extends (snd st) (snd (fold_left (add_triangle_step trig v12) ts st))).
  { induction ts as [|t ts IH]; intros st Wst; cbn [fold_left].
    - apply extends_refl. exact Wst.
    - pose proof (add_triangle_step_extends trig v12 st t Wst) as E.
      eapply extends_trans; [exact E |]. apply IH. eapply extends_wf. exact E. }
  exact (H _ (0, 0, 0, s) W).
Qed.


(** *** The dispatcher *)

Lemma test_interior_extends (s7 : Z) s :
  mesh_wf s -> extends s (exec (test_interior T s7) s).
Proof.
  intros W. destruct (test_interior_frame s s7) as [out ->].
  apply extends_frame; try reflexivity. exact W.
Qed.

Lemma face_bit_extends (f w : Z) s : mesh_wf s -> extends s (face_bit f w s).
Proof.
  intros W. destruct (face_bit_frame s f w) as [n ->].
  apply extends_frame; try reflexivity. exact W.
Qed.

Lemma with_subconfig_extends (n : Z) s : mesh_wf s -> extends s (with_subconfig n s).
Proof. intros W. apply extends_frame; try reflexivity. exact W. Qed.

Lemma add_triangle_c_unfold (trig : tile) (n : Z) s :
  add_triangle_c trig n s =
    add_triangle trig n (eval add_c_vertex s) (exec add_c_vertex s).
Proof. unfold add_triangle_c, eval, exec. destruct (add_c_vertex s). reflexivity. Qed.

Lemma add_triangle_c_extends (trig : tile) (n : Z) s :
  mesh_wf s -> extends s (add_triangle_c trig n s).
Proof.
  intros W. rewrite add_triangle_c_unfold.
  pose proof (add_c_vertex_extends s W) as E.
  eapply extends_trans; [exact E |]. apply add_triangle_extends.
  eapply extends_wf. exact E.
Qed.

Lemma add_triangle_interior_unfold (f : Z) (yes : tile) (ny : Z) (no : tile) (nn : Z) s :
  add_triangle_interior T f yes ny no nn s =
    if eval (test_interior T f) s
    then add_triangle yes ny (-1) (exec (test_interior T f) s)
    else add_triangle no nn (-1) (exec (test_interior T f) s).
Proof.
  unfold add_triangle_interior, eval, exec. destruct (test_interior T f s). reflexivity.
Qed.

Lemma add_triangle_interior_extends (f : Z) (yes : tile) (ny : Z) (no : tile) (nn : Z) s :
  mesh_wf s -> extends s (add_triangle_interior T f yes ny no nn s).
Proof.
  intros W. rewrite add_triangle_interior_unfold.
  pose proof (test_interior_extends f s W) as E.
  eapply extends_trans; [exact E |].
  destruct (eval (test_interior T f) s); apply add_triangle_extends;
    eapply extends_wf; exact E.
Qed.

Ltac extends_step :=
  lazymatch goal with
  | |- extends ?s ?s => apply extends_refl
  | |- extends _ (add_triangle _ _ _ _) => apply add_triangle_extends
  | |- extends _ (add_triangle_c _ _ _) => apply add_triangle_c_extends
  | |- extends _ (add_triangle_interior _ _ _ _ _ _ _) =>
      apply add_triangle_interior_extends
  | |- extends _ (print_cube (printf _ _)) =>
      eapply extends_trans; [apply printf_extends |];
      [| apply print_cube_extends; eapply extends_wf; apply printf_extends]
  end; try assumption.

Lemma process_case13_extends s : mesh_wf s -> extends s (process_case13 T s).
Proof.
  intros W. unfold process_case13.
  destruct (subconfig13 T (_subconfig s)) as [|p|p].
  - extends_step.
  - do 6 (try destruct p as [p|p|]);
      first [ extends_step; fail
            | eapply extends_trans; [apply with_subconfig_extends; exact W |];
              apply add_triangle_interior_extends;
              eapply extends_wf; apply with_subconfig_extends; exact W ].
  - extends_step.
Qed.

Lemma process_case7_extends s : mesh_wf s -> extends s (process_case7 T s).
Proof.
  intros W. unfold process_case7.
  destruct (_subconfig s) as [|p|p]; [extends_step | | extends_step].
  do 3 (try destruct p as [p|p|]); extends_step.
Qed.

Lemma face_bits_extends (fs : list (Z * Z)) s :
  mesh_wf s ->
  extends s (fold_left (fun s fw => face_bit (fst fw) (snd fw) s) fs s).
Proof.
  intros W. destruct (face_bits_frame s fs) as [n ->].
  apply with_subconfig_extends. exact W.
Qed.

Lemma process_topological_extends s : mesh_wf s -> extends s (process_topological T s).
Proof.
  intros W. unfold process_topological.
  destruct (_case s) as [|p|p]; [extends_step | | extends_step].
  do 4 (try destruct p as [p|p|]); try (extends_step; fail).
  - (* 7 *)
    set (cfg := _config s).
    pose proof (face_bits_extends
                  [(test7 T cfg 0, 1); (test7 T cfg 1, 2); (test7 T cfg 2, 4)] s W) as E.
    cbn [fold_left fst snd] in E.
    eapply extends_trans; [exact E |]. apply process_case7_extends.
    eapply extends_wf. exact E.
  - (* 13 *)
    set (cfg := _config s).
    pose proof (face_bits_extends
                  [(test13 T cfg 0, 1); (test13 T cfg 1, 2); (test13 T cfg 2, 4);
                   (test13 T cfg 3, 8); (test13 T cfg 4, 16); (test13 T cfg 5, 32)] s W) as E.
    cbn [fold_left fst snd] in E.
    eapply extends_trans; [exact E |]. apply process_case13_extends.
    eapply extends_wf. exact E.
  - (* 3 *) destruct (test_face s (test3 T (_config s))); extends_step.
  - (* 10 *)
    destruct (test_face s (test10 T (_config s) 0)), (test_face s (test10 T (_config s) 1));
      extends_step.
  - (* 6 *)
    destruct (test_face s (test6 T (_config s) 0)); [extends_step |].
    assert (Heq : (let (b, s0) := test_interior T (test6 T (_config s) 1) s in
                   if b then add_triangle (tiling6_1_1 T (_config s)) 3 (-1) s0
                   else add_triangle_c (tiling6_1_2 T (_config s)) 9 s0) =
                  if eval (test_interior T (test6 T (_config s) 1)) s
                  then add_triangle (tiling6_1_1 T (_config s)) 3 (-1)
                         (exec (test_interior T (test6 T (_config s) 1)) s)
                  else add_triangle_c (tiling6_1_2 T (_config s)) 9
                         (exec (test_interior T (test6 T (_config s) 1)) s)).
    { unfold eval, exec. destruct (test_interior T (test6 T (_config s) 1) s). reflexivity. }
    rewrite Heq. clear Heq.
    pose proof (test_interior_extends (test6 T (_config s) 1) s W) as E.
    eapply extends_trans; [exact E |].
    destruct (eval _ s); [apply add_triangle_extends | apply add_triangle_c_extends];
      eapply extends_wf; exact E.
  - (* 12 *)
    destruct (test_face s (test12 T (_config s) 0)), (test_face s (test12 T (_config s) 1));
      extends_step.
Qed.

Lemma process_cube_extends s : mesh_wf s -> extends s (process_cube T s).
Proof.
  intros W. unfold process_cube. destruct (_originalMC s).
  - apply add_triangle_extends. exact W.
  - set (s' := with_subconfig 0 _).
    assert (E : extends s s') by (apply extends_frame; try reflexivity; exact W).
    eapply extends_trans; [exact E |]. apply process_topological_extends. apply E.
Qed.


(** *** Loops and passes *)

Lemma for_loop_extends (setv : Z -> MarchingCubes real -> MarchingCubes real) (n : Z)
    (body : MarchingCubes real -> MarchingCubes real) :
  (forall v s, mesh_wf s -> extends s (setv v s)) ->
  (forall s, mesh_wf s -> extends s (body s)) ->
  forall s, mesh_wf s -> extends s (for_loop setv n body s).
Proof.
  intros Hset Hbody s W. unfold for_loop.
  assert (H : forall vs s, mesh_wf s ->
            extends s (fold_left (fun s v => body (setv v s)) vs s)).
  { induction vs as [|v vs IH]; intros s1 W1; cbn [fold_left].
    - apply extends_refl. exact W1.
    - assert (E : extends s1 (body (setv v s1))).
      { eapply extends_trans; [apply Hset; exact W1 |].
        apply Hbody. eapply extends_wf. apply Hset. exact W1. }
      eapply extends_trans; [exact E |]. apply IH. eapply extends_wf. exact E. }
  eapply extends_trans; [apply H; exact W |].
  apply Hset. eapply extends_wf. apply H. exact W.
Qed.

Lemma with_i_extends (v : Z) s : mesh_wf s -> extends s (with_i v s).
Proof. intros W. apply extends_frame; try reflexivity. exact W. Qed.
Lemma with_j_extends (v : Z) s : mesh_wf s -> extends s (with_j v s).
Proof. intros W. apply extends_frame; try reflexivity. exact W. Qed.
Lemma with_k_extends (v : Z) s : mesh_wf s -> extends s (with_k v s).
Proof. intros W. apply extends_frame; try reflexivity. exact W. Qed.

Lemma load_edge_corners_extends (iso : real) s :
  mesh_wf s -> extends s (load_edge_corners iso s).
Proof. intros W. apply extends_frame; try reflexivity. exact W. Qed.

Lemma intersect_x_unfold s :
  intersect_x s =
    set_x_vert (eval add_x_vertex s) (_i (exec add_x_vertex s)) (_j (exec add_x_vertex s))
      (_k (exec add_x_vertex s)) (exec add_x_vertex s).
Proof. reflexivity. Qed.
Lemma intersect_y_unfold s :
  intersect_y s =
    set_y_vert (eval add_y_vertex s) (_i (exec add_y_vertex s)) (_j (exec add_y_vertex s))
      (_k (exec add_y_vertex s)) (exec add_y_vertex s).
Proof. reflexivity. Qed.
Lemma intersect_z_unfold s :
  intersect_z s =
    set_z_vert (eval add_z_vertex s) (_i (exec add_z_vertex s)) (_j (exec add_z_vertex s))
      (_k (exec add_z_vertex s)) (exec add_z_vertex s).
Proof. reflexivity. Qed.

Lemma intersect_x_extends s : mesh_wf s -> extends s (intersect_x s).
Proof.
  intros W. rewrite intersect_x_unfold.
  pose proof (add_x_vertex_extends s W) as E.
  eapply extends_trans; [exact E |].
  apply extends_frame; try reflexivity. eapply extends_wf. exact E.
Qed.
Lemma intersect_y_extends s : mesh_wf s -> extends s (intersect_y s).
Proof.
  intros W. rewrite intersect_y_unfold.
  pose proof (add_y_vertex_extends s W) as E.
  eapply extends_trans; [exact E |].
  apply extends_frame; try reflexivity. eapply extends_wf. exact E.
Qed.
Lemma intersect_z_extends s : mesh_wf s -> extends s (intersect_z s).
Proof.
  intros W. rewrite intersect_z_unfold.
  pose proof (add_z_vertex_extends s W) as E.
  eapply extends_trans; [exact E |].
  apply extends_frame; try reflexivity. eapply extends_wf. exact E.
Qed.

Lemma extends_if (b : bool) (f : MarchingCubes real -> MarchingCubes real) s :
  (forall s, mesh_wf s -> extends s (f s)) ->
  mesh_wf s -> extends s (if b then f s else s).
Proof. intros Hf W. destruct b; [apply Hf | apply extends_refl]; exact W. Qed.

Lemma intersect_edges_extends s : mesh_wf s -> extends s (intersect_edges s).
Proof.
  intros W. unfold intersect_edges.
  destruct (_cube s 0 <? r_of_Z 0)%real.
  - set (s1 := if (_cube s 1 >? r_of_Z 0)%real then intersect_x s else s).
    assert (E1 : extends s s1) by (apply extends_if; [apply intersect_x_extends | exact W]).
    set (s2 := if (_cube s1 3 >? r_of_Z 0)%real then intersect_y s1 else s1).
    assert (E2 : extends s1 s2)
      by (apply extends_if; [apply intersect_y_extends | eapply extends_wf; exact E1]).
    eapply extends_trans; [exact E1 |]. eapply extends_trans; [exact E2 |].
    apply extends_if; [apply intersect_z_extends | eapply extends_wf; exact E2].
  - set (s1 := if (_cube s 1 <? r_of_Z 0)%real then intersect_x s else s).
    assert (E1 : extends s s1) by (apply extends_if; [apply intersect_x_extends | exact W]).
    set (s2 := if (_cube s1 3 <? r_of_Z 0)%real then intersect_y s1 else s1).
    assert (E2 : extends s1 s2)
      by (apply extends_if; [apply intersect_y_extends | eapply extends_wf; exact E1]).
    eapply extends_trans; [exact E1 |]. eapply extends_trans; [exact E2 |].
    apply extends_if; [apply intersect_z_extends | eapply extends_wf; exact E2].
Qed.

Lemma intersection_step_extends (iso : real) s :
  mesh_wf s -> extends s (intersection_step iso s).
Proof.
  intros W. unfold intersection_step.
  eapply extends_trans; [apply load_edge_corners_extends; exact W |].
  apply intersect_edges_extends. eapply extends_wf.
  apply load_edge_corners_extends. exact W.
Qed.

Lemma compute_intersection_points_extends (iso : real) s :
  mesh_wf s -> extends s (compute_intersection_points iso s).
Proof.
  intros W. unfold compute_intersection_points.
  apply for_loop_extends; [apply with_k_extends | | exact W].
  intros s1 W1. apply for_loop_extends; [apply with_j_extends | | exact W1].
  intros s2 W2. apply for_loop_extends; [apply with_i_extends | | exact W2].
  apply intersection_step_extends.
Qed.

Lemma load_corner_extends (iso : real) (p : Z) s :
  mesh_wf s -> extends s (load_corner iso s p).
Proof.
  intros W. unfold load_corner.
  destruct (_ >? _)%real; apply extends_frame; try reflexivity; exact W.
Qed.

Lemma cell_step_extends (iso : real) s : mesh_wf s -> extends s (cell_step T iso s).
Proof.
  intros W. unfold cell_step.
  assert (H : forall ps s, mesh_wf s -> extends s (fold_left (load_corner iso) ps s)).
  { induction ps as [|p ps IH]; intros s1 W1; cbn [fold_left].
    - apply extends_refl. exact W1.
    - eapply extends_trans; [apply load_corner_extends; exact W1 |].
      apply IH. eapply extends_wf. apply load_corner_extends. exact W1. }
  assert (E0 : extends s (with_lut_entry 0 s))
    by (apply extends_frame; try reflexivity; exact W).
  pose proof (H [0; 1; 2; 3; 4; 5; 6; 7] _ (extends_wf _ _ E0)) as E1.
  eapply extends_trans; [exact E0 |]. eapply extends_trans; [exact E1 |].
  apply process_cube_extends. eapply extends_wf. exact E1.
Qed.

Lemma run_extends (iso : real) s : mesh_wf s -> extends s (run T iso s).
Proof.
  intros W. unfold run.
  pose proof (compute_intersection_points_extends iso s W) as E.
  eapply extends_trans; [exact E |].
  apply for_loop_extends; [apply with_k_extends | | eapply extends_wf; exact E].
  intros s1 W1. apply for_loop_extends; [apply with_j_extends | | exact W1].
  intros s2 W2. apply for_loop_extends; [apply with_i_extends | | exact W2].
  apply cell_step_extends.
Qed.

Lemma extends_mesh_prefix s s' :
  mesh_wf s -> extends s s' ->
  (exists vs, vertices s' = vertices s ++ vs) /\
  (exists ts, triangles s' = triangles s ++ ts).
Proof.
  intros W (W' & _ & _ & _ & _ & _ & Nv & Nt & V & Tr). unfold vertices, triangles.
  destruct W as (Wv & _ & _ & Wt & _).
  split.
  - exists (drop (Z.to_nat (_nverts s)) (take (Z.to_nat (_nverts s')) (_vertices s'))).
    rewrite <- V.
    rewrite <- (take_take_le (_vertices s') (Z.to_nat (_nverts s)) (Z.to_nat (_nverts s')))
      by lia.
    rewrite take_drop. reflexivity.
  - exists (drop (Z.to_nat (_ntrigs s)) (take (Z.to_nat (_ntrigs s')) (_triangles s'))).
    rewrite <- Tr.
    rewrite <- (take_take_le (_triangles s') (Z.to_nat (_ntrigs s)) (Z.to_nat (_ntrigs s')))
      by lia.
    rewrite take_drop. reflexivity.
Qed.

Lemma init_all_wf s : mesh_wf (init_all s).
Proof.
  unfold mesh_wf, init_all. cbn. rewrite !length_resize. unfold ALLOC_SIZE. lia.
Qed.

(** ** The edge-intersection pass *)

(** *** Indexing the grid *)

Lemma at_index_insert {A} (l : list A) (a b : Z) (v d : A) :
  0 <= a -> 0 <= b -> (Z.to_nat a < length l)%nat ->
  at_index (<[Z.to_nat a := v]> l) b d = if a =? b then v else at_index l b d.
Proof.
  intros Ha Hb Hlen. unfold at_index. rewrite !nth_lookup.
  destruct (Z.eqb_spec a b) as [-> | Hne].
  - rewrite list_lookup_insert_eq by exact Hlen. reflexivity.
  - rewrite list_lookup_insert_ne by lia. reflexivity.
Qed.

Lemma at_index_replicate {A} (n : nat) (b : Z) (d : A) :
  at_index (replicate n d) b d = d.
Proof.
  unfold at_index. rewrite nth_lookup.
  destruct (replicate n d !! Z.to_nat b) as [v|] eqn:H; [| reflexivity].
  apply lookup_replicate in H. cbn. apply H.
Qed.

Lemma grid_index_range (sx sy sz i j k : Z) :
  in_grid sx sy sz i j k ->
  0 <= i + j * sx + k * sx * sy < sx * sy * sz.
Proof.
  unfold in_grid. intros (Hi & Hj & Hk).
  assert (H1 : 0 <= j * sx <= (sy - 1) * sx) by nia.
  assert (H2 : 0 <= k * (sx * sy) <= (sz - 1) * (sx * sy)) by nia.
  replace (k * sx * sy) with (k * (sx * sy)) by ring.
  replace (sx * sy * sz) with ((sz - 1) * (sx * sy) + (sy - 1) * sx + sx) by ring.
  lia.
Qed.

Lemma grid_index_inj (sx sy sz i j k i' j' k' : Z) :
  in_grid sx sy sz i j k -> in_grid sx sy sz i' j' k' ->
  i + j * sx + k * sx * sy = i' + j' * sx + k' * sx * sy ->
  i = i' /\ j = j' /\ k = k'.
Proof.
  intros G G' H.
  pose proof (grid_index_range sx sy 1 i j 0) as R.
  pose proof (grid_index_range sx sy 1 i' j' 0) as R'.
  unfold in_grid in *. destruct G as (Hi & Hj & Hk), G' as (Hi' & Hj' & Hk').
  assert (Hr : 0 <= i + j * sx < sx * sy) by lia.
  assert (Hr' : 0 <= i' + j' * sx < sx * sy) by lia.
  replace (k * sx * sy) with (k * (sx * sy)) in H by ring.
  replace (k' * sx * sy) with (k' * (sx * sy)) in H by ring.
  assert (Hk2 : k = k') by nia. subst k'.
  assert (Hj2 : j = j') by nia. subst j'.
  lia.
Qed.


(** *** One step of the edge-intersection pass *)

Lemma test_vertex_addition_frame s :
  exists Nv vs, test_vertex_addition s = with_vertices vs (with_Nverts Nv s).
Proof.
  unfold test_vertex_addition. destruct (_nverts s >=? _Nverts s).
  - eexists _, _. reflexivity.
  - exists (_Nverts s), (_vertices s). destruct s. reflexivity.
Qed.

Lemma cond_intersect_x_frame (b : bool) s :
  exists Nv vs nv, _nverts s <= nv /\
    (if b then intersect_x s else s) =
      with_x_verts
        (if b then <[Z.to_nat (grid_index s (_i s) (_j s) (_k s)) := _nverts s + 1 - 1]>
                     (_x_verts s)
         else _x_verts s)
        (with_vertices vs (with_Nverts Nv (with_nverts nv s))).
Proof.
  destruct b.
  - unfold intersect_x, add_x_vertex.
    destruct (test_vertex_addition_frame s) as (Nv & vs & ->).
    eexists _, _, (_nverts s + 1). split; [lia | reflexivity].
  - exists (_Nverts s), (_vertices s), (_nverts s). split; [lia |].
    destruct s. reflexivity.
Qed.

Lemma cond_intersect_y_frame (b : bool) s :
  exists Nv vs nv, _nverts s <= nv /\
    (if b then intersect_y s else s) =
      with_y_verts
        (if b then <[Z.to_nat (grid_index s (_i s) (_j s) (_k s)) := _nverts s + 1 - 1]>
                     (_y_verts s)
         else _y_verts s)
        (with_vertices vs (with_Nverts Nv (with_nverts nv s))).
Proof.
  destruct b.
  - unfold intersect_y, add_y_vertex.
    destruct (test_vertex_addition_frame s) as (Nv & vs & ->).
    eexists _, _, (_nverts s + 1). split; [lia | reflexivity].
  - exists (_Nverts s), (_vertices s), (_nverts s). split; [lia |].
    destruct s. reflexivity.
Qed.

Lemma cond_intersect_z_frame (b : bool) s :
  exists Nv vs nv, _nverts s <= nv /\
    (if b then intersect_z s else s) =
      with_z_verts
        (if b then <[Z.to_nat (grid_index s (_i s) (_j s) (_k s)) := _nverts s + 1 - 1]>
                     (_z_verts s)
         else _z_verts s)
        (with_vertices vs (with_Nverts Nv (with_nverts nv s))).
Proof.
  destruct b.
  - unfold intersect_z, add_z_vertex.
    destruct (test_vertex_addition_frame s) as (Nv & vs & ->).
    eexists _, _, (_nverts s + 1). split; [lia | reflexivity].
  - exists (_Nverts s), (_vertices s), (_nverts s). split; [lia |].
    destruct s. reflexivity.
Qed.

(** What one step does to the three edge maps: on each axis whose edge test
    holds, the entry of the current grid point receives a vertex id that
    is at least the former [_nverts]; nothing else in the maps changes. *)
Lemma intersection_step_maps (iso : real) s :
  let s1 := load_edge_corners iso s in
  let s' := intersection_step iso s in
  let pos := Z.to_nat (grid_index s (_i s) (_j s) (_k s)) in
  exists a b c,
    _nverts s <= a /\ _nverts s <= b /\ _nverts s <= c /\
    _x_verts s' = (if edge_crossed (_cube s1 0) (_cube s1 1)
                   then <[pos := a]> (_x_verts s) else _x_verts s) /\
    _y_verts s' = (if edge_crossed (_cube s1 0) (_cube s1 3)
                   then <[pos := b]> (_y_verts s) else _y_verts s) /\
    _z_verts s' = (if edge_crossed (_cube s1 0) (_cube s1 4)
                   then <[pos := c]> (_z_verts s) else _z_verts s) /\
    _nverts s <= _nverts s' /\
    _size_x s' = _size_x s /\ _size_y s' = _size_y s /\ _size_z s' = _size_z s /\
    _data s' = _data s /\ _i s' = _i s /\ _j s' = _j s /\ _k s' = _k s.
Proof.
  intros s1 s' pos. subst s'. unfold intersection_step. fold s1.
  assert (Hs1 : _x_verts s1 = _x_verts s /\ _y_verts s1 = _y_verts s /\
                _z_verts s1 = _z_verts s /\ _nverts s1 = _nverts s /\
                _size_x s1 = _size_x s /\ _size_y s1 = _size_y s /\ _size_z s1 = _size_z s /\
                _data s1 = _data s /\ _i s1 = _i s /\ _j s1 = _j s /\ _k s1 = _k s)
    by (repeat split).
  subst pos. unfold grid_index.
  destruct Hs1 as (Hx & Hy & Hz & Hn & Hsx & Hsy & Hsz & Hd & Hi & Hj & Hk).
  rewrite <- Hx, <- Hy, <- Hz, <- Hn, <- Hsx, <- Hsy, <- Hsz, <- Hd, <- Hi, <- Hj, <- Hk.
  clear Hx Hy Hz Hn Hsx Hsy Hsz Hd Hi Hj Hk. clearbody s1. clear s.
  destruct s1 as [mode sx sy sz data xv yv zv nv nt Nv Nt vs ts i j k cube lut cs cfg sub out].
  unfold intersect_edges, edge_crossed. cbn [_cube _x_verts _y_verts _z_verts _nverts
    _size_x _size_y _size_z _data _i _j _k].
  set (pos := Z.to_nat (i + j * sx + k * sx * sy)).
  assert (step : forall (b1 b3 b4 : bool),
    let s1 := mkMC mode sx sy sz data xv yv zv nv nt Nv Nt vs ts i j k cube lut cs cfg sub out in
    let s2 := if b1 then intersect_x s1 else s1 in
    let s3 := if b3 then intersect_y s2 else s2 in
    let s4 := if b4 then intersect_z s3 else s3 in
    exists a b c,
      nv <= a /\ nv <= b /\ nv <= c /\
      _x_verts s4 = (if b1 then <[pos := a]> xv else xv) /\
      _y_verts s4 = (if b3 then <[pos := b]> yv else yv) /\
      _z_verts s4 = (if b4 then <[pos := c]> zv else zv) /\
      nv <= _nverts s4 /\
      _size_x s4 = sx /\ _size_y s4 = sy /\ _size_z s4 = sz /\
      _data s4 = data /\ _i s4 = i /\ _j s4 = j /\ _k s4 = k /\ _cube s4 = cube /\
      _cube s2 = cube /\ _cube s3 = cube).
  { intros b1 b3 b4 s1 s2 s3 s4.
    destruct (cond_intersect_x_frame b1 s1) as (Nv1 & vs1 & nv1 & Hn1 & E1).
    fold s2 in E1. subst s1. cbn in E1, Hn1.
    destruct (cond_intersect_y_frame b3 s2) as (Nv2 & vs2 & nv2 & Hn2 & E2).
    fold s3 in E2. rewrite E1 in E2, Hn2. cbn in E2, Hn2.
    destruct (cond_intersect_z_frame b4 s3) as (Nv3 & vs3 & nv3 & Hn3 & E3).
    fold s4 in E3. rewrite E2 in E3, Hn3. cbn in E3, Hn3.
    rewrite E3, E2, E1. cbn. fold pos.
    exists (nv + 1 - 1), (nv1 + 1 - 1), (nv2 + 1 - 1).
    repeat split; lia. }
  destruct (cube 0 <? r_of_Z 0)%real.
  - specialize (step (cube 1 >? r_of_Z 0)%real (cube 3 >? r_of_Z 0)%real
                     (cube 4 >? r_of_Z 0)%real).
    cbv zeta in step. destruct step as (a & b & c & H).
    destruct H as (Ha & Hb & Hc & Hx & Hy & Hz & Hn & Hsx & Hsy & Hsz & Hd & Hi & Hj & Hk
                   & Hc4 & Hc2 & Hc3).
    rewrite Hc2, Hc3. exists a, b, c. repeat split; assumption.
  - specialize (step (cube 1 <? r_of_Z 0)%real (cube 3 <? r_of_Z 0)%real
                     (cube 4 <? r_of_Z 0)%real).
    cbv zeta in step. destruct step as (a & b & c & H).
    destruct H as (Ha & Hb & Hc & Hx & Hy & Hz & Hn & Hsx & Hsy & Hsz & Hd & Hi & Hj & Hk
                   & Hc4 & Hc2 & Hc3).
    rewrite Hc2, Hc3. exists a, b, c. repeat split; assumption.
Qed.


(** *** Loops that pass one marked iteration *)

Section Loops.
Context {A : Type} (obs : MarchingCubes real -> A) (I : MarchingCubes real -> Prop).
Variable setv : Z -> MarchingCubes real -> MarchingCubes real.
Variable body : MarchingCubes real -> MarchingCubes real.
Variable n : Z.
Hypothesis setv_I : forall v s, I s -> I (setv v s).
Hypothesis setv_obs : forall v s, obs (setv v s) = obs s.
Hypothesis body_I : forall v s, 0 <= v < n -> I s -> I (body (setv v s)).

Lemma fold_loop_miss (vs : list Z) s :
  (forall v, In v vs -> 0 <= v < n) ->
  (forall v s, In v vs -> I s -> obs (body (setv v s)) = obs s) ->
  I s ->
  I (fold_left (fun s v => body (setv v s)) vs s) /\
  obs (fold_left (fun s v => body (setv v s)) vs s) = obs s.
Proof.
  revert s. induction vs as [|v vs IH]; intros s Hr Hm Hs; cbn [fold_left].
  - auto.
  - destruct (IH (body (setv v s))) as [H1 H2].
    + intros w Hw. apply Hr. right. exact Hw.
    + intros w s' Hw. apply Hm. right. exact Hw.
    + apply body_I; [apply Hr; left; reflexivity | exact Hs].
    + split; [exact H1 |]. rewrite H2. apply Hm; [left; reflexivity | exact Hs].
Qed.

Lemma loop_range_in (v : Z) : In v (map Z.of_nat (seq 0 (Z.to_nat n))) <-> 0 <= v < n.
Proof.
  rewrite in_map_iff. split.
  - intros (m & <- & Hm). apply in_seq in Hm. lia.
  - intros Hv. exists (Z.to_nat v). split; [lia | apply in_seq; lia].
Qed.

(** No iteration changes the observation. *)
Lemma for_loop_miss s :
  (forall v s, 0 <= v < n -> I s -> obs (body (setv v s)) = obs s) ->
  I s ->
  I (for_loop setv n body s) /\ obs (for_loop setv n body s) = obs s.
Proof.
  intros Hm Hs. unfold for_loop.
  destruct (fold_loop_miss (map Z.of_nat (seq 0 (Z.to_nat n))) s) as [H1 H2].
  - intros v Hv. apply loop_range_in. exact Hv.
  - intros v s' Hv. apply Hm. apply loop_range_in. exact Hv.
  - exact Hs.
  - split; [apply setv_I; exact H1 | rewrite setv_obs; exact H2].
Qed.

(** Only iteration [v0] changes the observation. *)
Lemma for_loop_hit (v0 : Z) s :
  0 <= v0 < n ->
  (forall v s, 0 <= v < n -> v <> v0 -> I s -> obs (body (setv v s)) = obs s) ->
  I s ->
  I (for_loop setv n body s) /\
  exists s1, I s1 /\ obs s1 = obs s /\
             obs (for_loop setv n body s) = obs (body (setv v0 s1)).
Proof.
  intros Hv0 Hm Hs. unfold for_loop.
  assert (Hsplit : map Z.of_nat (seq 0 (Z.to_nat n)) =
            map Z.of_nat (seq 0 (Z.to_nat v0)) ++ v0 ::
            map Z.of_nat (seq (S (Z.to_nat v0)) (Z.to_nat n - S (Z.to_nat v0)))).
  { replace (Z.to_nat n) with (Z.to_nat v0 + S (Z.to_nat n - S (Z.to_nat v0)))%nat at 1
      by lia.
    rewrite seq_app, map_app. cbn [seq map Nat.add].
    rewrite Z2Nat.id by lia. reflexivity. }
  rewrite Hsplit, fold_left_app. cbn [fold_left].
  destruct (fold_loop_miss (map Z.of_nat (seq 0 (Z.to_nat v0))) s) as [H1 H2].
  { intros v Hv. apply in_map_iff in Hv. destruct Hv as (m & <- & Hm').
    apply in_seq in Hm'. lia. }
  { intros v s' Hv. apply in_map_iff in Hv. destruct Hv as (m & <- & Hm').
    apply in_seq in Hm'. apply Hm; lia. }
  { exact Hs. }
  set (s1 := fold_left _ (map Z.of_nat (seq 0 (Z.to_nat v0))) s) in *.
  destruct (fold_loop_miss
              (map Z.of_nat (seq (S (Z.to_nat v0)) (Z.to_nat n - S (Z.to_nat v0))))
              (body (setv v0 s1))) as [H3 H4].
  { intros v Hv. apply in_map_iff in Hv. destruct Hv as (m & <- & Hm').
    apply in_seq in Hm'. lia. }
  { intros v s' Hv. apply in_map_iff in Hv. destruct Hv as (m & <- & Hm').
    apply in_seq in Hm'. apply Hm; lia. }
  { apply body_I; [exact Hv0 | exact H1]. }
  split; [apply setv_I; exact H3 |].
  exists s1. rewrite setv_obs. auto.
Qed.

End Loops.


(** *** The whole pass, seen from one grid point *)

Section OnePoint.
Variable iso : real.
Variables sx sy sz : Z.
Variable data : list real.
Variables i0 j0 k0 : Z.
Hypothesis target_in_grid : in_grid sx sy sz i0 j0 k0.

Local Abbreviation grid_inv := (grid_invariant sx sy sz data).
Local Abbreviation entries := (map_entries sx sy i0 j0 k0).
Local Abbreviation inv_i := (row_invariant sx sy sz data).
Local Abbreviation inv_j := (slab_invariant sx sy sz data).
Local Abbreviation i_loop := (row_loop iso).
Local Abbreviation j_loop := (slab_loop iso).

Lemma step_inv s :
  grid_inv s -> in_grid sx sy sz (_i s) (_j s) (_k s) ->
  grid_inv (intersection_step iso s) /\
  _j (intersection_step iso s) = _j s /\ _k (intersection_step iso s) = _k s.
Proof.
  intros (Hsx & Hsy & Hsz & Hd & Lx & Ly & Lz & Hn) G.
  destruct (intersection_step_maps iso s)
    as (a & b & c & Ha & Hb & Hc & Ex & Ey & Ez & Hn' & Hsx' & Hsy' & Hsz' & Hd' & Hi' & Hj' & Hk').
  assert (Hlen : forall (b : bool) (l : list Z) (p : nat) (v : Z),
            length (if b then <[p := v]> l else l) = length l)
    by (intros [] l p v; [apply length_insert | reflexivity]).
  unfold grid_invariant. rewrite Ex, Ey, Ez, Hsx', Hsy', Hsz', Hd', !Hlen.
  repeat split; try assumption; try lia.
Qed.

Lemma at_index_cond_insert (b : bool) (l : list Z) (p t a : Z) :
  0 <= p -> 0 <= t -> (Z.to_nat p < length l)%nat ->
  at_index (if b then <[Z.to_nat p := a]> l else l) t (-1) =
    if b && (p =? t) then a else at_index l t (-1).
Proof.
  intros Hp Ht Hl. destruct b; cbn [andb]; [| reflexivity].
  apply at_index_insert; assumption.
Qed.

Lemma step_entries s :
  grid_inv s -> in_grid sx sy sz (_i s) (_j s) (_k s) ->
  let s1 := load_edge_corners iso s in
  let hit := (_i s + _j s * sx + _k s * sx * sy =? i0 + j0 * sx + k0 * sx * sy) in
  exists a b c, 0 <= a /\ 0 <= b /\ 0 <= c /\
    entries (intersection_step iso s) =
      (if edge_crossed (_cube s1 0) (_cube s1 1) && hit then a else fst (fst (entries s)),
       if edge_crossed (_cube s1 0) (_cube s1 3) && hit then b else snd (fst (entries s)),
       if edge_crossed (_cube s1 0) (_cube s1 4) && hit then c else snd (entries s)).
Proof.
  intros (Hsx & Hsy & Hsz & Hd & Lx & Ly & Lz & Hn) G s1 hit.
  destruct (intersection_step_maps iso s)
    as (a & b & c & Ha & Hb & Hc & Ex & Ey & Ez & _).
  fold s1 in Ex, Ey, Ez.
  pose proof (grid_index_range _ _ _ _ _ _ G) as R.
  pose proof (grid_index_range _ _ _ _ _ _ target_in_grid) as R0.
  exists a, b, c. repeat split; try lia.
  unfold map_entries. rewrite Ex, Ey, Ez. unfold grid_index. rewrite Hsx, Hsy.
  rewrite !at_index_cond_insert by lia. reflexivity.
Qed.

Lemma step_miss s :
  grid_inv s -> in_grid sx sy sz (_i s) (_j s) (_k s) ->
  (_i s, _j s, _k s) <> (i0, j0, k0) ->
  entries (intersection_step iso s) = entries s.
Proof.
  intros Inv G Hne.
  destruct (step_entries s Inv G) as (a & b & c & _ & _ & _ & ->).
  destruct (Z.eqb_spec (_i s + _j s * sx + _k s * sx * sy) (i0 + j0 * sx + k0 * sx * sy))
    as [Heq | _].
  - destruct (grid_index_inj _ _ _ _ _ _ _ _ _ G target_in_grid Heq) as (H1 & H2 & H3).
    exfalso. apply Hne. congruence.
  - rewrite !andb_false_r. destruct (entries s) as [[ex ey] ez]. reflexivity.
Qed.

(** The three nested loops. *)

Lemma with_i_inv_i (j k v : Z) s : inv_i j k s -> inv_i j k (with_i v s).
Proof. intros H. exact H. Qed.
Lemma with_j_inv_j (k v : Z) s : inv_j k s -> inv_j k (with_j v s).
Proof. intros H. exact H. Qed.
Lemma with_k_grid_inv (v : Z) s : grid_inv s -> grid_inv (with_k v s).
Proof. intros H. exact H. Qed.

Lemma step_inv_i (j k v : Z) s :
  0 <= j < sy -> 0 <= k < sz -> 0 <= v < sx ->
  inv_i j k s -> inv_i j k (intersection_step iso (with_i v s)).
Proof.
  intros Hj Hk Hv (Inv & <- & <-).
  destruct (step_inv (with_i v s)) as (H1 & H2 & H3);
    [exact Inv | unfold in_grid; cbn; lia |].
  unfold row_invariant. auto.
Qed.

Lemma i_loop_miss (j k : Z) s :
  0 <= j < sy -> 0 <= k < sz -> (j, k) <> (j0, k0) ->
  inv_i j k s -> inv_i j k (i_loop s) /\ entries (i_loop s) = entries s.
Proof.
  intros Hj Hk Hne Inv. unfold row_loop.
  replace (_size_x s) with sx by (symmetry; apply Inv).
  apply (for_loop_miss entries (inv_i j k)).
  - intros v s'. apply with_i_inv_i.
  - reflexivity.
  - intros v s' Hv. apply step_inv_i; assumption.
  - intros v s' Hv (Inv' & Hj' & Hk').
    change (entries (intersection_step iso (with_i v s')) = entries (with_i v s')).
    apply step_miss.
    + exact Inv'.
    + unfold in_grid. cbn. lia.
    + cbn. congruence.
  - exact Inv.
Qed.

Lemma i_loop_hit s :
  inv_i j0 k0 s ->
  inv_i j0 k0 (i_loop s) /\
  exists s1, inv_i j0 k0 s1 /\ entries s1 = entries s /\
             entries (i_loop s) = entries (intersection_step iso (with_i i0 s1)).
Proof.
  intros Inv. unfold row_loop. destruct target_in_grid as (Hi & Hj & Hk).
  replace (_size_x s) with sx by (symmetry; apply Inv).
  apply (for_loop_hit entries (inv_i j0 k0)).
  - intros v s'. apply with_i_inv_i.
  - reflexivity.
  - intros v s' Hv. apply step_inv_i; assumption.
  - exact Hi.
  - intros v s' Hv Hne (Inv' & Hj' & Hk').
    change (entries (intersection_step iso (with_i v s')) = entries (with_i v s')).
    apply step_miss.
    + exact Inv'.
    + unfold in_grid. cbn. lia.
    + cbn. congruence.
  - exact Inv.
Qed.

Lemma i_loop_inv_j (k v : Z) s :
  0 <= k < sz -> 0 <= v < sy -> inv_j k s -> inv_j k (i_loop (with_j v s)).
Proof.
  intros Hk Hv (Inv & Hk').
  destruct (Z.eq_dec v j0) as [-> | Hne1]; [destruct (Z.eq_dec k k0) as [-> | Hne2] |].
  - destruct (i_loop_hit (with_j j0 s)) as [(H1 & _ & H3) _]; [split; [exact Inv | split; [reflexivity | assumption]] |].
    split; assumption.
  - destruct (i_loop_miss j0 k (with_j j0 s)) as [(H1 & _ & H3) _];
      try assumption; [congruence | split; [exact Inv | split; [reflexivity | assumption]] |].
    split; assumption.
  - destruct (i_loop_miss v k (with_j v s)) as [(H1 & _ & H3) _];
      try assumption; [congruence | split; [exact Inv | split; [reflexivity | assumption]] |].
    split; assumption.
Qed.

Lemma j_loop_miss (k : Z) s :
  0 <= k < sz -> k <> k0 ->
  inv_j k s -> inv_j k (j_loop s) /\ entries (j_loop s) = entries s.
Proof.
  intros Hk Hne Inv. unfold slab_loop.
  replace (_size_y s) with sy by (symmetry; apply Inv).
  apply (for_loop_miss entries (inv_j k)).
  - intros v s'. apply with_j_inv_j.
  - reflexivity.
  - intros v s' Hv. apply i_loop_inv_j; assumption.
  - intros v s' Hv (Inv' & Hk').
    destruct (i_loop_miss v k (with_j v s')) as [_ H]; try assumption;
      [congruence | split; [exact Inv' | split; [reflexivity | assumption]]].
  - exact Inv.
Qed.

Lemma j_loop_hit s :
  inv_j k0 s ->
  inv_j k0 (j_loop s) /\
  exists s1, inv_i j0 k0 s1 /\ entries s1 = entries s /\
             entries (j_loop s) = entries (intersection_step iso (with_i i0 s1)).
Proof.
  intros Inv. unfold slab_loop. destruct target_in_grid as (Hi & Hj & Hk).
  replace (_size_y s) with sy by (symmetry; apply Inv).
  destruct (for_loop_hit entries (inv_j k0) with_j i_loop sy) with (v0 := j0) (s := s)
    as (H1 & s1 & Inv1 & E1 & E2).
  - intros v s'. apply with_j_inv_j.
  - reflexivity.
  - intros v s' Hv. apply i_loop_inv_j; assumption.
  - exact Hj.
  - intros v s' Hv Hne (Inv' & Hk').
    destruct (i_loop_miss v k0 (with_j v s')) as [_ H]; try assumption;
      [congruence | split; [exact Inv' | split; [reflexivity | assumption]]].
  - exact Inv.
  - split; [exact H1 |].
    destruct (i_loop_hit (with_j j0 s1)) as (_ & s2 & Inv2 & E3 & E4).
    { destruct Inv1 as (G1 & K1). split; [exact G1 | split; [reflexivity | exact K1]]. }
    exists s2. split; [exact Inv2 |]. split; [rewrite E3; exact E1 |].
    rewrite E2. exact E4.
Qed.

Lemma j_loop_grid_inv (v : Z) s :
  0 <= v < sz -> grid_inv s -> grid_inv (j_loop (with_k v s)).
Proof.
  intros Hv Inv. destruct (Z.eq_dec v k0) as [-> | Hne].
  - destruct (j_loop_hit (with_k k0 s)) as [(H & _) _]; [split; [exact Inv | reflexivity] |].
    exact H.
  - destruct (j_loop_miss v (with_k v s)) as [(H & _) _]; try assumption.
    split; [exact Inv | reflexivity].
Qed.

Lemma pass_hit s :
  grid_inv s ->
  grid_inv (compute_intersection_points iso s) /\
  exists s1, inv_i j0 k0 s1 /\ entries s1 = entries s /\
    entries (compute_intersection_points iso s) =
      entries (intersection_step iso (with_i i0 s1)).
Proof.
  intros Inv. change (compute_intersection_points iso s) with (for_loop with_k (_size_z s) j_loop s).
  destruct target_in_grid as (Hi & Hj & Hk).
  replace (_size_z s) with sz by (symmetry; apply Inv).
  destruct (for_loop_hit entries grid_inv with_k j_loop sz) with (v0 := k0) (s := s)
    as (H1 & s1 & Inv1 & E1 & E2).
  - intros v s'. apply with_k_grid_inv.
  - reflexivity.
  - intros v s' Hv. apply j_loop_grid_inv; assumption.
  - exact Hk.
  - intros v s' Hv Hne Inv'.
    destruct (j_loop_miss v (with_k v s')) as [_ H]; try assumption.
    split; [exact Inv' | reflexivity].
  - exact Inv.
  - split; [exact H1 |].
    destruct (j_loop_hit (with_k k0 s1)) as (_ & s2 & Inv2 & E3 & E4).
    { split; [exact Inv1 | reflexivity]. }
    exists s2. split; [exact Inv2 |]. split; [rewrite E3; exact E1 |].
    rewrite E2. exact E4.
Qed.


Lemma load_edge_corners_edge_values s :
  let s1 := load_edge_corners iso s in
  (_cube s1 0, _cube s1 1, _cube s1 3, _cube s1 4) = edge_values iso s (_i s) (_j s) (_k s).
Proof. reflexivity. Qed.

(** After the pass, an entry of an edge map at the marked point holds an id
    exactly when the edge test held for the values loaded there. *)
Lemma pass_entries s :
  grid_inv s -> entries s = (-1, -1, -1) ->
  let s' := compute_intersection_points iso s in
  let '(c0, c1, c3, c4) := edge_values iso s i0 j0 k0 in
  _size_x s' = sx /\ _size_y s' = sy /\ _size_z s' = sz /\ _data s' = data /\
  (get_x_vert s' i0 j0 k0 <> -1 <-> edge_crossed c0 c1 = true) /\
  (get_y_vert s' i0 j0 k0 <> -1 <-> edge_crossed c0 c3 = true) /\
  (get_z_vert s' i0 j0 k0 <> -1 <-> edge_crossed c0 c4 = true).
Proof.
  intros Inv Hnone s'.
  destruct (pass_hit s Inv) as (Inv' & s1 & (Inv1 & Hj1 & Hk1) & E1 & E2). fold s' in Inv', E2.
  clearbody s'.
  assert (G : in_grid sx sy sz (_i (with_i i0 s1)) (_j (with_i i0 s1)) (_k (with_i i0 s1))).
  { cbn. rewrite Hj1, Hk1. exact target_in_grid. }
  destruct (step_entries (with_i i0 s1) Inv1 G) as (a & b & c & Ha & Hb & Hc & E3).
  rewrite E3 in E2. clear E3.
  pose proof (load_edge_corners_edge_values (with_i i0 s1)) as Hv. cbv zeta in Hv.
  set (e := _cube (load_edge_corners iso (with_i i0 s1))) in *.
  change (edge_values iso (with_i i0 s1) (_i (with_i i0 s1)) (_j (with_i i0 s1))
            (_k (with_i i0 s1)))
    with (edge_values iso (with_i i0 s1) i0 (_j s1) (_k s1)) in Hv.
  change (_i (with_i i0 s1)) with i0 in E2.
  change (_j (with_i i0 s1)) with (_j s1) in E2.
  change (_k (with_i i0 s1)) with (_k s1) in E2.
  rewrite Hj1, Hk1 in Hv, E2.
  assert (Hev : edge_values iso (with_i i0 s1) i0 j0 k0 = edge_values iso s i0 j0 k0).
  { destruct Inv1 as (X1 & Y1 & Z1 & D1 & _), Inv as (X & Y & Z0 & D & _).
    unfold edge_values, get_data, grid_index. cbn. rewrite X1, Y1, Z1, D1, X, Y, Z0, D.
    reflexivity. }
  rewrite Hev in Hv. clear Hev.
  destruct (edge_values iso s i0 j0 k0) as [[[c0 c1] c3] c4].
  injection Hv as V0 V1 V3 V4. rewrite V0, V1, V3, V4 in E2. clear V0 V1 V3 V4. clear e.
  rewrite Z.eqb_refl, !andb_true_r in E2.
  change (entries (with_i i0 s1)) with (entries s1) in E2. rewrite E1, Hnone in E2.
  cbn [fst snd] in E2.
  destruct Inv' as (X' & Y' & Z' & D' & _).
  unfold map_entries in E2. injection E2 as Ex Ey Ez.
  unfold get_x_vert, get_y_vert, get_z_vert, grid_index. rewrite X', Y', Ex, Ey, Ez.
  assert (Hiff : forall (b : bool) (v : Z), 0 <= v ->
            (if b then v else -1) <> -1 <-> b = true).
  { intros [] v Hv; split; intros H;
      first [reflexivity | discriminate H | lia | exfalso; apply H; reflexivity]. }
  do 4 (split; [first [assumption | reflexivity] |]).
  split; [apply Hiff; exact Ha |]. split; [apply Hiff; exact Hb | apply Hiff; exact Hc].
Qed.

End OnePoint.

(** ** The vertices of the edge-intersection pass *)

Section VertexFacts.
Variable P : Vertex real -> Prop.
Variable nv0 : Z.

Lemma take_eq_at_index {A} (l1 l2 : list A) (m : nat) (n : Z) (d : A) :
  take m l1 = take m l2 -> 0 <= n -> (Z.to_nat n < m)%nat ->
  at_index l1 n d = at_index l2 n d.
Proof.
  intros Ht Hn Hlt. unfold at_index. rewrite !nth_lookup.
  rewrite <- (lookup_take_lt l1 m) by exact Hlt.
  rewrite <- (lookup_take_lt l2 m) by exact Hlt.
  rewrite Ht. reflexivity.
Qed.

Lemma new_vertices_extends s s' :
  0 <= nv0 -> extends s s' -> _nverts s' = _nverts s ->
  new_vertices P nv0 s -> new_vertices P nv0 s'.
Proof.
  intros H0 (W & _ & _ & _ & _ & _ & _ & _ & V & _) Hn K n Hr.
  rewrite (take_eq_at_index _ _ _ n zero_vertex V) by lia.
  apply K. lia.
Qed.

Lemma normalize_position (v : Vertex real) :
  x (normalize v) = x v /\ y (normalize v) = y v /\ z (normalize v) = z v.
Proof. unfold normalize. destruct (_ >? _)%real; repeat split. Qed.

(** Storing a vertex that satisfies [P] keeps [new_vertices]. *)
Lemma store_vertex_new (v : Vertex real) s :
  0 <= nv0 -> mesh_wf s -> _nverts s < _Nverts s ->
  new_vertices P nv0 s -> P v -> new_vertices P nv0 (store_vertex v s).
Proof.
  intros H0 W Hfree K Hv n Hr. unfold store_vertex in *. cbn in *.
  destruct W as (Wn & _ & Wl & _).
  destruct (Z.eq_dec n (_nverts s)) as [-> | Hne].
  - unfold at_index. rewrite nth_lookup, list_lookup_insert_eq by lia. exact Hv.
  - unfold at_index. rewrite nth_lookup, list_lookup_insert_ne by lia.
    rewrite <- nth_lookup. apply K. lia.
Qed.

Lemma add_x_vertex_new s :
  0 <= nv0 -> mesh_wf s -> new_vertices P nv0 s ->
  P (normalize (x_edge_vertex s)) -> new_vertices P nv0 (exec add_x_vertex s).
Proof.
  intros H0 W K Hv. destruct (test_vertex_addition_extends s W) as (E & Hn & Hfree).
  unfold exec, add_x_vertex. cbn [snd].
  apply store_vertex_new; try assumption.
  - eapply extends_wf. exact E.
  - lia.
  - apply (new_vertices_extends s); assumption.
  - destruct (test_vertex_addition_frame s) as (Nv & vs & ->). exact Hv.
Qed.

Lemma add_y_vertex_new s :
  0 <= nv0 -> mesh_wf s -> new_vertices P nv0 s ->
  P (normalize (y_edge_vertex s)) -> new_vertices P nv0 (exec add_y_vertex s).
Proof.
  intros H0 W K Hv. destruct (test_vertex_addition_extends s W) as (E & Hn & Hfree).
  unfold exec, add_y_vertex. cbn [snd].
  apply store_vertex_new; try assumption.
  - eapply extends_wf. exact E.
  - lia.
  - apply (new_vertices_extends s); assumption.
  - destruct (test_vertex_addition_frame s) as (Nv & vs & ->). exact Hv.
Qed.

Lemma add_z_vertex_new s :
  0 <= nv0 -> mesh_wf s -> new_vertices P nv0 s ->
  P (normalize (z_edge_vertex s)) -> new_vertices P nv0 (exec add_z_vertex s).
Proof.
  intros H0 W K Hv. destruct (test_vertex_addition_extends s W) as (E & Hn & Hfree).
  unfold exec, add_z_vertex. cbn [snd].
  apply store_vertex_new; try assumption.
  - eapply extends_wf. exact E.
  - lia.
  - apply (new_vertices_extends s); assumption.
  - destruct (test_vertex_addition_frame s) as (Nv & vs & ->). exact Hv.
Qed.

Lemma cond_intersect_x_new (b : bool) s :
  0 <= nv0 -> mesh_wf s -> new_vertices P nv0 s ->
  (b = true -> P (normalize (x_edge_vertex s))) ->
  mesh_wf (if b then intersect_x s else s) /\
  new_vertices P nv0 (if b then intersect_x s else s).
Proof.
  intros H0 W K Hv. destruct b; [| auto].
  split; [eapply extends_wf; apply intersect_x_extends; exact W |].
  rewrite intersect_x_unfold. intros n Hr. apply (add_x_vertex_new s H0 W K (Hv eq_refl)).
  exact Hr.
Qed.

Lemma cond_intersect_y_new (b : bool) s :
  0 <= nv0 -> mesh_wf s -> new_vertices P nv0 s ->
  (b = true -> P (normalize (y_edge_vertex s))) ->
  mesh_wf (if b then intersect_y s else s) /\
  new_vertices P nv0 (if b then intersect_y s else s).
Proof.
  intros H0 W K Hv. destruct b; [| auto].
  split; [eapply extends_wf; apply intersect_y_extends; exact W |].
  rewrite intersect_y_unfold. intros n Hr. apply (add_y_vertex_new s H0 W K (Hv eq_refl)).
  exact Hr.
Qed.

Lemma cond_intersect_z_new (b : bool) s :
  0 <= nv0 -> mesh_wf s -> new_vertices P nv0 s ->
  (b = true -> P (normalize (z_edge_vertex s))) ->
  mesh_wf (if b then intersect_z s else s) /\
  new_vertices P nv0 (if b then intersect_z s else s).
Proof.
  intros H0 W K Hv. destruct b; [| auto].
  split; [eapply extends_wf; apply intersect_z_extends; exact W |].
  rewrite intersect_z_unfold. intros n Hr. apply (add_z_vertex_new s H0 W K (Hv eq_refl)).
  exact Hr.
Qed.


Lemma grid_view_edge_vertices s s' :
  grid_view s' = grid_view s ->
  x_edge_vertex s' = x_edge_vertex s /\ y_edge_vertex s' = y_edge_vertex s /\
  z_edge_vertex s' = z_edge_vertex s.
Proof.
  unfold grid_view. intros H. injection H as Hc Hi Hj Hk Hsx Hsy Hsz Hd.
  unfold x_edge_vertex, y_edge_vertex, z_edge_vertex, get_x_grad, get_y_grad, get_z_grad,
    get_data, grid_index.
  rewrite Hc, Hi, Hj, Hk, Hsx, Hsy, Hsz, Hd. repeat split.
Qed.

Lemma cond_intersect_x_view (b : bool) s :
  grid_view (if b then intersect_x s else s) = grid_view s.
Proof. destruct (cond_intersect_x_frame b s) as (Nv & vs & nv & _ & ->). reflexivity. Qed.

Lemma cond_intersect_y_view (b : bool) s :
  grid_view (if b then intersect_y s else s) = grid_view s.
Proof. destruct (cond_intersect_y_frame b s) as (Nv & vs & nv & _ & ->). reflexivity. Qed.

Lemma cond_intersect_z_view (b : bool) s :
  grid_view (if b then intersect_z s else s) = grid_view s.
Proof. destruct (cond_intersect_z_frame b s) as (Nv & vs & nv & _ & ->). reflexivity. Qed.

Lemma cond_intersections_new (b1 b3 b4 : bool) s :
  0 <= nv0 -> mesh_wf s -> new_vertices P nv0 s ->
  (b1 = true -> P (normalize (x_edge_vertex s))) ->
  (b3 = true -> P (normalize (y_edge_vertex s))) ->
  (b4 = true -> P (normalize (z_edge_vertex s))) ->
  let s2 := if b1 then intersect_x s else s in
  let s3 := if b3 then intersect_y s2 else s2 in
  let s4 := if b4 then intersect_z s3 else s3 in
  mesh_wf s4 /\ new_vertices P nv0 s4 /\ grid_view s4 = grid_view s /\
  _cube s2 = _cube s /\ _cube s3 = _cube s.
Proof.
  intros H0 W K H1 H3 H4 s2 s3 s4.
  pose proof (cond_intersect_x_view b1 s) as V2. fold s2 in V2.
  pose proof (cond_intersect_y_view b3 s2) as V3. fold s3 in V3.
  pose proof (cond_intersect_z_view b4 s3) as V4. fold s4 in V4.
  destruct (cond_intersect_x_new b1 s H0 W K H1) as [W2 K2]. fold s2 in W2, K2.
  destruct (grid_view_edge_vertices s s2 V2) as (_ & Ey & _).
  destruct (cond_intersect_y_new b3 s2 H0 W2 K2) as [W3 K3].
  { rewrite Ey. exact H3. }
  fold s3 in W3, K3.
  assert (V3' : grid_view s3 = grid_view s) by congruence.
  destruct (grid_view_edge_vertices s s3 V3') as (_ & _ & Ez).
  destruct (cond_intersect_z_new b4 s3 H0 W3 K3) as [W4 K4].
  { rewrite Ez. exact H4. }
  fold s4 in W4, K4.
  split; [exact W4 |]. split; [exact K4 |]. split; [congruence |].
  unfold grid_view in V2, V3'. split; congruence.
Qed.

Lemma intersect_edges_new s :
  0 <= nv0 -> mesh_wf s -> new_vertices P nv0 s ->
  (edge_crossed (_cube s 0) (_cube s 1) = true -> P (normalize (x_edge_vertex s))) ->
  (edge_crossed (_cube s 0) (_cube s 3) = true -> P (normalize (y_edge_vertex s))) ->
  (edge_crossed (_cube s 0) (_cube s 4) = true -> P (normalize (z_edge_vertex s))) ->
  mesh_wf (intersect_edges s) /\ new_vertices P nv0 (intersect_edges s) /\
  grid_view (intersect_edges s) = grid_view s.
Proof.
  intros H0 W K. unfold intersect_edges, edge_crossed.
  destruct (_cube s 0 <? r_of_Z 0)%real; intros H1 H3 H4.
  - destruct (cond_intersections_new (_cube s 1 >? r_of_Z 0)%real (_cube s 3 >? r_of_Z 0)%real
                (_cube s 4 >? r_of_Z 0)%real s H0 W K H1 H3 H4)
      as (W4 & K4 & V4 & C2 & C3).
    rewrite C2, C3. auto.
  - destruct (cond_intersections_new (_cube s 1 <? r_of_Z 0)%real (_cube s 3 <? r_of_Z 0)%real
                (_cube s 4 <? r_of_Z 0)%real s H0 W K H1 H3 H4)
      as (W4 & K4 & V4 & C2 & C3).
    rewrite C2, C3. auto.
Qed.

End VertexFacts.

Section VertexPass.
Variable iso : real.
Variable s0 : MarchingCubes real.

Local Abbreviation vinv := (vertex_invariant iso s0).

Lemma step_vertex_invariant s :
  0 <= _nverts s0 -> vinv s ->
  in_grid (_size_x s0) (_size_y s0) (_size_z s0) (_i s) (_j s) (_k s) ->
  vinv (intersection_step iso s) /\
  _j (intersection_step iso s) = _j s /\ _k (intersection_step iso s) = _k s.
Proof.
  intros H0 (W & K & Hsx & Hsy & Hsz & Hd) G. unfold intersection_step.
  set (s1 := load_edge_corners iso s).
  assert (W1 : mesh_wf s1) by exact W.
  assert (K1 : new_vertices (on_crossed_edge iso s0) (_nverts s0) s1) by exact K.
  pose proof (load_edge_corners_edge_values iso s) as Hv. cbv zeta in Hv. fold s1 in Hv.
  assert (Hev : edge_values iso s (_i s) (_j s) (_k s)
                = edge_values iso s0 (_i s) (_j s) (_k s)).
  { unfold edge_values, get_data, grid_index. rewrite Hsx, Hsy, Hsz, Hd. reflexivity. }
  rewrite Hev in Hv. clear Hev.
  destruct (intersect_edges_new (on_crossed_edge iso s0) (_nverts s0) s1 H0 W1 K1)
    as (W' & K' & V').
  - intros Hc. exists (_i s), (_j s), (_k s). split; [exact G |].
    destruct (edge_values iso s0 (_i s) (_j s) (_k s)) as [[[c0 c1] c3] c4].
    injection Hv as <- <- <- <-. left.
    destruct (normalize_position (x_edge_vertex s1)) as (-> & -> & ->).
    repeat split. exact Hc.
  - intros Hc. exists (_i s), (_j s), (_k s). split; [exact G |].
    destruct (edge_values iso s0 (_i s) (_j s) (_k s)) as [[[c0 c1] c3] c4].
    injection Hv as <- <- <- <-. right. left.
    destruct (normalize_position (y_edge_vertex s1)) as (-> & -> & ->).
    repeat split. exact Hc.
  - intros Hc. exists (_i s), (_j s), (_k s). split; [exact G |].
    destruct (edge_values iso s0 (_i s) (_j s) (_k s)) as [[[c0 c1] c3] c4].
    injection Hv as <- <- <- <-. right. right.
    destruct (normalize_position (z_edge_vertex s1)) as (-> & -> & ->).
    repeat split. exact Hc.
  - unfold grid_view in V'. injection V' as _ _ Hj Hk Hx Hy Hz Hd'.
    unfold vertex_invariant. rewrite Hx, Hy, Hz, Hd'.
    split; [| split; [exact Hj | exact Hk]].
    split; [exact W' |]. split; [exact K' |].
    split; [exact Hsx |]. split; [exact Hsy |]. split; [exact Hsz | exact Hd].
Qed.


Lemma row_loop_vertex_invariant (j k : Z) s :
  0 <= _nverts s0 -> 0 <= j < _size_y s0 -> 0 <= k < _size_z s0 ->
  vinv s /\ _j s = j /\ _k s = k ->
  vinv (row_loop iso s) /\ _j (row_loop iso s) = j /\ _k (row_loop iso s) = k.
Proof.
  intros H0 Hj Hk Inv. unfold row_loop.
  replace (_size_x s) with (_size_x s0) by (symmetry; apply Inv).
  apply (for_loop_miss (fun _ => tt) (fun s => vinv s /\ _j s = j /\ _k s = k)).
  - intros v s1 H. exact H.
  - reflexivity.
  - intros v s1 Hv (Inv1 & Hj1 & Hk1).
    destruct (step_vertex_invariant (with_i v s1) H0 Inv1) as (H1 & H2 & H3).
    + unfold in_grid. cbn. lia.
    + cbn in H2, H3. split; [exact H1 |]. split; congruence.
  - reflexivity.
  - exact Inv.
Qed.

Lemma slab_loop_vertex_invariant (k : Z) s :
  0 <= _nverts s0 -> 0 <= k < _size_z s0 ->
  vinv s /\ _k s = k -> vinv (slab_loop iso s) /\ _k (slab_loop iso s) = k.
Proof.
  intros H0 Hk Inv. unfold slab_loop.
  replace (_size_y s) with (_size_y s0) by (symmetry; apply Inv).
  apply (for_loop_miss (fun _ => tt) (fun s => vinv s /\ _k s = k)).
  - intros v s1 H. exact H.
  - reflexivity.
  - intros v s1 Hv (Inv1 & Hk1).
    destruct (row_loop_vertex_invariant v k (with_j v s1) H0 Hv Hk) as (H1 & _ & H3).
    + split; [exact Inv1 |]. split; [reflexivity | exact Hk1].
    + split; assumption.
  - reflexivity.
  - exact Inv.
Qed.

Lemma pass_vertex_invariant s :
  0 <= _nverts s0 -> vinv s -> vinv (compute_intersection_points iso s).
Proof.
  intros H0 Inv.
  change (compute_intersection_points iso s)
    with (for_loop with_k (_size_z s) (slab_loop iso) s).
  replace (_size_z s) with (_size_z s0) by (symmetry; apply Inv).
  apply (for_loop_miss (fun _ => tt) vinv).
  - intros v s1 H. exact H.
  - reflexivity.
  - intros v s1 Hv Inv1.
    destruct (slab_loop_vertex_invariant v (with_k v s1) H0 Hv) as (H1 & _).
    + split; [exact Inv1 | reflexivity].
    + exact H1.
  - reflexivity.
  - exact Inv.
Qed.

(** Every vertex the pass creates lies on a grid edge whose edge test
    holds. *)
Lemma pass_creates_edge_vertices (n : Z) :
  mesh_wf s0 ->
  _nverts s0 <= n < _nverts (compute_intersection_points iso s0) ->
  on_crossed_edge iso s0
    (at_index (_vertices (compute_intersection_points iso s0)) n zero_vertex).
Proof.
  intros W Hn.
  assert (H0 : 0 <= _nverts s0) by (destruct W as (? & _); lia).
  assert (Inv : vinv s0).
  { split; [exact W |]. split; [intros m Hm; lia | repeat split]. }
  destruct (pass_vertex_invariant s0 H0 Inv) as (_ & K & _). apply K. exact Hn.
Qed.

End VertexPass.

(** ** The sign of the interior test *)

Lemma sign_tests_negate (s7 : Z) :
  s7 <> 0 -> (- s7 >? 0) = negb (s7 >? 0) /\ (- s7 <? 0) = negb (s7 <? 0).
Proof.
  intros H. split.
  - destruct (Z.gtb_spec (- s7) 0), (Z.gtb_spec s7 0); cbn; try reflexivity; lia.
  - destruct (Z.ltb_spec (- s7) 0), (Z.ltb_spec s7 0); cbn; try reflexivity; lia.
Qed.

Lemma interior_decide_negate (At Bt Ct Dt : real) (s7 : Z) :
  s7 <> 0 ->
  interior_decide At Bt Ct Dt (- s7) = negb (interior_decide At Bt Ct Dt s7).
Proof.
  intros H. destruct (sign_tests_negate s7 H) as [Hg Hl].
  unfold interior_decide. pose proof (interior_code_range At Bt Ct Dt) as R.
  set (c := interior_code At Bt Ct Dt) in *.
  assert (Hc : In c [0; 1; 2; 3; 4; 5; 6; 7; 8; 9; 10; 11; 12; 13; 14; 15]).
  { cbn. lia. }
  clearbody c. cbn in Hc.
  repeat (destruct Hc as [<- | Hc]; [try (destruct (_ <? _)%real); try (destruct (_ >=? _)%real); assumption |]).
  contradiction.
Qed.

(** X1. The sign of the argument of the interior test only selects which
    answer is returned: for a signed char [s7] other than 0 and -128,
    [test_interior(-s7)] answers the opposite of [test_interior(s7)] and
    leaves the same state, diagnostics included. *)
Theorem test_interior_negated_sign (s : MC) (s7 : Z) :
  -128 < s7 < 128 -> s7 <> 0 ->
  eval (test_interior T (- s7)) s = negb (eval (test_interior T s7) s) /\
  exec (test_interior T (- s7)) s = exec (test_interior T s7) s.
Proof.
  intros _ H. destruct (sign_tests_negate s7 H) as [Hg Hl].
  pose proof (fun a b c d => interior_decide_negate a b c d s7 H) as Hd.
  unfold eval, exec, test_interior.
  assert (K46 : forall (b : bool) (x y : bool * MC) (x' y' : bool * MC),
            fst x' = negb (fst x) -> snd x' = snd x -> fst y' = negb (fst y) -> snd y' = snd y ->
            fst (if b then x' else y') = negb (fst (if b then x else y)) /\
            snd (if b then x' else y') = snd (if b then x else y)).
  { intros [] ? ? ? ?; auto. }
  assert (A : fst (let t := interior_t s in
                 if (t <? #0)%real || (t >? #1)%real then (- s7 >? 0, s)
                 else (interior_decide (lerp s 0 4 t) (lerp s 3 7 t) (lerp s 2 6 t) (lerp s 1 5 t) (- s7), s))
              = negb (fst (let t := interior_t s in
                 if (t <? #0)%real || (t >? #1)%real then (s7 >? 0, s)
                 else (interior_decide (lerp s 0 4 t) (lerp s 3 7 t) (lerp s 2 6 t) (lerp s 1 5 t) s7, s)))
            /\ snd (let t := interior_t s in
                 if (t <? #0)%real || (t >? #1)%real then (- s7 >? 0, s)
                 else (interior_decide (lerp s 0 4 t) (lerp s 3 7 t) (lerp s 2 6 t) (lerp s 1 5 t) (- s7), s))
              = snd (let t := interior_t s in
                 if (t <? #0)%real || (t >? #1)%real then (s7 >? 0, s)
                 else (interior_decide (lerp s 0 4 t) (lerp s 3 7 t) (lerp s 2 6 t) (lerp s 1 5 t) s7, s))).
  { cbv zeta. apply K46; cbn [fst snd]; auto. }
  assert (B : fst (match interior_edge s (reference_edge T s) with
                   | Some (At, Bt, Ct, Dt) => (interior_decide At Bt Ct Dt (- s7), s)
                   | None => (interior_decide #0 #0 #0 #0 (- s7),
                              print_cube (printf (InvalidEdge (reference_edge T s)) s))
                   end)
              = negb (fst (match interior_edge s (reference_edge T s) with
                   | Some (At, Bt, Ct, Dt) => (interior_decide At Bt Ct Dt s7, s)
                   | None => (interior_decide #0 #0 #0 #0 s7,
                              print_cube (printf (InvalidEdge (reference_edge T s)) s))
                   end))
            /\ snd (match interior_edge s (reference_edge T s) with
                   | Some (At, Bt, Ct, Dt) => (interior_decide At Bt Ct Dt (- s7), s)
                   | None => (interior_decide #0 #0 #0 #0 (- s7),
                              print_cube (printf (InvalidEdge (reference_edge T s)) s))
                   end)
              = snd (match interior_edge s (reference_edge T s) with
                   | Some (At, Bt, Ct, Dt) => (interior_decide At Bt Ct Dt s7, s)
                   | None => (interior_decide #0 #0 #0 #0 s7,
                              print_cube (printf (InvalidEdge (reference_edge T s)) s))
                   end)).
  { destruct (interior_edge s (reference_edge T s)) as [[[[At Bt] Ct] Dt] |]; cbn [fst snd]; auto. }
  assert (C : interior_decide #0 #0 #0 #0 (- s7) = negb (interior_decide #0 #0 #0 #0 s7)) by apply Hd.
  destruct (_case s) as [|p|p]; cbn [fst snd]; auto.
  do 4 (destruct p as [p|p|]; cbn [fst snd]; auto).
Qed.

(** ** The case index of a cell *)

(** What [corner_sample] reads. *)
Lemma corner_sample_ext (s s' : MC) (p : Z) :
  _i s' = _i s -> _j s' = _j s -> _k s' = _k s ->
  _size_x s' = _size_x s -> _size_y s' = _size_y s -> _data s' = _data s ->
  corner_sample s' p = corner_sample s p.
Proof.
  intros Hi Hj Hk Hx Hy Hd. unfold corner_sample, get_data, grid_index.
  rewrite Hi, Hj, Hk, Hx, Hy, Hd. reflexivity.
Qed.

(** The corners of a cell in the order of their numbers. *)
Lemma corner_samples (s : MC) :
  map (corner_sample s) [0; 1; 2; 3; 4; 5; 6; 7] =
    (let i := _i s in let j := _j s in let k := _k s in
     [ get_data s i j k; get_data s (i+1) j k; get_data s (i+1) (j+1) k;
       get_data s i (j+1) k; get_data s i j (k+1); get_data s (i+1) j (k+1);
       get_data s (i+1) (j+1) (k+1); get_data s i (j+1) (k+1) ]).
Proof.
  unfold corner_sample. cbn [map Z.land Z.lxor Z.shiftr Z.shiftl Pos.lxor Pos.land
    Z.of_N Pos.div2 Z.div2 Pos.pred_double Z.opp Pos.iter Z.pos_sub Z.succ_double Z.double
    Z.pred_double Pos.succ].
  rewrite !Z.add_0_r. reflexivity.
Qed.

Lemma load_corner_step (iso : real) (s : MC) (p : Z) :
  let s' := load_corner iso s p in
  let c := perturb (corner_sample s p - iso)%real in
  (_i s' = _i s /\ _j s' = _j s /\ _k s' = _k s /\
   _size_x s' = _size_x s /\ _size_y s' = _size_y s /\ _data s' = _data s) /\
  (forall q, _cube s' q = if q =? p then c else _cube s q) /\
  _lut_entry s' = _lut_entry s + (if (c >? #0)%real then Z.shiftl 1 p else 0).
Proof.
  cbv zeta. unfold load_corner. cbn [set_cube with_cube _cube].
  rewrite Z.eqb_refl.
  destruct (perturb (corner_sample s p - iso) >? #0)%real; cbn.
  - repeat split; try lia. intros q. destruct (q =? p); reflexivity.
  - repeat split; try lia. intros q. destruct (q =? p); reflexivity.
Qed.

Lemma case_index_of_bits (b0 b1 b2 b3 b4 b5 b6 b7 : bool) :
  let w (b : bool) (p : Z) := if b then Z.shiftl 1 p else 0 in
  let n := 0 + w b0 0 + w b1 1 + w b2 2 + w b3 3 + w b4 4 + w b5 5 + w b6 6 + w b7 7 in
  0 <= n < 256 /\
  map (Z.testbit n) [0; 1; 2; 3; 4; 5; 6; 7] = [b0; b1; b2; b3; b4; b5; b6; b7].
Proof.
  destruct b0, b1, b2, b3, b4, b5, b6, b7; vm_compute; split; try split; congruence.
Qed.

Lemma load_corners_spec (iso : real) (s : MC) :
  let s8 := fold_left (load_corner iso) [0; 1; 2; 3; 4; 5; 6; 7] (with_lut_entry 0 s) in
  let c := fun p => perturb (corner_sample s p - iso)%real in
  0 <= _lut_entry s8 < 256 /\
  (forall p, 0 <= p < 8 ->
     _cube s8 p = c p /\ Z.testbit (_lut_entry s8) p = (c p >? #0)%real).
Proof.
  cbv zeta. cbn [fold_left].
  set (s0 := with_lut_entry 0 s).
  assert (G0 : _i s0 = _i s /\ _j s0 = _j s /\ _k s0 = _k s /\
               _size_x s0 = _size_x s /\ _size_y s0 = _size_y s /\ _data s0 = _data s)
    by (repeat split).
  assert (L0 : _lut_entry s0 = 0) by reflexivity.
  assert (C0 : forall q, _cube s0 q = _cube s q) by reflexivity.
  clearbody s0.
  pose proof (load_corner_step iso s0 0) as (G1 & C1 & L1). set (s1 := load_corner iso s0 0) in *.
  pose proof (load_corner_step iso s1 1) as (G2 & C2 & L2). set (s2 := load_corner iso s1 1) in *.
  pose proof (load_corner_step iso s2 2) as (G3 & C3 & L3). set (s3 := load_corner iso s2 2) in *.
  pose proof (load_corner_step iso s3 3) as (G4 & C4 & L4). set (s4 := load_corner iso s3 3) in *.
  pose proof (load_corner_step iso s4 4) as (G5 & C5 & L5). set (s5 := load_corner iso s4 4) in *.
  pose proof (load_corner_step iso s5 5) as (G6 & C6 & L6). set (s6 := load_corner iso s5 5) in *.
  pose proof (load_corner_step iso s6 6) as (G7 & C7 & L7). set (s7 := load_corner iso s6 6) in *.
  pose proof (load_corner_step iso s7 7) as (G8 & C8 & L8). set (s8 := load_corner iso s7 7) in *.
  clearbody s1 s2 s3 s4 s5 s6 s7 s8.
  assert (E0 : forall p, corner_sample s0 p = corner_sample s p)
    by (intros p; apply corner_sample_ext; intuition congruence).
  assert (E1 : forall p, corner_sample s1 p = corner_sample s p)
    by (intros p; apply corner_sample_ext; intuition congruence).
  assert (E2 : forall p, corner_sample s2 p = corner_sample s p)
    by (intros p; apply corner_sample_ext; intuition congruence).
  assert (E3 : forall p, corner_sample s3 p = corner_sample s p)
    by (intros p; apply corner_sample_ext; intuition congruence).
  assert (E4 : forall p, corner_sample s4 p = corner_sample s p)
    by (intros p; apply corner_sample_ext; intuition congruence).
  assert (E5 : forall p, corner_sample s5 p = corner_sample s p)
    by (intros p; apply corner_sample_ext; intuition congruence).
  assert (E6 : forall p, corner_sample s6 p = corner_sample s p)
    by (intros p; apply corner_sample_ext; intuition congruence).
  assert (E7 : forall p, corner_sample s7 p = corner_sample s p)
    by (intros p; apply corner_sample_ext; intuition congruence).
  rewrite E0 in C1, L1. rewrite E1 in C2, L2. rewrite E2 in C3, L3. rewrite E3 in C4, L4.
  rewrite E4 in C5, L5. rewrite E5 in C6, L6. rewrite E6 in C7, L7. rewrite E7 in C8, L8.
  clear G0 G1 G2 G3 G4 G5 G6 G7 G8 E0 E1 E2 E3 E4 E5 E6 E7.
  rewrite L7, L6, L5, L4, L3, L2, L1, L0 in L8.
  pose proof (case_index_of_bits
    (perturb (corner_sample s 0 - iso) >? #0)%real (perturb (corner_sample s 1 - iso) >? #0)%real
    (perturb (corner_sample s 2 - iso) >? #0)%real (perturb (corner_sample s 3 - iso) >? #0)%real
    (perturb (corner_sample s 4 - iso) >? #0)%real (perturb (corner_sample s 5 - iso) >? #0)%real
    (perturb (corner_sample s 6 - iso) >? #0)%real (perturb (corner_sample s 7 - iso) >? #0)%real)
    as [R B].
  cbv zeta in R, B. rewrite <- L8 in R, B. clear L8 L7 L6 L5 L4 L3 L2 L1 L0.
  split; [exact R |].
  intros p Hp.
  assert (Hc : _cube s8 p = perturb (corner_sample s p - iso)%real).
  { rewrite C8, C7, C6, C5, C4, C3, C2, C1.
    assert (D : p = 0 \/ p = 1 \/ p = 2 \/ p = 3 \/ p = 4 \/ p = 5 \/ p = 6 \/ p = 7) by lia.
    destruct D as [-> | [-> | [-> | [-> | [-> | [-> | [-> | ->]]]]]]]; reflexivity. }
  split; [exact Hc |].
  cbn [map] in B.
  assert (D : p = 0 \/ p = 1 \/ p = 2 \/ p = 3 \/ p = 4 \/ p = 5 \/ p = 6 \/ p = 7) by lia.
  injection B as B0 B1 B2 B3 B4 B5 B6 B7.
  destruct D as [-> | [-> | [-> | [-> | [-> | [-> | [-> | ->]]]]]]]; assumption.
Qed.

(** X2. The case index [run] computes for a cell.  After the eight corners
    are loaded, [_lut_entry] lies in 0..255, [_cube[p]] is the perturbed
    value [sample - iso] of corner [p], bit [p] of [_lut_entry] is set iff
    that value is positive, and corners 0..7 are the samples at (i,j,k),
    (i+1,j,k), (i+1,j+1,k), (i,j+1,k) and the same four at k+1. *)
Theorem case_index_bits (iso : real) (s : MC) :
  let s8 := fold_left (load_corner iso) [0; 1; 2; 3; 4; 5; 6; 7] (with_lut_entry 0 s) in
  let c := fun p => perturb (corner_sample s p - iso)%real in
  0 <= _lut_entry s8 < 256 /\
  (forall p, 0 <= p < 8 ->
     _cube s8 p = c p /\ Z.testbit (_lut_entry s8) p = (c p >? #0)%real) /\
  map (corner_sample s) [0; 1; 2; 3; 4; 5; 6; 7] =
    (let i := _i s in let j := _j s in let k := _k s in
     [ get_data s i j k; get_data s (i+1) j k; get_data s (i+1) (j+1) k;
       get_data s i (j+1) k; get_data s i j (k+1); get_data s (i+1) j (k+1);
       get_data s (i+1) (j+1) (k+1); get_data s i (j+1) (k+1) ]).
Proof.
  cbv zeta. destruct (load_corners_spec iso s) as [R B].
  split; [exact R |]. split; [exact B | apply corner_samples].
Qed.


(** ** How many vertices and triangles a cell adds *)

Lemma mesh_delta_refl s : mesh_delta s s 0 0.
Proof. unfold mesh_delta. lia. Qed.

Lemma mesh_delta_trans s s1 s2 (a b c d : Z) :
  mesh_delta s s1 a b -> mesh_delta s1 s2 c d -> mesh_delta s s2 (a + c) (b + d).
Proof. unfold mesh_delta. lia. Qed.

Lemma add_triangle_step_nverts (trig : tile) (v12 : Z) (st : (Z * Z * Z) * MC) (t : Z) :
  _nverts (snd (add_triangle_step trig v12 st t)) = _nverts (snd st).
Proof.
  destruct st as [tv s]. unfold add_triangle_step. cbn [snd].
  destruct (tv_get _ _ =? -1), (t mod 3 =? 2); cbn [snd]; unfold push_triangle;
    try destruct (_ntrigs _ >=? _Ntrigs _); reflexivity.
Qed.

Lemma add_triangle_fold_nverts (trig : tile) (v12 : Z) (l : list Z) (st : (Z * Z * Z) * MC) :
  _nverts (snd (fold_left (add_triangle_step trig v12) l st)) = _nverts (snd st).
Proof.
  revert st. induction l as [|t l IH]; intros st; cbn [fold_left]; [reflexivity |].
  rewrite IH. apply add_triangle_step_nverts.
Qed.

Lemma add_triangle_delta (trig : tile) (n v12 : Z) s :
  0 <= n -> mesh_delta s (add_triangle trig n v12 s) 0 n.
Proof.
  intros Hn. split.
  - unfold add_triangle. rewrite add_triangle_fold_nverts. cbn. lia.
  - apply add_triangle_ntrigs. exact Hn.
Qed.

Lemma add_c_vertex_delta s : mesh_delta s (exec add_c_vertex s) 1 0.
Proof.
  unfold exec, add_c_vertex.
  destruct (fold_left _ _ _) as [u buf]. cbn [snd].
  unfold mesh_delta, test_vertex_addition.
  destruct (_nverts s >=? _Nverts s); cbn; lia.
Qed.

Lemma add_triangle_c_delta (trig : tile) (n : Z) s :
  0 <= n -> mesh_delta s (add_triangle_c trig n s) 1 n.
Proof.
  intros Hn. rewrite add_triangle_c_unfold.
  destruct (add_c_vertex_delta s) as [A B].
  destruct (add_triangle_delta trig n (eval add_c_vertex s) (exec add_c_vertex s) Hn) as [C D].
  split; lia.
Qed.

Lemma test_interior_delta (f : Z) s : mesh_delta s (exec (test_interior T f) s) 0 0.
Proof.
  destruct (test_interior_frame s f) as [out ->]. unfold mesh_delta. cbn. lia.
Qed.

Lemma add_triangle_interior_delta (f : Z) (yes : tile) (ny : Z) (no : tile) (nn : Z) s :
  0 <= ny -> 0 <= nn ->
  mesh_delta s (add_triangle_interior T f yes ny no nn s) 0 ny \/
  mesh_delta s (add_triangle_interior T f yes ny no nn s) 0 nn.
Proof.
  intros H1 H2. rewrite add_triangle_interior_unfold.
  destruct (eval (test_interior T f) s); [left | right].
  - destruct (test_interior_delta f s) as [A B].
    destruct (add_triangle_delta yes ny (-1) (exec (test_interior T f) s) H1) as [C D].
    split; lia.
  - destruct (test_interior_delta f s) as [A B].
    destruct (add_triangle_delta no nn (-1) (exec (test_interior T f) s) H2) as [C D].
    split; lia.
Qed.

Lemma face_bit_delta (f w : Z) s : mesh_delta s (face_bit f w s) 0 0.
Proof. destruct (face_bit_frame s f w) as [n ->]. unfold mesh_delta. cbn. lia. Qed.

Lemma cell_output_frame s0 s s' :
  _nverts s0 = _nverts s -> _ntrigs s0 = _ntrigs s -> cell_output s0 s' -> cell_output s s'.
Proof.
  intros Hv Ht (dv & dt & [A B] & Hin). exists dv, dt.
  split; [split; congruence | exact Hin].
Qed.

Ltac delta_step :=
  lazymatch goal with
  | |- cell_output ?s ?s =>
      exists 0, 0; split; [apply mesh_delta_refl | cbn; tauto]
  | |- cell_output _ (add_triangle _ ?n _ _) =>
      exists 0, n; split; [apply add_triangle_delta; lia | cbn; tauto]
  | |- cell_output _ (add_triangle_c _ ?n _) =>
      exists 1, n; split; [apply add_triangle_c_delta; lia | cbn; tauto]
  | |- cell_output ?s (add_triangle_interior ?T ?f ?yes ?ny ?no ?nn ?s) =>
      destruct (add_triangle_interior_delta f yes ny no nn s) as [D | D]; [lia | lia | |];
      [exists 0, ny | exists 0, nn]; (split; [exact D | cbn; tauto])
  | |- cell_output _ (print_cube (printf _ _)) =>
      exists 0, 0; split; [unfold mesh_delta; cbn; lia | cbn; tauto]
  end.

Lemma process_case13_output s : cell_output s (process_case13 T s).
Proof.
  unfold process_case13.
  destruct (subconfig13 T (_subconfig s)) as [|p|p].
  - delta_step.
  - do 6 (try destruct p as [p|p|]);
      first [ delta_step; fail
            | match goal with
              | |- cell_output _ (add_triangle_interior _ _ _ _ _ _ ?s0) =>
                  apply (cell_output_frame s0); [reflexivity | reflexivity | delta_step]
              end ].
  - delta_step.
Qed.

Lemma process_case7_output s : cell_output s (process_case7 T s).
Proof.
  unfold process_case7.
  destruct (_subconfig s) as [|p|p]; [delta_step | | delta_step].
  do 3 (try destruct p as [p|p|]); delta_step.
Qed.

Lemma process_topological_output s : cell_output s (process_topological T s).
Proof.
  unfold process_topological.
  destruct (_case s) as [|p|p]; [delta_step | | delta_step].
  do 4 (try destruct p as [p|p|]); try (delta_step; fail).
  - (* 7 *)
    set (cfg := _config s).
    destruct (face_bits_frame s
                [(test7 T cfg 0, 1); (test7 T cfg 1, 2); (test7 T cfg 2, 4)]) as [n E].
    cbn [fold_left fst snd] in E. rewrite E.
    eapply cell_output_frame; [| | apply process_case7_output]; reflexivity.
  - (* 13 *)
    set (cfg := _config s).
    destruct (face_bits_frame s
                [(test13 T cfg 0, 1); (test13 T cfg 1, 2); (test13 T cfg 2, 4);
                 (test13 T cfg 3, 8); (test13 T cfg 4, 16); (test13 T cfg 5, 32)]) as [n E].
    cbn [fold_left fst snd] in E. rewrite E.
    eapply cell_output_frame; [| | apply process_case13_output]; reflexivity.
  - (* 3 *) destruct (test_face s (test3 T (_config s))); delta_step.
  - (* 10 *)
    destruct (test_face s (test10 T (_config s) 0)), (test_face s (test10 T (_config s) 1));
      delta_step.
  - (* 6 *)
    destruct (test_face s (test6 T (_config s) 0)); [delta_step |].
    pose proof (test_interior_frame s (test6 T (_config s) 1)) as [out E].
    unfold exec in E.
    destruct (test_interior T (test6 T (_config s) 1) s) as [b s1]. cbn [snd] in E. subst s1.
    destruct b;
      match goal with
      | |- cell_output _ (_ _ _ _ ?s0) =>
          apply (cell_output_frame s0); [reflexivity | reflexivity | delta_step]
      | |- cell_output _ (_ _ _ ?s0) =>
          apply (cell_output_frame s0); [reflexivity | reflexivity | delta_step]
      end.
  - (* 12 *)
    destruct (test_face s (test12 T (_config s) 0)), (test_face s (test12 T (_config s) 1));
      delta_step.
Qed.

(** X3. In the topological mode [process_cube] adds at most one vertex and
    at most twelve triangles to the mesh, whatever the tables hold: the
    pair (vertices added, triangles added) is one of [cell_deltas]. *)
Theorem process_cube_output s :
  _originalMC s = false -> cell_output s (process_cube T s).
Proof.
  intros H. unfold process_cube. rewrite H.
  eapply cell_output_frame; [| | apply process_topological_output]; reflexivity.
Qed.

(** ** The classical mode *)

Lemma tile_at_past_end (row : tile) (t : Z) :
  Z.of_nat (length row) <= t -> tile_at row t = -1.
Proof. intros H. unfold tile_at, at_index. apply nth_overflow. lia. Qed.

Lemma classic_scan_spec (fuel : nat) (row : tile) (nt : Z) :
  0 <= nt -> Z.of_nat (length row) <= 3 * nt + Z.of_nat fuel ->
  nt <= classic_scan fuel row nt /\
  tile_at row (3 * classic_scan fuel row nt) = -1 /\
  (forall m, nt <= m < classic_scan fuel row nt -> tile_at row (3 * m) <> -1).
Proof.
  revert nt. induction fuel as [|fuel IH]; intros nt Hnt Hf; cbn [classic_scan].
  - split; [lia |]. split; [apply tile_at_past_end; lia | intros m Hm; lia].
  - destruct (Z.eqb_spec (tile_at row (3 * nt)) (-1)) as [E | N].
    + split; [lia |]. split; [exact E | intros m Hm; lia].
    + destruct (IH (nt + 1)) as (A & B & C); [lia | lia |].
      split; [lia |]. split; [exact B |].
      intros m Hm. destruct (Z.eq_dec m nt) as [-> | Hne]; [exact N | apply C; lia].
Qed.

(** X4. In the classical mode [process_cube] tiles the cell with the
    triples of the [casesClassic] row that come before its first -1: [n]
    counts them, triple [n] starts with -1, and the cell is processed by
    [add_triangle(row, n)], which adds [n] triangles and no vertex. *)
Theorem classic_mode_output s :
  _originalMC s = true ->
  let row := casesClassic T (_lut_entry s) in
  let n := classic_count row in
  0 <= n /\ tile_at row (3 * n) = -1 /\
  (forall m, 0 <= m < n -> tile_at row (3 * m) <> -1) /\
  process_cube T s = add_triangle row n (-1) s /\
  mesh_delta s (process_cube T s) 0 n.
Proof.
  intros H row n.
  destruct (classic_scan_spec (S (length row)) row 0) as (A & B & C); [lia | lia |].
  fold (classic_count row) in A, B, C. fold n in A, B, C.
  assert (E : process_cube T s = add_triangle row n (-1) s).
  { unfold process_cube. rewrite H. reflexivity. }
  split; [exact A |]. split; [exact B |]. split; [exact C |]. split; [exact E |].
  rewrite E. apply add_triangle_delta. exact A.
Qed.

(** ** The triangles [add_triangle] writes *)

Ltac mc_simpl :=
  cbn [_originalMC _size_x _size_y _size_z _data _x_verts _y_verts _z_verts _nverts _ntrigs
       _Nverts _Ntrigs _vertices _triangles _i _j _k _cube _lut_entry _case _config
       _subconfig stdout
       with_originalMC with_size_x with_size_y with_size_z with_data with_x_verts
       with_y_verts with_z_verts with_nverts with_ntrigs with_Nverts with_Ntrigs
       with_vertices with_triangles with_i with_j with_k with_cube with_lut_entry
       with_case with_config with_subconfig with_stdout].


Lemma edge_vertex_view s s' (e v12 old old' : Z) :
  edge_view s' = edge_view s -> 0 <= e <= 12 ->
  edge_vertex s' e v12 old = edge_vertex s e v12 old'.
Proof.
  intros V He. unfold edge_view in V.
  injection V as Hx Hy Hz Hi Hj Hk Hsx Hsy.
  assert (D : In e [0; 1; 2; 3; 4; 5; 6; 7; 8; 9; 10; 11; 12]) by (cbn; lia).
  unfold edge_vertex, get_x_vert, get_y_vert, get_z_vert, grid_index.
  rewrite Hx, Hy, Hz, Hi, Hj, Hk, Hsx, Hsy.
  cbn in D. repeat (destruct D as [<- | D]; [reflexivity |]). contradiction.
Qed.

Lemma at_index_resize {A} (N : Z) (d : A) (l : list A) (m : Z) :
  0 <= m -> (Z.to_nat m < length l)%nat -> (length l <= Z.to_nat N)%nat ->
  at_index (resize N d l) m d = at_index l m d.
Proof.
  intros Hm Hl HN. apply (take_eq_at_index _ _ (length l)); [| exact Hm | exact Hl].
  rewrite take_resize by lia. reflexivity.
Qed.

Lemma push_triangle_spec (tv : Z * Z * Z) s :
  mesh_wf s ->
  let s' := push_triangle tv s in
  mesh_wf s' /\ edge_view s' = edge_view s /\ _ntrigs s' = _ntrigs s + 1 /\
  stdout s' = stdout s /\
  at_index (_triangles s') (_ntrigs s) zero_triangle
    = mkTriangle (tv_get tv 0) (tv_get tv 1) (tv_get tv 2) /\
  (forall m, 0 <= m < _ntrigs s ->
     at_index (_triangles s') m zero_triangle = at_index (_triangles s) m zero_triangle).
Proof.
  intros W s'. pose proof (push_triangle_extends tv s W) as E.
  fold s' in E. destruct E as (W' & _).
  destruct W as (Wv1 & Wv2 & Wv3 & Wt1 & Wt2 & Wt3).
  split; [exact W' |]. subst s'. unfold push_triangle.
  destruct (_ntrigs s >=? _Ntrigs s) eqn:Hfull; unfold edge_view; mc_simpl.
  - apply Z.geb_le in Hfull.
    split; [reflexivity |]. split; [reflexivity |]. split; [reflexivity |]. split.
    + rewrite at_index_insert; [rewrite Z.eqb_refl; reflexivity | lia | lia |].
      rewrite length_resize. lia.
    + intros m Hm. rewrite at_index_insert; [| lia | lia | rewrite length_resize; lia].
      destruct (Z.eqb_spec (_ntrigs s) m); [lia |].
      apply at_index_resize; lia.
  - rewrite Z.geb_leb in Hfull. apply Z.leb_gt in Hfull.
    split; [reflexivity |]. split; [reflexivity |]. split; [reflexivity |]. split.
    + rewrite at_index_insert; [rewrite Z.eqb_refl; reflexivity | lia | lia | lia].
    + intros m Hm. rewrite at_index_insert; [| lia | lia | lia].
      destruct (Z.eqb_spec (_ntrigs s) m); [lia | reflexivity].
Qed.

Lemma tv_get_set (tv : Z * Z * Z) (a b v : Z) :
  0 <= a <= 2 -> 0 <= b <= 2 ->
  tv_get (tv_set tv a v) b = if a =? b then v else tv_get tv b.
Proof.
  intros Ha Hb. destruct tv as [[x0 x1] x2].
  assert (Da : a = 0 \/ a = 1 \/ a = 2) by lia.
  assert (Db : b = 0 \/ b = 1 \/ b = 2) by lia.
  destruct Da as [-> | [-> | ->]], Db as [-> | [-> | ->]]; reflexivity.
Qed.

Lemma succ_div3 (t : Z) :
  0 <= t ->
  (t mod 3 = 2 -> (t + 1) / 3 = t / 3 + 1 /\ (t + 1) mod 3 = 0) /\
  (t mod 3 <> 2 -> (t + 1) / 3 = t / 3 /\ (t + 1) mod 3 = t mod 3 + 1).
Proof. intros H. Z.to_euclidean_division_equations. lia. Qed.

(** The state of the loop of [add_triangle] after its first [t] turns. *)
Lemma add_triangle_loop_spec (trig : tile) (n v12 : Z) s (t : nat) :
  mesh_wf s -> (forall u, 0 <= u < 3 * n -> 0 <= tile_at trig u <= 12) ->
  Z.of_nat t <= 3 * n ->
  let ev := fun u => edge_vertex s (tile_at trig u) v12 0 in
  let st := fold_left (add_triangle_step trig v12) (map Z.of_nat (seq 0 t)) ((0, 0, 0), s) in
  mesh_wf (snd st) /\ edge_view (snd st) = edge_view s /\
  _nverts (snd st) = _nverts s /\ _vertices (snd st) = _vertices s /\
  _ntrigs (snd st) = _ntrigs s + Z.of_nat t / 3 /\
  (forall r, 0 <= r < Z.of_nat t mod 3 ->
     tv_get (fst st) r = ev (3 * (Z.of_nat t / 3) + r)) /\
  (forall m, 0 <= m < Z.of_nat t / 3 ->
     at_index (_triangles (snd st)) (_ntrigs s + m) zero_triangle = tile_triangle s trig v12 m) /\
  (forall m, 0 <= m < _ntrigs s ->
     at_index (_triangles (snd st)) m zero_triangle
       = at_index (_triangles s) m zero_triangle) /\
  ((forall u, 0 <= u < Z.of_nat t -> ev u <> -1) -> stdout (snd st) = stdout s) /\
  (forall u, 0 <= u < Z.of_nat t -> ev u = -1 ->
     In (InvalidTriangle (_ntrigs s + u / 3 + 1)) (stdout (snd st))).
Proof.
  intros W Htile Ht ev.
  assert (Hnt0 : 0 <= _ntrigs s) by apply W.
  induction t as [|t IH]; cbv zeta.
  - cbn [seq map fold_left fst snd]. change (Z.of_nat 0) with 0.
    change (0 / 3) with 0. change (0 mod 3) with 0.
    repeat split; try assumption; try lia; try apply W; intros; lia.
  - rewrite seq_S, map_app, fold_left_app. cbn [map fold_left Nat.add].
    cbv zeta in IH.
    destruct IH as (W1 & V1 & Nv1 & Vs1 & Nt1 & Tv1 & Tr1 & Old1 & Out1 & Diag1); [lia |].
    destruct (fold_left (add_triangle_step trig v12) (map Z.of_nat (seq 0 t)) ((0, 0, 0), s))
      as [tv s1].
    cbn [fst snd] in *.
    set (u := Z.of_nat t) in *.
    assert (Hu : 0 <= u < 3 * n) by lia.
    replace (Z.of_nat (S t)) with (u + 1) by lia.
    pose proof (succ_div3 u (proj1 Hu)) as [D2 Dn].
    assert (Hr : 0 <= u mod 3 < 3) by (apply Z.mod_pos_bound; lia).
    assert (Hdm : u = 3 * (u / 3) + u mod 3) by (apply Z.div_mod; lia).
    unfold add_triangle_step.
    assert (Hev : edge_vertex s1 (tile_at trig u) v12 (tv_get tv (u mod 3)) = ev u).
    { apply edge_vertex_view; [exact V1 | apply Htile; exact Hu]. }
    rewrite Hev.
    set (tv' := tv_set tv (u mod 3) (ev u)).
    assert (Hget : tv_get tv' (u mod 3) = ev u).
    { unfold tv'. rewrite tv_get_set by lia. rewrite Z.eqb_refl. reflexivity. }
    rewrite Hget.
    set (s2 := if ev u =? -1 then print_cube (printf (InvalidTriangle (_ntrigs s1 + 1)) s1)
               else s1).
    assert (F2 : mesh_wf s2 /\ edge_view s2 = edge_view s1 /\ _nverts s2 = _nverts s1 /\
                 _vertices s2 = _vertices s1 /\ _ntrigs s2 = _ntrigs s1 /\
                 _triangles s2 = _triangles s1).
    { unfold s2. destruct (ev u =? -1); repeat split; try assumption; apply W1. }
    destruct F2 as (W2 & V2 & Nv2 & Vs2 & Nt2 & Tr2).
    assert (O2 : (ev u <> -1 -> stdout s2 = stdout s1) /\
                 (forall d, In d (stdout s1) -> In d (stdout s2)) /\
                 (ev u = -1 -> In (InvalidTriangle (_ntrigs s1 + 1)) (stdout s2))).
    { unfold s2. destruct (Z.eqb_spec (ev u) (-1)) as [E | N].
      - split; [intros; contradiction |]. split.
        + intros d Hd. unfold print_cube, printf. mc_simpl.
          apply in_or_app. left. apply in_or_app. left. exact Hd.
        + intros _. unfold print_cube, printf. mc_simpl.
          apply in_or_app. left. apply in_or_app. right. left. reflexivity.
      - split; [reflexivity |]. split; [auto | intros; contradiction]. }
    destruct O2 as (O2a & O2b & O2c).
    clearbody s2.
    destruct (Z.eqb_spec (u mod 3) 2) as [E2 | N2]; cbn [fst snd].
    + (* the triple is complete *)
      destruct (D2 E2) as [Dq Dr]. rewrite Dq, Dr.
      destruct (push_triangle_spec tv' s2 W2) as (W3 & V3 & Nt3 & O3 & New3 & Old3).
      split; [exact W3 |]. split; [congruence |].
      split; [unfold push_triangle; destruct (_ >=? _); mc_simpl; congruence |].
      split; [unfold push_triangle; destruct (_ >=? _); mc_simpl; congruence |].
      split; [lia |].
      split; [intros r Hr'; lia |].
      split; [| split; [| split]].
      * intros m Hm. destruct (Z.eq_dec m (u / 3)) as [-> | Hne].
        -- replace (_ntrigs s + u / 3) with (_ntrigs s2) by lia. rewrite New3.
           assert (A0 : tv_get tv' 0 = ev (3 * (u / 3))).
           { unfold tv'. rewrite tv_get_set by lia. rewrite E2. cbn [Z.eqb Pos.eqb].
             rewrite Tv1 by lia. f_equal. lia. }
           assert (A1 : tv_get tv' 1 = ev (3 * (u / 3) + 1)).
           { unfold tv'. rewrite tv_get_set by lia. rewrite E2. cbn [Z.eqb Pos.eqb].
             rewrite Tv1 by lia. reflexivity. }
           assert (A2 : tv_get tv' 2 = ev (3 * (u / 3) + 2)).
           { unfold tv'. rewrite tv_get_set by lia. rewrite E2. cbn [Z.eqb Pos.eqb].
             f_equal. lia. }
           rewrite A0, A1, A2. reflexivity.
        -- rewrite Old3 by lia. rewrite Tr2. apply Tr1. lia.
      * intros m Hm. rewrite Old3 by lia. rewrite Tr2. apply Old1. exact Hm.
      * intros Hall. rewrite O3, O2a by (apply Hall; lia). apply Out1.
        intros w Hw. apply Hall. lia.
      * intros w Hw Hw1. rewrite O3.
        destruct (Z.eq_dec w u) as [-> | Hne].
        -- replace (_ntrigs s + u / 3 + 1) with (_ntrigs s1 + 1) by lia. apply O2c. exact Hw1.
        -- apply O2b. apply Diag1; [lia | exact Hw1].
    + destruct (Dn N2) as [Dq Dr]. rewrite Dq, Dr.
      split; [exact W2 |]. split; [congruence |]. split; [congruence |].
      split; [congruence |]. split; [lia |].
      split; [| split; [| split; [| split]]].
      * intros r Hr'. unfold tv'. rewrite tv_get_set by lia.
        destruct (Z.eqb_spec (u mod 3) r) as [<- | Hne].
        -- unfold ev. replace (3 * (u / 3) + u mod 3) with u by lia. reflexivity.
        -- apply Tv1. lia.
      * intros m Hm. rewrite Tr2. apply Tr1. exact Hm.
      * intros m Hm. rewrite Tr2. apply Old1. exact Hm.
      * intros Hall. rewrite O2a by (apply Hall; lia). apply Out1.
        intros w Hw. apply Hall. lia.
      * intros w Hw Hw1.
        destruct (Z.eq_dec w u) as [-> | Hne].
        -- replace (_ntrigs s + u / 3 + 1) with (_ntrigs s1 + 1) by lia. apply O2c. exact Hw1.
        -- apply O2b. apply Diag1; [lia | exact Hw1].
Qed.

Lemma three_n_div (n : Z) : 0 <= n -> (3 * n) / 3 = n /\ (3 * n) mod 3 = 0.
Proof. intros H. Z.to_euclidean_division_equations. lia. Qed.

(** X5. [add_triangle(trig, n, v12)] on a well-formed mesh, for a tile
    whose first [3n] entries are edge numbers 0..12, appends exactly [n]
    triangles: triangle [_ntrigs + m] holds the vertex ids found on edges
    [trig[3m]], [trig[3m+1]], [trig[3m+2]] of the current cell ([v12] for
    edge 12); the earlier triangles, the vertices and the edge maps are
    unchanged and the mesh stays well-formed, also when the buffer grows. *)
Theorem add_triangle_writes_tile (trig : tile) (n v12 : Z) s :
  mesh_wf s -> 0 <= n ->
  (forall u, 0 <= u < 3 * n -> 0 <= tile_at trig u <= 12) ->
  let s' := add_triangle trig n v12 s in
  _ntrigs s' = _ntrigs s + n /\
  (forall m, 0 <= m < n ->
     at_index (_triangles s') (_ntrigs s + m) zero_triangle = tile_triangle s trig v12 m) /\
  (forall m, 0 <= m < _ntrigs s ->
     at_index (_triangles s') m zero_triangle = at_index (_triangles s) m zero_triangle) /\
  mesh_wf s' /\ edge_view s' = edge_view s /\
  _nverts s' = _nverts s /\ _vertices s' = _vertices s.
Proof.
  intros W Hn Htile s'.
  destruct (three_n_div n Hn) as [Dq Dr].
  pose proof (add_triangle_loop_spec trig n v12 s (Z.to_nat (3 * n)) W Htile) as H.
  cbv zeta in H. rewrite Z2Nat.id in H by lia. rewrite Dq, Dr in H.
  fold (add_triangle trig n v12 s) in H. fold s' in H.
  destruct H as (W' & V & Nv & Vs & Nt & _ & Tr & Old & _ & _); [lia |].
  repeat split; try assumption; apply W'.
Qed.

(** X6. [add_triangle] prints only when an edge of the tile has no vertex:
    if no entry yields the id -1 the output is unchanged; if entry [u]
    does, the invalid-triangle message for triangle [_ntrigs + u/3 + 1] is
    printed, and the triangle is stored all the same. *)
Theorem add_triangle_diagnostics (trig : tile) (n v12 : Z) s :
  mesh_wf s -> 0 <= n ->
  (forall u, 0 <= u < 3 * n -> 0 <= tile_at trig u <= 12) ->
  let s' := add_triangle trig n v12 s in
  let ev := fun u => edge_vertex s (tile_at trig u) v12 0 in
  ((forall u, 0 <= u < 3 * n -> ev u <> -1) -> stdout s' = stdout s) /\
  (forall u, 0 <= u < 3 * n -> ev u = -1 ->
     In (InvalidTriangle (_ntrigs s + u / 3 + 1)) (stdout s') /\
     _ntrigs s' = _ntrigs s + n).
Proof.
  intros W Hn Htile s' ev.
  destruct (three_n_div n Hn) as [Dq Dr].
  pose proof (add_triangle_loop_spec trig n v12 s (Z.to_nat (3 * n)) W Htile) as H.
  cbv zeta in H. rewrite Z2Nat.id in H by lia. rewrite Dq, Dr in H.
  fold (add_triangle trig n v12 s) in H. fold s' in H. fold ev in H.
  destruct H as (_ & _ & _ & _ & Nt & _ & _ & _ & Out & Diag); [lia |].
  split; [exact Out |]. intros u Hu He. split; [apply Diag; assumption | exact Nt].
Qed.


(** ** What the edge-intersection pass stores in the edge maps *)

Lemma intersect_x_effect s :
  let s' := intersect_x s in
  _nverts s' = _nverts s + 1 /\
  _x_verts s' = <[Z.to_nat (grid_index s (_i s) (_j s) (_k s)) := _nverts s]> (_x_verts s) /\
  _y_verts s' = _y_verts s /\ _z_verts s' = _z_verts s /\
  pass_frame s' = pass_frame s /\ _cube s' = _cube s /\
  _i s' = _i s /\ _j s' = _j s /\ _k s' = _k s.
Proof.
  cbv zeta. unfold intersect_x, add_x_vertex, store_vertex, test_vertex_addition,
    set_x_vert, pass_frame, grid_index.
  destruct (_nverts s >=? _Nverts s); mc_simpl;
    replace (_nverts s + 1 - 1) with (_nverts s) by lia; repeat split.
Qed.

Lemma intersect_y_effect s :
  let s' := intersect_y s in
  _nverts s' = _nverts s + 1 /\
  _y_verts s' = <[Z.to_nat (grid_index s (_i s) (_j s) (_k s)) := _nverts s]> (_y_verts s) /\
  _x_verts s' = _x_verts s /\ _z_verts s' = _z_verts s /\
  pass_frame s' = pass_frame s /\ _cube s' = _cube s /\
  _i s' = _i s /\ _j s' = _j s /\ _k s' = _k s.
Proof.
  cbv zeta. unfold intersect_y, add_y_vertex, store_vertex, test_vertex_addition,
    set_y_vert, pass_frame, grid_index.
  destruct (_nverts s >=? _Nverts s); mc_simpl;
    replace (_nverts s + 1 - 1) with (_nverts s) by lia; repeat split.
Qed.

Lemma intersect_z_effect s :
  let s' := intersect_z s in
  _nverts s' = _nverts s + 1 /\
  _z_verts s' = <[Z.to_nat (grid_index s (_i s) (_j s) (_k s)) := _nverts s]> (_z_verts s) /\
  _x_verts s' = _x_verts s /\ _y_verts s' = _y_verts s /\
  pass_frame s' = pass_frame s /\ _cube s' = _cube s /\
  _i s' = _i s /\ _j s' = _j s /\ _k s' = _k s.
Proof.
  cbv zeta. unfold intersect_z, add_z_vertex, store_vertex, test_vertex_addition,
    set_z_vert, pass_frame, grid_index.
  destruct (_nverts s >=? _Nverts s); mc_simpl;
    replace (_nverts s + 1 - 1) with (_nverts s) by lia; repeat split.
Qed.

Lemma valid_id_mono (lo hi hi' id : Z) : hi <= hi' -> valid_id lo hi id -> valid_id lo hi' id.
Proof. unfold valid_id. lia. Qed.

Lemma ids_insert (lo hi : Z) (l : list Z) (pos : nat) :
  lo <= hi -> Forall (valid_id lo hi) l ->
  Forall (valid_id lo (hi + 1)) (<[pos := hi]> l).
Proof.
  intros H F. apply Forall_insert.
  - eapply Forall_impl; [exact F |]. intros id. apply valid_id_mono. lia.
  - right. lia.
Qed.

Lemma ids_grow (lo hi : Z) (l : list Z) :
  Forall (valid_id lo hi) l -> Forall (valid_id lo (hi + 1)) l.
Proof. intros F. eapply Forall_impl; [exact F |]. intros id. apply valid_id_mono. lia. Qed.

(** One conditional intersection keeps the ids valid and the frame. *)
Lemma cond_intersect_ids (nv0 : Z) (b : bool) (f : MC -> MC) s :
  f = intersect_x \/ f = intersect_y \/ f = intersect_z ->
  ids_valid nv0 s ->
  let s' := if b then f s else s in
  ids_valid nv0 s' /\ pass_frame s' = pass_frame s /\ _cube s' = _cube s /\
  _i s' = _i s /\ _j s' = _j s /\ _k s' = _k s /\ _nverts s <= _nverts s'.
Proof.
  intros Hf (H0 & Hx & Hy & Hz). cbv zeta.
  destruct b; [| repeat split; try assumption; lia].
  destruct Hf as [-> | [-> | ->]].
  - destruct (intersect_x_effect s) as (Nv & Ex & Ey & Ez & F & C & Hi & Hj & Hk).
    split; [| repeat split; try assumption; lia].
    unfold ids_valid. rewrite Nv, Ex, Ey, Ez.
    split; [lia |]. split; [apply ids_insert; assumption |]. split; apply ids_grow; assumption.
  - destruct (intersect_y_effect s) as (Nv & Ey & Ex & Ez & F & C & Hi & Hj & Hk).
    split; [| repeat split; try assumption; lia].
    unfold ids_valid. rewrite Nv, Ex, Ey, Ez.
    split; [lia |]. split; [apply ids_grow; assumption |].
    split; [apply ids_insert; assumption | apply ids_grow; assumption].
  - destruct (intersect_z_effect s) as (Nv & Ez & Ex & Ey & F & C & Hi & Hj & Hk).
    split; [| repeat split; try assumption; lia].
    unfold ids_valid. rewrite Nv, Ex, Ey, Ez.
    split; [lia |]. split; [apply ids_grow; assumption |].
    split; [apply ids_grow; assumption | apply ids_insert; assumption].
Qed.

Lemma intersect_edges_ids (nv0 : Z) s :
  ids_valid nv0 s ->
  ids_valid nv0 (intersect_edges s) /\ pass_frame (intersect_edges s) = pass_frame s /\
  _nverts s <= _nverts (intersect_edges s).
Proof.
  intros I0. unfold intersect_edges.
  destruct (_cube s 0 <? #0)%real.
  - destruct (cond_intersect_ids nv0 (_cube s 1 >? #0)%real intersect_x s)
      as (I1 & F1 & C1 & _ & _ & _ & N1); [tauto | exact I0 |].
    set (s1 := if (_cube s 1 >? #0)%real then intersect_x s else s) in *. clearbody s1.
    destruct (cond_intersect_ids nv0 (_cube s1 3 >? #0)%real intersect_y s1)
      as (I2 & F2 & C2 & _ & _ & _ & N2); [tauto | exact I1 |].
    set (s2 := if (_cube s1 3 >? #0)%real then intersect_y s1 else s1) in *. clearbody s2.
    destruct (cond_intersect_ids nv0 (_cube s2 4 >? #0)%real intersect_z s2)
      as (I3 & F3 & C3 & _ & _ & _ & N3); [tauto | exact I2 |].
    split; [exact I3 |]. split; [congruence | lia].
  - destruct (cond_intersect_ids nv0 (_cube s 1 <? #0)%real intersect_x s)
      as (I1 & F1 & C1 & _ & _ & _ & N1); [tauto | exact I0 |].
    set (s1 := if (_cube s 1 <? #0)%real then intersect_x s else s) in *. clearbody s1.
    destruct (cond_intersect_ids nv0 (_cube s1 3 <? #0)%real intersect_y s1)
      as (I2 & F2 & C2 & _ & _ & _ & N2); [tauto | exact I1 |].
    set (s2 := if (_cube s1 3 <? #0)%real then intersect_y s1 else s1) in *. clearbody s2.
    destruct (cond_intersect_ids nv0 (_cube s2 4 <? #0)%real intersect_z s2)
      as (I3 & F3 & C3 & _ & _ & _ & N3); [tauto | exact I2 |].
    split; [exact I3 |]. split; [congruence | lia].
Qed.

Lemma intersection_step_ids (nv0 : Z) (iso : real) s :
  ids_valid nv0 s ->
  ids_valid nv0 (intersection_step iso s) /\
  pass_frame (intersection_step iso s) = pass_frame s /\
  _nverts s <= _nverts (intersection_step iso s).
Proof.
  intros I0. unfold intersection_step.
  apply (intersect_edges_ids nv0 (load_edge_corners iso s)). exact I0.
Qed.

(** The pass keeps every entry of the edge maps valid and does not touch
    the frame. *)
Lemma cond_intersect_frame (b : bool) (f : MC -> MC) s :
  f = intersect_x \/ f = intersect_y \/ f = intersect_z ->
  pass_frame (if b then f s else s) = pass_frame s.
Proof.
  intros Hf. destruct b; [| reflexivity].
  destruct Hf as [-> | [-> | ->]].
  - apply (intersect_x_effect s).
  - apply (intersect_y_effect s).
  - apply (intersect_z_effect s).
Qed.

Lemma intersection_step_frame (iso : real) s :
  pass_frame (intersection_step iso s) = pass_frame s.
Proof.
  unfold intersection_step, intersect_edges.
  set (s0 := load_edge_corners iso s).
  assert (F0 : pass_frame s0 = pass_frame s) by reflexivity. clearbody s0.
  destruct (_cube s0 0 <? #0)%real.
  - rewrite cond_intersect_frame by tauto. rewrite cond_intersect_frame by tauto.
    rewrite cond_intersect_frame by tauto. exact F0.
  - rewrite cond_intersect_frame by tauto. rewrite cond_intersect_frame by tauto.
    rewrite cond_intersect_frame by tauto. exact F0.
Qed.

Lemma loop_frame {O} (obs : MC -> O) (I : MC -> Prop) (setv : Z -> MC -> MC) (n : Z)
    (body : MC -> MC) s :
  (forall v s, I (setv v s) = I s) ->
  (forall v s, obs (setv v s) = obs s) ->
  (forall s, I s -> I (body s) /\ obs (body s) = obs s) ->
  I s ->
  I (for_loop setv n body s) /\ obs (for_loop setv n body s) = obs s.
Proof.
  intros Hset Hsetf Hbody I0.
  assert (A : forall v s, I s -> I (setv v s)).
  { intros v s1 H. rewrite Hset. exact H. }
  assert (B : forall v s, 0 <= v < n -> I s -> I (body (setv v s))).
  { intros v s1 _ H. apply Hbody, A, H. }
  assert (C : forall v s, 0 <= v < n -> I s -> obs (body (setv v s)) = obs s).
  { intros v s1 _ H. destruct (Hbody (setv v s1) (A v s1 H)) as [_ E].
    rewrite E. apply Hsetf. }
  exact (for_loop_miss obs I setv body n A Hsetf B s C I0).
Qed.

(** The pass keeps every entry of the edge maps valid, does not lower the
    vertex count and does not touch the frame. *)
Lemma pass_ids (nv0 n0 : Z) (iso : real) s :
  ids_valid nv0 s -> n0 <= _nverts s ->
  (ids_valid nv0 (compute_intersection_points iso s) /\
   n0 <= _nverts (compute_intersection_points iso s)) /\
  pass_frame (compute_intersection_points iso s) = pass_frame s.
Proof.
  intros I0 N0. unfold compute_intersection_points.
  apply (loop_frame pass_frame (fun s1 => ids_valid nv0 s1 /\ n0 <= _nverts s1));
    [reflexivity | reflexivity | | split; assumption].
  intros s1 I1.
  apply (loop_frame pass_frame (fun s1 => ids_valid nv0 s1 /\ n0 <= _nverts s1));
    [reflexivity | reflexivity | | exact I1].
  intros s2 I2.
  apply (loop_frame pass_frame (fun s1 => ids_valid nv0 s1 /\ n0 <= _nverts s1));
    [reflexivity | reflexivity | | exact I2].
  intros s3 [I3 N3]. destruct (intersection_step_ids nv0 iso s3 I3) as (A & B & C).
  split; [split; [exact A | lia] | exact B].
Qed.


Lemma at_index_valid (lo hi : Z) (l : list Z) (n : Z) :
  Forall (valid_id lo hi) l -> valid_id lo hi (at_index l n (-1)).
Proof.
  intros F. unfold at_index.
  destruct (nth_in_or_default (Z.to_nat n) l (-1)) as [Hin | ->]; [| left; reflexivity].
  rewrite Forall_forall in F. apply F. apply list_elem_of_In. exact Hin.
Qed.

(** X7. The edge-intersection pass stores only ids of vertices: if every
    entry of the three edge maps is -1 or lies in [nv0, _nverts), then so
    does every entry after the pass, for the vertex count after the pass;
    the pass never lowers the vertex count. *)
Theorem edge_map_ids_are_vertices (nv0 : Z) (iso : real) s :
  ids_valid nv0 s ->
  let s' := compute_intersection_points iso s in
  _nverts s <= _nverts s' /\
  forall i j k,
    valid_id nv0 (_nverts s') (get_x_vert s' i j k) /\
    valid_id nv0 (_nverts s') (get_y_vert s' i j k) /\
    valid_id nv0 (_nverts s') (get_z_vert s' i j k).
Proof.
  intros I0 s'.
  destruct (pass_ids nv0 (_nverts s) iso s I0) as [((H0 & Hx & Hy & Hz) & N) _]; [lia |].
  fold s' in H0, Hx, Hy, Hz, N.
  split; [exact N |]. intros i j k.
  unfold get_x_vert, get_y_vert, get_z_vert.
  split; [| split]; apply at_index_valid; assumption.
Qed.

(** ** What [run] leaves alone *)

Lemma loop_obs {A} (obs : MC -> A) (setv : Z -> MC -> MC) (n : Z) (body : MC -> MC) s :
  (forall v s, obs (setv v s) = obs s) ->
  (forall s, obs (body s) = obs s) ->
  obs (for_loop setv n body s) = obs s.
Proof.
  intros Hset Hbody.
  refine (proj2 (for_loop_miss obs (fun _ => True) setv body n _ Hset _ s _ I)); auto.
  intros v s1 _ _. rewrite Hbody. apply Hset.
Qed.

Lemma add_triangle_grid (trig : tile) (n v12 : Z) s :
  grid_frame (add_triangle trig n v12 s) = grid_frame s.
Proof.
  unfold add_triangle.
  assert (H : forall l (st : (Z * Z * Z) * MC),
            grid_frame (snd (fold_left (add_triangle_step trig v12) l st))
                           = grid_frame (snd st)).
  { induction l as [|t l IH]; intros st; cbn [fold_left]; [reflexivity |].
    rewrite IH. destruct st as [tv s1]. unfold add_triangle_step. cbn [snd].
    destruct (tv_get _ _ =? -1), (t mod 3 =? 2); cbn [snd]; unfold push_triangle;
      try destruct (_ntrigs _ >=? _Ntrigs _); reflexivity. }
  apply H.
Qed.

Lemma add_c_vertex_grid s : grid_frame (exec add_c_vertex s) = grid_frame s.
Proof.
  unfold exec, add_c_vertex. destruct (fold_left _ _ _) as [u buf]. cbn [snd].
  unfold test_vertex_addition. destruct (_nverts s >=? _Nverts s); reflexivity.
Qed.

Lemma add_triangle_c_grid (trig : tile) (n : Z) s :
  grid_frame (add_triangle_c trig n s) = grid_frame s.
Proof. rewrite add_triangle_c_unfold, add_triangle_grid. apply add_c_vertex_grid. Qed.

Lemma test_interior_grid (f : Z) s : grid_frame (exec (test_interior T f) s) = grid_frame s.
Proof. destruct (test_interior_frame s f) as [out ->]. reflexivity. Qed.

Lemma add_triangle_interior_grid (f : Z) (yes : tile) (ny : Z) (no : tile) (nn : Z) s :
  grid_frame (add_triangle_interior T f yes ny no nn s) = grid_frame s.
Proof.
  rewrite add_triangle_interior_unfold.
  destruct (eval (test_interior T f) s); rewrite add_triangle_grid; apply test_interior_grid.
Qed.

Ltac grid_step :=
  lazymatch goal with
  | |- grid_frame ?s = grid_frame ?s => reflexivity
  | |- grid_frame (add_triangle _ _ _ _) = _ => rewrite add_triangle_grid; reflexivity
  | |- grid_frame (add_triangle_c _ _ _) = _ => rewrite add_triangle_c_grid; reflexivity
  | |- grid_frame (add_triangle_interior _ _ _ _ _ _ _) = _ =>
      rewrite add_triangle_interior_grid; reflexivity
  | |- grid_frame (print_cube (printf _ _)) = _ => reflexivity
  end.

Lemma process_case13_grid s : grid_frame (process_case13 T s) = grid_frame s.
Proof.
  unfold process_case13.
  destruct (subconfig13 T (_subconfig s)) as [|p|p]; [grid_step | | grid_step].
  do 6 (try destruct p as [p|p|]); grid_step.
Qed.

Lemma process_case7_grid s : grid_frame (process_case7 T s) = grid_frame s.
Proof.
  unfold process_case7.
  destruct (_subconfig s) as [|p|p]; [grid_step | | grid_step].
  do 3 (try destruct p as [p|p|]); grid_step.
Qed.

Lemma process_topological_grid s : grid_frame (process_topological T s) = grid_frame s.
Proof.
  unfold process_topological.
  destruct (_case s) as [|p|p]; [grid_step | | grid_step].
  do 4 (try destruct p as [p|p|]); try (grid_step; fail).
  - (* 7 *)
    set (cfg := _config s).
    destruct (face_bits_frame s
                [(test7 T cfg 0, 1); (test7 T cfg 1, 2); (test7 T cfg 2, 4)]) as [n E].
    cbn [fold_left fst snd] in E. rewrite E, process_case7_grid. reflexivity.
  - (* 13 *)
    set (cfg := _config s).
    destruct (face_bits_frame s
                [(test13 T cfg 0, 1); (test13 T cfg 1, 2); (test13 T cfg 2, 4);
                 (test13 T cfg 3, 8); (test13 T cfg 4, 16); (test13 T cfg 5, 32)]) as [n E].
    cbn [fold_left fst snd] in E. rewrite E, process_case13_grid. reflexivity.
  - (* 3 *) destruct (test_face s (test3 T (_config s))); grid_step.
  - (* 10 *)
    destruct (test_face s (test10 T (_config s) 0)), (test_face s (test10 T (_config s) 1));
      grid_step.
  - (* 6 *)
    destruct (test_face s (test6 T (_config s) 0)); [grid_step |].
    pose proof (test_interior_frame s (test6 T (_config s) 1)) as [out E].
    unfold exec in E.
    destruct (test_interior T (test6 T (_config s) 1) s) as [b s1]. cbn [snd] in E. subst s1.
    destruct b; grid_step.
  - (* 12 *)
    destruct (test_face s (test12 T (_config s) 0)), (test_face s (test12 T (_config s) 1));
      grid_step.
Qed.

Lemma process_cube_grid s : grid_frame (process_cube T s) = grid_frame s.
Proof.
  unfold process_cube. destruct (_originalMC s).
  - apply add_triangle_grid.
  - rewrite process_topological_grid. reflexivity.
Qed.

Lemma load_corner_grid (iso : real) s (p : Z) :
  grid_frame (load_corner iso s p) = grid_frame s.
Proof. unfold load_corner. destruct (_ >? _)%real; reflexivity. Qed.

Lemma cell_step_grid (iso : real) s : grid_frame (cell_step T iso s) = grid_frame s.
Proof.
  unfold cell_step. rewrite process_cube_grid. cbn [fold_left].
  rewrite !load_corner_grid. reflexivity.
Qed.

Lemma pass_keeps_frame (iso : real) s :
  pass_frame (compute_intersection_points iso s) = pass_frame s.
Proof.
  unfold compute_intersection_points.
  apply loop_obs; [reflexivity |]. intros s3.
  apply loop_obs; [reflexivity |]. intros s4.
  apply loop_obs; [reflexivity |]. intros s5. apply intersection_step_frame.
Qed.

Lemma load_corners_view (iso : real) (l : list Z) s :
  edge_view (fold_left (load_corner iso) l s) = edge_view s /\
  grid_frame (fold_left (load_corner iso) l s) = grid_frame s /\
  mesh_frame (fold_left (load_corner iso) l s) = mesh_frame s.
Proof.
  revert s. induction l as [|p l IH]; intros s; cbn [fold_left]; [repeat split |].
  destruct (IH (load_corner iso s p)) as (A & B & C). rewrite A, B, C.
  unfold load_corner. destruct (_ >? _)%real; repeat split.
Qed.

Lemma load_corners_wf (iso : real) (l : list Z) s :
  mesh_wf s -> mesh_wf (fold_left (load_corner iso) l s).
Proof.
  intros W. destruct (load_corners_view iso l s) as (_ & _ & M).
  set (c := fold_left _ l s) in *. clearbody c. unfold mesh_frame in M.
  injection M as A B C D E F' G'. unfold mesh_wf. rewrite A, B, C, D, E, F'. exact W.
Qed.

(** X8. What [run] never writes: the method flag, the samples and the sizes
    are as before; the cell pass leaves the edge maps as the
    edge-intersection pass wrote them; the edge-intersection pass adds no
    triangle and prints no diagnostic. *)
Theorem run_keeps_grid (iso : real) s :
  let s1 := compute_intersection_points iso s in
  let s2 := run T iso s in
  (_originalMC s2 = _originalMC s /\ _data s2 = _data s /\
   _size_x s2 = _size_x s /\ _size_y s2 = _size_y s /\ _size_z s2 = _size_z s) /\
  (_x_verts s2 = _x_verts s1 /\ _y_verts s2 = _y_verts s1 /\ _z_verts s2 = _z_verts s1) /\
  (_ntrigs s1 = _ntrigs s /\ _triangles s1 = _triangles s /\ stdout s1 = stdout s).
Proof.
  intros s1 s2.
  assert (G : grid_frame s2 = grid_frame s1).
  { unfold s2, run. fold s1.
    apply loop_obs; [reflexivity |]. intros s3.
    apply loop_obs; [reflexivity |]. intros s4.
    apply loop_obs; [reflexivity |]. intros s5. apply cell_step_grid. }
  assert (F : pass_frame s1 = pass_frame s) by apply pass_keeps_frame.
  clearbody s1 s2. unfold grid_frame in G. unfold pass_frame in F.
  injection G as G1 G2 G3 G4 G5 G6 G7 G8.
  injection F as F1 F2 F3 F4 F5 F6 F7 F8 F9 F10 F11 F12 F13.
  repeat split; congruence.
Qed.

(** ** Grids without cells *)

Lemma for_loop_empty (setv : Z -> MC -> MC) (n : Z) (body : MC -> MC) s :
  n <= 0 -> for_loop setv n body s = setv 0 s.
Proof.
  intros H. unfold for_loop. replace (Z.to_nat n) with 0%nat by lia.
  replace (Z.max 0 n) with 0 by lia. reflexivity.
Qed.

(** X9. A grid with at most one point along some axis has no cell: [run]
    adds no triangle and prints no diagnostic, and the vertices are those
    of the edge-intersection pass. *)
Theorem run_on_thin_grid (iso : real) s :
  _size_x s <= 1 \/ _size_y s <= 1 \/ _size_z s <= 1 ->
  let s1 := compute_intersection_points iso s in
  let s2 := run T iso s in
  _ntrigs s2 = _ntrigs s /\ _triangles s2 = _triangles s /\ stdout s2 = stdout s /\
  _nverts s2 = _nverts s1 /\ _vertices s2 = _vertices s1.
Proof.
  intros Hthin s1 s2.
  assert (F : pass_frame s1 = pass_frame s) by apply pass_keeps_frame.
  set (I := fun s3 : MC => _size_x s3 = _size_x s /\ _size_y s3 = _size_y s /\
                           _size_z s3 = _size_z s).
  assert (I1 : I s1).
  { unfold pass_frame in F. clearbody s1. injection F as _ Fx Fy Fz _. repeat split; assumption. }
  assert (M : mesh_frame s2 = mesh_frame s1).
  { unfold s2, run. fold s1. clearbody s1.
    destruct Hthin as [Hx | [Hy | Hz]].
    - refine (proj2 (loop_frame mesh_frame I with_k _ _ s1 _ _ _ I1));
        [reflexivity | reflexivity |].
      intros s3 I3.
      refine (loop_frame mesh_frame I with_j _ _ s3 _ _ _ I3);
        [reflexivity | reflexivity |].
      intros s4 I4.
      rewrite for_loop_empty by (destruct I4 as (E & _); lia).
      split; [exact I4 | reflexivity].
    - refine (proj2 (loop_frame mesh_frame I with_k _ _ s1 _ _ _ I1));
        [reflexivity | reflexivity |].
      intros s3 I3.
      rewrite for_loop_empty by (destruct I3 as (_ & E & _); lia).
      split; [exact I3 | reflexivity].
    - rewrite for_loop_empty by (destruct I1 as (_ & _ & E); lia). reflexivity. }
  unfold mesh_frame in M. unfold pass_frame in F. clearbody s1 s2.
  injection M as M1 M2 M3 M4 M5 M6 M7.
  injection F as F1 F2 F3 F4 F5 F6 F7 F8 F9 F10 F11 F12 F13.
  repeat split; congruence.
Qed.

(** X13. [run] after [clean_all] does nothing: the sizes are -1, no loop
    body is entered, and the state is the one [clean_all] left, with the
    loop counter [_k] at 0: no vertex, no triangle, no diagnostic, and the
    buffers and the samples as they were. *)
Theorem run_after_clean_all (iso : real) s :
  let s' := run T iso (clean_all s) in
  s' = with_k 0 (clean_all s) /\
  _nverts s' = 0 /\ _ntrigs s' = 0 /\ stdout s' = stdout s /\
  _vertices s' = _vertices s /\ _triangles s' = _triangles s /\ _data s' = _data s.
Proof.
  cbv zeta.
  assert (E : run T iso (clean_all s) = with_k 0 (clean_all s)).
  { unfold run, compute_intersection_points. cbv zeta.
    rewrite (for_loop_empty with_k (_size_z (clean_all s))) by (cbn; lia).
    rewrite for_loop_empty by (cbn; lia). reflexivity. }
  rewrite E. repeat split.
Qed.

(** X10. A grid without points along some axis: the edge-intersection pass
    creates no vertex and leaves the three edge maps as they were. *)
Theorem pass_on_empty_grid (iso : real) s :
  _size_x s <= 0 \/ _size_y s <= 0 \/ _size_z s <= 0 ->
  let s1 := compute_intersection_points iso s in
  _nverts s1 = _nverts s /\ _vertices s1 = _vertices s /\
  _x_verts s1 = _x_verts s /\ _y_verts s1 = _y_verts s /\ _z_verts s1 = _z_verts s.
Proof.
  intros Hempty s1.
  set (I := fun s3 : MC => _size_x s3 = _size_x s /\ _size_y s3 = _size_y s /\
                           _size_z s3 = _size_z s).
  assert (I0 : I s) by (repeat split).
  set (obs := fun s3 : MC => (_nverts s3, _vertices s3, _x_verts s3, _y_verts s3, _z_verts s3)).
  assert (M : obs s1 = obs s).
  { unfold s1, compute_intersection_points.
    destruct Hempty as [Hx | [Hy | Hz]].
    - refine (proj2 (loop_frame obs I with_k _ _ s _ _ _ I0)); [reflexivity | reflexivity |].
      intros s3 I3.
      refine (loop_frame obs I with_j _ _ s3 _ _ _ I3); [reflexivity | reflexivity |].
      intros s4 I4.
      rewrite for_loop_empty by (destruct I4 as (E & _); lia).
      split; [exact I4 | reflexivity].
    - refine (proj2 (loop_frame obs I with_k _ _ s _ _ _ I0)); [reflexivity | reflexivity |].
      intros s3 I3.
      rewrite for_loop_empty by (destruct I3 as (_ & E & _); lia).
      split; [exact I3 | reflexivity].
    - rewrite for_loop_empty by lia. reflexivity. }
  unfold obs in M. clearbody s1. injection M as M1 M2 M3 M4 M5. repeat split; assumption.
Qed.

(** ** The vertex ids on the edges of a cell *)

Lemma cell_edges_range (e p q : Z) : In (e, (p, q)) cell_edges -> 0 <= e <= 11.
Proof.
  unfold cell_edges. cbn [In]. intros H.
  repeat (destruct H as [H | H]; [injection H as <- _ _; lia |]). contradiction.
Qed.

Lemma edge_vertex_valid (lo hi : Z) s (e v12 old : Z) :
  Forall (valid_id lo hi) (_x_verts s) -> Forall (valid_id lo hi) (_y_verts s) ->
  Forall (valid_id lo hi) (_z_verts s) -> 0 <= e <= 11 ->
  valid_id lo hi (edge_vertex s e v12 old).
Proof.
  intros Fx Fy Fz He.
  assert (D : In e [0; 1; 2; 3; 4; 5; 6; 7; 8; 9; 10; 11]) by (cbn; lia).
  cbn [In] in D.
  repeat (destruct D as [<- | D];
    [cbn [edge_vertex]; unfold get_x_vert, get_y_vert, get_z_vert;
     apply at_index_valid; assumption |]).
  contradiction.
Qed.

Lemma valid_replicate (lo hi : Z) (n : nat) : Forall (valid_id lo hi) (replicate n (-1)).
Proof. induction n; cbn [replicate]; constructor; [left; reflexivity | assumption]. Qed.

(** ** The vertices the edge maps name *)

Lemma stored_vertex (v : Vertex real) s :
  mesh_wf s -> _nverts s < _Nverts s ->
  at_index (_vertices (store_vertex v s)) (_nverts s) zero_vertex = v.
Proof.
  intros (Wn & _ & Wl & _) Hfree. unfold store_vertex. cbn [_vertices with_vertices].
  unfold at_index. rewrite nth_lookup, list_lookup_insert_eq by lia. reflexivity.
Qed.

Lemma older_vertices s s' (m : Z) :
  extends s s' -> 0 <= m < _nverts s ->
  at_index (_vertices s') m zero_vertex = at_index (_vertices s) m zero_vertex.
Proof.
  intros (_ & _ & _ & _ & _ & _ & _ & _ & V & _) Hm.
  apply (take_eq_at_index _ _ (Z.to_nat (_nverts s))); [exact V | lia | lia].
Qed.

(** What one intersection does: a vertex more, stored at the old count, whose
    id goes to the entry of the current grid point in the map of its axis. *)
Lemma intersect_axis_effect (a : Z) s :
  0 <= a <= 2 -> mesh_wf s ->
  let s' := intersect_axis a s in
  let pos := Z.to_nat (grid_index s (_i s) (_j s) (_k s)) in
  mesh_wf s' /\ extends s s' /\ _nverts s' = _nverts s + 1 /\
  (forall a', 0 <= a' <= 2 ->
     edge_map a' s' = if a' =? a then <[pos := _nverts s]> (edge_map a s) else edge_map a' s) /\
  at_index (_vertices s') (_nverts s) zero_vertex = normalize (axis_vertex a s) /\
  grid_view s' = grid_view s.
Proof.
  intros Ha W. cbv zeta.
  destruct (test_vertex_addition_extends s W) as (E & Hn & Hfree).
  destruct (test_vertex_addition_frame s) as (Nv & vs & Ef).
  assert (Wt : mesh_wf (test_vertex_addition s)) by (eapply extends_wf; exact E).
  assert (D : a = 0 \/ a = 1 \/ a = 2) by lia.
  destruct D as [-> | [-> | ->]]; cbn [intersect_axis axis_vertex].
  - destruct (intersect_x_effect s) as (Nn & Ex & Ey & Ez & _ & C & Hi & Hj & Hk).
    pose proof (intersect_x_extends s W) as X.
    split; [eapply extends_wf; exact X |]. split; [exact X |]. split; [exact Nn |].
    split; [| split].
    + intros a' Ha'. assert (D : a' = 0 \/ a' = 1 \/ a' = 2) by lia.
      destruct D as [-> | [-> | ->]]; cbn [edge_map Z.eqb]; assumption.
    + unfold intersect_x, add_x_vertex, set_x_vert. cbn [_vertices with_x_verts].
      rewrite <- Hn at 1. rewrite (stored_vertex _ _ Wt) by lia.
      rewrite Ef. reflexivity.
    + destruct (cond_intersect_x_frame true s) as (? & ? & ? & _ & ->). reflexivity.
  - destruct (intersect_y_effect s) as (Nn & Ey & Ex & Ez & _ & C & Hi & Hj & Hk).
    pose proof (intersect_y_extends s W) as X.
    split; [eapply extends_wf; exact X |]. split; [exact X |]. split; [exact Nn |].
    split; [| split].
    + intros a' Ha'. assert (D : a' = 0 \/ a' = 1 \/ a' = 2) by lia.
      destruct D as [-> | [-> | ->]]; cbn [edge_map Z.eqb]; assumption.
    + unfold intersect_y, add_y_vertex, set_y_vert. cbn [_vertices with_y_verts].
      rewrite <- Hn at 1. rewrite (stored_vertex _ _ Wt) by lia.
      rewrite Ef. reflexivity.
    + destruct (cond_intersect_y_frame true s) as (? & ? & ? & _ & ->). reflexivity.
  - destruct (intersect_z_effect s) as (Nn & Ez & Ex & Ey & _ & C & Hi & Hj & Hk).
    pose proof (intersect_z_extends s W) as X.
    split; [eapply extends_wf; exact X |]. split; [exact X |]. split; [exact Nn |].
    split; [| split].
    + intros a' Ha'. assert (D : a' = 0 \/ a' = 1 \/ a' = 2) by lia.
      destruct D as [-> | [-> | ->]]; cbn [edge_map Z.eqb]; assumption.
    + unfold intersect_z, add_z_vertex, set_z_vert. cbn [_vertices with_z_verts].
      rewrite <- Hn at 1. rewrite (stored_vertex _ _ Wt) by lia.
      rewrite Ef. reflexivity.
    + destruct (cond_intersect_z_frame true s) as (? & ? & ? & _ & ->). reflexivity.
Qed.


Section EntryPass.
Variable iso : real.
Variable s0 : MarchingCubes real.

Local Abbreviation einv := (entry_invariant iso s0).

(** One conditional intersection at a grid point keeps the invariant, if the
    vertex it builds is the one of the edge. *)
Lemma cond_intersect_entries (a : Z) (b : bool) s :
  0 <= a <= 2 -> 0 <= _nverts s0 -> einv s ->
  in_grid (_size_x s0) (_size_y s0) (_size_z s0) (_i s) (_j s) (_k s) ->
  (b = true -> edge_target iso s0 a (_i s) (_j s) (_k s) (normalize (axis_vertex a s))) ->
  let s' := if b then intersect_axis a s else s in
  einv s' /\ grid_view s' = grid_view s.
Proof.
  intros Ha H0 (W & G & I & N) P Hv. cbv zeta.
  destruct b; [| split; [exact (conj W (conj G (conj I N))) | reflexivity]].
  specialize (Hv eq_refl).
  destruct (intersect_axis_effect a s Ha W) as (W' & X & Nn & Em & Vn & V).
  set (s' := intersect_axis a s) in *.
  assert (I' : ids_valid (_nverts s0) s').
  { assert (D : a = 0 \/ a = 1 \/ a = 2) by lia.
    destruct D as [-> | [-> | ->]].
    - apply (cond_intersect_ids (_nverts s0) true intersect_x s); [tauto | exact I].
    - apply (cond_intersect_ids (_nverts s0) true intersect_y s); [tauto | exact I].
    - apply (cond_intersect_ids (_nverts s0) true intersect_z s); [tauto | exact I]. }
  clearbody s'.
  destruct G as (Hsx & Hsy & Hsz & Hd & Lx & Ly & Lz & Hn).
  assert (Vw : _size_x s' = _size_x s /\ _size_y s' = _size_y s /\ _size_z s' = _size_z s /\
               _data s' = _data s).
  { unfold grid_view in V. injection V as _ _ _ _ A B C D. auto. }
  destruct Vw as (Vx & Vy & Vz & Vd).
  assert (Lm : forall a', 0 <= a' <= 2 ->
            length (edge_map a' s) = Z.to_nat (_size_x s0 * _size_y s0 * _size_z s0)).
  { intros a' Ha'. assert (D : a' = 0 \/ a' = 1 \/ a' = 2) by lia.
    destruct D as [-> | [-> | ->]]; assumption. }
  pose proof (grid_index_range _ _ _ _ _ _ P) as R.
  assert (Hpos : grid_index s (_i s) (_j s) (_k s)
                 = _i s + _j s * _size_x s0 + _k s * _size_x s0 * _size_y s0).
  { unfold grid_index. rewrite Hsx, Hsy. reflexivity. }
  split; [| exact V].
  split; [exact W' |]. split.
  { unfold grid_invariant. rewrite Vx, Vy, Vz, Vd.
    repeat split; try assumption; try lia.
    - change (_x_verts s') with (edge_map 0 s'). rewrite Em by lia.
      destruct (0 =? a); [rewrite length_insert |]; apply Lm; lia.
    - change (_y_verts s') with (edge_map 1 s'). rewrite Em by lia.
      destruct (1 =? a); [rewrite length_insert |]; apply Lm; lia.
    - change (_z_verts s') with (edge_map 2 s'). rewrite Em by lia.
      destruct (2 =? a); [rewrite length_insert |]; apply Lm; lia. }
  split; [exact I' |].
  intros a' i j k Ha' Q e He.
  pose proof (grid_index_range _ _ _ _ _ _ Q) as RQ.
  assert (Hold : forall e0, e0 = at_index (edge_map a' s) (grid_index s0 i j k) (-1) ->
            e0 <> -1 ->
            edge_target iso s0 a' i j k (at_index (_vertices s') e0 zero_vertex)).
  { intros e0 -> Hne. rewrite (older_vertices s s' _ X).
    - apply N; assumption.
    - destruct I as (_ & Ix & Iy & Iz).
      assert (Vid : valid_id (_nverts s0) (_nverts s)
                      (at_index (edge_map a' s) (grid_index s0 i j k) (-1))).
      { assert (D : a' = 0 \/ a' = 1 \/ a' = 2) by lia.
        destruct D as [-> | [-> | ->]]; apply at_index_valid; assumption. }
      destruct Vid as [E | E]; [contradiction | lia]. }
  subst e. revert He. rewrite Em by exact Ha'.
  destruct (Z.eqb_spec a' a) as [-> | Hne]; [| intros He; apply Hold; [reflexivity | exact He]].
  rewrite Hpos. unfold grid_index at 1 2.
  rewrite at_index_insert by (rewrite ?Lm by lia; lia).
  destruct (Z.eqb_spec (_i s + _j s * _size_x s0 + _k s * _size_x s0 * _size_y s0)
                       (i + j * _size_x s0 + k * _size_x s0 * _size_y s0)) as [Eq | Ne].
  - intros _. destruct (grid_index_inj _ _ _ _ _ _ _ _ _ P Q Eq) as (<- & <- & <-).
    rewrite Vn. exact Hv.
  - intros He. apply Hold; [reflexivity | exact He].
Qed.

Lemma cond_intersections_entries (b1 b3 b4 : bool) s :
  0 <= _nverts s0 -> einv s ->
  in_grid (_size_x s0) (_size_y s0) (_size_z s0) (_i s) (_j s) (_k s) ->
  (forall a, 0 <= a <= 2 ->
     edge_target iso s0 a (_i s) (_j s) (_k s) (normalize (axis_vertex a s))) ->
  let s2 := if b1 then intersect_x s else s in
  let s3 := if b3 then intersect_y s2 else s2 in
  let s4 := if b4 then intersect_z s3 else s3 in
  einv s4 /\ grid_view s4 = grid_view s /\ _cube s2 = _cube s /\ _cube s3 = _cube s.
Proof.
  intros H0 Inv P Hv s2 s3 s4.
  destruct (cond_intersect_entries 0 b1 s ltac:(lia) H0 Inv P (fun _ => Hv 0 ltac:(lia)))
    as [Inv2 V2].
  change (if b1 then intersect_axis 0 s else s) with s2 in Inv2, V2.
  assert (K2 : _i s2 = _i s /\ _j s2 = _j s /\ _k s2 = _k s /\ _cube s2 = _cube s).
  { unfold grid_view in V2. clearbody s2. injection V2 as A B C D _. auto. }
  destruct K2 as (Ki2 & Kj2 & Kk2 & Kc2).
  destruct (grid_view_edge_vertices s s2 V2) as (_ & Ey & _).
  destruct (cond_intersect_entries 1 b3 s2 ltac:(lia) H0 Inv2) as [Inv3 V3].
  { rewrite Ki2, Kj2, Kk2. exact P. }
  { intros _. cbn [axis_vertex]. rewrite Ki2, Kj2, Kk2, Ey. exact (Hv 1 ltac:(lia)). }
  change (if b3 then intersect_axis 1 s2 else s2) with s3 in Inv3, V3.
  assert (V3' : grid_view s3 = grid_view s) by congruence.
  assert (K3 : _i s3 = _i s /\ _j s3 = _j s /\ _k s3 = _k s /\ _cube s3 = _cube s).
  { unfold grid_view in V3'. clearbody s2 s3. injection V3' as A B C D _. auto. }
  destruct K3 as (Ki3 & Kj3 & Kk3 & Kc3).
  destruct (grid_view_edge_vertices s s3 V3') as (_ & _ & Ez).
  destruct (cond_intersect_entries 2 b4 s3 ltac:(lia) H0 Inv3) as [Inv4 V4].
  { rewrite Ki3, Kj3, Kk3. exact P. }
  { intros _. cbn [axis_vertex]. rewrite Ki3, Kj3, Kk3, Ez. exact (Hv 2 ltac:(lia)). }
  change (if b4 then intersect_axis 2 s3 else s3) with s4 in Inv4, V4.
  split; [exact Inv4 |]. split; [congruence |]. split; assumption.
Qed.

Lemma step_entry_invariant s :
  0 <= _nverts s0 -> einv s ->
  in_grid (_size_x s0) (_size_y s0) (_size_z s0) (_i s) (_j s) (_k s) ->
  einv (intersection_step iso s) /\
  _j (intersection_step iso s) = _j s /\ _k (intersection_step iso s) = _k s.
Proof.
  intros H0 Inv P. unfold intersection_step.
  set (s1 := load_edge_corners iso s).
  assert (Inv1 : einv s1) by exact Inv.
  assert (P1 : in_grid (_size_x s0) (_size_y s0) (_size_z s0) (_i s1) (_j s1) (_k s1))
    by exact P.
  pose proof (load_edge_corners_edge_values iso s) as Hv. cbv zeta in Hv. fold s1 in Hv.
  assert (Hev : edge_values iso s (_i s) (_j s) (_k s)
                = edge_values iso s0 (_i s) (_j s) (_k s)).
  { destruct Inv as (_ & (Hsx & Hsy & Hsz & Hd & _) & _).
    unfold edge_values, get_data, grid_index. rewrite Hsx, Hsy, Hsz, Hd. reflexivity. }
  rewrite Hev in Hv. clear Hev.
  assert (K1 : _i s1 = _i s /\ _j s1 = _j s /\ _k s1 = _k s) by (repeat split).
  destruct K1 as (Ki & Kj & Kk). clearbody s1.
  assert (Ht : forall a, 0 <= a <= 2 ->
            edge_target iso s0 a (_i s1) (_j s1) (_k s1) (normalize (axis_vertex a s1))).
  { intros a Ha. unfold edge_target. rewrite Ki, Kj, Kk.
    revert Hv.
    destruct (edge_values iso s0 (_i s) (_j s) (_k s)) as [[[c0 c1] c3] c4].
    intros Hv. injection Hv as E0 E1 E3 E4.
    assert (D : a = 0 \/ a = 1 \/ a = 2) by lia.
    destruct D as [-> | [-> | ->]]; cbn [axis_vertex].
    - destruct (normalize_position (x_edge_vertex s1)) as (-> & -> & ->).
      unfold x_edge_vertex. cbn [x y z]. rewrite E0, E1, ?Ki, ?Kj, ?Kk. repeat split.
    - destruct (normalize_position (y_edge_vertex s1)) as (-> & -> & ->).
      unfold y_edge_vertex. cbn [x y z]. rewrite E0, E3, ?Ki, ?Kj, ?Kk. repeat split.
    - destruct (normalize_position (z_edge_vertex s1)) as (-> & -> & ->).
      unfold z_edge_vertex. cbn [x y z]. rewrite E0, E4, ?Ki, ?Kj, ?Kk. repeat split. }
  unfold intersect_edges.
  assert (Fin : forall b1 b3 b4 : bool,
            let s2 := if b1 then intersect_x s1 else s1 in
            let s3 := if b3 then intersect_y s2 else s2 in
            let s4 := if b4 then intersect_z s3 else s3 in
            einv s4 /\ grid_view s4 = grid_view s1 /\
            _cube s2 = _cube s1 /\ _cube s3 = _cube s1).
  { intros b1 b3 b4. apply cond_intersections_entries; assumption. }
  assert (Out : forall s4, einv s4 /\ grid_view s4 = grid_view s1 ->
            einv s4 /\ _j s4 = _j s /\ _k s4 = _k s).
  { intros s4 [A B]. split; [exact A |]. unfold grid_view in B.
    injection B as _ _ Bj Bk _. split; congruence. }
  destruct (_cube s1 0 <? #0)%real.
  - destruct (Fin (_cube s1 1 >? #0)%real (_cube s1 3 >? #0)%real (_cube s1 4 >? #0)%real)
      as (A & B & C2 & C3).
    rewrite C2, C3. apply Out. split; assumption.
  - destruct (Fin (_cube s1 1 <? #0)%real (_cube s1 3 <? #0)%real (_cube s1 4 <? #0)%real)
      as (A & B & C2 & C3).
    rewrite C2, C3. apply Out. split; assumption.
Qed.

Lemma row_loop_entry_invariant (j k : Z) s :
  0 <= _nverts s0 -> 0 <= j < _size_y s0 -> 0 <= k < _size_z s0 ->
  einv s /\ _j s = j /\ _k s = k ->
  einv (row_loop iso s) /\ _j (row_loop iso s) = j /\ _k (row_loop iso s) = k.
Proof.
  intros H0 Hj Hk Inv. unfold row_loop.
  replace (_size_x s) with (_size_x s0) by (symmetry; apply Inv).
  apply (for_loop_miss (fun _ => tt) (fun s => einv s /\ _j s = j /\ _k s = k)).
  - intros v s1 H. exact H.
  - reflexivity.
  - intros v s1 Hr (Inv1 & Hj1 & Hk1).
    destruct (step_entry_invariant (with_i v s1) H0 Inv1) as (H1 & H2 & H3).
    + unfold in_grid. cbn. lia.
    + cbn in H2, H3. split; [exact H1 |]. split; congruence.
  - reflexivity.
  - exact Inv.
Qed.

Lemma slab_loop_entry_invariant (k : Z) s :
  0 <= _nverts s0 -> 0 <= k < _size_z s0 ->
  einv s /\ _k s = k -> einv (slab_loop iso s) /\ _k (slab_loop iso s) = k.
Proof.
  intros H0 Hk Inv. unfold slab_loop.
  replace (_size_y s) with (_size_y s0) by (symmetry; apply Inv).
  apply (for_loop_miss (fun _ => tt) (fun s => einv s /\ _k s = k)).
  - intros v s1 H. exact H.
  - reflexivity.
  - intros v s1 Hr (Inv1 & Hk1).
    destruct (row_loop_entry_invariant v k (with_j v s1) H0 Hr Hk) as (H1 & _ & H3).
    + split; [exact Inv1 |]. split; [reflexivity | exact Hk1].
    + split; assumption.
  - reflexivity.
  - exact Inv.
Qed.

Lemma pass_entry_invariant s :
  0 <= _nverts s0 -> einv s -> einv (compute_intersection_points iso s).
Proof.
  intros H0 Inv.
  change (compute_intersection_points iso s)
    with (for_loop with_k (_size_z s) (slab_loop iso) s).
  replace (_size_z s) with (_size_z s0) by (symmetry; apply Inv).
  apply (for_loop_miss (fun _ => tt) einv).
  - intros v s1 H. exact H.
  - reflexivity.
  - intros v s1 Hr Inv1.
    destruct (slab_loop_entry_invariant v (with_k v s1) H0 Hr) as (H1 & _).
    + split; [exact Inv1 | reflexivity].
    + exact H1.
  - reflexivity.
  - exact Inv.
Qed.

End EntryPass.

(** After a pass started with maps that hold [-1] everywhere, every entry
    that is not [-1] is the id of a vertex the pass created, and the vertex
    is the one of the edge of the entry. *)
Lemma pass_names_vertices (iso : real) s (a i j k : Z) :
  mesh_wf s ->
  _x_verts s = replicate (Z.to_nat (_size_x s * _size_y s * _size_z s)) (-1) ->
  _y_verts s = replicate (Z.to_nat (_size_x s * _size_y s * _size_z s)) (-1) ->
  _z_verts s = replicate (Z.to_nat (_size_x s * _size_y s * _size_z s)) (-1) ->
  0 <= a <= 2 -> in_grid (_size_x s) (_size_y s) (_size_z s) i j k ->
  let s' := compute_intersection_points iso s in
  let e := at_index (edge_map a s') (grid_index s i j k) (-1) in
  e <> -1 ->
  _nverts s <= e < _nverts s' /\
  edge_target iso s a i j k (at_index (_vertices s') e zero_vertex).
Proof.
  intros W Hx Hy Hz Ha G s' e He.
  assert (H0 : 0 <= _nverts s) by (destruct W as (? & _); lia).
  assert (Inv : entry_invariant iso s s).
  { split; [exact W |]. split.
    - unfold grid_invariant. rewrite Hx, Hy, Hz, !length_replicate. repeat split. exact H0.
    - split.
      + split; [lia |]. rewrite Hx, Hy, Hz. split; [| split]; apply valid_replicate.
      + intros a' i' j' k' Ha' G' e' He'. exfalso. apply He'. subst e'.
        assert (D : a' = 0 \/ a' = 1 \/ a' = 2) by lia.
        destruct D as [-> | [-> | ->]]; cbn [edge_map];
          rewrite ?Hx, ?Hy, ?Hz; apply at_index_replicate. }
  destruct (pass_entry_invariant iso s s H0 Inv) as (_ & _ & (_ & Ix & Iy & Iz) & N).
  fold s' in Ix, Iy, Iz, N.
  split; [| apply N; assumption].
  assert (Vid : valid_id (_nverts s) (_nverts s') e).
  { subst e. assert (D : a = 0 \/ a = 1 \/ a = 2) by lia.
    destruct D as [-> | [-> | ->]]; apply at_index_valid; assumption. }
  destruct Vid as [E | E]; [contradiction | exact E].
Qed.

(** ** How many vertices the edge-intersection pass adds *)

Lemma sum_below_nonneg (n : Z) (g : Z -> Z) :
  (forall v, 0 <= v < n -> 0 <= g v) -> 0 <= sum_below n g.
Proof.
  intros H. unfold sum_below.
  assert (A : forall l, (forall v, In v l -> 0 <= g v) -> 0 <= fold_right Z.add 0 (map g l)).
  { induction l as [|v l IH]; intros Hl; cbn; [lia |].
    pose proof (Hl v (or_introl eq_refl)). pose proof (IH (fun w Hw => Hl w (or_intror Hw))).
    lia. }
  apply A. intros v Hv. apply H. apply in_map_iff in Hv. destruct Hv as (m & <- & Hm).
  apply in_seq in Hm. lia.
Qed.

Lemma sum_below_term (n : Z) (g : Z -> Z) (v0 : Z) :
  (forall v, 0 <= v < n -> 0 <= g v) -> 0 <= v0 < n -> g v0 <= sum_below n g.
Proof.
  intros H Hv0. unfold sum_below.
  assert (A : forall l, (forall v, In v l -> 0 <= g v) -> In v0 l ->
            g v0 <= fold_right Z.add 0 (map g l)).
  { induction l as [|v l IH]; intros Hl Hin; [contradiction |]. cbn.
    assert (N : 0 <= fold_right Z.add 0 (map g l)).
    { clear IH Hin. induction l as [|w l IH]; cbn; [lia |].
      pose proof (Hl w (or_intror (or_introl eq_refl))).
      assert (0 <= fold_right Z.add 0 (map g l)).
      { apply IH. intros u [Hu | Hu]; apply Hl; [left | right; right]; assumption. }
      lia. }
    pose proof (Hl v (or_introl eq_refl)).
    destruct Hin as [-> | Hin]; [lia |].
    pose proof (IH (fun w Hw => Hl w (or_intror Hw)) Hin). lia. }
  apply A.
  - intros v Hv. apply H. apply in_map_iff in Hv. destruct Hv as (m & <- & Hm).
    apply in_seq in Hm. lia.
  - apply in_map_iff. exists (Z.to_nat v0). split; [lia | apply in_seq; lia].
Qed.

Lemma sum_below_ext (n : Z) (g h : Z -> Z) :
  (forall v, 0 <= v < n -> g v = h v) -> sum_below n g = sum_below n h.
Proof.
  intros H. unfold sum_below. f_equal. apply map_ext_in. intros v Hv. apply H.
  apply in_map_iff in Hv. destruct Hv as (m & <- & Hm). apply in_seq in Hm. lia.
Qed.

(** A loop whose turn [v] adds [g v] to a measure adds their sum. *)
Lemma for_loop_sum (m : MarchingCubes real -> Z) (I : MarchingCubes real -> Prop)
    (setv : Z -> MarchingCubes real -> MarchingCubes real) (n : Z)
    (body : MarchingCubes real -> MarchingCubes real) (g : Z -> Z) s :
  (forall v s, I s -> I (setv v s)) ->
  (forall v s, m (setv v s) = m s) ->
  (forall v s, 0 <= v < n -> I s ->
     I (body (setv v s)) /\ m (body (setv v s)) = m s + g v) ->
  I s ->
  I (for_loop setv n body s) /\ m (for_loop setv n body s) = m s + sum_below n g.
Proof.
  intros HsetI Hsetm Hbody Hs. unfold for_loop, sum_below.
  assert (A : forall l s, (forall v, In v l -> 0 <= v < n) -> I s ->
            I (fold_left (fun s v => body (setv v s)) l s) /\
            m (fold_left (fun s v => body (setv v s)) l s)
              = m s + fold_right Z.add 0 (map g l)).
  { induction l as [|v l IH]; intros s1 Hl H1; cbn [fold_left map fold_right].
    - split; [exact H1 | lia].
    - destruct (Hbody v s1 (Hl v (or_introl eq_refl)) H1) as [B1 B2].
      destruct (IH (body (setv v s1)) (fun w Hw => Hl w (or_intror Hw)) B1) as [C1 C2].
      split; [exact C1 | rewrite C2, B2; lia]. }
  destruct (A (map Z.of_nat (seq 0 (Z.to_nat n))) s) as [A1 A2].
  - intros v Hv. apply in_map_iff in Hv. destruct Hv as (k & <- & Hk).
    apply in_seq in Hk. lia.
  - exact Hs.
  - split; [apply HsetI; exact A1 | rewrite Hsetm; exact A2].
Qed.

Lemma cond_intersect_count (b : bool) (f : MarchingCubes real -> MarchingCubes real) s :
  f = intersect_x \/ f = intersect_y \/ f = intersect_z ->
  let s' := if b then f s else s in
  _nverts s' = _nverts s + Z.b2z b /\ _cube s' = _cube s.
Proof.
  intros Hf. cbv zeta. destruct b; [| split; [cbn; lia | reflexivity]].
  destruct Hf as [-> | [-> | ->]].
  - destruct (intersect_x_effect s) as (N & _ & _ & _ & _ & C & _). auto.
  - destruct (intersect_y_effect s) as (N & _ & _ & _ & _ & C & _). auto.
  - destruct (intersect_z_effect s) as (N & _ & _ & _ & _ & C & _). auto.
Qed.

Lemma intersect_edges_count s :
  _nverts (intersect_edges s) =
    _nverts s + Z.b2z (edge_crossed (_cube s 0) (_cube s 1))
              + Z.b2z (edge_crossed (_cube s 0) (_cube s 3))
              + Z.b2z (edge_crossed (_cube s 0) (_cube s 4)).
Proof.
  assert (A : forall b1 b3 b4 : bool,
            let s2 := if b1 then intersect_x s else s in
            let s3 := if b3 then intersect_y s2 else s2 in
            let s4 := if b4 then intersect_z s3 else s3 in
            _nverts s4 = _nverts s + Z.b2z b1 + Z.b2z b3 + Z.b2z b4 /\
            _cube s2 = _cube s /\ _cube s3 = _cube s).
  { intros b1 b3 b4 s2 s3 s4.
    destruct (cond_intersect_count b1 intersect_x s) as [N2 C2]; [tauto |]. fold s2 in N2, C2.
    destruct (cond_intersect_count b3 intersect_y s2) as [N3 C3]; [tauto |]. fold s3 in N3, C3.
    destruct (cond_intersect_count b4 intersect_z s3) as [N4 C4]; [tauto |]. fold s4 in N4, C4.
    split; [lia |]. split; congruence. }
  unfold intersect_edges, edge_crossed.
  destruct (_cube s 0 <? #0)%real.
  - destruct (A (_cube s 1 >? #0)%real (_cube s 3 >? #0)%real (_cube s 4 >? #0)%real)
      as (N & C2 & C3). rewrite C2, C3. exact N.
  - destruct (A (_cube s 1 <? #0)%real (_cube s 3 <? #0)%real (_cube s 4 <? #0)%real)
      as (N & C2 & C3). rewrite C2, C3. exact N.
Qed.

Lemma intersection_step_count (iso : real) s :
  _nverts (intersection_step iso s)
    = _nverts s + crossings iso s (_i s) (_j s) (_k s).
Proof.
  unfold intersection_step. rewrite intersect_edges_count.
  pose proof (load_edge_corners_edge_values iso s) as E. cbv zeta in E.
  unfold crossings. rewrite <- E.
  change (_nverts (load_edge_corners iso s)) with (_nverts s). lia.
Qed.

Lemma crossings_frame (iso : real) s s' (i j k : Z) :
  _size_x s' = _size_x s -> _size_y s' = _size_y s -> _size_z s' = _size_z s ->
  _data s' = _data s -> crossings iso s' i j k = crossings iso s i j k.
Proof.
  intros Hx Hy Hz Hd. unfold crossings, edge_values, get_data, grid_index.
  rewrite Hx, Hy, Hz, Hd. reflexivity.
Qed.

Lemma crossed_edges_frame (iso : real) s s' :
  _size_x s' = _size_x s -> _size_y s' = _size_y s -> _size_z s' = _size_z s ->
  _data s' = _data s -> crossed_edges iso s' = crossed_edges iso s.
Proof.
  intros Hx Hy Hz Hd. unfold crossed_edges. rewrite Hx, Hy, Hz.
  apply sum_below_ext. intros k _. apply sum_below_ext. intros j _.
  apply sum_below_ext. intros i _. apply crossings_frame; assumption.
Qed.

Lemma crossings_range (iso : real) s (i j k : Z) : 0 <= crossings iso s i j k <= 3.
Proof.
  unfold crossings. destruct (edge_values iso s i j k) as [[[c0 c1] c3] c4].
  destruct (edge_crossed c0 c1), (edge_crossed c0 c3), (edge_crossed c0 c4); cbn; lia.
Qed.

Lemma crossed_edges_term (iso : real) s (i j k : Z) :
  in_grid (_size_x s) (_size_y s) (_size_z s) i j k ->
  0 <= crossings iso s i j k <= crossed_edges iso s.
Proof.
  intros (Hi & Hj & Hk). split; [apply crossings_range |]. unfold crossed_edges.
  etransitivity; [| apply (sum_below_term _ _ k); [| exact Hk]].
  - etransitivity; [| apply (sum_below_term _ _ j); [| exact Hj]].
    + apply (sum_below_term _ (fun i => crossings iso s i j k) i); [| exact Hi].
      intros v _. apply crossings_range.
    + intros v _. apply sum_below_nonneg. intros w _. apply crossings_range.
  - intros v _. apply sum_below_nonneg. intros w _.
    apply sum_below_nonneg. intros u _. apply crossings_range.
Qed.

(** The pass adds one vertex for every edge on which its edge test holds,
    whatever the mesh and the edge maps hold. *)
Lemma pass_count (iso : real) s :
  _nverts (compute_intersection_points iso s) = _nverts s + crossed_edges iso s.
Proof.
  set (F := fun s1 : MarchingCubes real =>
              _size_x s1 = _size_x s /\ _size_y s1 = _size_y s /\
              _size_z s1 = _size_z s /\ _data s1 = _data s).
  assert (Step : forall i j k s3, F s3 -> _j s3 = j -> _k s3 = k ->
            let s4 := intersection_step iso (with_i i s3) in
            (F s4 /\ _j s4 = j /\ _k s4 = k) /\
            _nverts s4 = _nverts s3 + crossings iso s i j k).
  { intros i j k s3 (A & B & C & D) Hj Hk s4.
    destruct (intersection_step_maps iso (with_i i s3))
      as (_ & _ & _ & _ & _ & _ & _ & _ & _ & _ & Sx & Sy & Sz & Sd & _ & Sj & Sk).
    fold s4 in Sx, Sy, Sz, Sd, Sj, Sk. cbn in Sx, Sy, Sz, Sd, Sj, Sk.
    split; [unfold F; repeat split; congruence |].
    unfold s4. rewrite intersection_step_count.
    change (_nverts (with_i i s3)) with (_nverts s3).
    change (_i (with_i i s3)) with i. change (_j (with_i i s3)) with (_j s3).
    change (_k (with_i i s3)) with (_k s3). rewrite Hj, Hk.
    rewrite (crossings_frame iso s (with_i i s3)) by assumption. reflexivity. }
  assert (Row : forall j k s2, F s2 -> _k s2 = k ->
            let s3 := for_loop with_i (_size_x (with_j j s2)) (intersection_step iso)
                        (with_j j s2) in
            (F s3 /\ _k s3 = k) /\
            _nverts s3 = _nverts s2 + sum_below (_size_x s) (fun i => crossings iso s i j k)).
  { intros j k s2 F2 Hk. cbv zeta.
    replace (_size_x (with_j j s2)) with (_size_x s) by (symmetry; apply F2).
    destruct (for_loop_sum _nverts (fun s3 => F s3 /\ _j s3 = j /\ _k s3 = k) with_i
                (_size_x s) (intersection_step iso) (fun i => crossings iso s i j k)
                (with_j j s2)) as [(A & _ & B) C].
    - intros v s3 H. exact H.
    - reflexivity.
    - intros i s3 _ (F3 & Hj3 & Hk3). apply Step; assumption.
    - split; [exact F2 | split; [reflexivity | exact Hk]].
    - split; [split; assumption | exact C]. }
  assert (Slab : forall k s1, F s1 ->
            let s2 := for_loop with_j (_size_y (with_k k s1))
                        (fun s => for_loop with_i (_size_x s) (intersection_step iso) s)
                        (with_k k s1) in
            F s2 /\
            _nverts s2 = _nverts s1 + sum_below (_size_y s)
                           (fun j => sum_below (_size_x s) (fun i => crossings iso s i j k))).
  { intros k s1 F1. cbv zeta.
    replace (_size_y (with_k k s1)) with (_size_y s) by (symmetry; apply F1).
    destruct (for_loop_sum _nverts (fun s2 => F s2 /\ _k s2 = k) with_j (_size_y s)
                (fun s => for_loop with_i (_size_x s) (intersection_step iso) s)
                (fun j => sum_below (_size_x s) (fun i => crossings iso s i j k))
                (with_k k s1)) as [(A & _) C].
    - intros v s2 H. exact H.
    - reflexivity.
    - intros j s2 _ (F2 & Hk2). apply Row; assumption.
    - split; [exact F1 | reflexivity].
    - split; [exact A | exact C]. }
  unfold compute_intersection_points, crossed_edges.
  refine (proj2 (for_loop_sum _nverts F with_k (_size_z s) _ _ s _ _ _ _)).
  - intros v s1 H. exact H.
  - reflexivity.
  - intros k s1 _ F1. apply Slab. exact F1.
  - unfold F. auto.
Qed.

(** ** Repeated calls of [run] *)

Lemma cells_extend (iso : real) s :
  mesh_wf s ->
  extends (compute_intersection_points iso s) (run T iso s) /\
  grid_frame (run T iso s) = grid_frame (compute_intersection_points iso s).
Proof.
  intros W. unfold run. cbv zeta.
  pose proof (compute_intersection_points_extends iso s W) as E.
  set (s1 := compute_intersection_points iso s) in *. clearbody s1.
  split.
  - apply for_loop_extends; [apply with_k_extends | | eapply extends_wf; exact E].
    intros s2 W2. apply for_loop_extends; [apply with_j_extends | | exact W2].
    intros s3 W3. apply for_loop_extends; [apply with_i_extends | | exact W3].
    apply cell_step_extends.
  - apply loop_obs; [reflexivity |]. intros s3.
    apply loop_obs; [reflexivity |]. intros s4.
    apply loop_obs; [reflexivity |]. intros s5. apply cell_step_grid.
Qed.

Lemma run_count (iso : real) s :
  mesh_wf s ->
  _nverts s + crossed_edges iso s <= _nverts (run T iso s) /\
  crossed_edges iso (run T iso s) = crossed_edges iso s.
Proof.
  intros W. destruct (cells_extend iso s W) as [E G].
  pose proof (pass_count iso s) as P. pose proof (pass_keeps_frame iso s) as Fp.
  set (s1 := compute_intersection_points iso s) in *. clearbody s1.
  set (s2 := run T iso s) in *. clearbody s2.
  split.
  - destruct E as (_ & _ & _ & _ & _ & _ & N & _). lia.
  - unfold grid_frame in G. unfold pass_frame in Fp.
    injection G as _ Gx Gy Gz Gd _ _ _. injection Fp as _ Px Py Pz Pd _.
    apply crossed_edges_frame; congruence.
Qed.

Lemma vertices_length s : mesh_wf s -> length (vertices s) = Z.to_nat (_nverts s).
Proof.
  intros (A & _ & B & _). unfold vertices. rewrite length_take. lia.
Qed.

(** C5 (as the code has it). [run] does not reset the mesh.  The vertex and
    triangle sequences present before a call are kept at the front of the
    sequences after it and the counts do not decrease; this holds for a
    first call and again for a second one.  Each call's edge-intersection
    pass adds exactly one vertex for every grid edge on which its edge test
    holds, [crossed_edges] many, whatever the mesh and the edge maps hold,
    and that number is the same at the second call.  So a second call with
    the same isovalue leaves at least [crossed_edges] vertices more than
    the first, and whenever some edge test holds the two vertex sequences
    differ.  The reset is [init_all]: after it both counts are 0, both
    sequences are empty and every entry of the three edge maps is [-1]. *)
Theorem run_appends_to_mesh (iso : real) s :
  mesh_wf s ->
  let s1 := run T iso s in
  let s2 := run T iso s1 in
  (mesh_wf s1 /\
   nverts s <= nverts s1 /\ ntrigs s <= ntrigs s1 /\
   (exists vs, vertices s1 = vertices s ++ vs) /\
   (exists ts, triangles s1 = triangles s ++ ts)) /\
  (mesh_wf s2 /\
   nverts s1 <= nverts s2 /\ ntrigs s1 <= ntrigs s2 /\
   (exists vs, vertices s2 = vertices s1 ++ vs) /\
   (exists ts, triangles s2 = triangles s1 ++ ts)) /\
  (nverts (compute_intersection_points iso s) = nverts s + crossed_edges iso s /\
   nverts (compute_intersection_points iso s1) = nverts s1 + crossed_edges iso s /\
   nverts s + crossed_edges iso s <= nverts s1 /\
   nverts s1 + crossed_edges iso s <= nverts s2) /\
  (forall i j k, in_grid (_size_x s) (_size_y s) (_size_z s) i j k ->
     0 < crossings iso s i j k ->
     nverts s < nverts s1 /\ nverts s1 < nverts s2 /\ vertices s2 <> vertices s1) /\
  (mesh_wf (init_all s) /\
   nverts (init_all s) = 0 /\ ntrigs (init_all s) = 0 /\
   vertices (init_all s) = [] /\ triangles (init_all s) = [] /\
   (forall i j k, get_x_vert (init_all s) i j k = -1 /\
                  get_y_vert (init_all s) i j k = -1 /\
                  get_z_vert (init_all s) i j k = -1)).
Proof.
  intros W s1 s2.
  pose proof (run_extends iso s W) as E1. fold s1 in E1.
  assert (W1 : mesh_wf s1) by (eapply extends_wf; exact E1).
  pose proof (run_extends iso s1 W1) as E2. fold s2 in E2.
  assert (W2 : mesh_wf s2) by (eapply extends_wf; exact E2).
  destruct (run_count iso s W) as [C1 K1]. fold s1 in C1, K1.
  destruct (run_count iso s1 W1) as [C2 _]. fold s2 in C2. rewrite K1 in C2.
  pose proof (pass_count iso s) as P1. pose proof (pass_count iso s1) as P2.
  rewrite K1 in P2.
  clearbody s1 s2. unfold nverts, ntrigs.
  split; [| split; [| split; [| split]]].
  - destruct (extends_mesh_prefix s _ W E1) as [Hv Ht].
    destruct E1 as (_ & _ & _ & _ & _ & _ & Nv & Nt & _). auto.
  - destruct (extends_mesh_prefix s1 _ W1 E2) as [Hv Ht].
    destruct E2 as (_ & _ & _ & _ & _ & _ & Nv & Nt & _). auto.
  - auto.
  - intros i j k G Hc. destruct (crossed_edges_term iso s i j k G) as [_ Hle].
    split; [lia |]. split; [lia |].
    intros Heq. apply (f_equal length) in Heq.
    rewrite !vertices_length in Heq by assumption.
    destruct W1 as (? & _). lia.
  - split; [apply init_all_wf |]. repeat split.
    all: unfold get_x_vert, get_y_vert, get_z_vert, at_index; cbn [init_all];
      rewrite nth_lookup; cbn;
      destruct (replicate _ (-1) !! _) as [v|] eqn:Hl; [| reflexivity];
      apply lookup_replicate in Hl; cbn; apply Hl.
Qed.

End EngineFacts.

(** * Rounding in [SpecFloat] *)

Section Rounding.
Variables prec emax : Z.
Hypothesis prec_pos : 0 < prec.

Lemma digits2_pos_lower (m : positive) :
  2 ^ (Zpos (digits2_pos m) - 1) <= Zpos m.
Proof.
  induction m as [m IH | m IH |]; cbn [digits2_pos].
  - rewrite Pos2Z.inj_succ. replace (Z.succ (Zpos (digits2_pos m)) - 1)
      with (Z.succ (Zpos (digits2_pos m) - 1)) by lia.
    rewrite Z.pow_succ_r by lia. lia.
  - rewrite Pos2Z.inj_succ. replace (Z.succ (Zpos (digits2_pos m)) - 1)
      with (Z.succ (Zpos (digits2_pos m) - 1)) by lia.
    rewrite Z.pow_succ_r by lia. lia.
  - cbn. lia.
Qed.

Lemma shr_1_m (mrs : shr_record) :
  0 <= shr_m mrs -> shr_m (shr_1 mrs) = shr_m mrs / 2.
Proof.
  destruct mrs as [m r s]. cbn [shr_m]. intros Hm. unfold shr_1.
  destruct m as [|[p|p|]|p]; cbn [shr_m]; try lia.
  - reflexivity.
  - rewrite Pos2Z.inj_xI. apply Z.div_unique with (r := 1); lia.
  - rewrite Pos2Z.inj_xO. apply Z.div_unique with (r := 0); lia.
  - reflexivity.
Qed.

Lemma shr_iter_m (p : positive) (mrs : shr_record) :
  0 <= shr_m mrs -> shr_m (SpecFloat.iter_pos shr_1 p mrs) = shr_m mrs / 2 ^ Zpos p.
Proof.
  revert mrs. induction p as [p IH | p IH |]; intros mrs Hm; cbn [SpecFloat.iter_pos].
  - assert (H1 : 0 <= shr_m (shr_1 mrs)) by (rewrite shr_1_m by lia; apply Z.div_pos; lia).
    assert (H2 : 0 <= shr_m (SpecFloat.iter_pos shr_1 p (shr_1 mrs)))
      by (rewrite IH by lia; apply Z.div_pos; lia).
    rewrite IH, IH, shr_1_m by lia.
    rewrite !Z.div_div by lia. f_equal.
    replace (Z.pos p~1) with (Z.pos p + Z.pos p + 1) by lia.
    rewrite !Z.pow_add_r, Z.pow_1_r by lia. ring.
  - assert (H2 : 0 <= shr_m (SpecFloat.iter_pos shr_1 p mrs))
      by (rewrite IH by lia; apply Z.div_pos; lia).
    rewrite IH, IH by lia.
    rewrite !Z.div_div by lia. f_equal.
    replace (Z.pos p~0) with (Z.pos p + Z.pos p) by lia.
    rewrite !Z.pow_add_r by lia. ring.
  - rewrite shr_1_m by lia. reflexivity.
Qed.


Lemma shr_record_of_loc_m (m : Z) (l : location) : shr_m (shr_record_of_loc m l) = m.
Proof. destruct l as [|[]]; reflexivity. Qed.

Lemma fexp_ge_emin (e : Z) : emin prec emax <= fexp prec emax e.
Proof. unfold fexp. lia. Qed.

(** Truncating a positive mantissa whose exponent is not below [emin] leaves
    a positive mantissa. *)
Lemma shr_fexp_positive (m e : Z) (l : location) :
  0 < m -> emin prec emax <= e ->
  0 < shr_m (fst (shr_fexp prec emax m e l)) /\
  emin prec emax <= snd (shr_fexp prec emax m e l).
Proof.
  intros Hm He. unfold shr_fexp, shr.
  destruct (fexp prec emax (Zdigits2 m + e) - e) as [|p|p] eqn:Hn;
    cbn [fst snd]; rewrite ?shr_record_of_loc_m; try lia.
  destruct m as [|m|m]; try lia. cbn [Zdigits2] in Hn.
  pose proof (digits2_pos_lower m) as Hd.
  unfold fexp in Hn.
  assert (Hp : Zpos p = Zpos (digits2_pos m) - prec) by lia.
  split; [|lia].
  rewrite shr_iter_m by (rewrite shr_record_of_loc_m; lia).
  rewrite shr_record_of_loc_m. apply Z.div_str_pos. split; [lia |].
  apply Z.le_trans with (2 ^ (Zpos (digits2_pos m) - 1)); [|exact Hd].
  apply Z.pow_le_mono_r; lia.
Qed.

Lemma shr_fexp_nonneg (m e : Z) (l : location) :
  0 <= m -> 0 <= shr_m (fst (shr_fexp prec emax m e l)).
Proof.
  intros Hm. unfold shr_fexp, shr.
  destruct (fexp prec emax (Zdigits2 m + e) - e) as [|p|p];
    cbn [fst]; rewrite ?shr_record_of_loc_m; try lia.
  rewrite shr_iter_m by (rewrite shr_record_of_loc_m; lia).
  rewrite shr_record_of_loc_m. apply Z.div_pos; lia.
Qed.

Lemma round_nearest_even_ge (m : Z) (l : location) : m <= round_nearest_even m l.
Proof. unfold round_nearest_even. destruct l as [|[]]; try destruct (Z.even m); lia. Qed.

Lemma binary_round_aux_positive (sx : bool) (m e : Z) (l : location) :
  0 < m -> emin prec emax <= e ->
  rounded_positive prec emax sx (binary_round_aux prec emax sx m e l).
Proof.
  intros Hm He. unfold binary_round_aux.
  destruct (shr_fexp_positive m e l Hm He) as [H1 H1e].
  destruct (shr_fexp prec emax m e l) as [mrs' e']. cbn [fst snd] in H1, H1e.
  pose proof (round_nearest_even_ge (shr_m mrs') (loc_of_shr_record mrs')) as Hr.
  destruct (shr_fexp_positive (round_nearest_even (shr_m mrs') (loc_of_shr_record mrs'))
              e' loc_Exact) as [H2 H2e]; [lia | lia |].
  destruct (shr_fexp prec emax _ e' loc_Exact) as [mrs'' e'']. cbn [fst snd] in H2, H2e.
  destruct (shr_m mrs'') as [|m2|m2]; try lia.
  destruct (e'' <=? emax - prec); constructor. exact H2e.
Qed.

Lemma binary_round_positive (sx : bool) (m : positive) (e : Z) :
  emin prec emax <= e ->
  rounded_positive prec emax sx (binary_round prec emax sx m e).
Proof.
  intros He. unfold binary_round, shl_align.
  pose proof (fexp_ge_emin (Zpos (digits2_pos m) + e)) as Hf.
  destruct (fexp prec emax (Zpos (digits2_pos m) + e) - e) as [|p|p] eqn:Hn;
    apply binary_round_aux_positive; lia.
Qed.


Lemma valid_exp_bounded (x : spec_float) :
  valid_binary prec emax x = true -> exp_bounded prec emax x.
Proof.
  destruct x as [s|s| |s m e]; cbn; trivial.
  unfold bounded, canonical_mantissa. intros H.
  apply andb_true_iff in H. destruct H as [H _]. apply Z.eqb_eq in H.
  pose proof (fexp_ge_emin (Zpos (digits2_pos m) + e)). lia.
Qed.

Lemma rounded_positive_exp_bounded (sx : bool) (x : spec_float) :
  rounded_positive prec emax sx x -> exp_bounded prec emax x.
Proof. intros [m e He|]; cbn; trivial. Qed.

Lemma rounded_positive_nonzero (sx : bool) (x : spec_float) :
  rounded_positive prec emax sx x -> SFeqb x (S754_zero false) = false.
Proof. intros [m e He|]; destruct sx; reflexivity. Qed.

Lemma rounded_positive_not_nan (sx : bool) (x : spec_float) :
  rounded_positive prec emax sx x -> is_nan x = false.
Proof. intros [m e He|]; reflexivity. Qed.

Lemma binary_normalize_cases (m e : Z) (szero : bool) :
  emin prec emax <= e ->
  (m = 0 /\ binary_normalize prec emax m e szero = S754_zero szero) \/
  (0 < m /\ rounded_positive prec emax false (binary_normalize prec emax m e szero)) \/
  (m < 0 /\ rounded_positive prec emax true (binary_normalize prec emax m e szero)).
Proof.
  intros He. destruct m as [|m|m]; cbn [binary_normalize].
  - left. auto.
  - right. left. split; [lia | apply binary_round_positive; exact He].
  - right. right. split; [lia | apply binary_round_positive; exact He].
Qed.

(** The aligned operands of an addition or subtraction. *)
Lemma SFsub_finite (sx sy : bool) (mx my : positive) (ex ey : Z) :
  SFsub prec emax (S754_finite sx mx ex) (S754_finite sy my ey) =
    binary_normalize prec emax
      (cond_Zopp sx (Zpos (fst (shl_align mx ex (Z.min ex ey))))
       - cond_Zopp sy (Zpos (fst (shl_align my ey (Z.min ex ey)))))
      (Z.min ex ey) false.
Proof. reflexivity. Qed.

Lemma SFsub_exp_bounded (x y : spec_float) :
  exp_bounded prec emax x -> exp_bounded prec emax y -> exp_bounded prec emax (SFsub prec emax x y).
Proof.
  destruct x as [sx|sx| |sx mx ex], y as [sy|sy| |sy my ey]; cbn [exp_bounded];
    intros Hx Hy; try exact I; try (destruct sx, sy; exact I); try assumption.
  rewrite SFsub_finite.
  destruct (binary_normalize_cases
              (cond_Zopp sx (Zpos (fst (shl_align mx ex (Z.min ex ey))))
               - cond_Zopp sy (Zpos (fst (shl_align my ey (Z.min ex ey)))))
              (Z.min ex ey) false) as [[_ ->] | [[_ H] | [_ H]]];
    [lia | exact I | |]; eapply rounded_positive_exp_bounded; exact H.
Qed.

Lemma SFsub_finite_not_nan (x y : spec_float) :
  is_finite x = true -> is_finite y = true -> exp_bounded prec emax x -> exp_bounded prec emax y ->
  is_nan (SFsub prec emax x y) = false.
Proof.
  destruct x as [sx|sx| |sx mx ex], y as [sy|sy| |sy my ey]; cbn [is_finite exp_bounded];
    intros Fx Fy Hx Hy; try discriminate; try reflexivity.
  - destruct sx, sy; reflexivity.
  - rewrite SFsub_finite.
    destruct (binary_normalize_cases
              (cond_Zopp sx (Zpos (fst (shl_align mx ex (Z.min ex ey))))
               - cond_Zopp sy (Zpos (fst (shl_align my ey (Z.min ex ey)))))
              (Z.min ex ey) false) as [[_ ->] | [[_ H] | [_ H]]];
      [lia | reflexivity | |]; eapply rounded_positive_not_nan; exact H.
Qed.

(** A negative number minus a positive one, and a positive minus a negative
    one, are not zero. *)
Lemma SFsub_opposite_nonzero (x y : spec_float) :
  exp_bounded prec emax x -> exp_bounded prec emax y ->
  (SFltb x (S754_zero false) = true /\ SFltb (S754_zero false) y = true) \/
  (SFltb (S754_zero false) x = true /\ SFltb y (S754_zero false) = true) ->
  SFeqb (SFsub prec emax x y) (S754_zero false) = false.
Proof.
  intros Hx Hy Hsign.
  destruct x as [sx|sx| |sx mx ex], y as [sy|sy| |sy my ey];
    try (destruct Hsign as [[H1 H2] | [H1 H2]]; discriminate).
  - destruct sx, sy; try reflexivity;
      destruct Hsign as [[H1 H2] | [H1 H2]]; discriminate.
  - destruct sx; reflexivity.
  - destruct sy; reflexivity.
  - rewrite SFsub_finite. cbn [exp_bounded] in Hx, Hy.
    destruct (binary_normalize_cases
              (cond_Zopp sx (Zpos (fst (shl_align mx ex (Z.min ex ey))))
               - cond_Zopp sy (Zpos (fst (shl_align my ey (Z.min ex ey)))))
              (Z.min ex ey) false) as [[H0 _] | [[_ H] | [_ H]]];
      [lia | | eapply rounded_positive_nonzero; exact H
             | eapply rounded_positive_nonzero; exact H].
    exfalso. destruct sx, sy; cbn [cond_Zopp] in H0;
      try (destruct Hsign as [[H1 H2] | [H1 H2]]; discriminate); lia.
Qed.

End Rounding.

(** ** Rounding to nearest, against canonical bounds *)

Section Digits.

Lemma digits2_pos_upper (m : positive) : Zpos m < 2 ^ Zpos (digits2_pos m).
Proof.
  induction m as [m IH | m IH |]; cbn [digits2_pos].
  - rewrite Pos2Z.inj_succ, Z.pow_succ_r by lia. lia.
  - rewrite Pos2Z.inj_succ, Z.pow_succ_r by lia. lia.
  - cbn. lia.
Qed.

Lemma Zdigits2_bounds (m : Z) :
  0 < m -> 0 < Zdigits2 m /\ 2 ^ (Zdigits2 m - 1) <= m < 2 ^ Zdigits2 m.
Proof.
  destruct m as [|m|m]; try lia. intros _. cbn [Zdigits2].
  split; [lia |]. split; [apply digits2_pos_lower | apply digits2_pos_upper].
Qed.

Lemma Zdigits2_unique (m d : Z) :
  2 ^ (d - 1) <= m < 2 ^ d -> 0 < m -> Zdigits2 m = d.
Proof.
  intros [Hl Hu] Hm. destruct (Zdigits2_bounds m Hm) as (Hd & Hl' & Hu').
  assert (0 < d).
  { destruct (Z_lt_le_dec 0 d) as [|N]; [assumption |].
    assert (2 ^ d <= 2 ^ 0) by (destruct (Z.eq_dec d 0) as [-> |]; [lia |];
      rewrite Z.pow_neg_r by lia; cbn; lia).
    cbn in *. lia. }
  destruct (Z_lt_le_dec (Zdigits2 m) d) as [L |G].
  - assert (2 ^ Zdigits2 m <= 2 ^ (d - 1)) by (apply Z.pow_le_mono_r; lia). lia.
  - destruct (Z.eq_dec (Zdigits2 m) d) as [E | N]; [exact E |].
    assert (2 ^ d <= 2 ^ (Zdigits2 m - 1)) by (apply Z.pow_le_mono_r; lia). lia.
Qed.

Lemma Zdigits2_le (a b : Z) : 0 < a -> a <= b -> Zdigits2 a <= Zdigits2 b.
Proof.
  intros Ha Hab. destruct (Zdigits2_bounds a Ha) as (Da & La & Ua).
  destruct (Zdigits2_bounds b) as (Db & Lb & Ub); [lia |].
  destruct (Z_lt_le_dec (Zdigits2 b) (Zdigits2 a)) as [L | G]; [| exact G].
  assert (2 ^ Zdigits2 b <= 2 ^ (Zdigits2 a - 1)) by (apply Z.pow_le_mono_r; lia). lia.
Qed.

Lemma Zdigits2_lt_pow (m d : Z) : 0 < m -> m < 2 ^ d -> Zdigits2 m <= d.
Proof.
  intros Hm Hd. destruct (Zdigits2_bounds m Hm) as (Dm & Lm & Um).
  destruct (Z_lt_le_dec d (Zdigits2 m)) as [L | G]; [| exact G].
  assert (0 <= d).
  { destruct (Z_lt_le_dec d 0); [rewrite Z.pow_neg_r in Hd by lia; lia | lia]. }
  assert (2 ^ d <= 2 ^ (Zdigits2 m - 1)) by (apply Z.pow_le_mono_r; lia). lia.
Qed.

Lemma Zdigits2_ge_pow (m d : Z) : 0 <= d -> 2 ^ d <= m -> d < Zdigits2 m.
Proof.
  intros Hd Hm. assert (0 < m) by (pose proof (Z.pow_pos_nonneg 2 d); lia).
  destruct (Zdigits2_bounds m) as (Dm & Lm & Um); [lia |].
  destruct (Z_lt_le_dec d (Zdigits2 m)) as [L | G]; [exact L |].
  assert (2 ^ Zdigits2 m <= 2 ^ d) by (apply Z.pow_le_mono_r; lia). lia.
Qed.

Lemma Zdigits2_shift (m k : Z) :
  0 <= k -> 2 ^ k <= m -> Zdigits2 (m / 2 ^ k) = Zdigits2 m - k.
Proof.
  intros Hk Hm.
  assert (P : 0 < 2 ^ k) by (apply Z.pow_pos_nonneg; lia).
  assert (Hm0 : 0 < m) by lia.
  destruct (Zdigits2_bounds m Hm0) as (Dm & Lm & Um).
  pose proof (Zdigits2_ge_pow m k Hk Hm) as Hkd.
  assert (Hq : 0 < m / 2 ^ k) by (apply Z.div_str_pos; lia).
  apply Zdigits2_unique; [| exact Hq]. split.
  - apply Z.div_le_lower_bound; [lia |].
    rewrite <- Z.pow_add_r by lia. replace (k + (Zdigits2 m - k - 1)) with (Zdigits2 m - 1) by lia.
    exact Lm.
  - apply Z.div_lt_upper_bound; [lia |].
    rewrite <- Z.pow_add_r by lia. replace (k + (Zdigits2 m - k)) with (Zdigits2 m) by lia.
    exact Um.
Qed.

End Digits.

Section Shift.

Lemma iter_pos_nat {A} (f : A -> A) (p : positive) (x : A) :
  SpecFloat.iter_pos f p x = Nat.iter (Pos.to_nat p) f x.
Proof.
  revert x. induction p as [p IH | p IH |]; intros x; cbn [SpecFloat.iter_pos].
  - rewrite !IH, Pos2Nat.inj_xI. cbn [Nat.iter Nat.mul].
    rewrite Nat.add_0_r, <- Nat.iter_add, <- Nat.iter_succ_r. reflexivity.
  - rewrite !IH, Pos2Nat.inj_xO. cbn [Nat.mul].
    rewrite Nat.add_0_r, <- Nat.iter_add. reflexivity.
  - reflexivity.
Qed.

Lemma shr_1_exact (mrs : shr_record) :
  0 <= shr_m mrs -> shr_exact mrs -> shr_m mrs mod 2 = 0 -> shr_exact (shr_1 mrs).
Proof.
  destruct mrs as [m r s]. unfold shr_exact. cbn [shr_m shr_r shr_s].
  intros Hm [-> ->] Hev.
  destruct m as [|[p|p|]|p]; cbn; try lia; try (split; reflexivity).
  - rewrite Pos2Z.inj_xI in Hev.
    replace (2 * Z.pos p + 1) with (1 + Z.pos p * 2) in Hev by lia.
    rewrite Z.mod_add in Hev by lia. discriminate Hev.
  - discriminate Hev.
Qed.

Lemma shr_iter_exact (n : nat) (mrs : shr_record) :
  0 <= shr_m mrs -> shr_exact mrs -> shr_m mrs mod 2 ^ Z.of_nat n = 0 ->
  shr_exact (Nat.iter n shr_1 mrs).
Proof.
  revert mrs. induction n as [|n IH]; intros mrs Hm Hex Hdiv; [exact Hex |].
  rewrite Nat.iter_succ_r.
  rewrite Nat2Z.inj_succ, Z.pow_succ_r in Hdiv by lia.
  assert (P : 0 < 2 ^ Z.of_nat n) by (apply Z.pow_pos_nonneg; lia).
  assert (Hev : shr_m mrs mod 2 = 0).
  { apply Z.mod_divide in Hdiv; [| lia]. apply Z.mod_divide; [lia |].
    destruct Hdiv as [c Hc]. exists (c * 2 ^ Z.of_nat n). lia. }
  apply IH.
  - rewrite shr_1_m by lia. apply Z.div_pos; lia.
  - apply shr_1_exact; assumption.
  - rewrite shr_1_m by lia.
    apply Z.mod_divide in Hdiv; [| lia]. destruct Hdiv as [c Hc].
    rewrite Hc. replace (c * (2 * 2 ^ Z.of_nat n)) with (c * 2 ^ Z.of_nat n * 2) by ring.
    rewrite Z.div_mul by lia. apply Z.mod_mul. lia.
Qed.

Lemma loc_of_shr_exact (mrs : shr_record) : shr_exact mrs -> loc_of_shr_record mrs = loc_Exact.
Proof. destruct mrs as [m r s]. intros [H1 H2]. cbn in H1, H2. subst. reflexivity. Qed.

End Shift.

Section RoundSpec.
Variables prec emax : Z.
Hypothesis prec_pos : 0 < prec.

Local Abbreviation emin := (emin prec emax).
Local Abbreviation fexp := (fexp prec emax).

Lemma fexp_mono (a b : Z) : a <= b -> fexp a <= fexp b.
Proof. unfold SpecFloat.fexp. lia. Qed.

Lemma fexp_succ (a : Z) : fexp (a + 1) <= fexp a + 1.
Proof. unfold SpecFloat.fexp. lia. Qed.

(** The truncation step: the mantissa is divided by [2^k] where [k] is the
    distance to the exponent the format assigns to the number. *)
Lemma shr_fexp_spec (m e : Z) (l : location) :
  0 <= m -> e <= fexp (Zdigits2 m + e) ->
  snd (shr_fexp prec emax m e l) = fexp (Zdigits2 m + e) /\
  shr_m (fst (shr_fexp prec emax m e l)) = m / 2 ^ (fexp (Zdigits2 m + e) - e) /\
  (l = loc_Exact -> m mod 2 ^ (fexp (Zdigits2 m + e) - e) = 0 ->
   loc_of_shr_record (fst (shr_fexp prec emax m e l)) = loc_Exact).
Proof.
  intros Hm He. unfold shr_fexp, shr.
  destruct (fexp (Zdigits2 m + e) - e) as [|p|p] eqn:Hk; try lia; cbn [fst snd].
  - rewrite shr_record_of_loc_m, Z.pow_0_r, Z.div_1_r.
    split; [lia |]. split; [reflexivity |]. intros -> _. reflexivity.
  - split; [lia |]. split.
    + rewrite shr_iter_m by (rewrite shr_record_of_loc_m; exact Hm).
      rewrite shr_record_of_loc_m. reflexivity.
    + intros -> Hdiv. apply loc_of_shr_exact. rewrite iter_pos_nat.
      apply shr_iter_exact; cbn [shr_record_of_loc shr_m]; [exact Hm | split; reflexivity |].
      rewrite positive_nat_Z. exact Hdiv.
Qed.

(** The result of rounding the non-negative number [m * 2^e] known up to [l]:
    with [E] the exponent of the format for that number and [q] the
    mantissa truncated to [E], the rounded mantissa [q2] is [q] or [q + 1],
    and the result is the canonical number of value [q2 * 2^E]. *)
Lemma binary_round_aux_spec (sx : bool) (m e : Z) (l : location) :
  0 <= m -> e <= fexp (Zdigits2 m + e) ->
  exists q2 : Z,
    m / 2 ^ (fexp (Zdigits2 m + e) - e) <= q2 <= m / 2 ^ (fexp (Zdigits2 m + e) - e) + 1 /\
    (l = loc_Exact -> m mod 2 ^ (fexp (Zdigits2 m + e) - e) = 0 ->
     q2 = m / 2 ^ (fexp (Zdigits2 m + e) - e)) /\
    ((q2 = 0 /\ binary_round_aux prec emax sx m e l = S754_zero sx) \/
     (exists mf Ef, fexp (Zdigits2 m + e) <= Ef /\
        Zpos mf * 2 ^ (Ef - fexp (Zdigits2 m + e)) = q2 /\
        canonical_mantissa prec emax mf Ef = true /\
        binary_round_aux prec emax sx m e l =
          if Ef <=? emax - prec then S754_finite sx mf Ef else S754_infinity sx)).
Proof.
  intros Hm He.
  set (E := fexp (Zdigits2 m + e)) in *. set (k := E - e).
  assert (Hk : 0 <= k) by (unfold k; lia).
  assert (P : 0 < 2 ^ k) by (apply Z.pow_pos_nonneg; lia).
  set (q := m / 2 ^ k).
  assert (Hq : 0 <= q) by (apply Z.div_pos; lia).
  destruct (shr_fexp_spec m e l) as (S1 & S2 & S3); [lia | exact He |].
  fold E in S1, S2, S3. fold k in S2, S3. fold q in S2.
  unfold binary_round_aux.
  destruct (shr_fexp prec emax m e l) as [mrs' e']. cbn [fst snd] in S1, S2, S3. subst e'.
  rewrite S2.
  set (q2 := round_nearest_even q (loc_of_shr_record mrs')).
  assert (Hq2 : q <= q2 <= q + 1).
  { unfold q2, round_nearest_even.
    destruct (loc_of_shr_record mrs') as [|[]]; try destruct (Z.even q); lia. }
  exists q2. split; [exact Hq2 |]. split.
  { intros Hl Hdiv. unfold q2. rewrite (S3 Hl Hdiv). reflexivity. }
  (* the exponent of the format for the rounded mantissa *)
  assert (HE : emin <= E) by (unfold E, SpecFloat.fexp; lia).
  destruct (Z.eq_dec q2 0) as [Z2 | NZ2].
  { left. split; [exact Z2 |]. rewrite Z2.
    unfold shr_fexp, shr. cbn [Zdigits2]. rewrite Z.add_0_l.
    assert (fexp E - E <= 0) by (unfold SpecFloat.fexp; lia).
    destruct (fexp E - E) as [|p|p]; try lia; reflexivity. }
  right.
  assert (Hq2pos : 0 < q2) by lia.
  assert (HD : fexp (Zdigits2 q2 + E) = E \/
               (fexp (Zdigits2 q2 + E) = E + 1 /\ q2 mod 2 = 0 /\ 2 <= q2)).
  { destruct (Z.eq_dec q 0) as [Q0 | QN].
    - (* the number is below the least positive number of the format *)
      left. assert (q2 = 1) by lia. subst q2. rewrite H. cbn [Zdigits2 digits2_pos].
      assert (m < 2 ^ k).
      { destruct (Z_lt_le_dec m (2 ^ k)) as [|G]; [assumption |].
        assert (1 <= m / 2 ^ k) by (apply Z.div_le_lower_bound; lia). fold q in H0. lia. }
      assert (Zdigits2 m <= k).
      { destruct (Z.eq_dec m 0) as [M0 | MN]; [rewrite M0; exact Hk |].
        apply Zdigits2_lt_pow; lia. }
      unfold E, k, SpecFloat.fexp in *. lia.
    - assert (Hqpos : 0 < q) by lia.
      assert (Hmk : 2 ^ k <= m).
      { destruct (Z_lt_le_dec m (2 ^ k)) as [L|G]; [| exact G].
        unfold q in Hqpos. rewrite Z.div_small in Hqpos by lia. lia. }
      pose proof (Zdigits2_shift m k Hk Hmk) as Hdq. fold q in Hdq.
      destruct (Zdigits2_bounds q Hqpos) as (Dq & Lq & Uq).
      destruct (Z.eq_dec q2 q) as [-> | Hne].
      + left. rewrite Hdq. unfold k. replace (Zdigits2 m - (E - e) + E) with (Zdigits2 m + e) by lia.
        reflexivity.
      + assert (q2 = q + 1) by lia.
        destruct (Z_lt_le_dec (q + 1) (2 ^ Zdigits2 q)) as [L | G].
        * left. rewrite (Zdigits2_unique q2 (Zdigits2 q)) by lia.
          rewrite Hdq. unfold k. replace (Zdigits2 m - (E - e) + E) with (Zdigits2 m + e) by lia.
          reflexivity.
        * assert (Hpow : q2 = 2 ^ Zdigits2 q) by lia.
          assert (Hd2 : Zdigits2 q2 = Zdigits2 q + 1).
          { apply Zdigits2_unique; [| lia]. rewrite Hpow.
            replace (Zdigits2 q + 1 - 1) with (Zdigits2 q) by lia.
            split; [lia |]. apply Z.pow_lt_mono_r; lia. }
          rewrite Hd2, Hdq. unfold k.
          replace (Zdigits2 m - (E - e) + 1 + E) with (Zdigits2 m + e + 1) by lia.
          pose proof (fexp_succ (Zdigits2 m + e)) as Hs.
          pose proof (fexp_mono (Zdigits2 m + e) (Zdigits2 m + e + 1)) as Hmn.
          fold E in Hs, Hmn.
          destruct (Z.eq_dec (fexp (Zdigits2 m + e + 1)) E) as [Eq | Ne]; [left; exact Eq |].
          right. split; [lia |].
          rewrite Hpow. replace (Zdigits2 q) with (Z.succ (Zdigits2 q - 1)) by lia.
          rewrite Z.pow_succ_r by lia.
          assert (0 < 2 ^ (Zdigits2 q - 1)) by (apply Z.pow_pos_nonneg; lia).
          split; [rewrite Z.mul_comm; apply Z.mod_mul; lia | lia]. }
  destruct (shr_fexp_spec q2 E loc_Exact) as (T1 & T2 & _); [lia | lia |].
  destruct (shr_fexp prec emax q2 E loc_Exact) as [mrs'' e'']. cbn [fst snd] in T1, T2.
  subst e''. rewrite T2.
  destruct HD as [HD | (HD & Hev & H2)]; rewrite HD.
  - replace (E - E) with 0 by lia. rewrite Z.pow_0_r, Z.div_1_r.
    destruct q2 as [|mf|mf]; try lia.
    exists mf, E. split; [lia |]. split; [rewrite Z.sub_diag; cbn; lia |].
    split; [| reflexivity].
    unfold canonical_mantissa. apply Z.eqb_eq. exact HD.
  - replace (E + 1 - E) with 1 by lia. rewrite Z.pow_1_r.
    assert (Hh : 0 < q2 / 2) by (apply Z.div_str_pos; lia).
    assert (Hex : q2 / 2 * 2 = q2).
    { pose proof (Z.div_mod q2 2). lia. }
    pose proof (Zdigits2_shift q2 1) as Hsh. rewrite Z.pow_1_r in Hsh.
    destruct (q2 / 2) as [|mf|mf] eqn:Hmf; try lia.
    exists mf, (E + 1). split; [lia |].
    split; [replace (E + 1 - E) with 1 by lia; rewrite Z.pow_1_r; exact Hex |].
    split; [| reflexivity].
    unfold canonical_mantissa. apply Z.eqb_eq.
    change (Z.pos (digits2_pos mf)) with (Zdigits2 (Zpos mf)).
    rewrite Hsh by lia. replace (Zdigits2 q2 - 1 + (E + 1)) with (Zdigits2 q2 + E) by lia.
    exact HD.
Qed.

(** *** The order of dyadic numbers *)

Lemma dy_le_base (c m1 e1 m2 e2 : Z) :
  c <= e1 -> c <= e2 ->
  (dy_le m1 e1 m2 e2 <-> m1 * 2 ^ (e1 - c) <= m2 * 2 ^ (e2 - c)).
Proof.
  intros H1 H2. unfold dy_le. set (b := Z.min e1 e2).
  assert (Hb : c <= b) by (unfold b; lia).
  assert (P : 0 < 2 ^ (b - c)) by (apply Z.pow_pos_nonneg; lia).
  replace (e1 - c) with ((e1 - b) + (b - c)) by lia.
  replace (e2 - c) with ((e2 - b) + (b - c)) by lia.
  rewrite !Z.pow_add_r by (unfold b; lia). rewrite !Z.mul_assoc.
  split; intros H.
  - apply Z.mul_le_mono_nonneg_r; [lia | exact H].
  - apply Z.mul_le_mono_pos_r in H; [exact H | exact P].
Qed.

Lemma dy_le_refl (m e : Z) : dy_le m e m e.
Proof. unfold dy_le. lia. Qed.

Lemma dy_le_trans (m1 e1 m2 e2 m3 e3 : Z) :
  dy_le m1 e1 m2 e2 -> dy_le m2 e2 m3 e3 -> dy_le m1 e1 m3 e3.
Proof.
  set (c := Z.min e1 (Z.min e2 e3)). intros H12 H23.
  apply (dy_le_base c) in H12; [| unfold c; lia | unfold c; lia].
  apply (dy_le_base c) in H23; [| unfold c; lia | unfold c; lia].
  apply (dy_le_base c); [unfold c; lia | unfold c; lia | lia].
Qed.

(** *** Canonical numbers *)

Lemma canonical_facts (m : positive) (e : Z) :
  canonical_mantissa prec emax m e = true ->
  emin <= e /\ Zdigits2 (Zpos m) <= prec /\ (emin < e -> Zdigits2 (Zpos m) = prec).
Proof.
  unfold canonical_mantissa. intros H. apply Z.eqb_eq in H.
  cbn [Zdigits2]. unfold SpecFloat.fexp in H. lia.
Qed.

(** Among canonical numbers the order of the values is the order of the
    exponents. *)
Lemma canonical_exp_le (m1 m2 : positive) (e1 e2 : Z) :
  canonical_mantissa prec emax m1 e1 = true -> canonical_mantissa prec emax m2 e2 = true ->
  dy_le (Zpos m1) e1 (Zpos m2) e2 -> e1 <= e2.
Proof.
  intros C1 C2 H.
  destruct (canonical_facts m1 e1 C1) as (A1 & B1 & D1).
  destruct (canonical_facts m2 e2 C2) as (A2 & B2 & D2).
  destruct (Z_le_gt_dec e1 e2) as [L | G]; [exact L | exfalso].
  apply (dy_le_base e2) in H; [| lia | lia].
  rewrite Z.sub_diag, Z.pow_0_r, Z.mul_1_r in H.
  destruct (Zdigits2_bounds (Zpos m1)) as (_ & L1 & _); [lia |].
  destruct (Zdigits2_bounds (Zpos m2)) as (_ & _ & U2); [lia |].
  rewrite D1 in L1 by lia.
  assert (U2' : Zpos m2 < 2 ^ prec).
  { apply Z.lt_le_trans with (1 := U2). apply Z.pow_le_mono_r; lia. }
  assert (2 ^ 1 <= 2 ^ (e1 - e2)) by (apply Z.pow_le_mono_r; lia).
  rewrite Z.pow_1_r in H0.
  assert (2 ^ prec = 2 ^ (prec - 1) * 2).
  { replace prec with (Z.succ (prec - 1)) at 1 by lia. rewrite Z.pow_succ_r by lia. ring. }
  assert (0 < 2 ^ (prec - 1)) by (apply Z.pow_pos_nonneg; lia).
  assert (2 ^ (prec - 1) * 2 <= Zpos m1 * 2 ^ (e1 - e2)).
  { apply Z.mul_le_mono_nonneg; lia. }
  lia.
Qed.

Lemma canonical_leb (m1 m2 : positive) (e1 e2 : Z) :
  canonical_mantissa prec emax m1 e1 = true -> canonical_mantissa prec emax m2 e2 = true ->
  dy_le (Zpos m1) e1 (Zpos m2) e2 ->
  SFleb (S754_finite false m1 e1) (S754_finite false m2 e2) = true.
Proof.
  intros C1 C2 H. pose proof (canonical_exp_le m1 m2 e1 e2 C1 C2 H) as He.
  unfold SFleb. cbn [SFcompare].
  destruct (Z.compare_spec e1 e2) as [E | L | G]; [| reflexivity | lia].
  subst e2. unfold dy_le in H. rewrite Z.min_id, Z.sub_diag, Z.pow_0_r, !Z.mul_1_r in H.
  rewrite Pos.compare_cont_spec. cbn [Pos.switch_Eq].
  destruct (Pos.compare_spec m1 m2); try reflexivity. lia.
Qed.

Lemma dy_le_same (a b e : Z) : dy_le a e b e <-> a <= b.
Proof. unfold dy_le. rewrite Z.min_id, Z.sub_diag, Z.pow_0_r, !Z.mul_1_r. reflexivity. Qed.

Lemma dy_le_shift_l (m j e m2 e2 : Z) :
  0 <= j -> (dy_le (m * 2 ^ j) e m2 e2 <-> dy_le m (e + j) m2 e2).
Proof.
  intros Hj. set (c := Z.min e e2).
  rewrite (dy_le_base c (m * 2 ^ j) e m2 e2) by (unfold c; lia).
  rewrite (dy_le_base c m (e + j) m2 e2) by (unfold c; lia).
  replace (e + j - c) with (j + (e - c)) by lia.
  rewrite Z.pow_add_r, Z.mul_assoc by (unfold c; lia). reflexivity.
Qed.

Lemma dy_le_shift_r (m j e m1 e1 : Z) :
  0 <= j -> (dy_le m1 e1 (m * 2 ^ j) e <-> dy_le m1 e1 m (e + j)).
Proof.
  intros Hj. set (c := Z.min e e1).
  rewrite (dy_le_base c m1 e1 (m * 2 ^ j) e) by (unfold c; lia).
  rewrite (dy_le_base c m1 e1 m (e + j)) by (unfold c; lia).
  replace (e + j - c) with (j + (e - c)) by lia.
  rewrite Z.pow_add_r, Z.mul_assoc by (unfold c; lia). reflexivity.
Qed.

(** A canonical number does not lie strictly between two neighbours of the
    grid on which a number is rounded. *)
Lemma canonical_on_grid (m e : Z) (mb : positive) (eb : Z) :
  0 <= m -> e <= fexp (Zdigits2 m + e) ->
  canonical_mantissa prec emax mb eb = true ->
  let k := fexp (Zdigits2 m + e) - e in
  dy_le (Zpos mb) eb (m / 2 ^ k * 2 ^ k) e \/
  dy_le ((m / 2 ^ k + 1) * 2 ^ k) e (Zpos mb) eb.
Proof.
  intros Hm He Cb k.
  set (E := fexp (Zdigits2 m + e)) in *.
  assert (Hk : 0 <= k) by (unfold k; lia).
  assert (P : 0 < 2 ^ k) by (apply Z.pow_pos_nonneg; lia).
  destruct (canonical_facts mb eb Cb) as (Ab & Bb & Db).
  destruct (Z_le_gt_dec E eb) as [L | G].
  - set (beta := Zpos mb * 2 ^ (eb - E)).
    assert (Hb : Zpos mb * 2 ^ (eb - e) = beta * 2 ^ k).
    { unfold beta. replace (eb - e) with ((eb - E) + k) by (unfold k; lia).
      rewrite Z.pow_add_r by lia. ring. }
    destruct (Z_le_gt_dec beta (m / 2 ^ k)) as [Lb | Gb].
    + left. apply (dy_le_base e); [lia | lia |].
      rewrite Z.sub_diag, Z.pow_0_r, Z.mul_1_r, Hb.
      apply Z.mul_le_mono_nonneg_r; lia.
    + right. apply (dy_le_base e); [lia | lia |].
      rewrite Z.sub_diag, Z.pow_0_r, Z.mul_1_r, Hb.
      apply Z.mul_le_mono_nonneg_r; lia.
  - left.
    assert (HE : E = Zdigits2 m + e - prec) by (unfold E, SpecFloat.fexp in *; lia).
    assert (Hm' : 0 < m).
    { destruct (Z.eq_dec m 0) as [M0 | MN]; [| lia].
      rewrite M0 in HE. cbn [Zdigits2] in HE. lia. }
    destruct (Zdigits2_bounds m Hm') as (Dm & Lm & Um).
    destruct (Zdigits2_bounds (Zpos mb)) as (Dmb & _ & Umb); [lia |].
    assert (Hd : Zdigits2 (Zpos mb) + eb <= Zdigits2 m - 1 + e).
    { unfold SpecFloat.canonical_mantissa in Cb. apply Z.eqb_eq in Cb.
      cbn [Zdigits2]. unfold SpecFloat.fexp in Cb. lia. }
    set (c := Z.min e eb).
    apply (dy_le_base c); [unfold c; lia | unfold c; lia |].
    assert (Pc : 0 < 2 ^ (e - c)) by (apply Z.pow_pos_nonneg; unfold c; lia).
    assert (HB : Zpos mb * 2 ^ (eb - c) < 2 ^ (Zdigits2 m - 1 + e - c)).
    { apply Z.lt_le_trans with (2 ^ Zdigits2 (Zpos mb) * 2 ^ (eb - c)).
      - apply Z.mul_lt_mono_pos_r; [apply Z.pow_pos_nonneg; unfold c; lia | exact Umb].
      - rewrite <- Z.pow_add_r by (unfold c; lia). apply Z.pow_le_mono_r; lia. }
    assert (Hq : 2 ^ (Zdigits2 m - 1 - k) <= m / 2 ^ k).
    { apply Z.div_le_lower_bound; [lia |].
      rewrite <- Z.pow_add_r by (unfold k; lia).
      replace (k + (Zdigits2 m - 1 - k)) with (Zdigits2 m - 1) by lia. exact Lm. }
    assert (2 ^ (Zdigits2 m - 1) <= m / 2 ^ k * 2 ^ k).
    { replace (Zdigits2 m - 1) with ((Zdigits2 m - 1 - k) + k) at 1 by lia.
      rewrite Z.pow_add_r by (unfold k; lia).
      apply Z.mul_le_mono_nonneg_r; lia. }
    assert (2 ^ (Zdigits2 m - 1 + e - c) <= m / 2 ^ k * 2 ^ k * 2 ^ (e - c)).
    { replace (Zdigits2 m - 1 + e - c) with ((Zdigits2 m - 1) + (e - c)) by lia.
      rewrite Z.pow_add_r by (unfold c; lia).
      apply Z.mul_le_mono_nonneg_r; lia. }
    lia.
Qed.

(** *** Rounding against a canonical bound *)

Lemma binary_round_aux_rounded (sx : bool) (m e : Z) (l : location) :
  0 <= m -> e <= fexp (Zdigits2 m + e) ->
  rounded prec emax sx (fun _ _ => True) (binary_round_aux prec emax sx m e l).
Proof.
  intros Hm He.
  destruct (binary_round_aux_spec sx m e l Hm He)
    as (q2 & _ & _ & [[_ ->] | (mf & Ef & _ & _ & C & ->)]); [constructor |].
  destruct (Z.leb_spec Ef (emax - prec)); constructor; auto.
Qed.

(** Rounding a number that is not above a canonical number [b] gives a
    number that is not above [b]. *)
Lemma binary_round_aux_le (sx : bool) (m e : Z) (l : location) (mb : positive) (eb : Z) :
  0 <= m -> e <= fexp (Zdigits2 m + e) ->
  canonical_mantissa prec emax mb eb = true -> eb <= emax - prec ->
  dy_le m e (Zpos mb) eb ->
  (l <> loc_Exact -> ~ dy_le (Zpos mb) eb m e) ->
  rounded prec emax sx (fun mf Ef => dy_le (Zpos mf) Ef (Zpos mb) eb)
    (binary_round_aux prec emax sx m e l)
  /\ binary_round_aux prec emax sx m e l <> S754_infinity sx.
Proof.
  intros Hm He Cb Vb Hle Hlt.
  pose proof (canonical_on_grid m e mb eb Hm He Cb) as G. cbv zeta in G.
  destruct (binary_round_aux_spec sx m e l Hm He)
    as (q2 & Hq2 & Hex & [[_ ->] | (mf & Ef & HEf & Hval & C & ->)]);
    [split; [constructor | discriminate] |].
  set (E := fexp (Zdigits2 m + e)) in *. set (k := E - e) in *.
  assert (Hk : 0 <= k) by (unfold k; lia).
  assert (P : 0 < 2 ^ k) by (apply Z.pow_pos_nonneg; lia).
  assert (Hdm : m = 2 ^ k * (m / 2 ^ k) + m mod 2 ^ k) by (apply Z.div_mod; lia).
  assert (Hmod : 0 <= m mod 2 ^ k < 2 ^ k) by (apply Z.mod_pos_bound; lia).
  assert (Hr : dy_le (q2 * 2 ^ k) e (Zpos mb) eb).
  { destruct G as [G | G].
    - pose proof (dy_le_trans _ _ _ _ _ _ Hle G) as Hmq. apply dy_le_same in Hmq.
      assert (Hz : m mod 2 ^ k = 0) by lia.
      assert (Hm' : m / 2 ^ k * 2 ^ k = m) by lia.
      assert (l = loc_Exact).
      { destruct l as [|c]; [reflexivity |]. exfalso.
        apply Hlt; [discriminate |]. rewrite <- Hm'. exact G. }
      rewrite (Hex H Hz), Hm'. exact Hle.
    - apply dy_le_trans with (2 := G). apply dy_le_same.
      apply Z.mul_le_mono_nonneg_r; lia. }
  assert (Hdy : dy_le (Zpos mf) Ef (Zpos mb) eb).
  { rewrite <- Hval in Hr. rewrite <- Z.mul_assoc, <- Z.pow_add_r in Hr by lia.
    apply dy_le_shift_l in Hr; [| lia].
    replace (e + (Ef - E + k)) with Ef in Hr by (unfold k; lia). exact Hr. }
  pose proof (canonical_exp_le mf mb Ef eb C Cb Hdy) as Hexp.
  destruct (Z.leb_spec Ef (emax - prec)); [| lia].
  split; [constructor; auto | discriminate].
Qed.

(** Rounding a number that is not below a canonical number [b] gives a
    number that is not below [b]. *)
Lemma binary_round_aux_ge (sx : bool) (m e : Z) (l : location) (mb : positive) (eb : Z) :
  0 <= m -> e <= fexp (Zdigits2 m + e) ->
  canonical_mantissa prec emax mb eb = true ->
  dy_le (Zpos mb) eb m e ->
  rounded prec emax sx (fun mf Ef => dy_le (Zpos mb) eb (Zpos mf) Ef)
    (binary_round_aux prec emax sx m e l)
  /\ binary_round_aux prec emax sx m e l <> S754_zero sx.
Proof.
  intros Hm He Cb Hle.
  pose proof (canonical_on_grid m e mb eb Hm He Cb) as G. cbv zeta in G.
  set (E := fexp (Zdigits2 m + e)) in *. set (k := E - e) in *.
  assert (Hk : 0 <= k) by (unfold k; lia).
  assert (P : 0 < 2 ^ k) by (apply Z.pow_pos_nonneg; lia).
  assert (Hdm : m = 2 ^ k * (m / 2 ^ k) + m mod 2 ^ k) by (apply Z.div_mod; lia).
  assert (Hmod : 0 <= m mod 2 ^ k < 2 ^ k) by (apply Z.mod_pos_bound; lia).
  assert (G' : dy_le (Zpos mb) eb (m / 2 ^ k * 2 ^ k) e).
  { destruct G as [G | G]; [exact G | exfalso].
    pose proof (dy_le_trans _ _ _ _ _ _ G Hle) as Hmq. apply dy_le_same in Hmq. lia. }
  assert (Hq0 : 0 < m / 2 ^ k).
  { set (c := Z.min eb e).
    assert (Hc1 : c <= eb) by (unfold c; lia). assert (Hc2 : c <= e) by (unfold c; lia).
    pose proof (proj1 (dy_le_base c _ _ _ _ Hc1 Hc2) G') as G''.
    assert (0 < Zpos mb * 2 ^ (eb - c)).
    { apply Z.mul_pos_pos; [lia | apply Z.pow_pos_nonneg; unfold c; lia]. }
    assert (0 <= m / 2 ^ k) by (apply Z.div_pos; lia).
    destruct (Z.eq_dec (m / 2 ^ k) 0) as [Q0 | QN]; [| lia].
    rewrite Q0, !Z.mul_0_l in G''. lia. }
  destruct (binary_round_aux_spec sx m e l Hm He)
    as (q2 & Hq2 & Hex & [[Hz _] | (mf & Ef & HEf & Hval & C & ->)]).
  { fold E in Hq2. fold k in Hq2. lia. }
  fold E in Hq2, Hval, HEf. fold k in Hq2.
  assert (Hdy : dy_le (Zpos mb) eb (Zpos mf) Ef).
  { assert (Hr : dy_le (Zpos mb) eb (q2 * 2 ^ k) e).
    { apply dy_le_trans with (1 := G'). apply dy_le_same.
      apply Z.mul_le_mono_nonneg_r; lia. }
    rewrite <- Hval in Hr. rewrite <- Z.mul_assoc, <- Z.pow_add_r in Hr by lia.
    apply dy_le_shift_r in Hr; [| lia].
    replace (e + (Ef - E + k)) with Ef in Hr by (unfold k; lia). exact Hr. }
  destruct (Z.leb_spec Ef (emax - prec)); (split; [constructor; auto | discriminate]).
Qed.

(** *** Rounding an exact number *)

Lemma iter_xO_pow (m d : positive) : Zpos (Pos.iter xO m d) = Zpos m * 2 ^ Zpos d.
Proof.
  induction d as [|d IH] using Pos.peano_ind.
  - cbn. lia.
  - rewrite Pos.iter_succ, Pos2Z.inj_xO, IH, Pos2Z.inj_succ, Z.pow_succ_r by lia. ring.
Qed.

Lemma shl_align_spec (mx : positive) (ex ex' : Z) :
  snd (shl_align mx ex ex') = Z.min ex ex' /\
  Zpos (fst (shl_align mx ex ex')) = Zpos mx * 2 ^ (ex - Z.min ex ex').
Proof.
  unfold shl_align. destruct (ex' - ex) as [|d|d] eqn:Hd; cbn [fst snd].
  - split; [lia |]. replace (ex - Z.min ex ex') with 0 by lia. cbn. lia.
  - split; [lia |]. replace (ex - Z.min ex ex') with 0 by lia. cbn. lia.
  - split; [lia |]. rewrite iter_xO_pow. f_equal. f_equal. lia.
Qed.

Lemma Zdigits2_shl (m j : Z) : 0 < m -> 0 <= j -> Zdigits2 (m * 2 ^ j) = Zdigits2 m + j.
Proof.
  intros Hm Hj. destruct (Zdigits2_bounds m Hm) as (D & L & U).
  assert (P : 0 < 2 ^ j) by (apply Z.pow_pos_nonneg; lia).
  apply Zdigits2_unique; [| lia].
  replace (Zdigits2 m + j - 1) with ((Zdigits2 m - 1) + j) by lia.
  rewrite !Z.pow_add_r by lia. split.
  - apply Z.mul_le_mono_nonneg_r; lia.
  - apply Z.mul_lt_mono_pos_r; lia.
Qed.

(** [binary_round] aligns its argument and rounds it. *)
Lemma binary_round_aligned (sx : bool) (mx : positive) (ex : Z) :
  exists mz ez,
    binary_round prec emax sx mx ex = binary_round_aux prec emax sx (Zpos mz) ez loc_Exact /\
    ez <= fexp (Zdigits2 (Zpos mz) + ez) /\ ez <= ex /\
    Zpos mz = Zpos mx * 2 ^ (ex - ez).
Proof.
  unfold binary_round.
  pose proof (shl_align_spec mx ex (fexp (Zpos (digits2_pos mx) + ex))) as [H1 H2].
  destruct (shl_align mx ex (fexp (Zpos (digits2_pos mx) + ex))) as [mz ez].
  cbn [fst snd] in H1, H2. exists mz, ez. split; [reflexivity |].
  assert (Hz : ez <= ex) by lia.
  split; [| split; [exact Hz | rewrite H2, H1; reflexivity]].
  rewrite H2, Zdigits2_shl by lia. cbn [Zdigits2].
  replace (Zpos (digits2_pos mx) + (ex - Z.min ex (fexp (Zpos (digits2_pos mx) + ex))) + ez)
    with (Zpos (digits2_pos mx) + ex) by lia.
  lia.
Qed.

Lemma binary_round_rounded (sx : bool) (mx : positive) (ex : Z) :
  rounded prec emax sx (fun _ _ => True) (binary_round prec emax sx mx ex).
Proof.
  destruct (binary_round_aligned sx mx ex) as (mz & ez & -> & Hz & _ & _).
  apply binary_round_aux_rounded; [lia | exact Hz].
Qed.

Lemma binary_round_le (sx : bool) (mx : positive) (ex : Z) (mb : positive) (eb : Z) :
  canonical_mantissa prec emax mb eb = true -> eb <= emax - prec ->
  dy_le (Zpos mx) ex (Zpos mb) eb ->
  rounded prec emax sx (fun mf Ef => dy_le (Zpos mf) Ef (Zpos mb) eb) (binary_round prec emax sx mx ex)
  /\ binary_round prec emax sx mx ex <> S754_infinity sx.
Proof.
  intros Cb Vb H.
  destruct (binary_round_aligned sx mx ex) as (mz & ez & -> & Hz & Hze & Hv).
  apply binary_round_aux_le; try assumption; [lia | | intros N; contradiction N; reflexivity].
  rewrite Hv. apply dy_le_shift_l; [lia |]. replace (ez + (ex - ez)) with ex by lia. exact H.
Qed.

Lemma binary_round_ge (sx : bool) (mx : positive) (ex : Z) (mb : positive) (eb : Z) :
  canonical_mantissa prec emax mb eb = true ->
  dy_le (Zpos mb) eb (Zpos mx) ex ->
  rounded prec emax sx (fun mf Ef => dy_le (Zpos mb) eb (Zpos mf) Ef) (binary_round prec emax sx mx ex)
  /\ binary_round prec emax sx mx ex <> S754_zero sx.
Proof.
  intros Cb H.
  destruct (binary_round_aligned sx mx ex) as (mz & ez & -> & Hz & Hze & Hv).
  apply binary_round_aux_ge; try assumption; [lia |].
  rewrite Hv. apply dy_le_shift_r; [lia |]. replace (ez + (ex - ez)) with ex by lia. exact H.
Qed.

(** *** Division *)

Lemma new_location_exact (n r : Z) : r = 0 -> new_location n r = loc_Exact.
Proof.
  intros ->. unfold new_location, new_location_even, new_location_odd.
  destruct (Z.even n); reflexivity.
Qed.

(** The quotient and the exponent [SFdiv] hands to the rounding. *)
Lemma SFdiv_core_binary_spec (m1 : positive) (e1 : Z) (m2 : positive) (e2 : Z) :
  let e' := Z.min (fexp (Zdigits2 (Zpos m1) + e1 - (Zdigits2 (Zpos m2) + e2))) (e1 - e2) in
  exists q r l,
    SFdiv_core_binary prec emax (Zpos m1) e1 (Zpos m2) e2 = (q, e', l) /\
    Zpos m1 * 2 ^ (e1 - e2 - e') = Zpos m2 * q + r /\ 0 <= r < Zpos m2 /\ 0 <= q /\
    (r = 0 -> l = loc_Exact).
Proof.
  intros e'. unfold SFdiv_core_binary. fold e'.
  set (s := e1 - e2 - e').
  assert (Hs : 0 <= s) by (unfold s, e'; lia).
  set (m' := match s with Z.pos _ => Z.shiftl (Zpos m1) s | 0 => Zpos m1 | Z.neg _ => 0 end).
  assert (Hm' : m' = Zpos m1 * 2 ^ s).
  { unfold m'. clearbody s. destruct s as [|p|p]; try lia.
    rewrite Z.shiftl_mul_pow2 by lia. reflexivity. }
  pose proof (Z_div_mod m' (Zpos m2) eq_refl) as Hdiv.
  destruct (Z.div_eucl m' (Zpos m2)) as [q r]. destruct Hdiv as [Hq Hr].
  exists q, r, (new_location (Zpos m2) r).
  split; [reflexivity |]. split; [rewrite <- Hm'; exact Hq |]. split; [exact Hr |].
  split; [| apply new_location_exact].
  assert (0 <= m') by (rewrite Hm'; apply Z.mul_nonneg_nonneg; [lia | apply Z.pow_nonneg; lia]).
  destruct (Z_lt_le_dec q 0) as [N |]; [exfalso | assumption].
  assert (Zpos m2 * q <= Zpos m2 * (-1)) by (apply Z.mul_le_mono_nonneg_l; lia). lia.
Qed.

(** Sum of digits and exponent, compared on the order of the values. *)
Lemma dy_le_digits (m1 m2 : positive) (e1 e2 : Z) :
  dy_le (Zpos m1) e1 (Zpos m2) e2 ->
  Zdigits2 (Zpos m1) + e1 <= Zdigits2 (Zpos m2) + e2.
Proof.
  intros H. set (c := Z.min e1 e2).
  assert (H1 : c <= e1) by (unfold c; lia). assert (H2 : c <= e2) by (unfold c; lia).
  pose proof (proj1 (dy_le_base c _ _ _ _ H1 H2) H) as H'.
  destruct (Zdigits2_bounds (Zpos m1)) as (D1 & L1 & _); [lia |].
  destruct (Zdigits2_bounds (Zpos m2)) as (D2 & _ & U2); [lia |].
  assert (P1 : 0 < 2 ^ (e1 - c)) by (apply Z.pow_pos_nonneg; lia).
  assert (P2 : 0 < 2 ^ (e2 - c)) by (apply Z.pow_pos_nonneg; lia).
  assert (A : 2 ^ (Zdigits2 (Zpos m1) - 1 + (e1 - c)) <= Zpos m1 * 2 ^ (e1 - c)).
  { rewrite Z.pow_add_r by lia. apply Z.mul_le_mono_nonneg_r; lia. }
  assert (B : Zpos m2 * 2 ^ (e2 - c) < 2 ^ (Zdigits2 (Zpos m2) + (e2 - c))).
  { rewrite Z.pow_add_r by lia. apply Z.mul_lt_mono_pos_r; lia. }
  assert (C : 2 ^ (Zdigits2 (Zpos m1) - 1 + (e1 - c)) < 2 ^ (Zdigits2 (Zpos m2) + (e2 - c))) by lia.
  apply Z.pow_lt_mono_r_iff in C; lia.
Qed.

Hypothesis prec_lt_emax : prec < emax.

Lemma one_m_pow : Zpos (one_m prec) = 2 ^ (prec - 1).
Proof. unfold one_m. apply Z2Pos.id. apply Z.pow_pos_nonneg; lia. Qed.

Lemma one_canonical :
  canonical_mantissa prec emax (one_m prec) (one_e prec) = true /\ (one_e prec) <= emax - prec.
Proof.
  split; [| unfold one_e; lia].
  unfold canonical_mantissa. apply Z.eqb_eq.
  change (Zpos (digits2_pos (one_m prec))) with (Zdigits2 (Zpos (one_m prec))).
  assert (P : 0 < 2 ^ (prec - 1)) by (apply Z.pow_pos_nonneg; lia).
  rewrite (Zdigits2_unique (Zpos (one_m prec)) prec).
  - unfold one_e, SpecFloat.fexp, SpecFloat.emin. lia.
  - rewrite one_m_pow. split; [lia |]. apply Z.pow_lt_mono_r; lia.
  - lia.
Qed.

Lemma dy_le_one_r (m e : Z) : dy_le m e (Zpos (one_m prec)) (one_e prec) <-> dy_le m e 1 0.
Proof.
  rewrite one_m_pow. rewrite <- (Z.mul_1_l (2 ^ (prec - 1))).
  rewrite dy_le_shift_r by lia. unfold one_e.
  replace (1 - prec + (prec - 1)) with 0 by lia. reflexivity.
Qed.

Lemma dy_le_one_l (m e : Z) : dy_le (Zpos (one_m prec)) (one_e prec) m e <-> dy_le 1 0 m e.
Proof.
  rewrite one_m_pow. rewrite <- (Z.mul_1_l (2 ^ (prec - 1))).
  rewrite dy_le_shift_l by lia. unfold one_e.
  replace (1 - prec + (prec - 1)) with 0 by lia. reflexivity.
Qed.

(** The quotient of two numbers of the same sign, the first not above the
    second in magnitude, is zero or a positive number not above one. *)
Lemma SFdiv_le_one (s : bool) (m1 : positive) (e1 : Z) (m2 : positive) (e2 : Z) :
  dy_le (Zpos m1) e1 (Zpos m2) e2 ->
  rounded prec emax false (fun mf Ef => dy_le (Zpos mf) Ef 1 0)
    (SFdiv prec emax (S754_finite s m1 e1) (S754_finite s m2 e2))
  /\ SFdiv prec emax (S754_finite s m1 e1) (S754_finite s m2 e2) <> S754_infinity false.
Proof.
  intros H. cbn [SFdiv]. rewrite xorb_nilpotent.
  pose proof (dy_le_digits m1 m2 e1 e2 H) as HX.
  destruct (SFdiv_core_binary_spec m1 e1 m2 e2) as (q & r & l & -> & Hdiv & Hr & Hq & Hl).
  set (X := Zdigits2 (Zpos m1) + e1 - (Zdigits2 (Zpos m2) + e2)) in *.
  set (e' := Z.min (fexp X) (e1 - e2)) in *.
  set (s' := e1 - e2 - e') in *.
  assert (Hs' : 0 <= s') by (unfold s', e'; lia).
  assert (He'0 : e' <= 0).
  { assert (fexp X <= 0) by (unfold SpecFloat.fexp, SpecFloat.emin; lia). unfold e'. lia. }
  assert (Ps : 0 < 2 ^ s') by (apply Z.pow_pos_nonneg; lia).
  assert (Pn : 0 < 2 ^ (- e')) by (apply Z.pow_pos_nonneg; lia).
  destruct (Zdigits2_bounds (Zpos m1)) as (D1 & L1 & U1); [lia |].
  destruct (Zdigits2_bounds (Zpos m2)) as (D2 & L2 & U2); [lia |].
  (* the dividend against the divisor *)
  assert (Hmd : Zpos m1 * 2 ^ s' <= Zpos m2 * 2 ^ (- e')).
  { set (c := Z.min e1 e2).
    assert (H1 : c <= e1) by (unfold c; lia). assert (H2 : c <= e2) by (unfold c; lia).
    pose proof (proj1 (dy_le_base c _ _ _ _ H1 H2) H) as H'.
    assert (Pc : 0 < 2 ^ (e2 - c)) by (apply Z.pow_pos_nonneg; lia).
    apply Z.mul_le_mono_pos_r with (p := 2 ^ (e2 - c)); [exact Pc |].
    rewrite <- !Z.mul_assoc, <- !Z.pow_add_r by lia.
    replace (s' + (e2 - c)) with ((e1 - c) + (- e')) by (unfold s'; lia).
    replace (- e' + (e2 - c)) with ((e2 - c) + (- e')) by lia.
    rewrite !Z.pow_add_r, !Z.mul_assoc by lia.
    apply Z.mul_le_mono_nonneg_r; lia. }
  assert (Hq1 : q <= 2 ^ (- e')).
  { apply Z.mul_le_mono_pos_l with (p := Zpos m2); lia. }
  assert (Hq2 : r <> 0 -> q < 2 ^ (- e')).
  { intros Hr0. apply Z.mul_lt_mono_pos_l with (p := Zpos m2); lia. }
  (* the exponent is not above the exponent of the format *)
  assert (He : e' <= fexp (Zdigits2 q + e')).
  { destruct (Z.eq_dec q 0) as [Q0 | QN].
    - rewrite Q0. cbn [Zdigits2]. rewrite Z.add_0_l.
      assert (Hlt : Zpos m1 * 2 ^ s' < Zpos m2) by (rewrite Q0 in Hdiv; lia).
      assert (A : 2 ^ (Zdigits2 (Zpos m1) - 1 + s') <= Zpos m1 * 2 ^ s').
      { rewrite Z.pow_add_r by lia. apply Z.mul_le_mono_nonneg_r; lia. }
      assert (C : 2 ^ (Zdigits2 (Zpos m1) - 1 + s') < 2 ^ Zdigits2 (Zpos m2)) by lia.
      apply Z.pow_lt_mono_r_iff in C; [| lia | lia].
      assert (X <= e') by (unfold X, s' in *; lia).
      assert (e' <= fexp X) by (unfold e'; lia).
      unfold SpecFloat.fexp in *. lia.
    - assert (Hqpos : 0 < q) by lia.
      destruct (Zdigits2_bounds q Hqpos) as (Dq & _ & _).
      assert (Ha : Zdigits2 (Zpos m1) - Zdigits2 (Zpos m2) + s' <= Zdigits2 q).
      { set (a := Zdigits2 (Zpos m1) - Zdigits2 (Zpos m2) + s').
        destruct (Z_le_gt_dec a 1) as [La | Ga]; [lia |].
        assert (A : 2 ^ (Zdigits2 (Zpos m1) - 1 + s') <= Zpos m1 * 2 ^ s').
        { rewrite Z.pow_add_r by lia. apply Z.mul_le_mono_nonneg_r; lia. }
        assert (B : Zpos m2 * 2 ^ (a - 1) <= 2 ^ (Zdigits2 (Zpos m1) - 1 + s')).
        { replace (Zdigits2 (Zpos m1) - 1 + s') with (Zdigits2 (Zpos m2) + (a - 1)) by (unfold a; lia).
          rewrite Z.pow_add_r by lia. apply Z.mul_le_mono_nonneg_r; [| lia].
          apply Z.pow_nonneg; lia. }
        assert (Pa : 0 < 2 ^ (a - 1)) by (apply Z.pow_pos_nonneg; lia).
        assert (Hge : 2 ^ (a - 1) <= q).
        { destruct (Z_le_gt_dec (2 ^ (a - 1)) q) as [|G]; [assumption | exfalso].
          assert (Zpos m2 * (q + 1) <= Zpos m2 * 2 ^ (a - 1))
            by (apply Z.mul_le_mono_nonneg_l; lia).
          lia. }
        pose proof (Zdigits2_ge_pow q (a - 1)). lia. }
      apply Z.le_trans with (fexp X); [unfold e'; lia |].
      apply fexp_mono. unfold X, s' in *. lia. }
  pose proof one_canonical as [C1 V1].
  destruct (binary_round_aux_le false q e' l (one_m prec) (one_e prec) Hq He C1 V1) as [R N].
  - apply dy_le_one_r. apply (dy_le_base e'); [lia | lia |].
    rewrite Z.sub_diag, Z.pow_0_r, Z.mul_1_r, Z.mul_1_l, Z.sub_0_l. exact Hq1.
  - intros Hne Hle. apply dy_le_one_l in Hle.
    assert (H1 : e' <= 0) by lia. assert (H2 : e' <= e') by lia.
    pose proof (proj1 (dy_le_base e' _ _ _ _ H1 H2) Hle) as Hle'.
    rewrite Z.sub_diag, Z.pow_0_r, Z.mul_1_r, Z.mul_1_l, Z.sub_0_l in Hle'.
    destruct (Z.eq_dec r 0) as [R0 | RN]; [apply Hne, Hl, R0 |].
    specialize (Hq2 RN). lia.
  - split; [| exact N].
    destruct R as [|mf Ef C V D|]; constructor; auto.
    apply dy_le_one_r. exact D.
Qed.

(** *** Subtraction, addition and conversion *)

Lemma rounded_and (sx : bool) (P Q : positive -> Z -> Prop) (x : spec_float) :
  rounded prec emax sx P x -> rounded prec emax sx Q x -> rounded prec emax sx (fun m e => P m e /\ Q m e) x.
Proof.
  intros HP HQ. destruct HP as [|mf Ef C V p|]; [constructor | | constructor].
  inversion HQ; subst. constructor; auto.
Qed.

(** A number that has a canonical representation rounds to it. *)
Lemma binary_round_exact (sx : bool) (mx : positive) (ex : Z) (mb : positive) (eb : Z) :
  canonical_mantissa prec emax mb eb = true -> eb <= emax - prec ->
  dy_le (Zpos mx) ex (Zpos mb) eb -> dy_le (Zpos mb) eb (Zpos mx) ex ->
  binary_round prec emax sx mx ex = S754_finite sx mb eb.
Proof.
  intros Cb Vb H1 H2.
  destruct (binary_round_le sx mx ex mb eb Cb Vb H1) as [R1 N1].
  destruct (binary_round_ge sx mx ex mb eb Cb H2) as [R2 N2].
  pose proof (rounded_and _ _ _ _ R1 R2) as R.
  destruct R as [|mf Ef C V [D1 D2]|]; try congruence.
  pose proof (canonical_exp_le _ _ _ _ C Cb D1).
  pose proof (canonical_exp_le _ _ _ _ Cb C D2).
  assert (Ef = eb) by lia. subst Ef.
  apply dy_le_same in D1, D2. f_equal. lia.
Qed.

(** The difference of two numbers of opposite signs has the sign of the
    first and is not below it in magnitude. *)
Lemma SFsub_opposite_ge (s : bool) (m0 : positive) (e0 : Z) (m1 : positive) (e1 : Z) :
  canonical_mantissa prec emax m0 e0 = true ->
  rounded prec emax s (fun md ed => dy_le (Zpos m0) e0 (Zpos md) ed)
    (SFsub prec emax (S754_finite s m0 e0) (S754_finite (negb s) m1 e1))
  /\ SFsub prec emax (S754_finite s m0 e0) (S754_finite (negb s) m1 e1) <> S754_zero s.
Proof.
  intros C0. rewrite SFsub_finite.
  destruct (shl_align_spec m0 e0 (Z.min e0 e1)) as [_ H0].
  destruct (shl_align_spec m1 e1 (Z.min e0 e1)) as [_ H1].
  set (M0 := fst (shl_align m0 e0 (Z.min e0 e1))) in *.
  set (M1 := fst (shl_align m1 e1 (Z.min e0 e1))) in *.
  replace (Z.min e0 (Z.min e0 e1)) with (Z.min e0 e1) in H0 by lia.
  assert (D : dy_le (Zpos m0) e0 (Zpos (M0 + M1)) (Z.min e0 e1)).
  { replace e0 with (Z.min e0 e1 + (e0 - Z.min e0 e1)) at 1 by lia.
    apply dy_le_shift_l; [lia |]. rewrite <- H0. apply dy_le_same. lia. }
  destruct s; cbn [cond_Zopp negb].
  - change (- Zpos M0 - Zpos M1) with (Zneg (M0 + M1)). cbn [binary_normalize].
    apply binary_round_ge; assumption.
  - change (Zpos M0 - - Zpos M1) with (Zpos (M0 + M1)). cbn [binary_normalize].
    apply binary_round_ge; assumption.
Qed.

(** The sum of two positive numbers, between two canonical numbers. *)
Lemma SFadd_between (ma : positive) (ea : Z) (mu : positive) (eu : Z)
    (ml : positive) (el : Z) (mh : positive) (eh : Z) (c : Z) :
  canonical_mantissa prec emax ml el = true ->
  canonical_mantissa prec emax mh eh = true -> eh <= emax - prec ->
  c <= ea -> c <= eu -> c <= el -> c <= eh ->
  Zpos ml * 2 ^ (el - c) <= Zpos ma * 2 ^ (ea - c) + Zpos mu * 2 ^ (eu - c) ->
  Zpos ma * 2 ^ (ea - c) + Zpos mu * 2 ^ (eu - c) <= Zpos mh * 2 ^ (eh - c) ->
  SFleb (S754_finite false ml el)
        (SFadd prec emax (S754_finite false ma ea) (S754_finite false mu eu)) = true /\
  SFleb (SFadd prec emax (S754_finite false ma ea) (S754_finite false mu eu))
        (S754_finite false mh eh) = true.
Proof.
  intros Cl Ch Vh Ha Hu Hl Hh Lo Hi. cbn [SFadd cond_Zopp].
  destruct (shl_align_spec ma ea (Z.min ea eu)) as [_ H0].
  destruct (shl_align_spec mu eu (Z.min ea eu)) as [_ H1].
  set (Ma := fst (shl_align ma ea (Z.min ea eu))) in *.
  set (Mu := fst (shl_align mu eu (Z.min ea eu))) in *.
  replace (Z.min ea (Z.min ea eu)) with (Z.min ea eu) in H0 by lia.
  replace (Z.min eu (Z.min ea eu)) with (Z.min ea eu) in H1 by lia.
  set (ez := Z.min ea eu) in *.
  change (Zpos Ma + Zpos Mu) with (Zpos (Ma + Mu)). cbn [binary_normalize].
  assert (Hez : c <= ez) by (unfold ez; lia).
  assert (Hsum : Zpos (Ma + Mu) * 2 ^ (ez - c)
                 = Zpos ma * 2 ^ (ea - c) + Zpos mu * 2 ^ (eu - c)).
  { rewrite Pos2Z.inj_add, Z.mul_add_distr_r, H0, H1.
    rewrite <- !Z.mul_assoc, <- !Z.pow_add_r by (unfold ez; lia).
    replace (ea - ez + (ez - c)) with (ea - c) by lia.
    replace (eu - ez + (ez - c)) with (eu - c) by lia. reflexivity. }
  assert (D1 : dy_le (Zpos ml) el (Zpos (Ma + Mu)) ez).
  { apply (dy_le_base c); [lia | lia |]. rewrite Hsum. exact Lo. }
  assert (D2 : dy_le (Zpos (Ma + Mu)) ez (Zpos mh) eh).
  { apply (dy_le_base c); [lia | lia |]. rewrite Hsum. exact Hi. }
  destruct (binary_round_le false (Ma + Mu) ez mh eh Ch Vh D2) as [R1 N1].
  destruct (binary_round_ge false (Ma + Mu) ez ml el Cl D1) as [R2 N2].
  pose proof (rounded_and _ _ _ _ R1 R2) as R.
  destruct R as [|mf Ef C V [E1 E2]|]; try congruence.
  split; apply canonical_leb; assumption.
Qed.

(** Integers below [2^prec] are numbers of the format. *)
Lemma of_Z_spec (n : Z) :
  0 < n < 2 ^ prec ->
  exists mi ei,
    binary_normalize prec emax n 0 false = S754_finite false mi ei /\
    canonical_mantissa prec emax mi ei = true /\ ei <= emax - prec /\
    ei <= 0 /\ Zpos mi = n * 2 ^ (- ei).
Proof.
  intros [Hn Hu]. destruct n as [|p|p]; try lia. cbn [binary_normalize].
  set (d := Zdigits2 (Zpos p)).
  destruct (Zdigits2_bounds (Zpos p) Hn) as (D & L & U). fold d in D, L, U.
  assert (Hd : d <= prec) by (apply Zdigits2_lt_pow; lia).
  assert (P : 0 < 2 ^ (prec - d)) by (apply Z.pow_pos_nonneg; lia).
  set (mb := Z.to_pos (Zpos p * 2 ^ (prec - d))).
  assert (Hmb : Zpos mb = Zpos p * 2 ^ (prec - d)) by (apply Z2Pos.id; lia).
  assert (Cb : canonical_mantissa prec emax mb (d - prec) = true).
  { unfold canonical_mantissa. apply Z.eqb_eq.
    change (Zpos (digits2_pos mb)) with (Zdigits2 (Zpos mb)).
    rewrite Hmb, Zdigits2_shl by lia. fold d.
    unfold SpecFloat.fexp, SpecFloat.emin. lia. }
  exists mb, (d - prec).
  split; [| split; [exact Cb | split; [lia | split; [lia |]]]].
  - apply binary_round_exact; [exact Cb | lia | |].
    + apply (dy_le_base (d - prec)); [lia | lia |].
      rewrite Z.sub_diag, Z.pow_0_r, Z.mul_1_r, Hmb.
      replace (0 - (d - prec)) with (prec - d) by lia. lia.
    + apply (dy_le_base (d - prec)); [lia | lia |].
      rewrite Z.sub_diag, Z.pow_0_r, Z.mul_1_r, Hmb.
      replace (0 - (d - prec)) with (prec - d) by lia. lia.
  - rewrite Hmb. f_equal. f_equal. lia.
Qed.

(** *** The interpolated position on an edge *)

Lemma of_Z_value (n : Z) (mi : positive) (ei : Z) :
  ei <= 0 -> Zpos mi = n * 2 ^ (- ei) ->
  forall c, c <= ei -> Zpos mi * 2 ^ (ei - c) = n * 2 ^ (- c).
Proof.
  intros He Hv c Hc. rewrite Hv, <- Z.mul_assoc, <- Z.pow_add_r by lia.
  f_equal. f_equal. lia.
Qed.

Lemma SFleb_canonical_refl (m : positive) (e : Z) :
  SFleb (S754_finite false m e) (S754_finite false m e) = true.
Proof.
  unfold SFleb. cbn [SFcompare]. rewrite Z.compare_refl, Pos.compare_cont_refl. reflexivity.
Qed.

(** Adding a number between 0 and 1 to the integer [i] gives a number
    between [i] and [i + 1]. *)
Lemma add_unit_bounds (i : Z) (u : spec_float) :
  0 <= i -> i + 1 < 2 ^ prec ->
  rounded prec emax false (fun mf Ef => dy_le (Zpos mf) Ef 1 0) u -> u <> S754_infinity false ->
  SFleb (S754_zero false) u = true /\
  SFleb u (binary_normalize prec emax 1 0 false) = true /\
  SFleb (binary_normalize prec emax i 0 false)
        (SFadd prec emax (binary_normalize prec emax i 0 false) u) = true /\
  SFleb (SFadd prec emax (binary_normalize prec emax i 0 false) u)
        (binary_normalize prec emax (i + 1) 0 false) = true.
Proof.
  intros Hi Hi1 Ru Ninf.
  assert (H1 : 0 < 1 < 2 ^ prec).
  { split; [lia |]. change 1 with (2 ^ 0) at 1. apply Z.pow_lt_mono_r; lia. }
  destruct (of_Z_spec 1 H1) as (m1 & e1 & E1 & C1 & V1 & N1 & X1).
  assert (Hs1 : 0 < i + 1 < 2 ^ prec) by lia.
  destruct (of_Z_spec (i + 1) Hs1) as (mh & eh & Eh & Ch & Vh & Nh & Xh).
  assert (Hu1 : forall mu eu, canonical_mantissa prec emax mu eu = true ->
            dy_le (Zpos mu) eu 1 0 ->
            SFleb (S754_finite false mu eu) (S754_finite false m1 e1) = true).
  { intros mu eu Cu D. apply canonical_leb; [exact Cu | exact C1 |].
    apply dy_le_trans with (1 := D). apply (dy_le_base e1); [lia | lia |].
    rewrite Z.sub_diag, Z.pow_0_r, Z.mul_1_r, X1, Z.sub_0_l. lia. }
  destruct (Z.eq_dec i 0) as [-> | Hne].
  - (* the first grid point *)
    change (0 + 1) with 1.
    change (binary_normalize prec emax 0 0 false) with (S754_zero false). rewrite E1.
    destruct Ru as [|mu eu Cu Vu D|]; [| | congruence].
    + cbn. repeat split; reflexivity.
    + cbn [SFadd]. repeat split; try reflexivity; apply Hu1; assumption.
  - assert (Hi0 : 0 < i < 2 ^ prec) by lia.
    destruct (of_Z_spec i Hi0) as (mi & ei & Ei & Ci & Vi & Ni & Xi).
    rewrite E1, Ei, Eh.
    destruct Ru as [|mu eu Cu Vu D|]; [| | congruence].
    + cbn [SFadd]. split; [reflexivity |]. split; [reflexivity |].
      split; [apply SFleb_canonical_refl |].
      apply canonical_leb; [exact Ci | exact Ch |].
      set (c := Z.min ei eh). apply (dy_le_base c); [unfold c; lia | unfold c; lia |].
      rewrite (of_Z_value i mi ei Ni Xi c), (of_Z_value (i + 1) mh eh Nh Xh c) by (unfold c; lia).
      apply Z.mul_le_mono_nonneg_r; [apply Z.pow_nonneg; lia | lia].
    + split; [reflexivity |]. split; [apply Hu1; assumption |].
      set (c := Z.min (Z.min ei eu) eh).
      assert (Hc0 : c <= 0) by (unfold c; lia).
      assert (Hcu : c <= eu) by (unfold c; lia).
      pose proof (proj1 (dy_le_base c _ _ _ _ Hcu Hc0) D) as D'.
      rewrite Z.mul_1_l, Z.sub_0_l in D'.
      assert (Pu : 0 <= Zpos mu * 2 ^ (eu - c)).
      { apply Z.mul_nonneg_nonneg; [lia | apply Z.pow_nonneg; lia]. }
      apply (SFadd_between mi ei mu eu mi ei mh eh c); try assumption;
        try (unfold c; lia).
      rewrite (of_Z_value i mi ei Ni Xi c), (of_Z_value (i + 1) mh eh Nh Xh c)
        by (unfold c; lia).
      rewrite Z.mul_add_distr_r, Z.mul_1_l. lia.
Qed.

(** The position [i + c0 / (c0 - c1)] for two numbers [c0], [c1] of
    opposite signs lies between [i] and [i + 1]. *)
Lemma interpolation_bounds (s : bool) (m0 : positive) (e0 : Z) (m1 : positive) (e1 : Z)
    (i : Z) :
  canonical_mantissa prec emax m0 e0 = true ->
  0 <= i -> i + 1 < 2 ^ prec ->
  let c0 := S754_finite s m0 e0 in
  let c1 := S754_finite (negb s) m1 e1 in
  let u := SFdiv prec emax c0 (SFsub prec emax c0 c1) in
  SFleb (S754_zero false) u = true /\
  SFleb u (binary_normalize prec emax 1 0 false) = true /\
  SFleb (binary_normalize prec emax i 0 false)
        (SFadd prec emax (binary_normalize prec emax i 0 false) u) = true /\
  SFleb (SFadd prec emax (binary_normalize prec emax i 0 false) u)
        (binary_normalize prec emax (i + 1) 0 false) = true.
Proof.
  intros C0 Hi Hi1 c0 c1 u.
  destruct (SFsub_opposite_ge s m0 e0 m1 e1 C0) as [Rd Nd].
  fold c0 c1 in Rd, Nd. subst u.
  destruct Rd as [|md ed Cd Vd D|]; [congruence | |].
  - destruct (SFdiv_le_one s m0 e0 md ed D) as [Ru Nu].
    apply add_unit_bounds; assumption.
  - unfold c0. cbn [SFdiv]. rewrite xorb_nilpotent.
    apply add_unit_bounds; [assumption | assumption | constructor | discriminate].
Qed.

(** *** Validity *)

Lemma rounded_valid (sx : bool) (P : positive -> Z -> Prop) (x : spec_float) :
  rounded prec emax sx P x -> valid_binary prec emax x = true.
Proof.
  intros [|mf Ef C V _|]; try reflexivity. cbn. unfold bounded.
  rewrite C. apply Z.leb_le. exact V.
Qed.

Lemma SFsub_valid (x y : spec_float) :
  valid_binary prec emax x = true -> valid_binary prec emax y = true ->
  valid_binary prec emax (SFsub prec emax x y) = true.
Proof.
  destruct x as [sx|sx| |sx mx ex], y as [sy|sy| |sy my ey]; intros Hx Hy;
    try reflexivity; try (destruct sx, sy; reflexivity); try assumption.
  rewrite SFsub_finite.
  destruct (cond_Zopp sx (Zpos (fst (shl_align mx ex (Z.min ex ey))))
            - cond_Zopp sy (Zpos (fst (shl_align my ey (Z.min ex ey))))) as [|p|p];
    cbn [binary_normalize]; [reflexivity | |];
    eapply rounded_valid, binary_round_rounded; exact prec_pos.
Qed.

End RoundSpec.

(** * Facts of binary32 arithmetic *)

Section Binary32Facts.
Import Binary32.
Abbreviation F := Binary32.t.
Abbreviation valid := (valid_binary prec emax).
Abbreviation bounded32 := (exp_bounded prec emax).

Lemma prec_positive : 0 < prec.
Proof. reflexivity. Qed.

Lemma binary32_lt_zero_asym (x : F) : SFltb x zero = true -> SFltb zero x = false.
Proof. destruct x as [s|[]| |[] m e]; cbn; congruence. Qed.

Lemma binary32_signed (x : F) :
  is_nan x = false -> SFeqb x zero = false ->
  SFltb x zero = true \/ SFltb zero x = true.
Proof. destruct x as [s|[]| |[] m e]; cbn; auto; discriminate. Qed.

Lemma binary32_strict_ge (x : F) :
  SFeqb x zero = false -> SFleb zero x = SFltb zero x.
Proof. destruct x as [s|[]| |[] m e]; cbn; congruence. Qed.

Lemma binary32_strict_le (x : F) :
  SFeqb x zero = false -> SFleb x zero = SFltb x zero.
Proof. destruct x as [s|[]| |[] m e]; cbn; congruence. Qed.

Lemma perturb_nonzero (c : F) : SFeqb (perturb c) zero = false.
Proof.
  unfold perturb. destruct (r_abs c <? r_eps)%real eqn:Hsmall; [reflexivity |].
  destruct c as [s|[]| |[] m e]; try reflexivity. discriminate Hsmall.
Qed.

Lemma perturb_not_nan (c : F) : is_nan c = false -> is_nan (perturb c) = false.
Proof. intros H. unfold perturb. destruct (_ <? _)%real; [reflexivity | exact H]. Qed.

Lemma perturb_bounded (c : F) : bounded32 c -> bounded32 (perturb c).
Proof.
  intros H. unfold perturb. destruct (_ <? _)%real; [| exact H].
  vm_compute. discriminate.
Qed.

Lemma perturb_signed (c : F) :
  is_nan c = false ->
  SFltb (perturb c) zero = true \/ SFltb zero (perturb c) = true.
Proof.
  intros H. apply binary32_signed; [apply perturb_not_nan; exact H | apply perturb_nonzero].
Qed.

Lemma get_data_bounded (s : MarchingCubes F) (i j k : Z) :
  Forall (fun v => valid v = true) (_data s) -> bounded32 (get_data s i j k).
Proof.
  intros Hd. unfold get_data, at_index.
  destruct (nth_in_or_default (Z.to_nat (grid_index s i j k)) (_data s) (r_of_Z 0))
    as [Hin | ->]; [| exact I].
  apply (valid_exp_bounded prec emax). rewrite Forall_forall in Hd. apply Hd.
  apply list_elem_of_In. exact Hin.
Qed.

Lemma sample_bounded (s : MarchingCubes F) (iso : F) (i j k : Z) :
  Forall (fun v => valid v = true) (_data s) -> valid iso = true ->
  bounded32 (get_data s i j k - iso)%real.
Proof.
  intros Hd Hiso. apply (SFsub_exp_bounded prec emax prec_positive).
  - apply get_data_bounded. exact Hd.
  - apply (valid_exp_bounded prec emax). exact Hiso.
Qed.

(** The values the edge pass holds in [_cube[0]], [_cube[1]], [_cube[3]] and
    [_cube[4]] are perturbed sample differences. *)
Lemma load_edge_corners_values (s : MarchingCubes F) (iso : F) (q : Z) :
  In q [0; 1; 3; 4] ->
  exists i j k, _cube (load_edge_corners iso s) q = perturb (get_data s i j k - iso)%real.
Proof.
  intros Hq. cbn in Hq. destruct Hq as [<- | [<- | [<- | [<- | []]]]].
  - exists (_i s), (_j s), (_k s). reflexivity.
  - cbn. destruct (_i s <? _size_x s - 1); eexists _, _, _; reflexivity.
  - cbn. destruct (_j s <? _size_y s - 1); eexists _, _, _; reflexivity.
  - cbn. destruct (_k s <? _size_z s - 1); eexists _, _, _; reflexivity.
Qed.

Lemma edge_crossed_opposite (c0 c1 : F) :
  SFeqb c0 zero = false -> is_nan c0 = false ->
  edge_crossed c0 c1 = opposite_signs c0 c1.
Proof.
  intros Hz Hn. unfold edge_crossed, opposite_signs.
  destruct (binary32_signed c0 Hn Hz) as [H | H].
  - change (r_of_Z 0) with zero. cbn [r_ltb binary32]. rewrite H, (binary32_lt_zero_asym _ H).
    cbn. rewrite orb_false_r. reflexivity.
  - change (r_of_Z 0) with zero. cbn [r_ltb binary32]. rewrite H.
    destruct (SFltb c0 zero) eqn:H'.
    + apply binary32_lt_zero_asym in H'. congruence.
    + reflexivity.
Qed.

(** Where the edge test holds, the difference of the two values is not
    zero. *)
Lemma crossed_divisor_nonzero (c0 c1 : F) :
  bounded32 c0 -> bounded32 c1 -> SFeqb c0 zero = false ->
  edge_crossed c0 c1 = true -> SFeqb (c0 - c1)%real zero = false.
Proof.
  intros B0 B1 Hz Hcross. unfold edge_crossed in Hcross.
  change (r_of_Z 0) with zero in Hcross. cbn [r_ltb binary32] in Hcross.
  change (SFeqb (SFsub prec emax c0 c1) zero = false).
  destruct (SFltb c0 zero) eqn:Hneg.
  - apply (SFsub_opposite_nonzero prec emax prec_positive); auto.
  - destruct c0 as [s0|s0| |s0 m0 e0].
    + discriminate Hz.
    + destruct s0; [discriminate Hneg |].
      destruct c1 as [s1|[]| |[] m1 e1]; try discriminate Hcross; reflexivity.
    + destruct c1 as [s1|[]| |[] m1 e1]; reflexivity.
    + destruct s0; [discriminate Hneg |].
      apply (SFsub_opposite_nonzero prec emax prec_positive); auto.
Qed.

(** C7.  In both passes every loaded corner value is non-zero after the
    perturbation, so that testing it with [>=] or [<=] against zero is the
    same as testing it with [>] or [<]; and on an edge where
    [compute_intersection_points] adds a vertex, the divisor
    [_cube[0] - _cube[q]] of the interpolation is non-zero.  The samples and
    the isovalue are valid binary32 numbers. *)
Theorem perturbed_corners_are_nonzero (s : MarchingCubes F) (iso : F) (p q : Z) :
  Forall (fun v => valid v = true) (_data s) ->
  valid iso = true ->
  In q [1; 3; 4] ->
  let c := _cube (load_corner iso s p) p in
  let e := _cube (load_edge_corners iso s) in
  (SFeqb c zero = false /\
   (c >=? r_of_Z 0)%real = (c >? r_of_Z 0)%real /\
   (c <=? r_of_Z 0)%real = (c <? r_of_Z 0)%real) /\
  (SFeqb (e 0) zero = false /\
   (e 0 >=? r_of_Z 0)%real = (e 0 >? r_of_Z 0)%real /\
   (e 0 <=? r_of_Z 0)%real = (e 0 <? r_of_Z 0)%real) /\
  (SFeqb (e q) zero = false /\
   (e q >=? r_of_Z 0)%real = (e q >? r_of_Z 0)%real /\
   (e q <=? r_of_Z 0)%real = (e q <? r_of_Z 0)%real) /\
  (edge_crossed (e 0) (e q) = true -> SFeqb (e 0 - e q)%real zero = false).
Proof.
  intros Hd Hiso Hq c e.
  assert (Hc : SFeqb c zero = false).
  { subst c. rewrite load_corner_cube. apply perturb_nonzero. }
  assert (Hq' : In q [0; 1; 3; 4]) by (cbn in *; tauto).
  destruct (load_edge_corners_values s iso 0) as (i0 & j0 & k0 & H0); [cbn; tauto |].
  destruct (load_edge_corners_values s iso q Hq') as (i1 & j1 & k1 & H1).
  fold e in H0, H1.
  assert (He0 : SFeqb (e 0) zero = false) by (rewrite H0; apply perturb_nonzero).
  assert (Heq : SFeqb (e q) zero = false) by (rewrite H1; apply perturb_nonzero).
  repeat split;
    try assumption;
    try (apply binary32_strict_ge; assumption);
    try (apply binary32_strict_le; assumption).
  intros Hcross. apply crossed_divisor_nonzero; try assumption.
  - rewrite H0. apply perturb_bounded, sample_bounded; assumption.
  - rewrite H1. apply perturb_bounded, sample_bounded; assumption.
Qed.


Lemma get_data_finite (s : MarchingCubes F) (i j k : Z) :
  Forall (fun v => is_finite v = true /\ valid v = true) (_data s) ->
  is_finite (get_data s i j k) = true /\ bounded32 (get_data s i j k).
Proof.
  intros Hd. unfold get_data, at_index.
  destruct (nth_in_or_default (Z.to_nat (grid_index s i j k)) (_data s) (r_of_Z 0))
    as [Hin | ->]; [| split; [reflexivity | exact I]].
  rewrite Forall_forall in Hd. apply list_elem_of_In in Hin.
  destruct (Hd _ Hin) as [Hf Hv].
  split; [exact Hf | apply (valid_exp_bounded prec emax); exact Hv].
Qed.

Lemma sample_not_nan (s : MarchingCubes F) (iso : F) (i j k : Z) :
  Forall (fun v => is_finite v = true /\ valid v = true) (_data s) ->
  is_finite iso = true -> valid iso = true ->
  is_nan (get_data s i j k - iso)%real = false.
Proof.
  intros Hd Hf Hv. destruct (get_data_finite s i j k Hd) as [Hfd Hbd].
  apply (SFsub_finite_not_nan prec emax prec_positive); try assumption.
  apply (valid_exp_bounded prec emax). exact Hv.
Qed.

Lemma edge_crossed_same (c : F) : edge_crossed c c = false.
Proof.
  unfold edge_crossed. change (r_of_Z 0) with zero. cbn [r_ltb binary32].
  destruct (SFltb c zero) eqn:H; [apply binary32_lt_zero_asym; exact H | reflexivity].
Qed.

Lemma not_minus_one_iff_false (v : Z) : (v <> -1 <-> false = true) -> v = -1.
Proof. intros [H _]. destruct (Z.eq_dec v (-1)) as [E | N]; [exact E | discriminate (H N)]. Qed.

(** C6, as the code has it in binary32.  After an edge-intersection pass
    that starts with the three edge maps filled with [-1], over a grid of
    finite samples with a finite isovalue and buffers allocated: at every
    grid point that has a +x neighbour, the entry of the x-map is not [-1]
    exactly when the perturbed values at the point and at the neighbour
    have strictly opposite signs, and then it is the id of a vertex created
    by this pass, placed on that edge at [x = i + c0 / (c0 - c1)], [y = j],
    [z = k]; at a point without +x neighbour the entry is still [-1].
    Likewise for the y- and the z-map. *)
Theorem sentinel_consistency (s : MarchingCubes F) (iso : F) (i j k : Z) :
  mesh_wf s ->
  _x_verts s = replicate (Z.to_nat (_size_x s * _size_y s * _size_z s)) (-1) ->
  _y_verts s = replicate (Z.to_nat (_size_x s * _size_y s * _size_z s)) (-1) ->
  _z_verts s = replicate (Z.to_nat (_size_x s * _size_y s * _size_z s)) (-1) ->
  Forall (fun v => is_finite v = true /\ valid v = true) (_data s) ->
  is_finite iso = true -> valid iso = true ->
  in_grid (_size_x s) (_size_y s) (_size_z s) i j k ->
  let s' := compute_intersection_points iso s in
  let f := fun i j k => perturb (get_data s i j k - iso)%real in
  let vert := fun e => at_index (_vertices s') e zero_vertex in
  (if i <? _size_x s - 1
   then (get_x_vert s' i j k <> -1 <-> opposite_signs (f i j k) (f (i+1) j k) = true) /\
        (get_x_vert s' i j k <> -1 ->
         _nverts s <= get_x_vert s' i j k < _nverts s' /\
         x (vert (get_x_vert s' i j k))
           = (r_of_Z i + f i j k / (f i j k - f (i+1)%Z j k))%real /\
         y (vert (get_x_vert s' i j k)) = r_of_Z j /\
         z (vert (get_x_vert s' i j k)) = r_of_Z k)
   else get_x_vert s' i j k = -1) /\
  (if j <? _size_y s - 1
   then (get_y_vert s' i j k <> -1 <-> opposite_signs (f i j k) (f i (j+1) k) = true) /\
        (get_y_vert s' i j k <> -1 ->
         _nverts s <= get_y_vert s' i j k < _nverts s' /\
         x (vert (get_y_vert s' i j k)) = r_of_Z i /\
         y (vert (get_y_vert s' i j k))
           = (r_of_Z j + f i j k / (f i j k - f i (j+1)%Z k))%real /\
         z (vert (get_y_vert s' i j k)) = r_of_Z k)
   else get_y_vert s' i j k = -1) /\
  (if k <? _size_z s - 1
   then (get_z_vert s' i j k <> -1 <-> opposite_signs (f i j k) (f i j (k+1)) = true) /\
        (get_z_vert s' i j k <> -1 ->
         _nverts s <= get_z_vert s' i j k < _nverts s' /\
         x (vert (get_z_vert s' i j k)) = r_of_Z i /\
         y (vert (get_z_vert s' i j k)) = r_of_Z j /\
         z (vert (get_z_vert s' i j k))
           = (r_of_Z k + f i j k / (f i j k - f i j (k+1)%Z))%real)
   else get_z_vert s' i j k = -1).
Proof.
  intros W Hx Hy Hz Hd Hf Hv G s' f vert.
  assert (Hn : 0 <= _nverts s) by (destruct W as (? & _); lia).
  assert (Inv : grid_invariant (_size_x s) (_size_y s) (_size_z s) (_data s) s).
  { unfold grid_invariant. rewrite Hx, Hy, Hz, !length_replicate. repeat split. exact Hn. }
  assert (Hnone : map_entries (_size_x s) (_size_y s) i j k s = (-1, -1, -1)).
  { unfold map_entries. rewrite Hx, Hy, Hz, !at_index_replicate. reflexivity. }
  pose proof (pass_entries iso _ _ _ _ i j k G s Inv Hnone) as H.
  cbv zeta in H. fold s' in H.
  pose proof (fun a Ha => pass_names_vertices iso s a i j k W Hx Hy Hz Ha G) as N.
  cbv zeta in N. fold s' in N. unfold edge_target in N.
  unfold edge_values in H, N.
  destruct H as (Sx & Sy & _ & _ & Ex & Ey & Ez).
  fold (f i j k) in Ex, Ey, Ez, N.
  assert (Gi : forall a b c, grid_index s' a b c = grid_index s a b c).
  { intros a b c. unfold grid_index. rewrite Sx, Sy. reflexivity. }
  pose proof (N 0 ltac:(lia)) as Nx. pose proof (N 1 ltac:(lia)) as Ny.
  pose proof (N 2 ltac:(lia)) as Nz. clear N.
  cbn [edge_map] in Nx, Ny, Nz. rewrite <- Gi in Nx, Ny, Nz.
  fold (get_x_vert s' i j k) in Nx. fold (get_y_vert s' i j k) in Ny.
  fold (get_z_vert s' i j k) in Nz. fold vert in Nx, Ny, Nz.
  assert (H0 : forall c, edge_crossed (f i j k) c = opposite_signs (f i j k) c).
  { intros c. apply edge_crossed_opposite.
    - apply perturb_nonzero.
    - apply perturb_not_nan, sample_not_nan; assumption. }
  clearbody s'.
  split; [| split].
  - destruct (i <? _size_x s - 1).
    + split; [rewrite <- H0; exact Ex | exact Nx].
    + fold (f i j k) in Ex. rewrite edge_crossed_same in Ex.
      apply not_minus_one_iff_false. exact Ex.
  - destruct (j <? _size_y s - 1).
    + split; [rewrite <- H0; exact Ey | exact Ny].
    + fold (f i j k) in Ey. rewrite edge_crossed_same in Ey.
      apply not_minus_one_iff_false. exact Ey.
  - destruct (k <? _size_z s - 1).
    + split; [rewrite <- H0; exact Ez | exact Nz].
    + fold (f i j k) in Ez. rewrite edge_crossed_same in Ez.
      apply not_minus_one_iff_false. exact Ez.
Qed.

Lemma perturb_valid (c : F) : valid c = true -> valid (perturb c) = true.
Proof. intros H. unfold perturb. destruct (_ <? _)%real; [reflexivity | exact H]. Qed.

Lemma perturb_finite (c : F) : is_finite c = true -> is_finite (perturb c) = true.
Proof. intros H. unfold perturb. destruct (_ <? _)%real; [reflexivity | exact H]. Qed.

(** In binary32 the interpolated coordinate lies on the closed edge. *)
Lemma on_edge_from_binary32 (n : Z) (c0 c1 : F) :
  valid c0 = true -> is_finite c0 = true -> is_finite c1 = true ->
  opposite_signs c0 c1 = true -> 0 <= n -> n + 1 < 2 ^ 24 ->
  on_edge_from n c0 c1 (r_of_Z n + edge_parameter c0 c1)%real.
Proof.
  intros V0 F0 F1 Ho Hn Hn1. unfold on_edge_from.
  split; [exact Ho |]. split; [reflexivity |].
  unfold opposite_signs in Ho. change (r_of_Z 0) with zero in Ho. cbn [r_ltb binary32] in Ho.
  destruct c0 as [s0|s0| |s0 m0 e0]; try discriminate F0.
  { destruct s0; discriminate Ho. }
  destruct c1 as [s1|s1| |s1 m1 e1]; try discriminate F1.
  { destruct s0, s1; discriminate Ho. }
  assert (Hs : s1 = negb s0) by (destruct s0, s1; try discriminate Ho; reflexivity).
  subst s1. cbn [valid_binary] in V0. unfold bounded in V0.
  apply andb_true_iff in V0. destruct V0 as [C0 _].
  exact (interpolation_bounds prec emax eq_refl eq_refl s0 m0 e0 m1 e1 n C0 Hn Hn1).
Qed.

(** The perturbed sample differences are valid finite numbers when the
    subtraction of the isovalue does not overflow. *)
Lemma sample_valid_finite (s : MarchingCubes F) (iso : F) (i j k : Z) :
  Forall (fun v => is_finite v = true /\ valid v = true) (_data s) ->
  is_finite iso = true -> valid iso = true ->
  Forall (fun v => is_finite (v - iso)%real = true) (_data s) ->
  valid (perturb (get_data s i j k - iso)%real) = true /\
  is_finite (perturb (get_data s i j k - iso)%real) = true.
Proof.
  intros Hd Hf Hv Ho. unfold get_data, at_index.
  destruct (nth_in_or_default (Z.to_nat (grid_index s i j k)) (_data s) (r_of_Z 0))
    as [Hin | ->].
  - apply list_elem_of_In in Hin. rewrite Forall_forall in Hd, Ho.
    destruct (Hd _ Hin) as [_ Hvd]. split.
    + apply perturb_valid. apply (SFsub_valid prec emax eq_refl); assumption.
    + apply perturb_finite. apply Ho. exact Hin.
  - split.
    + apply perturb_valid. apply (SFsub_valid prec emax eq_refl); [reflexivity | exact Hv].
    + apply perturb_finite. destruct iso as [[]|[]| |[] m e]; try discriminate Hf; reflexivity.
Qed.

(** The coordinate of a vertex the pass puts on a crossed edge. *)
Lemma crossed_edge_position (s : MarchingCubes F) (iso : F) (b : bool)
    (i j k i' j' k' n : Z) :
  Forall (fun v => is_finite v = true /\ valid v = true) (_data s) ->
  is_finite iso = true -> valid iso = true ->
  Forall (fun v => is_finite (v - iso)%real = true) (_data s) ->
  0 <= n -> (b = true -> n + 1 < 2 ^ 24) ->
  let c0 := perturb (get_data s i j k - iso)%real in
  let c1 := perturb (get_data s i' j' k' - iso)%real in
  let c := perturb (if b then (get_data s i' j' k' - iso)%real
                    else (get_data s i j k - iso)%real) in
  edge_crossed c0 c = true ->
  b = true /\ on_edge_from n c0 c1 (r_of_Z n + c0 / (c0 - c1))%real.
Proof.
  intros Hd Hf Hv Ho Hn Hn1 c0 c1 c Hc.
  destruct b; [| subst c; fold c0 in Hc; rewrite edge_crossed_same in Hc; discriminate Hc].
  split; [reflexivity |]. subst c. fold c1 in Hc.
  destruct (sample_valid_finite s iso i j k Hd Hf Hv Ho) as [V0 F0].
  destruct (sample_valid_finite s iso i' j' k' Hd Hf Hv Ho) as [V1 F1].
  fold c0 in V0, F0. fold c1 in V1, F1.
  apply on_edge_from_binary32; try assumption; [| apply Hn1; reflexivity].
  rewrite <- edge_crossed_opposite; [exact Hc | apply perturb_nonzero |].
  apply perturb_not_nan, sample_not_nan; assumption.
Qed.

(** C10, as the code has it in binary32.  Over a grid of at most [2^24]
    points per axis, with finite samples and a finite isovalue whose
    differences do not overflow, every vertex the edge-intersection pass
    creates lies on a grid edge that leads to a neighbour inside the grid
    and whose perturbed endpoint values [c0], [c1] have strictly opposite
    signs.  The coordinate along the edge is the binary32 value of
    [i + u] with [u = c0 / (c0 - c1)]; [u] lies between 0 and 1 and the
    coordinate between [i] and [i + 1], both bounds included, and the two
    other coordinates are the grid coordinates of the edge, exactly. *)
Theorem edge_vertices_lie_on_crossed_edges (s : MarchingCubes F) (iso : F) (n : Z) :
  mesh_wf s ->
  Forall (fun v => is_finite v = true /\ valid v = true) (_data s) ->
  is_finite iso = true -> valid iso = true ->
  Forall (fun v => is_finite (v - iso)%real = true) (_data s) ->
  _size_x s <= 2 ^ 24 -> _size_y s <= 2 ^ 24 -> _size_z s <= 2 ^ 24 ->
  let s' := compute_intersection_points iso s in
  let f := fun i j k => perturb (get_data s i j k - iso)%real in
  let v := at_index (_vertices s') n zero_vertex in
  _nverts s <= n < _nverts s' ->
  exists i j k, in_grid (_size_x s) (_size_y s) (_size_z s) i j k /\
    ((i < _size_x s - 1 /\
      on_edge_from i (f i j k) (f (i+1)%Z j k) (x v) /\
      y v = r_of_Z j /\ z v = r_of_Z k) \/
     (j < _size_y s - 1 /\
      x v = r_of_Z i /\
      on_edge_from j (f i j k) (f i (j+1)%Z k) (y v) /\
      z v = r_of_Z k) \/
     (k < _size_z s - 1 /\
      x v = r_of_Z i /\ y v = r_of_Z j /\
      on_edge_from k (f i j k) (f i j (k+1)%Z) (z v))).
Proof.
  intros W Hd Hf Hv Ho Sx Sy Sz s' f v Hn.
  destruct (pass_creates_edge_vertices iso s n W Hn) as (i & j & k & G & H).
  exists i, j, k. split; [exact G |].
  destruct G as (Gi & Gj & Gk).
  unfold edge_values in H. fold s' in H. fold v in H. fold (f i j k) in H.
  destruct H as [(Hc & Hx & Hy & Hz) | [(Hc & Hx & Hy & Hz) | (Hc & Hx & Hy & Hz)]].
  - left.
    destruct (crossed_edge_position s iso (i <? _size_x s - 1) i j k (i+1) j k i
                Hd Hf Hv Ho) as (Hb & He);
      [lia | intros Hb; apply Z.ltb_lt in Hb; lia | exact Hc |].
    rewrite Hb in Hx. apply Z.ltb_lt in Hb. fold (f i j k) (f (i+1) j k) in He, Hx.
    rewrite <- Hx in He. split; [exact Hb |]. split; [exact He |]. split; assumption.
  - right; left.
    destruct (crossed_edge_position s iso (j <? _size_y s - 1) i j k i (j+1) k j
                Hd Hf Hv Ho) as (Hb & He);
      [lia | intros Hb; apply Z.ltb_lt in Hb; lia | exact Hc |].
    rewrite Hb in Hy. apply Z.ltb_lt in Hb. fold (f i j k) (f i (j+1) k) in He, Hy.
    rewrite <- Hy in He. split; [exact Hb |]. split; [exact Hx |]. split; assumption.
  - right; right.
    destruct (crossed_edge_position s iso (k <? _size_z s - 1) i j k i j (k+1) k
                Hd Hf Hv Ho) as (Hb & He);
      [lia | intros Hb; apply Z.ltb_lt in Hb; lia | exact Hc |].
    rewrite Hb in Hz. apply Z.ltb_lt in Hb. fold (f i j k) (f i j (k+1)) in He, Hz.
    rewrite <- Hz in He. split; [exact Hb |]. split; [exact Hx |]. split; assumption.
Qed.

(** ** The two passes agree on the cut edges *)

Lemma edge_crossed_xor (a b : F) :
  SFeqb a zero = false -> is_nan a = false -> SFeqb b zero = false -> is_nan b = false ->
  edge_crossed a b = xorb (a >? r_of_Z 0)%real (b >? r_of_Z 0)%real.
Proof.
  intros Za Na Zb Nb. unfold edge_crossed. change (r_of_Z 0) with zero. cbn [r_ltb binary32].
  destruct a as [sa|[]| |[] ma ea], b as [sb|[]| |[] mb eb];
    try discriminate; reflexivity.
Qed.

(** After the pass over fresh maps, an entry of an edge map holds a vertex
    exactly when the two ends of its edge lie on different sides. *)
Lemma entries_match_sides (s : MarchingCubes F) (iso : F) (i j k : Z) :
  0 <= _nverts s ->
  _x_verts s = replicate (Z.to_nat (_size_x s * _size_y s * _size_z s)) (-1) ->
  _y_verts s = replicate (Z.to_nat (_size_x s * _size_y s * _size_z s)) (-1) ->
  _z_verts s = replicate (Z.to_nat (_size_x s * _size_y s * _size_z s)) (-1) ->
  Forall (fun v => is_finite v = true /\ valid v = true) (_data s) ->
  is_finite iso = true -> valid iso = true ->
  in_grid (_size_x s) (_size_y s) (_size_z s) i j k ->
  let s' := compute_intersection_points iso s in
  let side := fun i j k => (perturb (get_data s i j k - iso)%real >? r_of_Z 0)%real in
  (i < _size_x s - 1 -> (get_x_vert s' i j k <> -1 <-> side i j k <> side (i+1) j k)) /\
  (j < _size_y s - 1 -> (get_y_vert s' i j k <> -1 <-> side i j k <> side i (j+1) k)) /\
  (k < _size_z s - 1 -> (get_z_vert s' i j k <> -1 <-> side i j k <> side i j (k+1))).
Proof.
  intros Hn Hx Hy Hz Hd Hf Hv G s' side.
  assert (Inv : grid_invariant (_size_x s) (_size_y s) (_size_z s) (_data s) s).
  { unfold grid_invariant. rewrite Hx, Hy, Hz, !length_replicate. repeat split. exact Hn. }
  assert (Hnone : map_entries (_size_x s) (_size_y s) i j k s = (-1, -1, -1)).
  { unfold map_entries. rewrite Hx, Hy, Hz, !at_index_replicate. reflexivity. }
  pose proof (pass_entries iso _ _ _ _ i j k G s Inv Hnone) as H.
  cbv zeta in H. fold s' in H. unfold edge_values in H.
  destruct H as (_ & _ & _ & _ & Ex & Ey & Ez).
  assert (X : forall a b c a' b' c',
            edge_crossed (perturb (get_data s a b c - iso)%real)
                         (perturb (get_data s a' b' c' - iso)%real)
            = true <-> side a b c <> side a' b' c').
  { intros a b c a' b' c'. rewrite edge_crossed_xor.
    - unfold side. destruct (_ >? _)%real, (_ >? _)%real; cbn; split; congruence.
    - apply perturb_nonzero.
    - apply perturb_not_nan, sample_not_nan; assumption.
    - apply perturb_nonzero.
    - apply perturb_not_nan, sample_not_nan; assumption. }
  split; [| split]; intros Hlt.
  - apply Z.ltb_lt in Hlt. rewrite Hlt in Ex. rewrite Ex. apply X.
  - apply Z.ltb_lt in Hlt. rewrite Hlt in Ey. rewrite Ey. apply X.
  - apply Z.ltb_lt in Hlt. rewrite Hlt in Ez. rewrite Ez. apply X.
Qed.

Lemma cell_edge_cut (s c : MarchingCubes F) (iso : F) (v12 old : Z) :
  0 <= _nverts s ->
  _x_verts s = replicate (Z.to_nat (_size_x s * _size_y s * _size_z s)) (-1) ->
  _y_verts s = replicate (Z.to_nat (_size_x s * _size_y s * _size_z s)) (-1) ->
  _z_verts s = replicate (Z.to_nat (_size_x s * _size_y s * _size_z s)) (-1) ->
  Forall (fun v => is_finite v = true /\ valid v = true) (_data s) ->
  is_finite iso = true -> valid iso = true ->
  grid_frame c = grid_frame (compute_intersection_points iso s) ->
  0 <= _i c < _size_x s - 1 -> 0 <= _j c < _size_y s - 1 -> 0 <= _k c < _size_z s - 1 ->
  let cell := fold_left (load_corner iso) [0; 1; 2; 3; 4; 5; 6; 7] (with_lut_entry 0 c) in
  forall e p q, In (e, (p, q)) cell_edges ->
    (edge_vertex cell e v12 old <> -1 <->
     Z.testbit (_lut_entry cell) p <> Z.testbit (_lut_entry cell) q).
Proof.
  intros Hn Hx Hy Hz Hd Hf Hv Hc Hi Hj Hk cell.
  set (s1 := compute_intersection_points iso s) in *.
  pose proof (pass_keeps_frame iso s) as Fp. fold s1 in Fp.
  unfold pass_frame in Fp. unfold grid_frame in Hc.
  assert (Hs1 : _size_x s1 = _size_x s /\ _size_y s1 = _size_y s /\ _size_z s1 = _size_z s /\
                _data s1 = _data s).
  { clearbody s1. injection Fp as _ A B C D _. auto. }
  destruct Hs1 as (Sx1 & Sy1 & Sz1 & D1).
  assert (Hcs : _size_x c = _size_x s /\ _size_y c = _size_y s /\ _data c = _data s /\
                _x_verts c = _x_verts s1 /\ _y_verts c = _y_verts s1 /\
                _z_verts c = _z_verts s1).
  { clearbody s1. injection Hc as _ A B C D Ex Ey Ez. repeat split; congruence. }
  destruct Hcs as (Sx & Sy & Dc & Mx & My & Mz).
  set (side := fun a b d => (perturb (get_data s a b d - iso)%real >? r_of_Z 0)%real).
  assert (Ent : forall a b d, in_grid (_size_x s) (_size_y s) (_size_z s) a b d ->
            (a < _size_x s - 1 -> (get_x_vert s1 a b d <> -1 <-> side a b d <> side (a+1) b d)) /\
            (b < _size_y s - 1 -> (get_y_vert s1 a b d <> -1 <-> side a b d <> side a (b+1) d)) /\
            (d < _size_z s - 1 -> (get_z_vert s1 a b d <> -1 <-> side a b d <> side a b (d+1)))).
  { intros a b d G. exact (entries_match_sides s iso a b d Hn Hx Hy Hz Hd Hf Hv G). }
  clearbody s1.
  (* the samples and the entries the cell reads *)
  assert (Gd : forall a b d, get_data c a b d = get_data s a b d).
  { intros a b d. unfold get_data, grid_index. rewrite Sx, Sy, Dc. reflexivity. }
  assert (Gx : forall a b d, get_x_vert c a b d = get_x_vert s1 a b d).
  { intros a b d. unfold get_x_vert, grid_index. rewrite Sx, Sy, Sx1, Sy1, Mx. reflexivity. }
  assert (Gy : forall a b d, get_y_vert c a b d = get_y_vert s1 a b d).
  { intros a b d. unfold get_y_vert, grid_index. rewrite Sx, Sy, Sx1, Sy1, My. reflexivity. }
  assert (Gz : forall a b d, get_z_vert c a b d = get_z_vert s1 a b d).
  { intros a b d. unfold get_z_vert, grid_index. rewrite Sx, Sy, Sx1, Sy1, Mz. reflexivity. }
  (* the bits of the case index *)
  destruct (load_corners_spec iso c) as [_ Bits]. fold cell in Bits.
  pose proof (corner_samples c) as CS.
  set (i := _i c) in *. set (j := _j c) in *. set (k := _k c) in *.
  assert (C0 : corner_sample c 0 = get_data s i j k)
    by (rewrite <- Gd; exact (f_equal (fun l => nth 0 l (r_of_Z 0)) CS)).
  assert (C1 : corner_sample c 1 = get_data s (i+1) j k)
    by (rewrite <- Gd; exact (f_equal (fun l => nth 1 l (r_of_Z 0)) CS)).
  assert (C2 : corner_sample c 2 = get_data s (i+1) (j+1) k)
    by (rewrite <- Gd; exact (f_equal (fun l => nth 2 l (r_of_Z 0)) CS)).
  assert (C3 : corner_sample c 3 = get_data s i (j+1) k)
    by (rewrite <- Gd; exact (f_equal (fun l => nth 3 l (r_of_Z 0)) CS)).
  assert (C4 : corner_sample c 4 = get_data s i j (k+1))
    by (rewrite <- Gd; exact (f_equal (fun l => nth 4 l (r_of_Z 0)) CS)).
  assert (C5 : corner_sample c 5 = get_data s (i+1) j (k+1))
    by (rewrite <- Gd; exact (f_equal (fun l => nth 5 l (r_of_Z 0)) CS)).
  assert (C6 : corner_sample c 6 = get_data s (i+1) (j+1) (k+1))
    by (rewrite <- Gd; exact (f_equal (fun l => nth 6 l (r_of_Z 0)) CS)).
  assert (C7 : corner_sample c 7 = get_data s i (j+1) (k+1))
    by (rewrite <- Gd; exact (f_equal (fun l => nth 7 l (r_of_Z 0)) CS)).
  clear CS.
  assert (B0 : Z.testbit (_lut_entry cell) 0 = side i j k)
    by (rewrite (proj2 (Bits 0 ltac:(lia))), C0; reflexivity).
  assert (B1 : Z.testbit (_lut_entry cell) 1 = side (i+1) j k)
    by (rewrite (proj2 (Bits 1 ltac:(lia))), C1; reflexivity).
  assert (B2 : Z.testbit (_lut_entry cell) 2 = side (i+1) (j+1) k)
    by (rewrite (proj2 (Bits 2 ltac:(lia))), C2; reflexivity).
  assert (B3 : Z.testbit (_lut_entry cell) 3 = side i (j+1) k)
    by (rewrite (proj2 (Bits 3 ltac:(lia))), C3; reflexivity).
  assert (B4 : Z.testbit (_lut_entry cell) 4 = side i j (k+1))
    by (rewrite (proj2 (Bits 4 ltac:(lia))), C4; reflexivity).
  assert (B5 : Z.testbit (_lut_entry cell) 5 = side (i+1) j (k+1))
    by (rewrite (proj2 (Bits 5 ltac:(lia))), C5; reflexivity).
  assert (B6 : Z.testbit (_lut_entry cell) 6 = side (i+1) (j+1) (k+1))
    by (rewrite (proj2 (Bits 6 ltac:(lia))), C6; reflexivity).
  assert (B7 : Z.testbit (_lut_entry cell) 7 = side i (j+1) (k+1))
    by (rewrite (proj2 (Bits 7 ltac:(lia))), C7; reflexivity).
  clear Bits C0 C1 C2 C3 C4 C5 C6 C7.
  assert (View : edge_view cell = edge_view c).
  { unfold cell. rewrite (proj1 (load_corners_view iso _ _)). reflexivity. }
  intros e p q Hin.
  assert (G : forall a b d, (a = i \/ a = i + 1) -> (b = j \/ b = j + 1) -> (d = k \/ d = k + 1) ->
            in_grid (_size_x s) (_size_y s) (_size_z s) a b d).
  { intros a b d Ha Hb Hd'. unfold in_grid. lia. }
  clearbody cell. unfold cell_edges in Hin. cbn [In] in Hin.
  repeat (destruct Hin as [Hin | Hin];
    [injection Hin as <- <- <-;
     lazymatch goal with
     | |- edge_vertex _ ?e0 _ _ <> _ <-> _ =>
         rewrite (edge_vertex_view c cell e0 v12 old old View ltac:(lia))
     end;
     cbn [edge_vertex]; fold i j k;
     rewrite ?Gx, ?Gy, ?Gz, ?B0, ?B1, ?B2, ?B3, ?B4, ?B5, ?B6, ?B7;
     lazymatch goal with
     | |- get_x_vert _ ?a ?b ?d <> _ <-> _ =>
         apply (proj1 (Ent a b d (G a b d ltac:(lia) ltac:(lia) ltac:(lia)))); lia
     | |- get_y_vert _ ?a ?b ?d <> _ <-> _ =>
         apply (proj1 (proj2 (Ent a b d (G a b d ltac:(lia) ltac:(lia) ltac:(lia))))); lia
     | |- get_z_vert _ ?a ?b ?d <> _ <-> _ =>
         apply (proj2 (proj2 (Ent a b d (G a b d ltac:(lia) ltac:(lia) ltac:(lia))))); lia
     end |]).
  contradiction.
Qed.

(** X11. The two passes of [run] agree in binary32.  Over a grid of finite
    samples with a finite isovalue and edge maps all -1 before the pass, in
    every cell of the grid the edge [e] of the cell, which joins corners [p]
    and [q], has a vertex in the edge maps iff bits [p] and [q] of the case
    index of the cell differ. *)
Theorem cut_edges_match_case_index (s c : MarchingCubes F) (iso : F) (v12 old : Z) :
  0 <= _nverts s ->
  _x_verts s = replicate (Z.to_nat (_size_x s * _size_y s * _size_z s)) (-1) ->
  _y_verts s = replicate (Z.to_nat (_size_x s * _size_y s * _size_z s)) (-1) ->
  _z_verts s = replicate (Z.to_nat (_size_x s * _size_y s * _size_z s)) (-1) ->
  Forall (fun v => is_finite v = true /\ valid v = true) (_data s) ->
  is_finite iso = true -> valid iso = true ->
  grid_frame c = grid_frame (compute_intersection_points iso s) ->
  0 <= _i c < _size_x s - 1 -> 0 <= _j c < _size_y s - 1 -> 0 <= _k c < _size_z s - 1 ->
  let cell := fold_left (load_corner iso) [0; 1; 2; 3; 4; 5; 6; 7] (with_lut_entry 0 c) in
  forall e p q, In (e, (p, q)) cell_edges ->
    (edge_vertex cell e v12 old <> -1 <->
     Z.testbit (_lut_entry cell) p <> Z.testbit (_lut_entry cell) q).
Proof. exact (cell_edge_cut s c iso v12 old). Qed.

(** ** The classical mode, end to end *)

Section Classic.
Variable T : LookUpTable.
Variable s : MarchingCubes F.
Variable iso : F.
Hypothesis rows_cut : classic_rows_cut T.
Hypothesis Hmode : _originalMC s = true.
Hypothesis W : mesh_wf s.
Hypothesis Hx : _x_verts s = replicate (Z.to_nat (_size_x s * _size_y s * _size_z s)) (-1).
Hypothesis Hy : _y_verts s = replicate (Z.to_nat (_size_x s * _size_y s * _size_z s)) (-1).
Hypothesis Hz : _z_verts s = replicate (Z.to_nat (_size_x s * _size_y s * _size_z s)) (-1).
Hypothesis Hd : Forall (fun v => is_finite v = true /\ valid v = true) (_data s).
Hypothesis Hf : is_finite iso = true.
Hypothesis Hv : valid iso = true.

Local Abbreviation passed := (compute_intersection_points iso s).
Local Abbreviation cinv := (classic_invariant (_nverts s) passed).

Lemma passed_facts :
  ids_valid (_nverts s) passed /\ pass_frame passed = pass_frame s /\ mesh_wf passed.
Proof.
  destruct (pass_ids (_nverts s) (_nverts s) iso s) as [[A _] B].
  - split; [lia |]. rewrite Hx, Hy, Hz.
    split; [| split]; apply valid_replicate.
  - lia.
  - split; [exact A |]. split; [exact B |].
    eapply extends_wf. apply compute_intersection_points_extends. exact W.
Qed.

Lemma cell_step_classic (c : MarchingCubes F) :
  cinv c ->
  0 <= _i c < _size_x s - 1 -> 0 <= _j c < _size_y s - 1 -> 0 <= _k c < _size_z s - 1 ->
  cinv (cell_step T iso c) /\
  _j (cell_step T iso c) = _j c /\ _k (cell_step T iso c) = _k c.
Proof.
  intros (G & Wc & Nv & So & Nt & Tr) Hi Hj Hk.
  destruct passed_facts as ((N0 & Ix & Iy & Iz) & Fp & W1).
  assert (H0 : 0 <= _nverts s) by (destruct W as (? & _); lia).
  unfold cell_step.
  pose proof (cell_edge_cut s c iso (-1) 0 H0 Hx Hy Hz Hd Hf Hv G Hi Hj Hk) as Cut.
  cbv zeta in Cut.
  destruct (load_corners_spec iso c) as [Hl _].
  destruct (load_corners_view iso [0; 1; 2; 3; 4; 5; 6; 7] (with_lut_entry 0 c))
    as (Vw & Gf & Mf).
  change (edge_view (with_lut_entry 0 c)) with (edge_view c) in Vw.
  change (grid_frame (with_lut_entry 0 c)) with (grid_frame c) in Gf.
  change (mesh_frame (with_lut_entry 0 c)) with (mesh_frame c) in Mf.
  set (cell := fold_left (load_corner iso) [0; 1; 2; 3; 4; 5; 6; 7] (with_lut_entry 0 c)) in *.
  rewrite G in Gf.
  assert (Gc : _originalMC cell = _originalMC passed /\ _x_verts cell = _x_verts passed /\
               _y_verts cell = _y_verts passed /\ _z_verts cell = _z_verts passed).
  { unfold grid_frame in Gf. clearbody cell. injection Gf as A _ _ _ _ Bx By Bz. auto. }
  destruct Gc as (Gm & Gx & Gy & Gz).
  assert (Pm : _originalMC passed = _originalMC s /\ _ntrigs passed = _ntrigs s /\
               stdout passed = stdout s).
  { unfold pass_frame in Fp. injection Fp as A _ _ _ _ B _ _ _ _ _ _ C. auto. }
  destruct Pm as (Pm & Pn & Ps).
  assert (Mc : _nverts cell = _nverts c /\ _Nverts cell = _Nverts c /\
               _vertices cell = _vertices c /\ _ntrigs cell = _ntrigs c /\
               _Ntrigs cell = _Ntrigs c /\ _triangles cell = _triangles c /\
               stdout cell = stdout c).
  { unfold mesh_frame in Mf. clearbody cell. injection Mf as A B C D E F' G'.
    repeat split; assumption. }
  destruct Mc as (Mnv & MNv & Mvs & Mnt & MNt & Mts & Mso).
  assert (Wcell : mesh_wf cell).
  { unfold mesh_wf. rewrite Mnv, MNv, Mvs, Mnt, MNt, Mts. exact Wc. }
  assert (Vjk : _j cell = _j c /\ _k cell = _k c).
  { unfold edge_view in Vw. clearbody cell. injection Vw as _ _ _ _ A B _ _. auto. }
  clearbody cell.
  unfold process_cube. rewrite Gm, Pm, Hmode. unfold process_classic.
  set (row := casesClassic T (_lut_entry cell)).
  set (n := classic_count row).
  destruct (classic_scan_spec (S (length row)) row 0) as (Hn & _ & _); [lia | lia |].
  fold (classic_count row) in Hn. fold n in Hn.
  assert (Hcut : forall u, 0 <= u < 3 * n ->
            0 <= tile_at row u <= 12 /\
            _nverts s <= edge_vertex cell (tile_at row u) (-1) 0 < _nverts passed).
  { intros u Hu. destruct (rows_cut (_lut_entry cell) u Hl Hu) as (p & q & Hin & Hb).
    fold row in Hin. pose proof (cell_edges_range _ _ _ Hin) as He.
    split; [lia |].
    assert (Vid : valid_id (_nverts s) (_nverts passed)
                    (edge_vertex cell (tile_at row u) (-1) 0)).
    { apply edge_vertex_valid; [rewrite Gx | rewrite Gy | rewrite Gz | lia]; assumption. }
    destruct Vid as [E | R]; [| exact R].
    exfalso. apply (proj2 (Cut _ _ _ Hin)); assumption. }
  destruct (three_n_div n Hn) as [Dq Dr].
  pose proof (add_triangle_loop_spec row n (-1) cell (Z.to_nat (3 * n)) Wcell
                (fun u Hu => proj1 (Hcut u Hu))) as H.
  cbv zeta in H. rewrite Z2Nat.id in H by lia. rewrite Dq, Dr in H.
  fold (add_triangle row n (-1) cell) in H.
  pose proof (add_triangle_grid row n (-1) cell) as Ga.
  set (c' := add_triangle row n (-1) cell) in *. clearbody c'.
  destruct H as (W' & V' & Nv' & _ & Nt' & _ & New & Old & Out & _); [lia |].
  assert (Vjk' : _j c' = _j cell /\ _k c' = _k cell).
  { unfold edge_view in V'. injection V' as _ _ _ _ A B _ _. auto. }
  split; [| split; [rewrite (proj1 Vjk'); apply Vjk | rewrite (proj2 Vjk'); apply Vjk]].
  split; [rewrite Ga; exact Gf |]. split; [exact W' |]. split; [congruence |].
  split.
  { rewrite Out; [congruence |]. intros u Hu. pose proof (proj2 (Hcut u Hu)). lia. }
  split; [lia |].
  intros t Ht. destruct (Z_lt_le_dec t (_ntrigs c)) as [Hlt | Hge].
  - rewrite Old by (destruct Wc as (_ & _ & _ & ? & _); destruct W1 as (_ & _ & _ & ? & _); lia).
    rewrite Mts. apply Tr. lia.
  - replace t with (_ntrigs cell + (t - _ntrigs c)) by lia.
    rewrite New by lia. unfold tile_triangle, triangle_ids_in. cbn [v1 v2 v3].
    split; [| split]; apply Hcut; lia.
Qed.

Lemma cell_row_classic (j k : Z) (c : MarchingCubes F) :
  0 <= j < _size_y s - 1 -> 0 <= k < _size_z s - 1 ->
  cinv c /\ _j c = j /\ _k c = k ->
  let c' := for_loop with_i (_size_x c - 1) (cell_step T iso) c in
  cinv c' /\ _j c' = j /\ _k c' = k.
Proof.
  intros Hj Hk Inv. cbv zeta.
  destruct passed_facts as (_ & Fp & _).
  assert (Sx : _size_x c = _size_x s).
  { destruct Inv as ((G & _) & _). unfold grid_frame in G. unfold pass_frame in Fp.
    injection G as _ A _ _ _ _ _ _. injection Fp as _ B _ _ _ _ _ _ _ _ _ _ _. congruence. }
  rewrite Sx.
  apply (for_loop_miss (fun _ => tt) (fun c => cinv c /\ _j c = j /\ _k c = k)).
  - intros v c1 H. exact H.
  - reflexivity.
  - intros v c1 Hr (Inv1 & Hj1 & Hk1).
    destruct (cell_step_classic (with_i v c1) Inv1) as (H1 & H2 & H3).
    + cbn. lia.
    + cbn. lia.
    + cbn. lia.
    + cbn in H2, H3. split; [exact H1 |]. split; congruence.
  - reflexivity.
  - exact Inv.
Qed.

Lemma cell_slab_classic (k : Z) (c : MarchingCubes F) :
  0 <= k < _size_z s - 1 ->
  cinv c /\ _k c = k ->
  let c' := for_loop with_j (_size_y c - 1)
              (fun c => for_loop with_i (_size_x c - 1) (cell_step T iso) c) c in
  cinv c' /\ _k c' = k.
Proof.
  intros Hk Inv. cbv zeta.
  destruct passed_facts as (_ & Fp & _).
  assert (Sy : _size_y c = _size_y s).
  { destruct Inv as ((G & _) & _). unfold grid_frame in G. unfold pass_frame in Fp.
    injection G as _ _ A _ _ _ _ _. injection Fp as _ _ B _ _ _ _ _ _ _ _ _ _. congruence. }
  rewrite Sy.
  apply (for_loop_miss (fun _ => tt) (fun c => cinv c /\ _k c = k)).
  - intros v c1 H. exact H.
  - reflexivity.
  - intros v c1 Hr (Inv1 & Hk1).
    destruct (cell_row_classic v k (with_j v c1) Hr Hk) as (H1 & _ & H3).
    + split; [exact Inv1 |]. split; [reflexivity | exact Hk1].
    + split; assumption.
  - reflexivity.
  - exact Inv.
Qed.

Lemma run_classic_invariant : cinv (run T iso s).
Proof.
  destruct passed_facts as (_ & Fp & W1).
  assert (Sz : _size_z passed = _size_z s).
  { unfold pass_frame in Fp. injection Fp as _ _ _ B _ _ _ _ _ _ _ _ _. exact B. }
  unfold run. cbv zeta. rewrite Sz.
  apply (for_loop_miss (fun _ => tt) cinv).
  - intros v c1 H. exact H.
  - reflexivity.
  - intros v c1 Hr Inv1.
    destruct (cell_slab_classic v (with_k v c1) Hr) as (H1 & _).
    + split; [exact Inv1 | reflexivity].
    + exact H1.
  - reflexivity.
  - split; [reflexivity |]. split; [exact W1 |]. split; [reflexivity |].
    split; [reflexivity |]. split; [lia |]. intros t Ht. lia.
Qed.

End Classic.


(** X12. The classical mode in binary32, end to end.  If every
    [casesClassic] row uses only edges whose two corners differ in the
    pattern of the row, then over a grid of finite samples with a finite
    isovalue, a well-formed mesh and edge maps all -1, [run] adds no vertex
    after the edge-intersection pass, prints no diagnostic, and every
    triangle it adds has three ids of vertices created by this run, below
    the final vertex count. *)
Theorem classic_run_triangles_index_vertices (T : LookUpTable) (s : MarchingCubes F) (iso : F) :
  classic_rows_cut T -> _originalMC s = true -> mesh_wf s ->
  _x_verts s = replicate (Z.to_nat (_size_x s * _size_y s * _size_z s)) (-1) ->
  _y_verts s = replicate (Z.to_nat (_size_x s * _size_y s * _size_z s)) (-1) ->
  _z_verts s = replicate (Z.to_nat (_size_x s * _size_y s * _size_z s)) (-1) ->
  Forall (fun v => is_finite v = true /\ valid v = true) (_data s) ->
  is_finite iso = true -> valid iso = true ->
  let s' := run T iso s in
  _nverts s' = _nverts (compute_intersection_points iso s) /\
  stdout s' = stdout s /\
  _ntrigs s <= _ntrigs s' /\
  forall t, _ntrigs s <= t < _ntrigs s' ->
    triangle_ids_in (_nverts s) (_nverts s') (at_index (_triangles s') t zero_triangle).
Proof.
  intros Hc Hm W Hx Hy Hz Hd Hf Hv s'.
  destruct (run_classic_invariant T s iso Hc Hm W Hx Hy Hz Hd Hf Hv)
    as (_ & _ & Nv & So & Nt & Tr).
  destruct (passed_facts s iso W Hx Hy Hz) as (_ & Fp & _).
  fold s' in Nv, So, Nt, Tr.
  assert (P : _ntrigs (compute_intersection_points iso s) = _ntrigs s /\
              stdout (compute_intersection_points iso s) = stdout s).
  { unfold pass_frame in Fp. injection Fp as _ _ _ _ _ A _ _ _ _ _ _ B. auto. }
  destruct P as [Pn Ps]. rewrite Pn in Nt, Tr.
  split; [exact Nv |]. split; [congruence |]. split; [exact Nt |].
  intros t Ht. rewrite Nv. apply Tr. exact Ht.
Qed.

End Binary32Facts.

(** * The concrete cell, evaluated in binary32 *)

Section Cell37.
Import Binary32.

Lemma binary32_zero_ge_zero : (r_of_Z 0 >=? r_of_Z 0)%real = true.
Proof. reflexivity. Qed.

Lemma binary32_eps_positive : (r_of_Z 0 <? r_eps)%real = true.
Proof. reflexivity. Qed.

Lemma binary32_eps_not_negative : (r_eps <? r_of_Z 0)%real = false.
Proof. reflexivity. Qed.

(** The interior test of case 4 on the cube of [cell37]: [t < 0]. *)
Lemma test_interior_case_4_10_witness :
  (_case (with_case 4 cell37) = 4 \/ _case (with_case 4 cell37) = 10) /\
  eval (test_interior lut37 7) (with_case 4 cell37) = (7 >? 0) /\
  exec (test_interior lut37 7) (with_case 4 cell37) = with_case 4 cell37.
Proof.
  pose proof (test_interior_case_4_10 lut37 (with_case 4 cell37) 7
                (or_introl eq_refl)) as H.
  cbv zeta in H. destruct H as (Hearly & _ & Hstate).
  split; [left; reflexivity |]. split; [| exact Hstate].
  apply Hearly. left. vm_compute. reflexivity.
Defined.

(** Face 5 of [cell37] is degenerate ([|A*C - B*D| = 2^-24 < eps]). *)
Lemma test_face_table_witness :
  In (Z.abs 5, (0, 3, 2, 1))
     [ (1, (0, 4, 5, 1)); (2, (1, 5, 6, 2)); (3, (2, 6, 7, 3));
       (4, (3, 7, 4, 0)); (5, (0, 3, 2, 1)); (6, (4, 7, 6, 5)) ] /\
  test_face cell37 5 =
    if (r_abs (_cube cell37 0 * _cube cell37 2 - _cube cell37 3 * _cube cell37 1)
        <? r_eps)%real
    then 5 >=? 0
    else (r_of_Z 5 * _cube cell37 0
          * (_cube cell37 0 * _cube cell37 2 - _cube cell37 3 * _cube cell37 1)
          >=? r_of_Z 0)%real.
Proof.
  assert (Hin : In (Z.abs 5, (0, 3, 2, 1))
     [ (1, (0, 4, 5, 1)); (2, (1, 5, 6, 2)); (3, (2, 6, 7, 3));
       (4, (3, 7, 4, 0)); (5, (0, 3, 2, 1)); (6, (4, 7, 6, 5)) ]).
  { cbn. tauto. }
  split; [exact Hin |]. exact (test_face_table cell37 5 0 3 2 1 Hin).
Defined.

(** C3, refuted as stated: [cell37] is dispatched to base case 7, its three
    face tests hold and its interior test answers true, yet it does not
    emit the five triangles of [tiling7_4_1]: it emits nine. *)
Lemma case7_interior_true_counterexample :
  _originalMC cell37 = false /\
  cases lut37 (_lut_entry cell37) 0 = 7 /\
  test_face cell37 (test7 lut37 0 0) = true /\
  test_face cell37 (test7 lut37 0 1) = true /\
  test_face cell37 (test7 lut37 0 2) = true /\
  eval (test_interior lut37 (test7 lut37 0 3))
       (with_subconfig 7 (with_config 0 (with_case 7 cell37))) = true /\
  _ntrigs (process_cube lut37 cell37) = _ntrigs cell37 + 9 /\
  process_cube lut37 cell37 <>
    add_triangle (tiling7_4_1 lut37 0) 5 (-1)
      (with_subconfig 7 (with_config 0 (with_case 7 cell37))).
Proof.
  do 7 (split; [vm_compute; reflexivity |]).
  intros H. apply (f_equal _ntrigs) in H. vm_compute in H. discriminate H.
Qed.

Lemma case7_all_faces_true_witness :
  _originalMC cell37 = false /\
  cases lut37 (_lut_entry cell37) 0 = 7 /\
  _ntrigs (process_cube lut37 cell37) = _ntrigs cell37 + 9.
Proof.
  assert (Hmode : _originalMC cell37 = false) by (vm_compute; reflexivity).
  assert (Hcase : cases lut37 (_lut_entry cell37) 0 = 7) by (vm_compute; reflexivity).
  split; [exact Hmode |]. split; [exact Hcase |].
  apply (case7_all_faces_true lut37 cell37 Hmode Hcase);
    vm_compute; reflexivity.
Defined.

Lemma diagnostics_are_informational_witness :
  (r_of_Z 0 >=? r_of_Z 0)%real = true /\
  test_interior lut37 7 (with_case 5 cell37) =
    (7 <? 0, print_cube (printf (InvalidAmbiguousCase 5) (with_case 5 cell37))).
Proof.
  split; [exact binary32_zero_ge_zero |].
  apply (diagnostics_are_informational lut37 (with_case 5 cell37) 7
           binary32_zero_ge_zero).
  cbn. intuition discriminate.
Defined.

Lemma set_data_wf (v : Binary32.t) (i j k : Z) (s : MarchingCubes Binary32.t) :
  mesh_wf s -> mesh_wf (set_data v i j k s).
Proof. intros H. exact H. Qed.

Lemma mc37_wf : mesh_wf mc37.
Proof. unfold mc37. cbv zeta. repeat apply set_data_wf. apply init_all_wf. Qed.

Lemma mc37_data_valid :
  Forall (fun v => is_finite v = true /\ valid_binary prec emax v = true) (_data mc37).
Proof. vm_compute. repeat constructor. Qed.

(** C5, refuted as stated: a second [run] with the same isovalue leaves
    eighteen vertices and eighteen triangles where the first left nine. *)
Lemma run_twice_counterexample :
  nverts (run lut37 (of_Z 0) mc37) = 9 /\
  ntrigs (run lut37 (of_Z 0) mc37) = 9 /\
  nverts (run lut37 (of_Z 0) (run lut37 (of_Z 0) mc37)) = 18 /\
  ntrigs (run lut37 (of_Z 0) (run lut37 (of_Z 0) mc37)) = 18 /\
  vertices (run lut37 (of_Z 0) (run lut37 (of_Z 0) mc37))
    <> vertices (run lut37 (of_Z 0) mc37).
Proof.
  do 4 (split; [vm_compute; reflexivity |]).
  intros H. apply (f_equal length) in H. vm_compute in H. discriminate H.
Qed.

Lemma mc37_data_valid' :
  Forall (fun v => valid_binary prec emax v = true) (_data mc37).
Proof. vm_compute. repeat constructor. Qed.

Lemma perturbed_corners_are_nonzero_witness :
  Forall (fun v => valid_binary prec emax v = true) (_data mc37) /\
  valid_binary prec emax (of_Z 0) = true /\
  In 1 [1; 3; 4] /\
  (edge_crossed (_cube (load_edge_corners (of_Z 0) mc37) 0)
                (_cube (load_edge_corners (of_Z 0) mc37) 1) = true ->
   SFeqb (_cube (load_edge_corners (of_Z 0) mc37) 0
          - _cube (load_edge_corners (of_Z 0) mc37) 1)%real zero = false).
Proof.
  assert (Hin : In 1 [1; 3; 4]) by (left; reflexivity).
  split; [exact mc37_data_valid' |]. split; [reflexivity |]. split; [exact Hin |].
  exact (proj2 (proj2 (proj2 (perturbed_corners_are_nonzero mc37 (of_Z 0) 0 1
                  mc37_data_valid' eq_refl Hin)))).
Defined.

(** C10, refuted as stated: on the x-edge from the origin of [mc_steep] the
    endpoint values [-1024] and [2^-23] have opposite signs, the quotient
    [c0 / (c0 - c1)] rounds to 1, and the vertex is placed at [x = 1], the
    far endpoint of the edge. *)
Lemma edge_vertex_at_endpoint_counterexample :
  let s' := compute_intersection_points (of_Z 0) mc_steep in
  let c0 := perturb (get_data mc_steep 0 0 0 - of_Z 0)%real in
  let c1 := perturb (get_data mc_steep 1 0 0 - of_Z 0)%real in
  let u := (c0 / (c0 - c1))%real in
  let v := at_index (_vertices s') 0 zero_vertex in
  Forall (fun v => is_finite v = true /\ valid_binary prec emax v = true) (_data mc_steep) /\
  in_grid (_size_x mc_steep) (_size_y mc_steep) (_size_z mc_steep) 0 0 0 /\
  _nverts mc_steep = 0 /\ _nverts s' = 3 /\
  get_x_vert s' 0 0 0 = 0 /\
  opposite_signs c0 c1 = true /\
  (u <? of_Z 1)%real = false /\
  x v = (of_Z 0 + u)%real /\
  x v = of_Z (0 + 1) /\
  ~ ((of_Z 0 <? x v)%real = true /\ (x v <? of_Z (0 + 1))%real = true).
Proof.
  cbv zeta.
  split; [vm_compute; repeat constructor |].
  split; [vm_compute; repeat split; discriminate |].
  do 7 (split; [vm_compute; reflexivity |]).
  intros [_ H]. vm_compute in H. discriminate H.
Qed.

Lemma edge_vertices_lie_on_crossed_edges_witness :
  let s := mc37 in
  let iso := of_Z 0 in
  let s' := compute_intersection_points iso s in
  let f := fun i j k => perturb (get_data s i j k - iso)%real in
  let v := at_index (_vertices s') 0 zero_vertex in
  mesh_wf s /\
  Forall (fun v => is_finite v = true /\ valid_binary prec emax v = true) (_data s) /\
  Forall (fun v => is_finite (v - iso)%real = true) (_data s) /\
  _size_x s <= 2 ^ 24 /\
  _nverts s <= 0 < _nverts s' /\
  exists i j k, in_grid (_size_x s) (_size_y s) (_size_z s) i j k /\
    ((i < _size_x s - 1 /\
      on_edge_from i (f i j k) (f (i+1)%Z j k) (x v) /\
      y v = r_of_Z j /\ z v = r_of_Z k) \/
     (j < _size_y s - 1 /\
      x v = r_of_Z i /\
      on_edge_from j (f i j k) (f i (j+1)%Z k) (y v) /\
      z v = r_of_Z k) \/
     (k < _size_z s - 1 /\
      x v = r_of_Z i /\ y v = r_of_Z j /\
      on_edge_from k (f i j k) (f i j (k+1)%Z) (z v))).
Proof.
  assert (Hn : _nverts mc37 <= 0 < _nverts (compute_intersection_points (of_Z 0) mc37))
    by (vm_compute; split; [discriminate | reflexivity]).
  assert (Ho : Forall (fun v => is_finite (v - of_Z 0)%real = true) (_data mc37))
    by (vm_compute; repeat constructor).
  assert (Sx : _size_x mc37 <= 2 ^ 24) by (vm_compute; discriminate).
  assert (Sy : _size_y mc37 <= 2 ^ 24) by (vm_compute; discriminate).
  assert (Sz : _size_z mc37 <= 2 ^ 24) by (vm_compute; discriminate).
  cbv zeta.
  split; [exact mc37_wf |]. split; [exact mc37_data_valid |]. split; [exact Ho |].
  split; [exact Sx |]. split; [exact Hn |].
  exact (edge_vertices_lie_on_crossed_edges mc37 (of_Z 0) 0 mc37_wf mc37_data_valid
           eq_refl eq_refl Ho Sx Sy Sz Hn).
Defined.

(** ** The further properties, at the concrete cell *)

Lemma test_interior_negated_sign_witness :
  eval (test_interior lut37 (-7)) (with_case 7 cell37)
    = negb (eval (test_interior lut37 7) (with_case 7 cell37)) /\
  exec (test_interior lut37 (-7)) (with_case 7 cell37)
    = exec (test_interior lut37 7) (with_case 7 cell37).
Proof.
  apply (test_interior_negated_sign lut37 (with_case 7 cell37) 7); [lia | discriminate].
Defined.

Lemma process_cube_output_witness :
  _originalMC cell37 = false /\ cell_output cell37 (process_cube lut37 cell37).
Proof.
  assert (H : _originalMC cell37 = false) by (vm_compute; reflexivity).
  split; [exact H | exact (process_cube_output lut37 cell37 H)].
Defined.

Lemma at_cell_wf (i j k : Z) (s : MarchingCubes Binary32.t) :
  mesh_wf s -> mesh_wf (with_lut_entry 0 (with_i i (with_j j (with_k k s)))).
Proof. intros H. exact H. Qed.

Lemma at_cell_grid (i j k : Z) (s : MarchingCubes Binary32.t) :
  grid_frame (with_i i (with_j j (with_k k s))) = grid_frame s.
Proof. reflexivity. Qed.

Lemma set_method_wf (b : bool) (s : MarchingCubes Binary32.t) :
  mesh_wf s -> mesh_wf (set_method b s).
Proof. intros H. exact H. Qed.

Lemma cell37_wf : mesh_wf cell37.
Proof.
  unfold cell37. cbv zeta. apply load_corners_wf, at_cell_wf.
  eapply extends_wf. apply compute_intersection_points_extends. exact mc37_wf.
Qed.

Lemma row37_entries (u : Z) :
  0 <= u < 3 * 3 -> 0 <= tile_at (casesClassic lut37 37) u <= 12.
Proof.
  intros H. assert (D : In u [0; 1; 2; 3; 4; 5; 6; 7; 8]) by (cbn; lia).
  cbn [In] in D.
  repeat (destruct D as [<- | D]; [vm_compute; split; discriminate |]). contradiction.
Qed.

Lemma classic_mode_output_witness :
  _originalMC (set_method true cell37) = true /\
  classic_count (casesClassic lut37 (_lut_entry (set_method true cell37))) = 3 /\
  mesh_delta (set_method true cell37) (process_cube lut37 (set_method true cell37)) 0 3.
Proof.
  split; [reflexivity |]. split; [vm_compute; reflexivity |].
  exact (proj2 (proj2 (proj2 (proj2
           (classic_mode_output lut37 (set_method true cell37) eq_refl))))).
Defined.

Lemma add_triangle_writes_tile_witness :
  mesh_wf cell37 /\
  _ntrigs (add_triangle (casesClassic lut37 37) 3 (-1) cell37) = _ntrigs cell37 + 3.
Proof.
  split; [exact cell37_wf |].
  exact (proj1 (add_triangle_writes_tile (casesClassic lut37 37) 3 (-1) cell37
                  cell37_wf ltac:(discriminate) row37_entries)).
Defined.

Lemma add_triangle_diagnostics_witness :
  mesh_wf cell37 /\
  edge_vertex cell37 (tile_at [0; 3; 6] 2) (-1) 0 = -1 /\
  In (InvalidTriangle (_ntrigs cell37 + 2 / 3 + 1))
     (stdout (add_triangle [0; 3; 6] 1 (-1) cell37)) /\
  _ntrigs (add_triangle [0; 3; 6] 1 (-1) cell37) = _ntrigs cell37 + 1.
Proof.
  assert (E : edge_vertex cell37 (tile_at [0; 3; 6] 2) (-1) 0 = -1) by (vm_compute; reflexivity).
  assert (R : forall u, 0 <= u < 3 * 1 -> 0 <= tile_at [0; 3; 6] u <= 12).
  { intros u H. assert (D : In u [0; 1; 2]) by (cbn; lia). cbn [In] in D.
    repeat (destruct D as [<- | D]; [vm_compute; split; discriminate |]). contradiction. }
  split; [exact cell37_wf |]. split; [exact E |].
  exact (proj2 (add_triangle_diagnostics [0; 3; 6] 1 (-1) cell37 cell37_wf
                  ltac:(discriminate) R) 2 ltac:(split; [discriminate | reflexivity]) E).
Defined.

Lemma mc37_ids_valid : ids_valid 0 mc37.
Proof.
  unfold ids_valid. split; [vm_compute; discriminate |].
  split; [| split]; vm_compute; repeat constructor.
Qed.

Lemma edge_map_ids_are_vertices_witness :
  ids_valid 0 mc37 /\
  valid_id 0 (_nverts (compute_intersection_points (of_Z 0) mc37))
    (get_x_vert (compute_intersection_points (of_Z 0) mc37) 0 0 0).
Proof.
  split; [exact mc37_ids_valid |].
  exact (proj1 (proj2 (edge_map_ids_are_vertices 0 (of_Z 0) mc37 mc37_ids_valid) 0 0 0)).
Defined.

Lemma run_on_thin_grid_witness :
  let s := init_all (MarchingCubes_new 1 2 2) : MarchingCubes Binary32.t in
  _size_x s <= 1 /\
  _ntrigs (run lut37 (of_Z 0) s) = _ntrigs s /\
  _triangles (run lut37 (of_Z 0) s) = _triangles s /\
  stdout (run lut37 (of_Z 0) s) = stdout s.
Proof.
  cbv zeta.
  assert (H : _size_x (init_all (MarchingCubes_new 1 2 2) : MarchingCubes Binary32.t) <= 1)
    by (vm_compute; discriminate).
  split; [exact H |].
  destruct (run_on_thin_grid lut37 (of_Z 0) (init_all (MarchingCubes_new 1 2 2))
              (or_introl H)) as (A & B & C & _).
  split; [exact A |]. split; [exact B | exact C].
Defined.

Lemma pass_on_empty_grid_witness :
  let s := init_all (MarchingCubes_new 2 0 2) : MarchingCubes Binary32.t in
  _size_y s <= 0 /\
  _nverts (compute_intersection_points (of_Z 0) s) = _nverts s /\
  _vertices (compute_intersection_points (of_Z 0) s) = _vertices s.
Proof.
  cbv zeta.
  assert (H : _size_y (init_all (MarchingCubes_new 2 0 2) : MarchingCubes Binary32.t) <= 0)
    by (vm_compute; discriminate).
  split; [exact H |].
  destruct (pass_on_empty_grid (of_Z 0) (init_all (MarchingCubes_new 2 0 2))
              (or_intror (or_introl H))) as (A & B & _).
  split; [exact A | exact B].
Defined.

Lemma mc37_maps :
  _x_verts mc37 = replicate (Z.to_nat (_size_x mc37 * _size_y mc37 * _size_z mc37)) (-1) /\
  _y_verts mc37 = replicate (Z.to_nat (_size_x mc37 * _size_y mc37 * _size_z mc37)) (-1) /\
  _z_verts mc37 = replicate (Z.to_nat (_size_x mc37 * _size_y mc37 * _size_z mc37)) (-1).
Proof. repeat split; vm_compute; reflexivity. Qed.

Lemma cut_edges_match_case_index_witness :
  In (0, (0, 1)) cell_edges /\
  (edge_vertex cell37 0 (-1) 0 <> -1 <->
   Z.testbit (_lut_entry cell37) 0 <> Z.testbit (_lut_entry cell37) 1).
Proof.
  assert (Hin : In (0, (0, 1)) cell_edges) by (left; reflexivity).
  split; [exact Hin |].
  destruct mc37_maps as (Hx & Hy & Hz).
  refine (cut_edges_match_case_index mc37
            (with_i 0 (with_j 0 (with_k 0 (compute_intersection_points (of_Z 0) mc37))))
            (of_Z 0) (-1) 0 _ Hx Hy Hz mc37_data_valid eq_refl eq_refl (at_cell_grid 0 0 0 _) _ _ _
            0 0 1 Hin);
    first [ vm_compute; discriminate | vm_compute; split; [discriminate | reflexivity] ].
Defined.

Lemma lut37_rows_cut : classic_rows_cut lut37.
Proof.
  intros entry u He Hu. destruct (Z.eq_dec entry 37) as [-> | Hne].
  - change (classic_count (casesClassic lut37 37)) with 3 in Hu.
    assert (D : In u [0; 1; 2; 3; 4; 5; 6; 7; 8]) by (cbn; lia).
    cbn [In] in D.
    destruct D as [<- | [<- | [<- | [<- | [<- | [<- | [<- | [<- | [<- | []]]]]]]]]];
      [ exists 1, 5 | exists 5, 6 | exists 4, 5 | exists 0, 1 | exists 0, 4
      | exists 0, 3 | exists 1, 2 | exists 3, 2 | exists 2, 6 ];
      (split; [vm_compute; tauto | vm_compute; discriminate]).
  - exfalso. unfold lut37, casesClassic, only in Hu.
    destruct (Z.eqb_spec entry 37) as [E | _]; [contradiction |].
    vm_compute in Hu. destruct Hu as [A B]. destruct u; try discriminate B; apply A; reflexivity.
Qed.

Lemma classic37_facts :
  let s := set_method true mc37 in
  _x_verts s = replicate (Z.to_nat (_size_x s * _size_y s * _size_z s)) (-1) /\
  _y_verts s = replicate (Z.to_nat (_size_x s * _size_y s * _size_z s)) (-1) /\
  _z_verts s = replicate (Z.to_nat (_size_x s * _size_y s * _size_z s)) (-1) /\
  Forall (fun v => is_finite v = true /\ valid_binary prec emax v = true) (_data s).
Proof.
  cbv zeta. do 3 (split; [vm_compute; reflexivity |]). vm_compute. repeat constructor.
Qed.

Lemma classic_run_triangles_index_vertices_witness :
  let s := set_method true mc37 in
  classic_rows_cut lut37 /\ _originalMC s = true /\ mesh_wf s /\
  _ntrigs (run lut37 (of_Z 0) s) = _ntrigs s + 3 /\
  stdout (run lut37 (of_Z 0) s) = stdout s /\
  triangle_ids_in (_nverts s) (_nverts (run lut37 (of_Z 0) s))
    (at_index (_triangles (run lut37 (of_Z 0) s)) 0 zero_triangle).
Proof.
  cbv zeta.
  destruct classic37_facts as (Hx & Hy & Hz & Hd).
  assert (N : _ntrigs (run lut37 (of_Z 0) (set_method true mc37))
              = _ntrigs (set_method true mc37) + 3) by (vm_compute; reflexivity).
  assert (N0 : _ntrigs (set_method true mc37) = 0) by (vm_compute; reflexivity).
  assert (Hm : _originalMC (set_method true mc37) = true) by reflexivity.
  pose proof (set_method_wf true mc37 mc37_wf) as W.
  split; [exact lut37_rows_cut |]. split; [exact Hm |]. split; [exact W |].
  split; [exact N |].
  destruct (classic_run_triangles_index_vertices lut37 (set_method true mc37) (of_Z 0)
              lut37_rows_cut Hm W Hx Hy Hz Hd eq_refl eq_refl)
    as (_ & So & _ & Tr).
  split; [exact So |]. apply Tr. rewrite N, N0. lia.
Defined.

(** ** The revised claims, at concrete grids *)


(** C6, refuted as stated.  (1) A pass over maps that an earlier pass has
    filled leaves the earlier ids in place: after a pass at isovalue 0 and a
    pass at isovalue 100 over [mc37], the x-entry at the origin still holds
    vertex 0, yet at isovalue 100 both ends of the edge are negative.
    (2) With a sample that is not a number at the origin of [mc37] and maps
    filled with [-1], the pass puts a vertex on the x-edge from the origin
    although the end values do not have opposite signs. *)
Lemma sentinel_consistency_counterexample :
  let s := compute_intersection_points (of_Z 0) mc37 in
  let s' := compute_intersection_points (of_Z 100) s in
  let f := fun i j k => perturb (get_data s i j k - of_Z 100)%real in
  let n := set_data S754_nan 0 0 0 mc37 in
  let n' := compute_intersection_points (of_Z 0) n in
  let g := fun i j k => perturb (get_data n i j k - of_Z 0)%real in
  (in_grid (_size_x s) (_size_y s) (_size_z s) 0 0 0 /\ 0 < _size_x s - 1 /\
   get_x_vert s' 0 0 0 = 0 /\
   opposite_signs (f 0 0 0) (f 1 0 0) = false /\
   ~ (get_x_vert s' 0 0 0 <> -1 <-> opposite_signs (f 0 0 0) (f 1 0 0) = true)) /\
  (in_grid (_size_x n) (_size_y n) (_size_z n) 0 0 0 /\ 0 < _size_x n - 1 /\
   _x_verts n = replicate (Z.to_nat (_size_x n * _size_y n * _size_z n)) (-1) /\
   get_x_vert n' 0 0 0 = 0 /\
   opposite_signs (g 0 0 0) (g 1 0 0) = false /\
   ~ (get_x_vert n' 0 0 0 <> -1 <-> opposite_signs (g 0 0 0) (g 1 0 0) = true)).
Proof.
  cbv zeta. split.
  - split; [vm_compute; repeat split; discriminate |].
    split; [vm_compute; reflexivity |].
    do 2 (split; [vm_compute; reflexivity |]).
    intros [H _].
    assert (E : get_x_vert (compute_intersection_points (of_Z 100)
                  (compute_intersection_points (of_Z 0) mc37)) 0 0 0 <> -1)
      by (vm_compute; discriminate).
    specialize (H E). vm_compute in H. discriminate H.
  - split; [vm_compute; repeat split; discriminate |].
    split; [vm_compute; reflexivity |].
    do 3 (split; [vm_compute; reflexivity |]).
    intros [H _].
    assert (E : get_x_vert (compute_intersection_points (of_Z 0)
                  (set_data S754_nan 0 0 0 mc37)) 0 0 0 <> -1)
      by (vm_compute; discriminate).
    specialize (H E). vm_compute in H. discriminate H.
Qed.

Lemma sentinel_consistency_witness :
  let s := mc37 in
  let s' := compute_intersection_points (of_Z 0) s in
  let f := fun i j k => perturb (get_data s i j k - of_Z 0)%real in
  let vert := fun e => at_index (_vertices s') e zero_vertex in
  mesh_wf s /\
  _x_verts s = replicate (Z.to_nat (_size_x s * _size_y s * _size_z s)) (-1) /\
  Forall (fun v => is_finite v = true /\ valid_binary prec emax v = true) (_data s) /\
  in_grid (_size_x s) (_size_y s) (_size_z s) 0 0 0 /\
  (if 0 <? _size_x s - 1
   then (get_x_vert s' 0 0 0 <> -1 <-> opposite_signs (f 0 0 0) (f (0+1) 0 0) = true) /\
        (get_x_vert s' 0 0 0 <> -1 ->
         _nverts s <= get_x_vert s' 0 0 0 < _nverts s' /\
         x (vert (get_x_vert s' 0 0 0))
           = (r_of_Z 0 + f 0 0 0 / (f 0 0 0 - f (0+1)%Z 0 0))%real /\
         y (vert (get_x_vert s' 0 0 0)) = r_of_Z 0 /\
         z (vert (get_x_vert s' 0 0 0)) = r_of_Z 0)
   else get_x_vert s' 0 0 0 = -1).
Proof.
  destruct mc37_maps as (Hx & Hy & Hz).
  assert (G : in_grid (_size_x mc37) (_size_y mc37) (_size_z mc37) 0 0 0)
    by (vm_compute; repeat split; discriminate).
  cbv zeta.
  split; [exact mc37_wf |]. split; [exact Hx |]. split; [exact mc37_data_valid |].
  split; [exact G |].
  exact (proj1 (sentinel_consistency mc37 (of_Z 0) 0 0 0 mc37_wf Hx Hy Hz mc37_data_valid
                  eq_refl eq_refl G)).
Defined.

Lemma run_appends_to_mesh_witness :
  let s1 := run lut37 (of_Z 0) mc37 in
  let s2 := run lut37 (of_Z 0) s1 in
  mesh_wf mc37 /\
  in_grid (_size_x mc37) (_size_y mc37) (_size_z mc37) 0 0 0 /\
  0 < crossings (of_Z 0) mc37 0 0 0 /\
  crossed_edges (of_Z 0) mc37 = 9 /\
  nverts mc37 <= nverts s1 /\
  (exists vs, vertices s1 = vertices mc37 ++ vs) /\
  (exists vs, vertices s2 = vertices s1 ++ vs) /\
  nverts mc37 < nverts s1 /\ nverts s1 < nverts s2 /\ vertices s2 <> vertices s1.
Proof.
  cbv zeta.
  assert (G : in_grid (_size_x mc37) (_size_y mc37) (_size_z mc37) 0 0 0)
    by (vm_compute; repeat split; discriminate).
  assert (C : 0 < crossings (of_Z 0) mc37 0 0 0) by (vm_compute; reflexivity).
  split; [exact mc37_wf |]. split; [exact G |]. split; [exact C |].
  split; [vm_compute; reflexivity |].
  destruct (run_appends_to_mesh lut37 (of_Z 0) mc37 mc37_wf)
    as ((_ & N1 & _ & V1 & _) & (_ & _ & _ & V2 & _) & _ & S & _).
  destruct (S 0 0 0 G C) as (A & B & D).
  split; [exact N1 |]. split; [exact V1 |]. split; [exact V2 |].
  split; [exact A |]. split; [exact B | exact D].
Defined.

End Cell37.
